(** * Swarm overlay: the Kademlia routing table and the memory store

    A shallow embedding of
    - [swarm/network/kademlia/kademlia.go]: the table of active nodes with its
      proximity limit, [On], [Off], [setProxLimit] and [FindClosest];
    - the [bzz] memory storage layer: the hash-prefix tree with its embedded
      access min-tree, [add], [find], [remove_oldest], [Put] and [Get].

    Go's [int] is modelled by [Z]: every counter of the table stays, in absolute
    value, below the number of operations performed on it, so the 64-bit
    wrap-around is never reached and is not written out.  A run-time panic
    (index out of range, nil dereference, [panic(nil)]) is the outcome [Panic];
    loops are unrolled with a fuel argument and report [OutOfFuel] when it does
    not suffice. *)

From stdpp Require Import base option list gmap strings numbers sorting.
From Stdlib Require Import ZArith NArith Lia.

Local Open Scope Z_scope.

(** ** Outcomes of a call *)

Inductive res (A : Type) : Type :=
  | Ok (a : A)
  | Panic
  | OutOfFuel.
Arguments Ok {A} a.
Arguments Panic {A}.
Arguments OutOfFuel {A}.

Definition res_bind {A B} (f : A → res B) (x : res A) : res B :=
  match x with
  | Ok a => f a
  | Panic => Panic
  | OutOfFuel => OutOfFuel
  end.

#[global] Instance res_mret : MRet res := @Ok.
#[global] Instance res_mbind : MBind res := @res_bind.

(** [l[i]] for a Go [int] index: out of range panics. *)
Definition index_at {A} (l : list A) (i : Z) : res A :=
  if i <? 0 then Panic
  else match l !! Z.to_nat i with
       | Some x => Ok x
       | None => Panic
       end.

(** [l[i] = x] on a slice already known to hold index [i]. *)
Definition store_at {A} (l : list A) (i : Z) (x : A) : list A :=
  <[Z.to_nat i := x]> l.

(** [len(l)] *)
Definition len {A} (l : list A) : Z := Z.of_nat (length l).

Module Kademlia.

(** ** Address algebra *)

(** An address is a sequence of bytes, each a number below 256. *)
Definition Address := list N.

(** The position, counted from the most significant of the eight bits of a
    byte, of the first bit set at or after position [j]. *)
Fixpoint first_bit (fuel : nat) (oxo : N) (j : Z) : option Z :=
  match fuel with
  | O => None
  | S fuel' =>
      if N.testbit oxo (Z.to_N (7 - j)) then Some j
      else first_bit fuel' oxo (j + 1)
  end.

(** Modelled from the spec: [proximity] of the address algebra, whose file is
    not part of the sources.  It is the number of leading bits on which the two
    addresses agree (the leading zero bits of their XOR, most significant bit
    of each byte first), and eight times the length when they agree
    everywhere. *)
Fixpoint proximity (one other : Address) : Z :=
  match one, other with
  | a :: one', b :: other' =>
      match first_bit 8 (N.lxor a b) 0 with
      | Some j => j
      | None => 8 + proximity one' other'
      end
  | _, _ => 0
  end.

(** Modelled from the spec: the XOR distance of an address to the target, as a
    big-endian byte string. *)
Definition distance (target a : Address) : list N := zip_with N.lxor a target.

(** Byte-wise comparison from the most significant byte, with sign result. *)
Fixpoint cmp_bytes (x y : list N) : Z :=
  match x, y with
  | [], [] => 0
  | [], _ :: _ => -1
  | _ :: _, [] => 1
  | da :: x', db :: y' =>
      if (db <? da)%N then 1
      else if (da <? db)%N then -1
      else cmp_bytes x' y'
  end.

(** Modelled from the spec: [ProxCmp] of the address algebra, the sign of
    [distance(target, a) - distance(target, b)] under the XOR metric, compared
    byte by byte from the most significant one. *)
Definition ProxCmp (target a b : Address) : Z :=
  cmp_bytes (distance target a) (distance target b).

(** ** Data *)

Record KadParams := mkKadParams {
  MaxProx : Z;
  ProxBinSize : Z;
  BucketSize : Z;
}.

(** The [Node] interface, reduced to what the table reads: [Addr()] and
    [Url()]. *)
Record Node := mkNode {
  Addr : Address;
  Url : string;
}.

#[global] Instance Node_eq_dec : EqDecision Node.
Proof. solve_decision. Defined.

Inductive error :=
  | CallbackError (msg : string)
  | UnableToAdd (a : Address) (cause : error)
  | BucketFull
  | InsufficientNodes (n : Z) (index : Z).

(** Modelled from the spec: the node record of the record database (its file is
    not part of the sources): address, URL, the optional live peer and the
    connected flag. *)
Record NodeRecord := mkNodeRecord {
  rec_Addr : Address;
  rec_Url : string;
  rec_node : option Node;
  rec_connected : bool;
}.

(** Modelled from the spec: the record database, a per-bin sequence of records
    and a global index from address to record.  A record is shared between its
    bin and the index; the bins therefore hold the records' keys and the index
    holds the records. *)
Record KadDb := mkKadDb {
  Nodes : list (list Address);
  index : gmap Address NodeRecord;
}.

Record bucket := mkBucket {
  size : Z;
  nodes : list Node;
}.

Record Kademlia := mkKademlia {
  addr : Address;
  params : KadParams;
  proxLimit : Z;
  proxSize : Z;
  count : Z;
  buckets : list bucket;
  db : KadDb;
}.

Definition on_callback := NodeRecord → Node → NodeRecord * option error.
Definition off_callback := NodeRecord → option Node → NodeRecord.

(** ** The record database *)

(** Modelled from the spec: [newKadDb] gives one empty bin per proximity order
    and an empty index. *)
Definition newKadDb (a : Address) (p : KadParams) : res KadDb :=
  if MaxProx p + 1 <? 0 then Panic
  else Ok (mkKadDb (replicate (Z.to_nat (MaxProx p + 1)) []) ∅).

(** Modelled from the spec: [findOrCreate(bin, addr, url)] returns the existing
    record or a freshly appended one; the URL is refreshed in both cases. *)
Definition findOrCreate (d : KadDb) (i : Z) (a : Address) (url : string)
  : res (KadDb * NodeRecord) :=
  match index d !! a with
  | Some r =>
      let r' := mkNodeRecord (rec_Addr r) url (rec_node r) (rec_connected r) in
      Ok (mkKadDb (Nodes d) (<[a := r']> (index d)), r')
  | None =>
      let r := mkNodeRecord a url None false in
      bin ← index_at (Nodes d) i;
      Ok (mkKadDb (store_at (Nodes d) i (bin ++ [a])) (<[a := r]> (index d)), r)
  end.

(** A write through the record pointer held under key [a]. *)
Definition set_record (d : KadDb) (a : Address) (r : NodeRecord) : KadDb :=
  mkKadDb (Nodes d) (<[a := r]> (index d)).

(** ** The table *)

Definition New (a : Address) (p : KadParams) : res Kademlia :=
  if MaxProx p + 1 <? 0 then Panic
  else
    let bs := replicate (Z.to_nat (MaxProx p + 1)) (mkBucket (BucketSize p) []) in
    (* ! temporary hack fixme: *)
    let p' := mkKadParams (MaxProx p) 4 (BucketSize p) in
    d ← newKadDb a p';
    Ok (mkKademlia a p' 0 0 0 bs d).

Definition proximityBin (self : Kademlia) (other : Address) : Z :=
  let ret := proximity (addr self) other in
  if MaxProx (params self) <? ret then MaxProx (params self) else ret.

(** [bucket.insert]: the replaced node is always nil. *)
Definition insert (self : bucket) (node : Node)
  : bucket * option Node * option error :=
  if size self <=? len (nodes self) then (self, None, Some BucketFull)
  else (mkBucket (size self) (nodes self ++ [node]), None, None).

Definition with_prox (self : Kademlia) (limit sz : Z) : Kademlia :=
  mkKademlia (addr self) (params self) limit sz (count self) (buckets self) (db self).

(** The expansion loop of [setProxLimit] (the [off] branch). *)
Fixpoint expand (fuel : nat) (self : Kademlia) (r : Z) : res Kademlia :=
  if ((proxSize self <? ProxBinSize (params self)) || (r <? proxLimit self))
     && (0 <? proxLimit self)
  then match fuel with
       | O => OutOfFuel
       | S fuel' =>
           let limit := proxLimit self - 1 in
           b ← index_at (buckets self) limit;
           expand fuel' (with_prox self limit (proxSize self + len (nodes b))) r
       end
  else Ok self.

(** The contraction loop of [setProxLimit]. *)
Fixpoint contract (fuel : nat) (self : Kademlia) : res Kademlia :=
  if proxLimit self <? MaxProx (params self) then
    b ← index_at (buckets self) (proxLimit self);
    if (0 <? len (nodes b))
       && (ProxBinSize (params self) <=? proxSize self - len (nodes b))
    then match fuel with
         | O => OutOfFuel
         | S fuel' =>
             contract fuel'
               (with_prox self (proxLimit self + 1) (proxSize self - len (nodes b)))
         end
    else Ok self
  else Ok self.

Definition setProxLimit (self : Kademlia) (r : Z) (off : bool) : res Kademlia :=
  skip ← (if r <? proxLimit self
          then b ← index_at (buckets self) r; Ok (0 <? len (nodes b))
          else Ok false);
  if skip : bool then Ok self
  else if off then
    let self := with_prox self (proxLimit self) (proxSize self - 1) in
    expand (Z.to_nat (proxLimit self)) self r
  else
    let self := with_prox self (proxLimit self) (proxSize self + 1) in
    contract (Z.to_nat (MaxProx (params self) - proxLimit self)) self.

Definition with_db (self : Kademlia) (d : KadDb) : Kademlia :=
  mkKademlia (addr self) (params self) (proxLimit self) (proxSize self)
    (count self) (buckets self) d.

Definition with_buckets (self : Kademlia) (bs : list bucket) : Kademlia :=
  mkKademlia (addr self) (params self) (proxLimit self) (proxSize self)
    (count self) bs (db self).

Definition with_count (self : Kademlia) (c : Z) : Kademlia :=
  mkKademlia (addr self) (params self) (proxLimit self) (proxSize self)
    c (buckets self) (db self).

Definition On (self : Kademlia) (node : Node) (cb : option on_callback)
  : res (Kademlia * option error) :=
  let i := proximityBin self (Addr node) in
  '(d, record) ← findOrCreate (db self) i (Addr node) (Url node);
  let record :=
    mkNodeRecord (rec_Addr record) (rec_Url record) (Some node) (rec_connected record) in
  let '(record, err) :=
    match cb with
    | Some f => f record node
    | None => (record, None)
    end in
  match err with
  | Some e =>
      Ok (with_db self (set_record d (Addr node) record),
          Some (UnableToAdd (Addr node) e))
  | None =>
      let record :=
        mkNodeRecord (rec_Addr record) (rec_Url record) (rec_node record) true in
      let self := with_db self (set_record d (Addr node) record) in
      b ← index_at (buckets self) i;
      match insert b node with
      | (b', _, Some e) => Ok (with_buckets self (store_at (buckets self) i b'), Some e)
      | (b', Some _, None) => Ok (with_buckets self (store_at (buckets self) i b'), None)
      | (b', None, None) =>
          let self := with_buckets self (store_at (buckets self) i b') in
          let self := with_count self (count self + 1) in
          self ← setProxLimit self i false;
          Ok (self, None)
      end
  end.

(** The removal loop of [Off]: the index advances after a removal too. *)
Fixpoint Off_scan (fuel : nat) (a : Address) (ns : list Node) (i : nat) (found : bool)
  : res (bool * list Node) :=
  match ns !! i with
  | None => Ok (found, ns)
  | Some n =>
      match fuel with
      | O => OutOfFuel
      | S fuel' =>
          if decide (a = Addr n)
          then Off_scan fuel' a (delete i ns) (S i) true
          else Off_scan fuel' a ns (S i) found
      end
  end.

Definition Off (self : Kademlia) (node : Node) (cb : option off_callback)
  : res (Kademlia * option error) :=
  let i := proximityBin self (Addr node) in
  b ← index_at (buckets self) i;
  '(found, ns) ← Off_scan (length (nodes b)) (Addr node) (nodes b) 0 false;
  if found : bool then
    let b := mkBucket (size b) ns in
    let self := with_buckets self (store_at (buckets self) i b) in
    let self := with_count self (count self - 1) in
    let err :=
      if len ns <? size b then Some (InsufficientNodes (len ns) i) else None in
    self ← setProxLimit self i true;
    match index (db self) !! Addr node with
    | None => Panic
    | Some r =>
        let r := match cb with
                 | Some f => f r (rec_node r)
                 | None => r
                 end in
        let r := mkNodeRecord (rec_Addr r) (rec_Url r) None false in
        Ok (with_db self (set_record (db self) (Addr node) r), err)
    end
  else Ok (self, None).

(** ** Closest-node lookup *)

(** Go's [sort.Search(n, f)]: binary search for the least index in [0, n) at
    which [f] holds, [n] when there is none. *)
Fixpoint Search_loop (fuel : nat) (f : Z → res bool) (i j : Z) : res Z :=
  if i <? j then
    match fuel with
    | O => OutOfFuel
    | S fuel' =>
        let h := (i + j) / 2 in
        fh ← f h;
        if fh : bool then Search_loop fuel' f i h
        else Search_loop fuel' f (h + 1) j
    end
  else Ok i.

Definition Search (n : Z) (f : Z → res bool) : res Z :=
  Search_loop (Z.to_nat n) f 0 n.

(** [nodesByDistance.push]: [h] is the list, [target] its reference point. *)
Definition push (target : Address) (h : list Node) (node : Node) (max : Z)
  : res (list Node) :=
  ix ← Search (len h) (λ i,
          n ← index_at h i;
          Ok (0 <=? ProxCmp target (Addr n) (Addr node)));
  let h := if len h <? max then h ++ [node] else h in
  if ix <? len h then
    (* copy(h[ix+1:], h[ix:]); h[ix] = node *)
    Ok (take (Z.to_nat ix) h
        ++ node :: take (length h - Z.to_nat ix - 1) (drop (Z.to_nat ix) h))
  else Ok h.

(** The inner loop of [FindClosest]: every node of one bucket is pushed. *)
Fixpoint push_all (target : Address) (h : list Node) (b : list Node) (limit : Z)
  : res (list Node) :=
  match b with
  | [] => Ok h
  | n :: b' => h' ← push target h n limit; push_all target h' b' limit
  end.

(** The outer loop of [FindClosest]. *)
Fixpoint FindClosest_loop (fuel : nat) (self : Kademlia) (target : Address)
    (max limit i : Z) (start : Z) (down : bool) (n : Z) (r : list Node)
  : res (list Node) :=
  match fuel with
  | O => OutOfFuel
  | S fuel' =>
      b ← index_at (buckets self) start;
      r ← push_all target r (nodes b) limit;
      let n := n + len (nodes b) in
      if ((max =? 0) && (start <=? i) && ((0 <? n) || (start =? 0)))
         || ((0 <? max) && down && (start <=? i)
             && ((limit <=? n) || (n =? count self) || (start =? 0)))
      then Ok r
      else if down then
        FindClosest_loop fuel' self target max limit i (start - 1) down n r
      else if start =? MaxProx (params self) then
        if i =? 0 then Ok r
        else FindClosest_loop fuel' self target max limit i (i - 1) true n r
      else FindClosest_loop fuel' self target max limit i (start + 1) down n r
  end.

Definition FindClosest (self : Kademlia) (target : Address) (max : Z)
  : res (list Node) :=
  let i := proximityBin self target in
  let '(i, start, down) :=
    if proxLimit self <=? i then (proxLimit self, MaxProx (params self), true)
    else (i, i, false) in
  let limit := if max =? 0 then 1000 else max in
  FindClosest_loop (2 * length (buckets self) + 2) self target max limit i start down 0 [].

(** [sortedByDistanceTo]. *)
Fixpoint sortedByDistanceTo_from (target last : Address) (slice : list Node) : bool :=
  match slice with
  | [] => true
  | node :: slice' =>
      if ProxCmp target (Addr node) last <? 0 then false
      else sortedByDistanceTo_from target (Addr node) slice'
  end.

Definition sortedByDistanceTo (target : Address) (slice : list Node) : bool :=
  match slice with
  | [] => true
  | node :: slice' => sortedByDistanceTo_from target (Addr node) slice'
  end.

(** ** Runs of [On] and [Off] *)

Inductive op :=
  | OpOn (node : Node) (cb : option on_callback)
  | OpOff (node : Node) (cb : option off_callback).

Definition step (self : Kademlia) (o : op) : res (Kademlia * option error) :=
  match o with
  | OpOn node cb => On self node cb
  | OpOff node cb => Off self node cb
  end.

Fixpoint run (self : Kademlia) (ops : list op) : res Kademlia :=
  match ops with
  | [] => Ok self
  | o :: ops' => '(self', _) ← step self o; run self' ops'
  end.

(** The number of nodes held by the buckets, and by those from [limit] on. *)
Definition population (bs : list bucket) : Z :=
  foldr (λ b acc, len (nodes b) + acc) 0 bs.

Definition proxPopulation (self : Kademlia) : Z :=
  population (drop (Z.to_nat (proxLimit self)) (buckets self)).

(** The address is that of a node held by some bucket. *)
Definition live (self : Kademlia) (a : Address) : bool :=
  bool_decide (Exists (λ b, a ∈ Addr <$> nodes b) (buckets self)).

(** [On]'s precondition, "to be called once": along the run, [On] is never
    called for the address of a node that is in the table. *)
Fixpoint called_once (self : Kademlia) (ops : list op) : bool :=
  match ops with
  | [] => true
  | o :: ops' =>
      match o with
      | OpOn node _ => negb (live self (Addr node))
      | OpOff _ _ => true
      end
      && match step self o with
         | Ok (self', _) => called_once self' ops'
         | _ => true
         end
  end.

(** ** Concrete tables used in the examples *)

Definition base : Address := [0; 0]%N.
Definition defaults : KadParams := mkKadParams 8 4 3.
Definition peer (a b : N) : Node := mkNode [a; b] "".

(** ** Accessors *)

(** [Count]: the accessor of the number of active nodes. *)
Definition Count (self : Kademlia) : Z := count self.

(** [binsize(p)]: the number of nodes in bin [p]. *)
Definition binsize (self : Kademlia) (p : Z) : res Z :=
  b ← index_at (buckets self) p;
  Ok (len (nodes b)).

End Kademlia.


(** * The memory store *)

Module MemStore.

Definition maxEntries : Z := 500. (* max number of stored (cached) blocks *)
Definition memTreeLW : Z := 2.    (* log2(subtree count) of the subtrees *)
Definition memTreeFLW : Z := 14.  (* log2(subtree count) of the root layer *)

(** Go's [uint] and [uint64] (both 64 bits wide here) and [byte]. *)
Definition uint (z : Z) : Z := z mod 2 ^ 64.
Definition byte (z : Z) : Z := z mod 2 ^ 8.

(** A key is a byte slice. *)
Definition Key := list Z.

(** Modelled from the spec: a chunk, whose declaration is not part of the
    sources, is an address and its payload bytes. *)
Record Chunk := mkChunk {
  Chunk_Key : Key;
  Data : list Z;
}.

#[global] Instance Chunk_eq_dec : EqDecision Chunk.
Proof. solve_decision. Defined.

Definition Size (x : Key) : Z := uint (Z.of_nat (length x)).

Definition isEqual (x y : Key) : bool := bool_decide (x = y).

(** The loop of [bits]. *)
Fixpoint bits_loop (fuel : nat) (h : Key) (ii jj j r : Z) : res Z :=
  if j =? 0 then Ok r
  else match fuel with
       | O => OutOfFuel
       | S fuel' =>
           let ii := uint (ii + 1) in
           b ← index_at h ii;
           if j <? 8 then
             Ok (uint (r + uint (Z.shiftl (Z.land b (byte (byte (Z.shiftl 1 j) - 1))) jj)))
           else
             bits_loop fuel' h ii (uint (jj + 8)) (uint (j - 8))
               (uint (r + uint (Z.shiftl b jj)))
       end.

Definition bits (h : Key) (i j : Z) : res Z :=
  let ii := Z.shiftr i 3 in
  let jj := Z.land i 7 in
  if Size h <=? ii then Ok 0
  else if uint (jj + j) <=? 8 then
    b ← index_at h ii;
    Ok (Z.land (Z.shiftr b jj) (byte (byte (Z.shiftl 1 j) - 1)))
  else
    b ← index_at h ii;
    let r := Z.shiftr b jj in
    let jj := uint (8 - jj) in
    let j := uint (j - jj) in
    bits_loop (Z.to_nat (j / 8) + 1) h ii jj j r.

(** A node of the hash-prefix tree.  Pointers to nodes are indices into the
    store's [heap]; [None] is nil. *)
Record dpaMemTree := mkTree {
  subtree : list (option nat);
  parent : option nat;
  parent_idx : Z;
  bits_ : Z;   (* the field [bits]: log2(subtree count) *)
  width : Z;   (* subtree count *)
  entry : option Chunk; (* if subtrees are present, entry should be nil *)
  access : list Z;
}.

Record dpaMemStorage := mkStorage {
  heap : list dpaMemTree; (* the nodes allocated so far *)
  memtree : option nat;
  entry_cnt : Z;  (* stored entries *)
  access_cnt : Z; (* access counter; oldest is thrown away when full *)
}.

(** Dereference of a node pointer. *)
Definition deref (hp : list dpaMemTree) (p : option nat) : res dpaMemTree :=
  match p with
  | None => Panic
  | Some h => match hp !! h with
              | Some n => Ok n
              | None => Panic
              end
  end.

Definition put_node (hp : list dpaMemTree) (h : nat) (n : dpaMemTree) : list dpaMemTree :=
  <[h := n]> hp.

Definition with_access (n : dpaMemTree) (a : list Z) : dpaMemTree :=
  mkTree (subtree n) (parent n) (parent_idx n) (bits_ n) (width n) (entry n) a.

Definition with_entry (n : dpaMemTree) (e : option Chunk) : dpaMemTree :=
  mkTree (subtree n) (parent n) (parent_idx n) (bits_ n) (width n) e (access n).

Definition with_subtree (n : dpaMemTree) (st : list (option nat)) : dpaMemTree :=
  mkTree st (parent n) (parent_idx n) (bits_ n) (width n) (entry n) (access n).

(** [node.access[i] = v] *)
Definition set_access (hp : list dpaMemTree) (h : nat) (i v : Z) : res (list dpaMemTree) :=
  n ← deref hp (Some h);
  _ ← index_at (access n) i;
  Ok (put_node hp h (with_access n (store_at (access n) i v))).

(** [node.entry = e] *)
Definition set_entry (hp : list dpaMemTree) (h : nat) (e : option Chunk)
  : res (list dpaMemTree) :=
  n ← deref hp (Some h);
  Ok (put_node hp h (with_entry n e)).

Definition newTreeNode (hp : list dpaMemTree) (b : Z) (parent : option nat) (pidx : Z)
  : res (list dpaMemTree * nat) :=
  let w := uint (Z.shiftl 1 (uint b)) in
  let node :=
    mkTree (replicate (Z.to_nat w) None) parent pidx b w None
      (replicate (Z.to_nat (w - 1)) 0) in
  let h := length hp in
  let hp := hp ++ [node] in
  match parent with
  | None => Ok (hp, h)
  | Some p =>
      pn ← deref hp (Some p);
      _ ← index_at (subtree pn) pidx;
      Ok (put_node hp p (with_subtree pn (store_at (subtree pn) pidx (Some h))), h)
  end.

(** The loop of [update_access]; [h] is the node the loop stands at. *)
Fixpoint update_access_loop (fuel : nat) (hp : list dpaMemTree) (oa : Z)
    (h : nat) (aidx a : Z) : res (list dpaMemTree) :=
  node ← deref hp (Some h);
  v ← index_at (access node) aidx;
  if v =? oa then
    match fuel with
    | O => OutOfFuel
    | S fuel' =>
        hp ← set_access hp h aidx a;
        if 0 <? aidx then
          node ← deref hp (Some h);
          aa ← index_at (access node) (uint (Z.lxor (aidx - 1) 1 + 1));
          let aidx := Z.shiftr (aidx - 1) 1 in
          let a := if negb (aa =? 0) && (aa <? a) then aa else a in
          update_access_loop fuel' hp oa h aidx a
        else
          let pidx := parent_idx node in
          match parent node with
          | None => Ok hp
          | Some p =>
              pn ← deref hp (Some p);
              nn ← index_at (subtree pn) (Z.lxor pidx 1);
              aa ← match nn with
                   | Some c => cn ← deref hp (Some c); index_at (access cn) 0
                   | None => Ok 0
                   end;
              let aidx := Z.shiftr (uint (width pn + pidx - 2)) 1 in
              let a := if negb (aa =? 0) && (aa <? a) then aa else a in
              update_access_loop fuel' hp oa p aidx a
          end
    end
  else Ok hp.

(** Fuel for a walk from a node to the root through the access trees. *)
Definition walk_fuel (hp : list dpaMemTree) : nat :=
  Z.to_nat (2 ^ memTreeFLW + 4 * len hp).

Definition update_access (hp : list dpaMemTree) (h : nat) (a : Z)
  : res (list dpaMemTree) :=
  node ← deref hp (Some h);
  oa ← index_at (access node) 0;
  update_access_loop (walk_fuel hp) hp oa h 0 a.

(** The first loop of [add]: the descent to the node that takes the entry. *)
Fixpoint add_descend (fuel : nat) (hp : list dpaMemTree) (key : Key)
    (h : nat) (bitpos : Z) : res (list dpaMemTree * nat * Z) :=
  node ← deref hp (Some h);
  match entry node with
  | Some _ => Ok (hp, h, bitpos)
  | None =>
      match fuel with
      | O => OutOfFuel
      | S fuel' =>
          l ← bits key bitpos (bits_ node);
          st ← index_at (subtree node) l;
          match st with
          | None =>
              '(hp, st) ← newTreeNode hp memTreeLW (Some h) l;
              Ok (hp, st, uint (bitpos + bits_ node))
          | Some st => add_descend fuel' hp key st (uint (bitpos + bits_ node))
          end
      end
  end.

(** The second loop of [add]: a leaf with another key is pushed down until
    the two keys part. *)
Fixpoint add_split (fuel : nat) (hp : list dpaMemTree) (key : Key)
    (h : nat) (bitpos : Z) : res (list dpaMemTree * nat) :=
  node ← deref hp (Some h);
  match entry node with
  | None => Ok (hp, h)
  | Some old =>
      match fuel with
      | O => OutOfFuel
      | S fuel' =>
          l ← bits (Chunk_Key old) bitpos (bits_ node);
          st ← index_at (subtree node) l;
          '(hp, st) ← match st with
                      | None => newTreeNode hp memTreeLW (Some h) l
                      | Some st => Ok (hp, st)
                      end;
          hp ← set_entry hp st (Some old);
          hp ← set_entry hp h None;
          node ← deref hp (Some h);
          a0 ← index_at (access node) 0;
          hp ← update_access hp st a0;
          node ← deref hp (Some h);
          l ← bits key bitpos (bits_ node);
          st ← index_at (subtree node) l;
          '(hp, st) ← match st with
                      | None => newTreeNode hp memTreeLW (Some h) l
                      | Some st => Ok (hp, st)
                      end;
          add_split fuel' hp key st (uint (bitpos + bits_ node))
      end
  end.

Definition with_heap (s : dpaMemStorage) (hp : list dpaMemTree) : dpaMemStorage :=
  mkStorage hp (memtree s) (entry_cnt s) (access_cnt s).

Definition add (s : dpaMemStorage) (e : Chunk) : res dpaMemStorage :=
  let cnt := uint (access_cnt s + 1) in
  root ← match memtree s with Some r => Ok r | None => Panic end;
  '(hp, h, bitpos) ← add_descend (length (heap s)) (heap s) (Chunk_Key e) root 0;
  node ← deref hp (Some h);
  match entry node with
  | Some old =>
      if isEqual (Chunk_Key old) (Chunk_Key e) then
        hp ← update_access hp h cnt;
        Ok (mkStorage hp (memtree s) (entry_cnt s) cnt)
      else
        '(hp, h) ← add_split (8 * length (Chunk_Key e) + 8) hp (Chunk_Key e) h bitpos;
        hp ← set_entry hp h (Some e);
        hp ← update_access hp h cnt;
        Ok (mkStorage hp (memtree s) (uint (entry_cnt s + 1)) cnt)
  | None =>
      hp ← set_entry hp h (Some e);
      hp ← update_access hp h cnt;
      Ok (mkStorage hp (memtree s) (uint (entry_cnt s + 1)) cnt)
  end.

(** The descent of [find]: the leaf on the path of the key, if any. *)
Fixpoint find_descend (fuel : nat) (hp : list dpaMemTree) (hash : Key)
    (h : nat) (bitpos : Z) : res (option nat) :=
  node ← deref hp (Some h);
  match entry node with
  | Some _ => Ok (Some h)
  | None =>
      match fuel with
      | O => OutOfFuel
      | S fuel' =>
          l ← bits hash bitpos (bits_ node);
          st ← index_at (subtree node) l;
          match st with
          | None => Ok None
          | Some st => find_descend fuel' hp hash st (uint (bitpos + bits_ node))
          end
      end
  end.

Definition find (s : dpaMemStorage) (hash : Key) : res (dpaMemStorage * option Chunk) :=
  root ← match memtree s with Some r => Ok r | None => Panic end;
  leaf ← find_descend (length (heap s)) (heap s) hash root 0;
  match leaf with
  | None => Ok (s, None)
  | Some h =>
      node ← deref (heap s) (Some h);
      match entry node with
      | None => Panic
      | Some e =>
          if isEqual (Chunk_Key e) hash then
            let cnt := uint (access_cnt s + 1) in
            hp ← update_access (heap s) h cnt;
            Ok (mkStorage hp (memtree s) (entry_cnt s) cnt, Some e)
          else Ok (s, None)
      end
  end.

(** [node.subtree[i].access[0]] when that subtree is not nil. *)
Definition subtree_access (hp : list dpaMemTree) (node : dpaMemTree) (i : Z)
  : res (option Z) :=
  st ← index_at (subtree node) i;
  match st with
  | None => Ok None
  | Some c => cn ← deref hp (Some c); a ← index_at (access cn) 0; Ok (Some a)
  end.

(** The inner loop of the descent of [remove_oldest], through the access
    tree of one node. *)
Fixpoint oldest_slot (fuel : nat) (hp : list dpaMemTree) (h : nat) (av aidx : Z)
  : res (list dpaMemTree * Z) :=
  node ← deref hp (Some h);
  if aidx <? uint (width node / 2 - 1) then
    match fuel with
    | O => OutOfFuel
    | S fuel' =>
        l ← index_at (access node) (uint (aidx * 2 + 1));
        if av =? l then
          r ← index_at (access node) (uint (aidx * 2 + 2));
          hp ← set_access hp h aidx r;
          oldest_slot fuel' hp h av (uint (aidx * 2 + 1))
        else
          r ← index_at (access node) (uint (aidx * 2 + 2));
          if av =? r then
            hp ← set_access hp h aidx l;
            oldest_slot fuel' hp h av (uint (aidx * 2 + 2))
          else Panic
    end
  else Ok (hp, aidx).

(** The descent of [remove_oldest], to the leaf with the oldest access. *)
Fixpoint oldest_leaf (fuel : nat) (hp : list dpaMemTree) (h : nat)
  : res (list dpaMemTree * nat) :=
  node ← deref hp (Some h);
  match entry node with
  | Some _ => Ok (hp, h)
  | None =>
      match fuel with
      | O => OutOfFuel
      | S fuel' =>
          av ← index_at (access node) 0;
          '(hp, aidx) ← oldest_slot (Z.to_nat (bits_ node)) hp h av 0;
          node ← deref hp (Some h);
          let pidx := uint (aidx * 2 + 2 - width node) in
          left ← subtree_access hp node pidx;
          if bool_decide (left = Some av) then
            right ← subtree_access hp node (uint (pidx + 1));
            hp ← set_access hp h aidx (default 0 right);
            node ← deref hp (Some h);
            st ← index_at (subtree node) pidx;
            match st with
            | None => Panic
            | Some c => oldest_leaf fuel' hp c
            end
          else
            right ← subtree_access hp node (uint (pidx + 1));
            if bool_decide (right = Some av) then
              hp ← set_access hp h aidx (default 0 left);
              node ← deref hp (Some h);
              st ← index_at (subtree node) (uint (pidx + 1));
              match st with
              | None => Panic
              | Some c => oldest_leaf fuel' hp c
              end
            else Panic
      end
  end.

(** The walk back to the root that ends [remove_oldest]. *)
Fixpoint restore_access (fuel : nat) (hp : list dpaMemTree) (h : nat) (aidx : Z)
  : res (list dpaMemTree) :=
  match fuel with
  | O => OutOfFuel
  | S fuel' =>
      node ← deref hp (Some h);
      aa ← index_at (access node) aidx;
      up ← (if 0 <? aidx then Ok (Some (h, Z.shiftr (aidx - 1) 1))
            else
              match parent node with
              | None => Ok None
              | Some p =>
                  pn ← deref hp (Some p);
                  Ok (Some (p, Z.shiftr (uint (width pn + parent_idx node - 2)) 1))
              end);
      match up with
      | None => Ok hp
      | Some (h, aidx) =>
          node ← deref hp (Some h);
          v ← index_at (access node) aidx;
          hp ← (if negb (aa =? 0) && ((aa <? v) || (v =? 0))
                then set_access hp h aidx aa
                else Ok hp);
          restore_access fuel' hp h aidx
      end
  end.

Definition remove_oldest (s : dpaMemStorage) : res dpaMemStorage :=
  root ← match memtree s with Some r => Ok r | None => Panic end;
  '(hp, h) ← oldest_leaf (length (heap s)) (heap s) root;
  hp ← set_entry hp h None;
  hp ← set_access hp h 0 0;
  hp ← restore_access (walk_fuel hp) hp h 0;
  Ok (mkStorage hp (memtree s) (uint (entry_cnt s - 1)) (access_cnt s)).

Definition Put (s : dpaMemStorage) (req : Chunk) : res dpaMemStorage :=
  s ← (if maxEntries <=? entry_cnt s then remove_oldest s else Ok s);
  add s req.

(** [Get] drops what [find] returns. *)
Definition Get (s : dpaMemStorage) (req : Chunk) : res dpaMemStorage :=
  '(s, _) ← find s (Chunk_Key req);
  Ok s.

Definition Init (s : dpaMemStorage) : res dpaMemStorage :=
  '(hp, r) ← newTreeNode (heap s) memTreeFLW None 0;
  Ok (mkStorage hp (Some r) (entry_cnt s) (access_cnt s)).

(** The zero value of the store, before [Init]. *)
Definition zero : dpaMemStorage := mkStorage [] None 0 0.

(** ** Runs of [Put] and [Get] *)

Inductive op :=
  | OpPut (c : Chunk)
  | OpGet (c : Chunk).

Definition step (s : dpaMemStorage) (o : op) : res dpaMemStorage :=
  match o with
  | OpPut c => Put s c
  | OpGet c => Get s c
  end.

Fixpoint run (s : dpaMemStorage) (ops : list op) : res dpaMemStorage :=
  match ops with
  | [] => Ok s
  | o :: ops' => s' ← step s o; run s' ops'
  end.

End MemStore.

(** * Facts about outcomes and slices *)

Module ResFacts.

Lemma bind_Ok {A B} (x : res A) (f : A → res B) (b : B) :
  x ≫= f = Ok b → ∃ a, x = Ok a ∧ f a = Ok b.
Proof. destruct x; simpl; intros; try discriminate; eauto. Qed.

Lemma index_at_Ok {A} (l : list A) i x :
  index_at l i = Ok x ↔ 0 ≤ i ∧ l !! Z.to_nat i = Some x.
Proof.
  unfold index_at. destruct (Z.ltb_spec i 0).
  - split; [discriminate | lia].
  - destruct (l !! Z.to_nat i) eqn:E; split; intros; try discriminate.
    + split; [lia | congruence].
    + f_equal. destruct H0; congruence.
    + destruct H0; congruence.
Qed.

Lemma index_at_total {A} (l : list A) i :
  0 ≤ i < len l → ∃ x, index_at l i = Ok x.
Proof.
  unfold len. intros H. destruct (lookup_lt_is_Some_2 l (Z.to_nat i)) as [x Hx]; [lia|].
  exists x. apply index_at_Ok. split; [lia | done].
Qed.

Ltac inv_res :=
  repeat match goal with
  | H : Ok _ = Ok _ |- _ => injection H as H; try subst
  | H : Panic = Ok _ |- _ => discriminate H
  | H : OutOfFuel = Ok _ |- _ => discriminate H
  | H : _ ≫= _ = Ok _ |- _ => apply bind_Ok in H as (? & ? & H)
  end.

Lemma len_app {A} (l k : list A) : len (l ++ k) = len l + len k.
Proof. unfold len. rewrite length_app. lia. Qed.

Lemma len_nonneg {A} (l : list A) : 0 ≤ len l.
Proof. unfold len. lia. Qed.

Lemma len_nil {A} : len (@nil A) = 0.
Proof. done. Qed.

Lemma len_cons {A} (x : A) l : len (x :: l) = 1 + len l.
Proof. unfold len. simpl. lia. Qed.

Lemma len_store {A} (l : list A) i x : len (store_at l i x) = len l.
Proof. unfold len, store_at. by rewrite length_insert. Qed.

End ResFacts.

(** * Facts about the routing table *)

Module KadFacts.
Import Kademlia ResFacts.

(** ** Population of the buckets *)

Lemma population_nonneg bs : 0 ≤ population bs.
Proof. induction bs; simpl; [lia | pose proof (len_nonneg (nodes a)); lia]. Qed.

Lemma population_app bs cs : population (bs ++ cs) = population bs + population cs.
Proof. induction bs; simpl; lia. Qed.

Lemma population_store bs i b b' :
  bs !! i = Some b →
  population (<[i := b']> bs) = population bs - len (nodes b) + len (nodes b').
Proof.
  revert i. induction bs as [|c bs IH]; intros [|i] H; simplify_eq/=; [lia|].
  rewrite (IH _ H). lia.
Qed.

Lemma population_drop bs i b :
  bs !! i = Some b →
  population (drop i bs) = len (nodes b) + population (drop (S i) bs).
Proof. intros H. by rewrite (drop_S _ _ _ H). Qed.

Lemma population_replicate n sz : population (replicate n (mkBucket sz [])) = 0.
Proof. induction n; simpl; [done | rewrite IHn; done]. Qed.

(** ** The frame of [setProxLimit] *)

Definition same_table (k k' : Kademlia) : Prop :=
  addr k' = addr k ∧ params k' = params k ∧ count k' = count k
  ∧ buckets k' = buckets k ∧ db k' = db k.

Lemma same_table_refl k : same_table k k.
Proof. by repeat split. Qed.

Lemma same_table_trans k1 k2 k3 :
  same_table k1 k2 → same_table k2 k3 → same_table k1 k3.
Proof. unfold same_table. intros (?&?&?&?&?) (?&?&?&?&?). repeat split; congruence. Qed.

Lemma expand_spec fuel k r :
  0 ≤ proxLimit k ≤ len (buckets k) →
  (Z.to_nat (proxLimit k) ≤ fuel)%nat →
  ∃ k', expand fuel k r = Ok k' ∧ same_table k k'
        ∧ 0 ≤ proxLimit k' ≤ proxLimit k.
Proof.
  revert k. induction fuel as [|fuel IH]; intros k Hl Hf; simpl.
  - destruct (_ && _) eqn:E.
    + apply andb_prop in E as [_ E]. apply Z.ltb_lt in E. lia.
    + exists k. split; [done|]. split; [apply same_table_refl | lia].
  - destruct (_ && _) eqn:E.
    + apply andb_prop in E as [_ E]. apply Z.ltb_lt in E.
      destruct (index_at_total (buckets k) (proxLimit k - 1)) as [b Hb]; [lia|].
      rewrite Hb. simpl.
      destruct (IH (with_prox k (proxLimit k - 1) (proxSize k + len (nodes b))))
        as (k' & Hk' & Hs & Hp); simpl; [lia | lia |].
      exists k'. split; [done|]. split; [| simpl in Hp; lia].
      destruct Hs as (?&?&?&?&?). by repeat split.
    + exists k. split; [done|]. split; [apply same_table_refl | lia].
Qed.

Lemma contract_spec fuel k :
  0 ≤ proxLimit k → MaxProx (params k) < len (buckets k) →
  (Z.to_nat (MaxProx (params k) - proxLimit k) ≤ fuel)%nat →
  ∃ k', contract fuel k = Ok k' ∧ same_table k k'
        ∧ proxLimit k ≤ proxLimit k' ≤ Z.max (proxLimit k) (MaxProx (params k)).
Proof.
  revert k. induction fuel as [|fuel IH]; intros k H0 Hl Hf; simpl.
  - destruct (Z.ltb_spec (proxLimit k) (MaxProx (params k))); [lia|].
    exists k. split; [done|]. split; [apply same_table_refl | lia].
  - destruct (Z.ltb_spec (proxLimit k) (MaxProx (params k))).
    + destruct (index_at_total (buckets k) (proxLimit k)) as [b Hb]; [lia|].
      rewrite Hb. simpl. destruct (_ && _).
      * destruct (IH (with_prox k (proxLimit k + 1) (proxSize k - len (nodes b))))
          as (k' & Hk' & Hs & Hp); simpl; [lia | lia | lia |].
        exists k'. split; [done|]. split; [| simpl in Hp; lia].
        destruct Hs as (?&?&?&?&?). by repeat split.
      * exists k. split; [done|]. split; [apply same_table_refl | lia].
    + exists k. split; [done|]. split; [apply same_table_refl | lia].
Qed.

Lemma setProxLimit_spec k r off :
  0 ≤ r < len (buckets k) →
  0 ≤ proxLimit k ≤ MaxProx (params k) →
  MaxProx (params k) < len (buckets k) →
  ∃ k', setProxLimit k r off = Ok k' ∧ same_table k k'
        ∧ 0 ≤ proxLimit k' ≤ MaxProx (params k).
Proof.
  intros Hr Hp Hm. unfold setProxLimit.
  destruct (index_at_total (buckets k) r) as [b Hb]; [done|].
  assert (∃ skip, (if r <? proxLimit k
            then b ← index_at (buckets k) r; Ok (0 <? len (nodes b))
            else Ok false) = Ok skip) as [skip ->].
  { destruct (r <? proxLimit k); [rewrite Hb|]; simpl; eauto. }
  simpl. destruct skip.
  - exists k. split; [done|]. split; [apply same_table_refl | done].
  - destruct off.
    + destruct (expand_spec (Z.to_nat (proxLimit k))
                  (with_prox k (proxLimit k) (proxSize k - 1)) r)
        as (k' & Hk' & Hs & Hl); simpl; [lia | lia |].
      exists k'. simpl in *. split; [done|]. split; [|lia].
      destruct Hs as (?&?&?&?&?). by repeat split.
    + destruct (contract_spec (Z.to_nat (MaxProx (params k) - proxLimit k))
                  (with_prox k (proxLimit k) (proxSize k + 1)))
        as (k' & Hk' & Hs & Hl); simpl; [lia | lia | lia |].
      exists k'. simpl in *. split; [done|]. split; [|lia].
      destruct Hs as (?&?&?&?&?). by repeat split.
Qed.

(** ** The removal loop of [Off] *)

Lemma Off_scan_sublist fuel a ns i found :
  (length ns ≤ fuel + i)%nat →
  ∃ found' ns', Off_scan fuel a ns i found = Ok (found', ns') ∧ sublist ns' ns.
Proof.
  revert ns i found. induction fuel as [|fuel IH]; intros ns i found Hf; simpl.
  - rewrite lookup_ge_None_2 by lia. eauto.
  - destruct (ns !! i) as [n|] eqn:E; [|eauto].
    destruct (decide (a = Addr n)).
    + destruct (IH (delete i ns) (S i) true) as (f' & ns' & H1 & H2).
      { pose proof (length_delete ns i (mk_is_Some _ _ E)).
        apply lookup_lt_Some in E. lia. }
      exists f', ns'. split; [done|]. etrans; [done | apply sublist_delete].
    + apply IH. lia.
Qed.

Lemma Off_scan_absent fuel a ns i found :
  (length ns ≤ fuel + i)%nat →
  a ∉ Addr <$> drop i ns →
  Off_scan fuel a ns i found = Ok (found, ns).
Proof.
  revert i. induction fuel as [|fuel IH]; intros i Hf Ha; simpl.
  - by rewrite lookup_ge_None_2 by lia.
  - destruct (ns !! i) as [n|] eqn:E; [|done].
    rewrite (drop_S _ _ _ E) in Ha. rewrite fmap_cons in Ha.
    apply not_elem_of_cons in Ha as [Hn Ha].
    rewrite decide_False by done. apply IH; [lia | done].
Qed.

Lemma drop_S_delete {A} (l : list A) i : drop (S i) (delete i l) = drop (S (S i)) l.
Proof.
  revert i. induction l as [|x l IH]; intros [|i]; simpl; done.
Qed.

Lemma Off_scan_present fuel a ns i found :
  NoDup (Addr <$> ns) →
  (length ns ≤ fuel + i)%nat →
  a ∈ Addr <$> drop i ns →
  ∃ j n, ns !! j = Some n ∧ Addr n = a
         ∧ Off_scan fuel a ns i found = Ok (true, delete j ns).
Proof.
  intros Hnd. revert i found.
  induction fuel as [|fuel IH]; intros i found Hf Ha; simpl.
  - rewrite drop_ge in Ha by lia. by apply elem_of_nil in Ha.
  - destruct (ns !! i) as [n|] eqn:E.
    2:{ rewrite drop_ge in Ha; [by apply elem_of_nil in Ha|].
        by apply lookup_ge_None. }
    destruct (decide (a = Addr n)) as [->|Hne].
    + exists i, n. split; [done|]. split; [done|].
      apply Off_scan_absent.
      * pose proof (length_delete ns i (mk_is_Some _ _ E)) as Hl.
        apply lookup_lt_Some in E. lia.
      * rewrite drop_S_delete.
        rewrite <- (take_drop_middle ns i n E) in Hnd.
        rewrite fmap_app, fmap_cons in Hnd.
        apply NoDup_app in Hnd as (_ & _ & Hnd). apply NoDup_cons in Hnd as [Hn _].
        intros Hin. apply Hn. apply list_elem_of_fmap in Hin as (m & Hm & Hin).
        apply list_elem_of_fmap. exists m. split; [done|].
        apply list_elem_of_lookup in Hin as [q Hq]. rewrite lookup_drop in Hq.
        apply list_elem_of_lookup. exists (1 + q)%nat. rewrite lookup_drop.
        by replace (S i + (1 + q))%nat with (S (S i) + q)%nat by lia.
    + apply IH; [lia|].
      rewrite (drop_S _ _ _ E), fmap_cons in Ha.
      apply elem_of_cons in Ha as [?|?]; [congruence | done].
Qed.

(** ** Well-formed tables *)

Definition wf (k : Kademlia) : Prop :=
  0 ≤ MaxProx (params k)
  ∧ len (buckets k) = MaxProx (params k) + 1
  ∧ 0 ≤ proxLimit k ≤ MaxProx (params k)
  ∧ Forall (λ b, size b = BucketSize (params k)) (buckets k)
  ∧ len (Nodes (db k)) = MaxProx (params k) + 1
  ∧ Forall (λ b, Forall (λ n, is_Some (index (db k) !! Addr n)) (nodes b)) (buckets k).

Lemma first_bit_ge fuel oxo j r : first_bit fuel oxo j = Some r → j ≤ r.
Proof.
  revert j. induction fuel as [|fuel IH]; intros j; simpl; [done|].
  destruct (N.testbit _ _); [intros [= ->]; lia|].
  intros H%IH. lia.
Qed.

Lemma proximity_nonneg a b : 0 ≤ proximity a b.
Proof.
  revert b. induction a as [|x a IH]; intros [|y b]; cbn [proximity]; try lia.
  destruct (first_bit 8 _ 0) eqn:E; [by apply first_bit_ge in E|].
  specialize (IH b). lia.
Qed.

Lemma proximityBin_range k a :
  0 ≤ MaxProx (params k) → 0 ≤ proximityBin k a ≤ MaxProx (params k).
Proof.
  intros H. unfold proximityBin. pose proof (proximity_nonneg (addr k) a).
  destruct (Z.ltb_spec (MaxProx (params k)) (proximity (addr k) a)); lia.
Qed.

Lemma New_wf a p k : New a p = Ok k → 0 ≤ MaxProx p → wf k.
Proof.
  unfold New, newKadDb. simpl. destruct (Z.ltb_spec (MaxProx p + 1) 0); [done|].
  simpl. intros [= <-] Hm. unfold wf, len. simpl.
  rewrite !length_replicate.
  repeat split; try lia.
  - apply Forall_replicate. done.
  - apply Forall_replicate. constructor.
Qed.

Lemma Forall_store {A} (P : A → Prop) l i x :
  Forall P l → P x → Forall P (store_at l i x).
Proof. intros. by apply Forall_insert. Qed.

(** What a call of [On] does to a well-formed table. *)
Lemma On_spec k node cb :
  wf k →
  let i := proximityBin k (Addr node) in
  ∃ k' e, On k node cb = Ok (k', e) ∧ wf k'
    ∧ addr k' = addr k ∧ params k' = params k
    ∧ ((e ≠ None ∧ buckets k' = buckets k ∧ count k' = count k
        ∧ proxLimit k' = proxLimit k ∧ proxSize k' = proxSize k)
       ∨ (e = None ∧ ∃ b, buckets k !! Z.to_nat i = Some b
          ∧ len (nodes b) < size b
          ∧ buckets k' = <[Z.to_nat i := mkBucket (size b) (nodes b ++ [node])]> (buckets k)
          ∧ count k' = count k + 1)).
Proof.
  intros (Hm & Hl & Hp & Hsz & Hn & Hix) i.
  pose proof (proximityBin_range k (Addr node) Hm) as Hi. fold i in Hi.
  unfold On. fold i.
  assert (∃ d record, findOrCreate (db k) i (Addr node) (Url node) = Ok (d, record)
            ∧ len (Nodes d) = len (Nodes (db k))
            ∧ ∀ a, is_Some (index (db k) !! a) → is_Some (index d !! a))
    as (d & record & -> & Hd1 & Hd2).
  { unfold findOrCreate. destruct (index (db k) !! Addr node) eqn:E.
    - eexists _, _. split; [done|]. split; [done|]. simpl. intros a Ha.
      destruct (decide (a = Addr node)) as [->|];
        [rewrite lookup_insert_eq | rewrite lookup_insert_ne]; done.
    - destruct (index_at_total (Nodes (db k)) i) as [bin ->]; [lia|]. simpl.
      eexists _, _. split; [done|]. simpl. split; [by rewrite len_store|]. intros a Ha.
      destruct (decide (a = Addr node)) as [->|];
        [rewrite lookup_insert_eq | rewrite lookup_insert_ne]; done. }
  simpl.
  destruct (match cb with Some f => _ | None => _ end) as [record' err] eqn:Ecb.
  assert (∀ r, Forall (λ b, Forall (λ n, is_Some (<[Addr node := r]> (index d) !! Addr n))
                 (nodes b)) (buckets k)) as Hix'.
  { intros r. eapply Forall_impl; [exact Hix|]. intros b Hb. simpl in Hb.
    eapply Forall_impl; [exact Hb|]. intros n Hnn. simpl in *.
    destruct (decide (Addr n = Addr node)) as [->|];
      [rewrite lookup_insert_eq | rewrite lookup_insert_ne]; auto. }
  destruct err as [e|].
  { eexists _, _. split; [done|]. split.
    - repeat split; simpl; try done; try lia; apply Hix'.
    - split; [done|]. split; [done|]. left. by repeat split. }
  simpl.
  destruct (index_at_total (buckets k) i) as [b Hb]; [lia|]. rewrite Hb. simpl.
  apply index_at_Ok in Hb as [_ Hb].
  pose proof (Forall_lookup_1 _ _ _ _ Hsz Hb) as Hsb. simpl in Hsb.
  unfold insert. destruct (Z.leb_spec (size b) (len (nodes b))) as [Hfull|Hroom].
  { eexists _, _. split; [done|]. split.
    - repeat split; simpl; try done; try lia.
      + by rewrite len_store.
      + by apply Forall_store.
      + apply Forall_store; [apply Hix'|].
        exact (Forall_lookup_1 _ _ _ _ (Hix' _) Hb).
    - split; [done|]. split; [done|]. left. simpl. repeat split; try done.
      unfold store_at. apply list_insert_id. by destruct b. }
  set (k1 := with_count _ _).
  destruct (setProxLimit_spec k1 i false) as (k' & Hk' & Hs & Hp');
    subst k1; simpl; try rewrite len_store; try lia.
  rewrite Hk'. simpl. destruct Hs as (Ha & Hpar & Hc & Hbs & Hdb).
  simpl in Ha, Hpar, Hc, Hbs, Hdb, Hp'.
  eexists _, _. split; [done|]. split.
  - unfold wf. rewrite Hpar, Hbs, Hdb. simpl. rewrite len_store.
    repeat split; try done; try lia.
    + by apply Forall_store.
    + apply Forall_store; [apply Hix'|]. simpl. apply Forall_app. split.
      * exact (Forall_lookup_1 _ _ _ _ (Hix' _) Hb).
      * constructor; [|constructor]. by rewrite lookup_insert_eq.
  - split; [done|]. split; [done|]. right. split; [done|].
    exists b. by repeat split.
Qed.


Lemma Off_scan_found fuel a ns i found ns' :
  Off_scan fuel a ns i found = Ok (true, ns') →
  found = true ∨ a ∈ Addr <$> ns.
Proof.
  revert ns i found. induction fuel as [|fuel IH]; intros ns i found; simpl.
  - destruct (ns !! i); [done|]. intros [= -> _]. by left.
  - destruct (ns !! i) as [n|] eqn:E; [|intros [= -> _]; by left].
    destruct (decide (a = Addr n)) as [->|].
    + intros _. right. apply list_elem_of_fmap. exists n. split; [done|].
      by eapply list_elem_of_lookup_2.
    + apply IH.
Qed.

(** What a call of [Off] does to a well-formed table. *)
Lemma Off_spec k node cb :
  wf k →
  let i := proximityBin k (Addr node) in
  ∃ k' e, Off k node cb = Ok (k', e) ∧ wf k'
    ∧ addr k' = addr k ∧ params k' = params k
    ∧ ∃ b found ns, buckets k !! Z.to_nat i = Some b
        ∧ Off_scan (length (nodes b)) (Addr node) (nodes b) 0 false = Ok (found, ns)
        ∧ if found : bool
          then buckets k' = <[Z.to_nat i := mkBucket (size b) ns]> (buckets k)
               ∧ count k' = count k - 1
          else k' = k ∧ e = None.
Proof.
  intros Hwf i. pose proof Hwf as (Hm & Hl & Hp & Hsz & Hn & Hix).
  pose proof (proximityBin_range k (Addr node) Hm) as Hi. fold i in Hi.
  unfold Off. fold i.
  destruct (index_at_total (buckets k) i) as [b Hb]; [lia|]. rewrite Hb. simpl.
  apply index_at_Ok in Hb as [_ Hb].
  pose proof (Forall_lookup_1 _ _ _ _ Hsz Hb) as Hsb. simpl in Hsb.
  pose proof (Forall_lookup_1 _ _ _ _ Hix Hb) as Hxb. simpl in Hxb.
  destruct (Off_scan_sublist (length (nodes b)) (Addr node) (nodes b) 0 false)
    as (found & ns & Hscan & Hsub); [lia|].
  rewrite Hscan. simpl. destruct found.
  2:{ eexists _, _. split; [done|]. split; [done|]. split; [done|]. split; [done|].
      exists b, false, ns. by repeat split. }
  set (k1 := with_count _ _).
  destruct (setProxLimit_spec k1 i true) as (k' & Hk' & Hs & Hp');
    subst k1; simpl; try rewrite len_store; try lia.
  rewrite Hk'. simpl. destruct Hs as (Ha & Hpar & Hc & Hbs & Hdb).
  simpl in Ha, Hpar, Hc, Hbs, Hdb, Hp'. rewrite Hdb.
  destruct (Off_scan_found _ _ _ _ _ _ Hscan) as [?|Hin]; [done|].
  apply list_elem_of_fmap in Hin as (n & Hn1 & Hn2).
  rewrite Forall_forall in Hxb. destruct (Hxb n Hn2) as [r Hr].
  rewrite <- Hn1 in Hr. rewrite Hr.
  eexists _, _. split; [done|]. split.
  - unfold wf. simpl. rewrite Hpar, Hbs. rewrite len_store.
    repeat split; try done; try lia.
    + by apply Forall_store.
    + assert (∀ r', Forall (λ b, Forall (λ n, is_Some (<[Addr node := r']> (index (db k)) !! Addr n))
                 (nodes b)) (buckets k)) as Hix'.
      { intros r'. eapply Forall_impl; [exact Hix|]. intros b' Hb'. simpl in Hb'.
        eapply Forall_impl; [exact Hb'|]. intros n' Hnn. simpl in *.
        destruct (decide (Addr n' = Addr node)) as [->|];
          [rewrite lookup_insert_eq | rewrite lookup_insert_ne]; auto. }
      apply Forall_store; [apply Hix'|]. simpl.
      pose proof (Forall_lookup_1 _ _ _ _ (Hix' (mkNodeRecord
        (rec_Addr match cb with Some f => f r (rec_node r) | None => r end)
        (rec_Url match cb with Some f => f r (rec_node r) | None => r end)
        None false)) Hb) as Hq. simpl in Hq.
      rewrite Forall_forall in Hq |- *. intros x Hx. apply Hq.
      by apply (sublist_subseteq _ _ Hsub).
  - simpl. split; [done|]. split; [done|].
    exists b, true, ns. by repeat split.
Qed.

(** ** Runs *)

Lemma run_app k ops1 ops2 :
  run k (ops1 ++ ops2) = k' ← run k ops1; run k' ops2.
Proof.
  revert k. induction ops1 as [|o ops1 IH]; intros k; simpl; [done|].
  destruct (step k o) as [[k1 e]| |]; simpl; [apply IH | done | done].
Qed.

Lemma step_wf k o : wf k → ∃ k' e, step k o = Ok (k', e) ∧ wf k' ∧ params k' = params k.
Proof.
  intros Hwf. destruct o as [node cb|node cb]; simpl.
  - destruct (On_spec k node cb Hwf) as (k' & e & H & Hw & _ & Hp & _). eauto.
  - destruct (Off_spec k node cb Hwf) as (k' & e & H & Hw & _ & Hp & _). eauto.
Qed.

Lemma run_wf k ops : wf k → ∃ k', run k ops = Ok k' ∧ wf k' ∧ params k' = params k.
Proof.
  revert k. induction ops as [|o ops IH]; intros k Hwf; simpl; [eauto|].
  destruct (step_wf k o Hwf) as (k1 & e & -> & Hw1 & Hp1). simpl.
  destruct (IH k1 Hw1) as (k' & Hr & Hw' & Hp'). exists k'. split; [done|].
  split; [done | congruence].
Qed.

(** ** Tables built under [On]'s precondition *)

Definition tidy (k : Kademlia) : Prop :=
  count k = population (buckets k)
  ∧ Forall (λ b, NoDup (Addr <$> nodes b)) (buckets k).

Lemma live_false k a i b :
  live k a = false → buckets k !! i = Some b → a ∉ Addr <$> nodes b.
Proof.
  unfold live. intros H%bool_decide_eq_false Hb Ha. apply H.
  apply Exists_exists. exists b. split; [by eapply list_elem_of_lookup_2 | done].
Qed.

Lemma On_tidy k node cb k' e :
  wf k → tidy k → live k (Addr node) = false →
  On k node cb = Ok (k', e) → tidy k'.
Proof.
  intros Hwf [Hc Hnd] Hlive Hon.
  destruct (On_spec k node cb Hwf) as (k1 & e1 & Hon1 & _ & _ & _ & Hcase).
  rewrite Hon in Hon1. injection Hon1 as <- <-.
  destruct Hcase as [(_ & Hb & Hcnt & _)|(_ & b & Hb & _ & Hbs & Hcnt)].
  - split; [congruence | by rewrite Hb].
  - split.
    + rewrite Hcnt, Hbs, (population_store _ _ _ _ Hb). simpl.
      rewrite len_app. unfold len at 3. simpl. lia.
    + rewrite Hbs. apply Forall_insert; [done|]. simpl.
      rewrite fmap_app. apply NoDup_app. split; [|split].
      * exact (Forall_lookup_1 _ _ _ _ Hnd Hb).
      * intros a Ha Ha'. apply list_elem_of_singleton in Ha'. subst a.
        by eapply live_false.
      * apply NoDup_singleton.
Qed.

Lemma Off_tidy k node cb k' e :
  wf k → tidy k → Off k node cb = Ok (k', e) → tidy k'.
Proof.
  intros Hwf [Hc Hnd] Hoff.
  destruct (Off_spec k node cb Hwf)
    as (k1 & e1 & Hoff1 & _ & _ & _ & b & found & ns & Hb & Hscan & Hcase).
  rewrite Hoff in Hoff1. injection Hoff1 as <- <-.
  destruct found; [|by destruct Hcase as [-> _]].
  destruct Hcase as [Hbs Hcnt].
  pose proof (Forall_lookup_1 _ _ _ _ Hnd Hb) as Hndb. simpl in Hndb.
  destruct (decide (Addr node ∈ Addr <$> nodes b)) as [Hin|Hout].
  - destruct (Off_scan_present (length (nodes b)) (Addr node) (nodes b) 0 false)
      as (j & n & Hj & _ & Hscan'); [done | lia | by rewrite drop_0 |].
    rewrite Hscan in Hscan'. injection Hscan' as ->.
    split.
    + rewrite Hcnt, Hbs, (population_store _ _ _ _ Hb). simpl.
      unfold len. rewrite (length_delete _ _ (mk_is_Some _ _ Hj)).
      apply lookup_lt_Some in Hj. lia.
    + rewrite Hbs. apply Forall_insert; [done|]. simpl.
      eapply sublist_NoDup; [exact Hndb|]. apply fmap_sublist, sublist_delete.
  - rewrite Off_scan_absent in Hscan; [done | lia | by rewrite drop_0].
Qed.

Lemma run_tidy k ops :
  wf k → tidy k → called_once k ops = true →
  ∃ k', run k ops = Ok k' ∧ wf k' ∧ tidy k' ∧ params k' = params k.
Proof.
  revert k. induction ops as [|o ops IH]; intros k Hwf Ht Hon; simpl; [eauto|].
  simpl in Hon. apply andb_prop in Hon as [Hfresh Hon].
  destruct (step_wf k o Hwf) as (k1 & e & Hs & Hw1 & Hp1).
  rewrite Hs in Hon |- *. simpl.
  assert (tidy k1) as Ht1.
  { destruct o as [node cb|node cb]; simpl in Hs.
    - apply (On_tidy k node cb k1 e); [done | done | | done].
      by apply negb_true_iff.
    - by apply (Off_tidy k node cb k1 e). }
  destruct (IH k1 Hw1 Ht1 Hon) as (k' & Hr & Hw' & Ht' & Hp').
  exists k'. split; [done|]. split; [done|]. split; [done|]. congruence.
Qed.

Lemma New_tidy a p k : New a p = Ok k → tidy k.
Proof.
  unfold New, newKadDb. simpl. destruct (Z.ltb_spec (MaxProx p + 1) 0); [done|].
  simpl. intros [= <-]. split; simpl.
  - by rewrite population_replicate.
  - apply Forall_replicate. simpl. constructor.
Qed.

(** ** The count of active nodes *)

(** A run that breaks [On]'s precondition: the node [double] is added twice
    around [other], which shares its bin, and one [Off] then removes both
    entries while [count] drops by one. *)
Definition other : Node := peer 129 0.
Definition double : Node := peer 128 0.
Definition twice : list op :=
  [OpOn double None; OpOn other None; OpOn double None; OpOff double None].

(** C1, counterexample: after [twice] on a fresh table with the default
    parameters, [count] is 2 while the buckets hold one node. *)
Lemma count_population_twice :
  (k0 ← New base defaults; k ← run k0 twice;
   Ok (count k, population (buckets k))) = Ok (2, 1).
Proof. vm_compute. reflexivity. Qed.

(** C1, as amended: for every sequence of [On]/[Off] operations from a freshly
    constructed table that respects [On]'s precondition (it is not called for
    an address already in the table), the sequence completes and afterwards
    [count] is the sum of the lengths of all buckets. *)
Theorem count_population a p k0 ops :
  0 ≤ MaxProx p →
  New a p = Ok k0 →
  called_once k0 ops = true →
  ∃ k, run k0 ops = Ok k ∧ count k = population (buckets k).
Proof.
  intros Hm Hnew Honce.
  destruct (run_tidy k0 ops) as (k & Hr & _ & [Hc _] & _);
    [by eapply New_wf | by eapply New_tidy | done |].
  by exists k.
Qed.

Definition sample : list op :=
  [OpOn (peer 128 0) None; OpOn (peer 0 128) None; OpOn (peer 0 129) None;
   OpOn (peer 0 130) None; OpOn (peer 1 0) None; OpOff (peer 128 0) None].

Definition fresh : Kademlia :=
  mkKademlia base defaults 0 0 0 (replicate 9 (mkBucket 3 [])) (mkKadDb (replicate 9 []) ∅).

Lemma count_population_witness :
  ∃ k, run fresh sample = Ok k ∧ count k = population (buckets k).
Proof.
  apply (count_population base defaults); [done | reflexivity | vm_compute; reflexivity].
Defined.

(** ** The size of the most proximate bin *)

(** C2, the code at the failing input: five nodes are added (one in bin 0,
    three in bin 8, one in bin 7), which moves [proxLimit] to 1; taking the
    node of bin 0 offline then decrements [proxSize] although that node was
    below the limit.  The table ends with [proxLimit = 0] and [proxSize = 3]
    while the bins from 0 on hold 4 nodes. *)
Theorem proxSize_after_sample :
  (k0 ← New base defaults; k ← run k0 sample;
   Ok (proxLimit k, proxSize k, proxPopulation k)) = Ok (0, 3, 4).
Proof. vm_compute. reflexivity. Qed.

(** ** Errors of [On] *)

Lemma findOrCreate_total d i a url :
  0 ≤ i < len (Nodes d) →
  ∃ d' r, findOrCreate d i a url = Ok (d', r)
          ∧ len (Nodes d') = len (Nodes d)
          ∧ index d' = <[a := r]> (index d).
Proof.
  intros Hi. unfold findOrCreate. destruct (index d !! a) eqn:E.
  - eexists _, _. by repeat split.
  - destruct (index_at_total (Nodes d) i) as [bin ->]; [lia|]. simpl.
    eexists _, _. split; [done|]. simpl. split; [by rewrite len_store | done].
Qed.

Lemma New_degenerate a p k0 o : New a p = Ok k0 → MaxProx p < 0 → step k0 o = Panic.
Proof.
  unfold New, newKadDb. simpl. destruct (Z.ltb_spec (MaxProx p + 1) 0); [done|].
  simpl. intros [= <-] Hm. replace (MaxProx p + 1) with 0 by lia.
  destruct o as [node cb|node cb]; unfold step, On, Off, findOrCreate, index_at;
    simpl; rewrite ?lookup_empty; by destruct (_ <? 0).
Qed.

Lemma reachable_wf a p k0 ops k :
  New a p = Ok k0 → run k0 ops = Ok k → buckets k ≠ [] → wf k.
Proof.
  intros Hnew Hrun Hne. destruct (Z.le_gt_cases 0 (MaxProx p)) as [Hm|Hm].
  - destruct (run_wf k0 ops) as (k' & Hr & Hw & _); [by eapply New_wf|].
    by replace k with k' by congruence.
  - destruct ops as [|o ops]; simpl in Hrun.
    + injection Hrun as <-. exfalso. apply Hne.
      revert Hnew. unfold New, newKadDb. simpl.
      destruct (Z.ltb_spec (MaxProx p + 1) 0); [done|].
      simpl. intros [= <-]. simpl. by replace (MaxProx p + 1) with 0 by lia.
    + by rewrite (New_degenerate a p k0 o) in Hrun by (done || lia).
Qed.

(** C5: in every reachable state in which the bucket of the peer's bin holds
    [BucketSize] peers, [On(peer, nil)] returns the bucket-full error, the
    buckets are unchanged and [count] is not incremented. *)
Theorem On_bucket_full a p k0 ops k node b :
  New a p = Ok k0 →
  run k0 ops = Ok k →
  buckets k !! Z.to_nat (proximityBin k (Addr node)) = Some b →
  len (nodes b) = BucketSize (params k) →
  ∃ k', On k node None = Ok (k', Some BucketFull)
        ∧ buckets k' = buckets k ∧ count k' = count k.
Proof.
  intros Hnew Hrun Hb Hfull.
  assert (wf k) as (Hm & Hl & Hp & Hsz & Hn & Hix).
  { eapply reachable_wf; [done | done |]. intros E. by rewrite E in Hb. }
  pose proof (proximityBin_range k (Addr node) Hm) as Hi.
  unfold On.
  destruct (findOrCreate_total (db k) (proximityBin k (Addr node)) (Addr node) (Url node))
    as (d & r & -> & _); [lia|].
  simpl. unfold index_at. destruct (Z.ltb_spec (proximityBin k (Addr node)) 0); [lia|].
  rewrite Hb. simpl.
  pose proof (Forall_lookup_1 _ _ _ _ Hsz Hb) as Hsb. simpl in Hsb.
  unfold insert. destruct (Z.leb_spec (size b) (len (nodes b))); [|lia].
  eexists. split; [done|]. simpl. split; [|done].
  by apply list_insert_id.
Qed.

Definition fill8 : list op :=
  [OpOn (peer 0 128) None; OpOn (peer 0 129) None; OpOn (peer 0 130) None].

Definition full8 : Kademlia :=
  Eval vm_compute in match run fresh fill8 with Ok k => k | _ => fresh end.

Lemma On_bucket_full_witness :
  ∃ k', On full8 (peer 0 131) None = Ok (k', Some BucketFull)
        ∧ buckets k' = buckets full8 ∧ count k' = count full8.
Proof.
  apply (On_bucket_full base defaults fresh fill8 full8 (peer 0 131)
           (mkBucket 3 [peer 0 128; peer 0 129; peer 0 130]));
    vm_compute; reflexivity.
Defined.

(** A callback that refuses every peer. *)
Definition reject : on_callback := λ r _, (r, Some (CallbackError "rejected")).

(** C6, counterexample: on a fresh table, [On] with a refusing callback
    returns the error and leaves a record for the peer, holding the peer, in
    the index of the record database, which was empty before. *)
Lemma On_rejected_leaves_record :
  (k0 ← New base defaults; '(k, e) ← On k0 double (Some reject);
   Ok (e, index (db k0) !! Addr double, index (db k) !! Addr double))
  = Ok (Some (UnableToAdd [128; 0]%N (CallbackError "rejected")),
        None,
        Some (mkNodeRecord [128; 0]%N "" (Some double) false)).
Proof. vm_compute. reflexivity. Qed.

(** A callback that refuses the records that are not marked connected, and
    accepts the others. *)
Definition picky : on_callback :=
  λ r _, (r, if rec_connected r then None else Some (CallbackError "not connected")).

(** C6, as amended: in every reachable state [On] finds or creates the peer's
    record ([findOrCreate] succeeds, giving the database [d] and the record
    [r]) and hands [r], with the peer attached, to the callback.  Whenever the
    callback returns an error [e] for that record, together with a record [r'],
    [On] surfaces [e] (wrapped with the peer's address), admits the peer into
    no bucket and leaves the buckets, [count], [proxLimit], [proxSize], the
    base address and the parameters unchanged.  The record database afterwards
    is [d] with [r'] written under the peer's address: its index is the index
    of before with [r'] under that address, so it differs from the database of
    before whenever the peer had no record. *)
Theorem On_callback_error a p k0 ops k node (f : on_callback) :
  0 ≤ MaxProx p →
  New a p = Ok k0 →
  run k0 ops = Ok k →
  ∃ d r,
    findOrCreate (db k) (proximityBin k (Addr node)) (Addr node) (Url node) = Ok (d, r)
    ∧ ∀ r' e,
        f (mkNodeRecord (rec_Addr r) (rec_Url r) (Some node) (rec_connected r)) node
        = (r', Some e) →
        ∃ k', On k node (Some f) = Ok (k', Some (UnableToAdd (Addr node) e))
              ∧ buckets k' = buckets k ∧ count k' = count k
              ∧ proxLimit k' = proxLimit k ∧ proxSize k' = proxSize k
              ∧ addr k' = addr k ∧ params k' = params k
              ∧ db k' = set_record d (Addr node) r'
              ∧ index (db k') = <[Addr node := r']> (index (db k))
              ∧ (index (db k) !! Addr node = None → db k' ≠ db k).
Proof.
  intros Hm Hnew Hrun.
  assert (wf k) as (Hm' & Hl & Hp & Hsz & Hn & Hix).
  { destruct (run_wf k0 ops) as (k' & Hr & Hw & _); [by eapply New_wf|].
    by replace k with k' by congruence. }
  pose proof (proximityBin_range k (Addr node) Hm') as Hi.
  destruct (findOrCreate_total (db k) (proximityBin k (Addr node)) (Addr node) (Url node))
    as (d & r & Hfc & _ & Hd); [lia|].
  exists d, r. split; [done|]. intros r' e Hf.
  unfold On. rewrite Hfc. simpl. rewrite Hf.
  eexists. split; [done|]. simpl. split_and!; try done.
  - by rewrite Hd, insert_insert_eq.
  - intros Hnone Heq. apply (f_equal (λ x, index x !! Addr node)) in Heq.
    simpl in Heq. by rewrite lookup_insert_eq, Hnone in Heq.
Qed.

Lemma On_callback_error_witness :
  ∃ k', On full8 (peer 1 0) (Some picky)
        = Ok (k', Some (UnableToAdd [1; 0]%N (CallbackError "not connected")))
        ∧ buckets k' = buckets full8 ∧ count k' = 3
        ∧ proxLimit k' = proxLimit full8 ∧ proxSize k' = proxSize full8
        ∧ index (db full8) !! [1; 0]%N = None
        ∧ index (db k') !! [1; 0]%N
          = Some (mkNodeRecord [1; 0]%N "" (Some (peer 1 0)) false).
Proof.
  destruct (On_callback_error base defaults fresh fill8 full8 (peer 1 0) picky)
    as (d & r & Hfc & H); [done | reflexivity | vm_compute; reflexivity |].
  vm_compute in Hfc. injection Hfc as Hd Hr. subst d r.
  destruct (H _ _ eq_refl) as (k' & HOn & Hb & Hc & Hl & Hs & _ & _ & _ & Hix & _).
  exists k'. split_and!; try done.
  by rewrite Hix, lookup_insert_eq.
Defined.

(** ** Order by distance to a target *)

Lemma cmp_bytes_antisym x y : cmp_bytes y x = - cmp_bytes x y.
Proof.
  revert y. induction x as [|a x IH]; intros [|b y]; simpl; try done.
  destruct (N.ltb_spec b a), (N.ltb_spec a b); try lia. apply IH.
Qed.

Lemma cmp_bytes_trans x y z :
  0 ≤ cmp_bytes y x → 0 ≤ cmp_bytes z y → 0 ≤ cmp_bytes z x.
Proof.
  revert y z. induction x as [|a x IH]; intros [|b y] [|c z]; simpl; try lia.
  destruct (N.ltb_spec a b), (N.ltb_spec b a), (N.ltb_spec b c), (N.ltb_spec c b),
    (N.ltb_spec a c), (N.ltb_spec c a); try lia. apply IH.
Qed.

(** [nearer target x y]: [y] is not closer to the target than [x]. *)
Definition nearer (target : Address) (x y : Node) : Prop :=
  0 ≤ ProxCmp target (Addr y) (Addr x).

#[local] Instance nearer_trans target : Transitive (nearer target).
Proof. intros x y z. apply cmp_bytes_trans. Qed.

Lemma not_nearer target x y :
  ProxCmp target (Addr y) (Addr x) < 0 → nearer target y x.
Proof. unfold nearer, ProxCmp. rewrite (cmp_bytes_antisym (distance _ (Addr y))). lia. Qed.

Lemma sortedByDistanceTo_from_Sorted target x l :
  sortedByDistanceTo_from target (Addr x) l = true ↔ Sorted (nearer target) (x :: l).
Proof.
  revert x. induction l as [|y l IH]; intros x; simpl.
  - split; [repeat constructor | done].
  - destruct (Z.ltb_spec (ProxCmp target (Addr y) (Addr x)) 0) as [Hlt|Hge].
    + split; [done|]. intros Hs. apply Sorted_inv in Hs as [_ Hs].
      apply HdRel_inv in Hs. unfold nearer in Hs. lia.
    + rewrite IH. split.
      * intros Hs. constructor; [done|]. by constructor.
      * intros Hs. by apply Sorted_inv in Hs as [Hs _].
Qed.

Lemma sortedByDistanceTo_Sorted target l :
  sortedByDistanceTo target l = true ↔ Sorted (nearer target) l.
Proof.
  destruct l as [|x l]; simpl; [split; [constructor | done]|].
  apply sortedByDistanceTo_from_Sorted.
Qed.

(** ** Binary search *)

Lemma Search_loop_spec (g : Z → bool) (f : Z → res bool) n fuel i j :
  (∀ k, 0 ≤ k < n → f k = Ok (g k)) →
  (∀ k k', 0 ≤ k ≤ k' → k' < n → g k = true → g k' = true) →
  0 ≤ i ≤ j → j ≤ n → (Z.to_nat (j - i) ≤ fuel)%nat →
  (∀ k, 0 ≤ k < i → g k = false) →
  (∀ k, j ≤ k < n → g k = true) →
  ∃ ix, Search_loop fuel f i j = Ok ix ∧ i ≤ ix ≤ j
        ∧ (∀ k, 0 ≤ k < ix → g k = false) ∧ (∀ k, ix ≤ k < n → g k = true).
Proof.
  intros Hf Hmono. revert i j.
  induction fuel as [|fuel IH]; intros i j Hij Hjn Hfuel Hlo Hhi; simpl.
  - destruct (Z.ltb_spec i j); [lia|].
    exists i. repeat split; try done; try lia. intros k Hk. apply Hhi. lia.
  - destruct (Z.ltb_spec i j) as [Hlt|Hge].
    2:{ exists i. repeat split; try done; try lia. intros k Hk. apply Hhi. lia. }
    assert (i ≤ (i + j) / 2 < j) as Hh.
    { split; [apply Z.div_le_lower_bound | apply Z.div_lt_upper_bound]; lia. }
    rewrite Hf by lia. simpl. destruct (g ((i + j) / 2)) eqn:Eg.
    + destruct (IH i ((i + j) / 2)) as (ix & Hix & Hr & H1 & H2); try done; try lia.
      { intros k Hk. destruct (Z.lt_ge_cases k j); [|apply Hhi; lia].
        apply (Hmono ((i + j) / 2)); [lia | lia | done]. }
      exists ix. repeat split; try done; lia.
    + destruct (IH ((i + j) / 2 + 1) j) as (ix & Hix & Hr & H1 & H2); try done; try lia.
      { intros k Hk. destruct (g k) eqn:Ek; [|done].
        rewrite (Hmono k ((i + j) / 2)) in Eg; [done | lia | lia | done]. }
      exists ix. repeat split; try done; lia.
Qed.

Lemma Search_spec (g : Z → bool) (f : Z → res bool) n :
  0 ≤ n →
  (∀ k, 0 ≤ k < n → f k = Ok (g k)) →
  (∀ k k', 0 ≤ k ≤ k' → k' < n → g k = true → g k' = true) →
  ∃ ix, Search n f = Ok ix ∧ 0 ≤ ix ≤ n
        ∧ (∀ k, 0 ≤ k < ix → g k = false) ∧ (∀ k, ix ≤ k < n → g k = true).
Proof.
  intros Hn Hf Hmono. unfold Search.
  apply (Search_loop_spec g f n); try done; try lia.
Qed.

(** ** [push] keeps the list ordered *)

Lemma StronglySorted_lookup {A} (R : relation A) l i j x y :
  StronglySorted R l → l !! i = Some x → l !! j = Some y → (i < j)%nat → R x y.
Proof.
  intros Hs Hi Hj Hlt.
  rewrite <- (take_drop_middle l j y Hj) in Hs.
  eapply StronglySorted_app_1_elem_of; [exact Hs | | by left].
  apply list_elem_of_lookup. exists i. rewrite lookup_take_lt; done.
Qed.

(** The list [h] with [node] put at position [m]. *)
Definition put_at (m : nat) (h : list Node) (node : Node) : list Node :=
  take m h ++ node :: drop m h.

Lemma push_spec target h node max :
  StronglySorted (nearer target) h →
  ∃ m, (m ≤ length h)%nat
    ∧ push target h node max
      = Ok (take (if len h <? max then S (length h) else length h) (put_at m h node))
    ∧ StronglySorted (nearer target) (put_at m h node).
Proof.
  intros Hs. unfold push.
  set (g := λ k : Z, match h !! Z.to_nat k with
                     | Some n => 0 <=? ProxCmp target (Addr n) (Addr node)
                     | None => true
                     end).
  destruct (Search_spec g
              (λ i, n ← index_at h i; Ok (0 <=? ProxCmp target (Addr n) (Addr node)))
              (len h)) as (ix & -> & Hix & Hlo & Hhi).
  { apply len_nonneg. }
  { intros k Hk. destruct (index_at_total h k Hk) as [x Hx]. rewrite Hx. simpl.
    apply index_at_Ok in Hx as [_ Hx]. unfold g. by rewrite Hx. }
  { intros k k' Hk Hk'. unfold g.
    destruct (h !! Z.to_nat k) as [x|] eqn:Ex; [|intros _].
    2:{ apply lookup_ge_None in Ex. rewrite lookup_ge_None_2; [done|]. lia. }
    destruct (h !! Z.to_nat k') as [y|] eqn:Ey; [|done].
    destruct (decide (k = k')) as [->|Hne]; [by simplify_eq|].
    intros Hx%Z.leb_le. apply Z.leb_le.
    assert (nearer target x y) as Hxy.
    { eapply (StronglySorted_lookup _ h (Z.to_nat k) (Z.to_nat k')); try done. lia. }
    exact (cmp_bytes_trans _ _ _ Hx Hxy). }
  simpl. exists (Z.to_nat ix). unfold len in *.
  assert (Z.to_nat ix ≤ length h)%nat as Hm by lia.
  split; [done|]. split.
  - unfold put_at.
    destruct (Z.ltb_spec (Z.of_nat (length h)) max) as [Hroom|Hfull].
    + rewrite length_app. simpl.
      destruct (Z.ltb_spec ix (Z.of_nat (length h + 1))); [|lia].
      f_equal. rewrite take_app_le, drop_app_le by done.
      rewrite (take_ge (take _ h ++ _)).
      2:{ rewrite length_app, length_take. simpl. rewrite length_drop. lia. }
      f_equal. f_equal. rewrite take_app_length'; [done|]. rewrite length_drop. lia.
    + destruct (Z.ltb_spec ix (Z.of_nat (length h))) as [Hin|Hend]; f_equal.
      * rewrite (take_app_ge (take _ h)).
        2:{ rewrite length_take. lia. }
        f_equal. rewrite length_take.
        replace (length h - Z.to_nat ix `min` length h)%nat
          with (S (length h - Z.to_nat ix - 1)) by lia.
        done.
      * replace (Z.to_nat ix) with (length h) by lia.
        rewrite drop_all, (take_ge h (length h)) by done. by rewrite take_app_length.
  - unfold put_at. rewrite <- (take_drop (Z.to_nat ix) h) in Hs.
    apply StronglySorted_app in Hs as (H12 & H1 & H2).
    apply StronglySorted_app_2; [| done |].
    + intros x1 x2 Hx1 Hx2. apply elem_of_cons in Hx2 as [->|Hx2]; [|by apply H12].
      apply list_elem_of_lookup in Hx1 as [i Hi].
      pose proof (lookup_lt_Some _ _ _ Hi) as Hlt. rewrite length_take in Hlt.
      rewrite lookup_take_lt in Hi by lia.
      specialize (Hlo (Z.of_nat i)). unfold g in Hlo.
      rewrite Nat2Z.id, Hi in Hlo. apply not_nearer.
      apply Z.leb_gt. apply Hlo. lia.
    + apply StronglySorted_cons. split; [|done].
      apply Forall_forall. intros y Hy.
      apply list_elem_of_lookup in Hy as [i Hi].
      pose proof (lookup_lt_Some _ _ _ Hi) as Hlt. rewrite length_drop in Hlt.
      rewrite lookup_drop in Hi.
      specialize (Hhi (Z.of_nat (Z.to_nat ix + i))). unfold g in Hhi.
      rewrite Nat2Z.id, Hi in Hhi. unfold nearer. apply Z.leb_le. apply Hhi. lia.
Qed.

Lemma StronglySorted_take {A} (R : relation A) l n :
  StronglySorted R l → StronglySorted R (take n l).
Proof.
  intros Hs. rewrite <- (take_drop n l) in Hs. by apply StronglySorted_app_1_l in Hs.
Qed.

Lemma put_at_Permutation m h node : put_at m h node ≡ₚ node :: h.
Proof.
  unfold put_at. rewrite <- Permutation_middle. by rewrite take_drop.
Qed.

Lemma length_put_at m h node : length (put_at m h node) = S (length h).
Proof. by rewrite put_at_Permutation. Qed.

(** ** Gathering the nodes of a list of buckets *)

(** All the nodes held by a list of buckets. *)
Definition held (bs : list bucket) : list Node := concat (nodes <$> bs).

Lemma population_held bs : population bs = len (held bs).
Proof.
  unfold held. induction bs as [|b bs IH]; simpl; [done|].
  rewrite len_app. by rewrite IH.
Qed.

(** [r] is what [push] leaves of the nodes of the buckets [vs] under [limit]:
    ordered, of length [min limit (population vs)], and all of them when they
    fit. *)
Definition gathered (target : Address) (limit : Z) (r : list Node) (vs : list bucket)
  : Prop :=
  StronglySorted (nearer target) r
  ∧ len r = Z.min limit (population vs)
  ∧ (population vs ≤ limit → r ≡ₚ held vs).

Lemma gathered_nil target limit : 0 ≤ limit → gathered target limit [] [].
Proof. intros H. split; [constructor|]. split; [unfold len; simpl; lia | done]. Qed.

Lemma gathered_held target limit r vs vs' :
  held vs ≡ₚ held vs' → gathered target limit r vs → gathered target limit r vs'.
Proof.
  intros Hh (H1 & H2 & H3).
  assert (population vs = population vs') as Hpop.
  { rewrite !population_held. unfold len. by rewrite Hh. }
  split; [done|]. split; [by rewrite <- Hpop|].
  rewrite <- Hpop, <- Hh. done.
Qed.

Lemma len_take_put (r : list Node) n limit m :
  len (take (if len r <? limit then S (length r) else length r) (put_at m r n))
  = if len r <? limit then 1 + len r else len r.
Proof.
  unfold len. rewrite length_take, length_put_at.
  destruct (Z.of_nat (length r) <? limit); lia.
Qed.

Lemma push_all_gathered target limit r vs ns :
  gathered target limit r vs →
  ∃ r', push_all target r ns limit = Ok r'
        ∧ gathered target limit r' (mkBucket 0 ns :: vs).
Proof.
  revert r vs. induction ns as [|n ns IH]; intros r vs Hg; simpl.
  - exists r. split; [done|]. destruct Hg as (H1 & H2 & H3).
    split; [done|]. cbn [population foldr nodes]. rewrite len_nil, Z.add_0_l.
    split; [done|]. exact H3.
  - destruct Hg as (H1 & H2 & H3).
    destruct (push_spec target r n limit H1) as (m & Hm & -> & Hs). simpl.
    destruct (IH (take (if len r <? limit then S (length r) else length r) (put_at m r n))
                (mkBucket 0 [n] :: vs)) as (r' & Hr' & G1 & G2 & G3).
    { split; [by apply StronglySorted_take|].
      cbn [population foldr nodes]. fold (population vs).
      rewrite len_cons, len_nil, len_take_put.
      pose proof (population_nonneg vs).
      split.
      - destruct (Z.ltb_spec (len r) limit); lia.
      - intros Hle. destruct (Z.ltb_spec (len r) limit) as [_|Hge]; [|lia].
        rewrite take_ge by (rewrite length_put_at; lia).
        rewrite put_at_Permutation. unfold held. simpl. fold (held vs).
        rewrite H3 by lia. done. }
    exists r'. split; [done|]. split; [done|].
    cbn [population foldr nodes] in G2, G3 |- *. fold (population vs) in G2, G3 |- *.
    rewrite !len_cons, len_nil in G2, G3. rewrite len_cons.
    split; [rewrite G2; f_equal; lia|].
    intros Hle. rewrite G3 by lia. unfold held. simpl.
    by rewrite <- Permutation_middle.
Qed.

(** ** The loop of [FindClosest] *)

(** The exit test of the loop while it scans downwards. *)
Definition brk (k : Kademlia) (max limit i s n : Z) : bool :=
  ((max =? 0) && (s <=? i) && ((0 <? n) || (s =? 0)))
  || ((0 <? max) && (s <=? i) && ((limit <=? n) || (n =? count k) || (s =? 0))).

Lemma loop_down fuel k target max limit i start n r :
  FindClosest_loop (S fuel) k target max limit i start true n r
  = b ← index_at (buckets k) start;
    r ← push_all target r (nodes b) limit;
    if brk k max limit i start (n + len (nodes b)) then Ok r
    else FindClosest_loop fuel k target max limit i (start - 1) true
           (n + len (nodes b)) r.
Proof.
  simpl. destruct (index_at _ _); simpl; try done.
  destruct (push_all _ _ _ _); simpl; try done.
  unfold brk. by rewrite andb_true_r.
Qed.

Lemma loop_up fuel k target max limit i start n r :
  FindClosest_loop (S fuel) k target max limit i start false n r
  = b ← index_at (buckets k) start;
    r ← push_all target r (nodes b) limit;
    if (max =? 0) && (start <=? i) && ((0 <? n + len (nodes b)) || (start =? 0))
    then Ok r
    else if start =? MaxProx (params k) then
      if i =? 0 then Ok r
      else FindClosest_loop fuel k target max limit i (i - 1) true
             (n + len (nodes b)) r
    else FindClosest_loop fuel k target max limit i (start + 1) false
           (n + len (nodes b)) r.
Proof.
  simpl. destruct (index_at _ _); simpl; try done.
  destruct (push_all _ _ _ _); simpl; try done.
  by rewrite andb_false_r, orb_false_r.
Qed.

Lemma population_drop_le bs s : population (drop s bs) ≤ population bs.
Proof.
  rewrite <- (take_drop s bs) at 2. rewrite population_app.
  pose proof (population_nonneg (take s bs)). lia.
Qed.

Lemma down_step k target max limit i s fuel r b :
  buckets k !! s = Some b →
  gathered target limit r (drop (S s) (buckets k)) →
  ∃ r1, gathered target limit r1 (drop s (buckets k))
    ∧ FindClosest_loop (S fuel) k target max limit i (Z.of_nat s) true
        (population (drop (S s) (buckets k))) r
      = if brk k max limit i (Z.of_nat s) (population (drop s (buckets k)))
        then Ok r1
        else FindClosest_loop fuel k target max limit i (Z.of_nat s - 1) true
               (population (drop s (buckets k))) r1.
Proof.
  intros Hb Hg. rewrite loop_down.
  assert (index_at (buckets k) (Z.of_nat s) = Ok b) as ->.
  { apply index_at_Ok. rewrite Nat2Z.id. split; [lia | done]. }
  simpl.
  destruct (push_all_gathered target limit r _ (nodes b) Hg) as (r1 & -> & Hg1).
  simpl. exists r1. split.
  - eapply gathered_held; [|exact Hg1]. by rewrite (drop_S _ _ _ Hb).
  - by rewrite (Z.add_comm (population _)), <- (population_drop _ _ _ Hb).
Qed.

Lemma brk_0 k max limit i n : 0 ≤ i → 0 ≤ max → brk k max limit i 0 n = true.
Proof.
  intros Hi Hmax. unfold brk. destruct (Z.leb_spec 0 i); [|lia].
  destruct (Z.eqb_spec max 0); simpl; [by rewrite orb_true_r|].
  destruct (Z.ltb_spec 0 max); [|lia]. simpl. by rewrite orb_true_r.
Qed.

Lemma down_spec k target max limit i :
  0 ≤ i → 0 ≤ max →
  ∀ s fuel r,
    (s < length (buckets k))%nat → (S s ≤ fuel)%nat →
    gathered target limit r (drop (S s) (buckets k)) →
    ∃ r' s', (s' ≤ s)%nat
      ∧ FindClosest_loop fuel k target max limit i (Z.of_nat s) true
          (population (drop (S s) (buckets k))) r = Ok r'
      ∧ gathered target limit r' (drop s' (buckets k))
      ∧ brk k max limit i (Z.of_nat s') (population (drop s' (buckets k))) = true
      ∧ ∀ s'', (s' < s'' ≤ s)%nat →
          brk k max limit i (Z.of_nat s'') (population (drop s'' (buckets k))) = false.
Proof.
  intros Hi Hmax s. induction s as [|s IH]; intros fuel r Hs Hfuel Hg;
    (destruct fuel as [|fuel]; [lia|]);
    destruct (lookup_lt_is_Some_2 (buckets k) _ Hs) as [b Hb];
    destruct (down_step k target max limit i _ fuel r b Hb Hg) as (r1 & Hg1 & ->).
  - rewrite (brk_0 k max limit i _ Hi Hmax).
    exists r1, 0%nat. split; [done|]. split; [done|]. split; [done|].
    split; [by apply brk_0|]. intros. lia.
  - destruct (brk k max limit i (Z.of_nat (S s)) _) eqn:Hbrk.
    + exists r1, (S s). split; [done|]. split; [done|]. split; [done|].
      split; [done|]. intros. lia.
    + replace (Z.of_nat (S s) - 1) with (Z.of_nat s) by lia.
      destruct (IH fuel r1) as (r' & s' & Hs' & Hl & Hg' & Hb' & Hmin); [lia | lia | done |].
      exists r', s'. split; [lia|]. split; [done|]. split; [done|]. split; [done|].
      intros s'' Hs''. destruct (decide (s'' = S s)) as [->|]; [done|].
      apply Hmin. lia.
Qed.

Lemma up_step k target max limit ii s fuel r b :
  buckets k !! s = Some b →
  (ii ≤ s)%nat →
  (Z.of_nat ii < Z.of_nat s ∨ 0 < max) →
  gathered target limit r (take (s - ii) (drop ii (buckets k))) →
  ∃ r1, gathered target limit r1 (take (S s - ii) (drop ii (buckets k)))
    ∧ FindClosest_loop (S fuel) k target max limit (Z.of_nat ii) (Z.of_nat s) false
        (population (take (s - ii) (drop ii (buckets k)))) r
      = if Z.of_nat s =? MaxProx (params k) then
          if Z.of_nat ii =? 0 then Ok r1
          else FindClosest_loop fuel k target max limit (Z.of_nat ii)
                 (Z.of_nat ii - 1) true
                 (population (take (S s - ii) (drop ii (buckets k)))) r1
        else FindClosest_loop fuel k target max limit (Z.of_nat ii)
               (Z.of_nat s + 1) false
               (population (take (S s - ii) (drop ii (buckets k)))) r1.
Proof.
  intros Hb Hle Hnb Hg. rewrite loop_up.
  assert (index_at (buckets k) (Z.of_nat s) = Ok b) as ->.
  { apply index_at_Ok. rewrite Nat2Z.id. split; [lia | done]. }
  simpl.
  destruct (push_all_gathered target limit r _ (nodes b) Hg) as (r1 & -> & Hg1).
  simpl.
  assert (take (S s - ii) (drop ii (buckets k))
          = take (s - ii) (drop ii (buckets k)) ++ [b]) as Htk.
  { replace (S s - ii)%nat with (S (s - ii)) by lia.
    apply take_S_r. rewrite lookup_drop. by replace (ii + (s - ii))%nat with s by lia. }
  exists r1. split.
  - eapply gathered_held; [|exact Hg1]. rewrite Htk. unfold held.
    rewrite fmap_app, concat_app. simpl. rewrite app_nil_r.
    apply Permutation_app_comm.
  - assert ((max =? 0) && (Z.of_nat s <=? Z.of_nat ii) = false) as Hc.
    { destruct Hnb as [Hlt|Hpos].
      - destruct (Z.leb_spec (Z.of_nat s) (Z.of_nat ii)); [lia|]. by rewrite andb_false_r.
      - destruct (Z.eqb_spec max 0); [lia | done]. }
    rewrite Hc. simpl. rewrite Htk, population_app. simpl. by rewrite Z.add_0_r.
Qed.

Lemma up_spec k target max limit ii :
  MaxProx (params k) = Z.of_nat (length (buckets k)) - 1 →
  ∀ d s fuel r,
    (s + d = length (buckets k))%nat → (1 ≤ d)%nat → (d ≤ fuel)%nat →
    (ii ≤ s)%nat →
    (Z.of_nat ii < Z.of_nat s ∨ 0 < max) →
    gathered target limit r (take (s - ii) (drop ii (buckets k))) →
    ∃ r_up, gathered target limit r_up (drop ii (buckets k))
      ∧ FindClosest_loop fuel k target max limit (Z.of_nat ii) (Z.of_nat s) false
          (population (take (s - ii) (drop ii (buckets k)))) r
        = if Z.of_nat ii =? 0 then Ok r_up
          else FindClosest_loop (fuel - d) k target max limit (Z.of_nat ii)
                 (Z.of_nat ii - 1) true (population (drop ii (buckets k))) r_up.
Proof.
  intros HM d. induction d as [|d IH]; intros s fuel r Hsd Hd Hfuel Hle Hnb Hg; [lia|].
  destruct fuel as [|fuel]; [lia|].
  destruct (lookup_lt_is_Some_2 (buckets k) s) as [b Hb]; [lia|].
  destruct (up_step k target max limit ii s fuel r b Hb Hle Hnb Hg) as (r1 & Hg1 & ->).
  destruct (Z.eqb_spec (Z.of_nat s) (MaxProx (params k))) as [Hs|Hs].
  - assert (d = 0)%nat as -> by lia.
    assert (take (S s - ii) (drop ii (buckets k)) = drop ii (buckets k)) as Htk.
    { apply take_ge. rewrite length_drop. lia. }
    rewrite Htk in Hg1 |- *. exists r1. split; [done|].
    by replace (S fuel - 1)%nat with fuel by lia.
  - replace (Z.of_nat s + 1) with (Z.of_nat (S s)) by lia.
    destruct (IH (S s) fuel r1) as (r_up & Hg_up & Hl); try lia.
    { by replace (S s - ii)%nat with (S s - ii)%nat. }
    exists r_up. split; [done|]. rewrite Hl. simpl. done.
Qed.

(** What [FindClosest] gathers in a well-formed table: the nodes of the
    buckets [vs], under the limit. *)
Lemma FindClosest_spec k target max :
  wf k → 0 ≤ max →
  let limit := if max =? 0 then 1000 else max in
  let i0 := proximityBin k target in
  ∃ r vs, FindClosest k target max = Ok r
    ∧ gathered target limit r vs
    ∧ population vs ≤ population (buckets k)
    ∧ (0 < max → limit ≤ population vs ∨ population vs = count k
                 ∨ population vs = population (buckets k))
    ∧ (max = 0 → i0 < proxLimit k →
       ∀ b, buckets k !! Z.to_nat i0 = Some b → nodes b ≠ [] → vs = [b])
    ∧ (max = 0 → proxLimit k ≤ i0 → 0 < proxPopulation k →
       vs = drop (Z.to_nat (proxLimit k)) (buckets k)).
Proof.
  intros (Hm & Hl & Hp & _) Hmax limit i0.
  pose proof (proximityBin_range k target Hm) as Hi0. fold i0 in Hi0.
  assert (0 ≤ limit) as Hlim by (subst limit; destruct (Z.eqb_spec max 0); lia).
  assert (MaxProx (params k) = Z.of_nat (length (buckets k)) - 1) as HM
    by (unfold len in Hl; lia).
  assert (∀ s' i, (brk k max limit i (Z.of_nat s') (population (drop s' (buckets k))) = true) →
            0 < max → limit ≤ population (drop s' (buckets k))
                      ∨ population (drop s' (buckets k)) = count k
                      ∨ population (drop s' (buckets k)) = population (buckets k))
    as Hbrk_pos.
  { intros s' i Hb Hpos. unfold brk in Hb.
    destruct (Z.eqb_spec max 0); [lia|]. simpl in Hb.
    apply andb_prop in Hb as [_ Hb]. apply orb_prop in Hb as [Hb|Hb];
      [apply orb_prop in Hb as [Hb|Hb]|].
    - left. by apply Z.leb_le.
    - right. left. by apply Z.eqb_eq.
    - right. right. apply Z.eqb_eq in Hb. by replace s' with 0%nat by lia. }
  unfold FindClosest. fold i0. fold limit.
  destruct (Z.leb_spec (proxLimit k) i0) as [Hnear|Hfar].
  - (* the target lies in the most proximate bin: scan down from MaxProx *)
    destruct (down_spec k target max limit (proxLimit k) (proj1 Hp) Hmax
                (length (buckets k) - 1) (2 * length (buckets k) + 2) [])
      as (r' & s' & Hs' & Hloop & Hg & Hb & Hmin); [unfold len in Hl; lia | lia | |].
    { rewrite drop_ge by lia. by apply gathered_nil. }
    rewrite drop_ge in Hloop by lia. simpl in Hloop.
    replace (Z.of_nat (length (buckets k) - 1)) with (MaxProx (params k)) in Hloop by lia.
    exists r', (drop s' (buckets k)). split; [done|]. split; [done|].
    split; [apply population_drop_le|]. split; [by eapply Hbrk_pos|].
    split; [lia|]. intros -> _ Hpop. f_equal.
    assert (Z.of_nat s' ≤ proxLimit k) as Hle.
    { unfold brk in Hb. simpl in Hb. rewrite orb_false_r in Hb.
      apply andb_prop in Hb as [Hb _]. by apply Z.leb_le. }
    destruct (decide (s' = Z.to_nat (proxLimit k))) as [|Hne]; [done|].
    specialize (Hmin (Z.to_nat (proxLimit k))). unfold brk in Hmin.
    rewrite Z2Nat.id in Hmin by lia. simpl in Hmin.
    rewrite Z.leb_refl in Hmin. unfold proxPopulation in Hpop.
    destruct (Z.ltb_spec 0 (population (drop (Z.to_nat (proxLimit k)) (buckets k))));
      [|lia].
    simpl in Hmin. unfold len in Hl. discriminate Hmin. lia.
  - (* the target lies below the limit: scan up, then down *)
    set (ii := Z.to_nat i0). assert (i0 = Z.of_nat ii) as Hii by lia.
    rewrite Hii.
    destruct (lookup_lt_is_Some_2 (buckets k) ii) as [b Hb]; [unfold len in Hl; lia|].
    assert (∀ fuel r_up, (ii ≤ fuel)%nat → Z.of_nat ii ≠ 0 →
              gathered target limit r_up (drop ii (buckets k)) →
              ∃ r' s', (s' < ii)%nat
                ∧ FindClosest_loop fuel k target max limit (Z.of_nat ii)
                    (Z.of_nat ii - 1) true (population (drop ii (buckets k))) r_up = Ok r'
                ∧ gathered target limit r' (drop s' (buckets k))
                ∧ brk k max limit (Z.of_nat ii) (Z.of_nat s')
                    (population (drop s' (buckets k))) = true) as Hdown.
    { intros fuel r_up Hfuel Hnz Hg.
      destruct (down_spec k target max limit (Z.of_nat ii) ltac:(lia) Hmax
                  (ii - 1) fuel r_up)
        as (r' & s' & Hs' & Hloop & Hg' & Hb' & _); [unfold len in Hl; lia | lia | |].
      { by replace (S (ii - 1)) with ii by lia. }
      replace (S (ii - 1)) with ii in Hloop by lia.
      replace (Z.of_nat (ii - 1)) with (Z.of_nat ii - 1) in Hloop by lia.
      exists r', s'. split; [lia | done]. }
    destruct (decide (0 < max)) as [Hpos|Hzero].
    + destruct (up_spec k target max limit ii HM (length (buckets k) - ii) ii
                  (2 * length (buckets k) + 2) [])
        as (r_up & Hg_up & Hloop); try (unfold len in Hl; lia).
      { rewrite Nat.sub_diag. simpl. by apply gathered_nil. }
      rewrite Nat.sub_diag in Hloop. simpl take in Hloop. simpl population in Hloop.
      rewrite Hloop. destruct (Z.eqb_spec (Z.of_nat ii) 0) as [Hz|Hnz].
      * exists r_up, (drop ii (buckets k)). split; [done|]. split; [done|].
        split; [apply population_drop_le|].
        split; [|split; intros; lia].
        intros _. right. right. by replace ii with 0%nat by lia.
      * destruct (Hdown (2 * length (buckets k) + 2 - (length (buckets k) - ii))%nat r_up)
          as (r' & s' & Hs' & Hl' & Hg' & Hb'); [lia | done | done |].
        exists r', (drop s' (buckets k)). split; [done|]. split; [done|].
        split; [apply population_drop_le|]. split; [by eapply Hbrk_pos|].
        split; intros; lia.
    + assert (max = 0) as -> by lia. clear Hzero.
      replace (2 * length (buckets k) + 2)%nat with (S (2 * length (buckets k) + 1)) by lia.
      remember (2 * length (buckets k) + 1)%nat as fuel eqn:Hfuel.
      rewrite loop_up.
      assert (index_at (buckets k) (Z.of_nat ii) = Ok b) as ->.
      { apply index_at_Ok. rewrite Nat2Z.id. split; [lia | done]. }
      simpl.
      destruct (push_all_gathered target limit [] [] (nodes b) (gathered_nil _ _ Hlim))
        as (r1 & -> & Hg1).
      simpl. rewrite Z.leb_refl, Z.add_0_l. simpl.
      apply (gathered_held _ _ _ _ [b]) in Hg1; [|done].
      assert (population [b] ≤ population (buckets k)) as Hb_le.
      { rewrite <- (take_drop_middle _ _ _ Hb), population_app. simpl.
        pose proof (population_nonneg (take ii (buckets k))).
        pose proof (population_nonneg (drop (S ii) (buckets k))). lia. }
      destruct ((0 <? len (nodes b)) || (Z.of_nat ii =? 0)) eqn:Hstop.
      * exists r1, [b]. split; [done|]. split; [done|]. split; [done|].
        split; [lia|]. split; [|intros; lia].
        intros _ _ b' Hb' _. congruence.
      * apply orb_false_elim in Hstop as [Hemp Hnz].
        apply Z.ltb_ge in Hemp. apply Z.eqb_neq in Hnz.
        destruct (Z.eqb_spec (Z.of_nat ii) (MaxProx (params k))); [lia|].
        assert (take (S ii - ii) (drop ii (buckets k)) = [b]) as Htk1.
        { replace (S ii - ii)%nat with 1%nat by lia.
          rewrite (drop_S _ _ _ Hb). simpl. by rewrite take_0. }
        destruct (up_spec k target 0 limit ii HM (length (buckets k) - S ii) (S ii)
                    fuel r1)
          as (r_up & Hg_up & Hloop); try (unfold len in Hl; lia).
        { by rewrite Htk1. }
        rewrite Htk1 in Hloop. simpl population in Hloop. rewrite Z.add_0_r in Hloop.
        replace (Z.of_nat (S ii)) with (Z.of_nat ii + 1) in Hloop by lia.
        rewrite Hloop. destruct (Z.eqb_spec (Z.of_nat ii) 0); [lia|].
        destruct (Hdown (fuel - (length (buckets k) - S ii))%nat r_up)
          as (r' & s' & Hs' & Hl' & Hg' & Hb'); [lia | done | done |].
        rewrite Hl'.
        exists r', (drop s' (buckets k)). split; [done|]. split; [done|].
        split; [apply population_drop_le|]. split; [lia|]. split; [|intros; lia].
        intros _ _ b2 Hb2 Hne.
        assert (b2 = b) as -> by congruence.
        destruct (nodes b); [done|]. rewrite len_cons in Hemp.
        pose proof (len_nonneg l). lia.
Qed.

(** ** [count] never falls below the population *)

Lemma Off_scan_shrinks fuel a ns i found found' ns' :
  Off_scan fuel a ns i found = Ok (found', ns') →
  (found' = found ∧ ns' = ns) ∨ (found' = true ∧ (length ns' < length ns)%nat).
Proof.
  revert ns i found. induction fuel as [|fuel IH]; intros ns i found; simpl.
  - destruct (ns !! i); [done|]. intros [= <- <-]. by left.
  - destruct (ns !! i) as [n|] eqn:E; [|intros [= <- <-]; by left].
    destruct (decide (a = Addr n)) as [->|]; [|apply IH].
    intros [[-> ->]|[-> Hlt]]%IH; right; (split; [done|]);
      rewrite (length_delete _ _ (mk_is_Some _ _ E)) in *;
      apply lookup_lt_Some in E; lia.
Qed.

Lemma step_count_ge k o k' e :
  wf k → population (buckets k) ≤ count k →
  step k o = Ok (k', e) → population (buckets k') ≤ count k'.
Proof.
  intros Hwf Hc Hstep. destruct o as [node cb|node cb]; simpl in Hstep.
  - destruct (On_spec k node cb Hwf) as (k1 & e1 & Hon1 & _ & _ & _ & Hcase).
    rewrite Hstep in Hon1. injection Hon1 as <- <-.
    destruct Hcase as [(_ & Hb & Hcnt & _)|(_ & b & Hb & _ & Hbs & Hcnt)].
    + by rewrite Hb, Hcnt.
    + rewrite Hcnt, Hbs, (population_store _ _ _ _ Hb). simpl.
      rewrite len_app, len_cons, len_nil. lia.
  - destruct (Off_spec k node cb Hwf)
      as (k1 & e1 & Hoff1 & _ & _ & _ & b & found & ns & Hb & Hscan & Hcase).
    rewrite Hstep in Hoff1. injection Hoff1 as <- <-.
    destruct found; [|by destruct Hcase as [-> _]].
    destruct Hcase as [Hbs Hcnt].
    apply Off_scan_shrinks in Hscan as [[? _]|[_ Hlt]]; [done|].
    rewrite Hcnt, Hbs, (population_store _ _ _ _ Hb). simpl. unfold len. lia.
Qed.

Lemma run_count_ge k ops k' :
  wf k → population (buckets k) ≤ count k →
  run k ops = Ok k' → wf k' ∧ population (buckets k') ≤ count k'.
Proof.
  revert k. induction ops as [|o ops IH]; intros k Hwf Hc; simpl.
  - by intros [= <-].
  - destruct (step_wf k o Hwf) as (k1 & e & Hs & Hw1 & _). rewrite Hs. simpl.
    apply IH; [done|]. by apply (step_count_ge k o k1 e).
Qed.

Lemma reachable_count_ge a p k0 ops k :
  0 ≤ MaxProx p → New a p = Ok k0 → run k0 ops = Ok k →
  wf k ∧ population (buckets k) ≤ count k.
Proof.
  intros Hm Hnew Hrun. eapply run_count_ge; [by eapply New_wf | | done].
  destruct (New_tidy a p k0 Hnew) as [-> _]. lia.
Qed.

(** ** The closest nodes *)

(** C3, counterexample: after [twice] the table has [count = 2] and one node
    in its buckets; [FindClosest] with [max = 2] returns one node. *)
Lemma FindClosest_length_twice :
  (k0 ← New base defaults; k ← run k0 twice;
   r ← FindClosest k [128; 0]%N 2;
   Ok (len r, Z.min 2 (count k))) = Ok (1, 2).
Proof. vm_compute. reflexivity. Qed.

(** C3, as amended: in every reachable state, for every target and [k > 0],
    [FindClosest(target, k)] returns a list sorted by [ProxCmp(target, ., .)]
    whose length is the minimum of [k] and the number of nodes held by the
    buckets; that number is [count] when the run respected [On]'s
    precondition. *)
Theorem FindClosest_sorted_length a p k0 ops k target max :
  0 ≤ MaxProx p →
  New a p = Ok k0 →
  run k0 ops = Ok k →
  0 < max →
  ∃ r, FindClosest k target max = Ok r
    ∧ sortedByDistanceTo target r = true
    ∧ len r = Z.min max (population (buckets k))
    ∧ (called_once k0 ops = true → len r = Z.min max (count k)).
Proof.
  intros Hm Hnew Hrun Hmax.
  destruct (reachable_count_ge a p k0 ops k Hm Hnew Hrun) as [Hwf Hge].
  destruct (FindClosest_spec k target max Hwf ltac:(lia))
    as (r & vs & Hr & (Hs & Hlen & _) & Hle & Hpos & _).
  destruct (Z.eqb_spec max 0); [lia|].
  assert (len r = Z.min max (population (buckets k))) as Hl by (specialize (Hpos Hmax); lia).
  exists r. split; [done|]. split.
  - apply sortedByDistanceTo_Sorted. by apply StronglySorted_Sorted.
  - split; [done|]. intros Honce.
    destruct (run_tidy k0 ops) as (k' & Hr' & _ & [Hc _] & _);
      [by eapply New_wf | by eapply New_tidy | done |].
    replace k' with k in Hc by congruence. by rewrite Hc.
Qed.

Lemma FindClosest_sorted_length_witness :
  ∃ r, FindClosest full8 [0; 128]%N 2 = Ok r
    ∧ sortedByDistanceTo [0; 128]%N r = true
    ∧ len r = Z.min 2 (population (buckets full8))
    ∧ (called_once fresh fill8 = true → len r = Z.min 2 (count full8)).
Proof.
  apply (FindClosest_sorted_length base defaults fresh fill8 full8 [0; 128]%N 2);
    [done | reflexivity | vm_compute; reflexivity | done].
Defined.

(** The five additions of [sample], without the removal. *)
Definition five : list op := take 5 sample.

Definition table5 : Kademlia :=
  Eval vm_compute in match run fresh five with Ok k => k | _ => fresh end.

(** C4, counterexample: with one node in bin 0, one in bin 7 and three in
    bin 8 the limit is 1; for a target of bin 0, [FindClosest(target, 0)]
    returns the node of bin 0 alone while [count] is 5. *)
Lemma FindClosest_zero_not_all :
  (k0 ← New base defaults; k ← run k0 five;
   r ← FindClosest k [128; 0]%N 0;
   Ok (proxLimit k, len r, count k)) = Ok (1, 1, 5).
Proof. vm_compute. reflexivity. Qed.

(** C4, as amended: in every reachable state [FindClosest(target, 0)] returns
    a list sorted by distance to the target, of length at most
    [min(count, 1000)], and not all live peers in general: when the target's
    bin lies below [proxLimit] and is not empty, it returns the peers of that
    bin alone; when the target's bin is at or above [proxLimit] and the bins
    from [proxLimit] up are not all empty, it returns the peers of those bins;
    in both cases at most 1000 of them. *)
Theorem FindClosest_zero a p k0 ops k target :
  0 ≤ MaxProx p →
  New a p = Ok k0 →
  run k0 ops = Ok k →
  ∃ r, FindClosest k target 0 = Ok r
    ∧ sortedByDistanceTo target r = true
    ∧ len r ≤ Z.min 1000 (count k)
    ∧ (proximityBin k target < proxLimit k →
       ∀ b, buckets k !! Z.to_nat (proximityBin k target) = Some b → nodes b ≠ [] →
         len r = Z.min 1000 (len (nodes b))
         ∧ (len (nodes b) ≤ 1000 → r ≡ₚ nodes b))
    ∧ (proxLimit k ≤ proximityBin k target → 0 < proxPopulation k →
       len r = Z.min 1000 (proxPopulation k)
       ∧ (proxPopulation k ≤ 1000 →
          r ≡ₚ held (drop (Z.to_nat (proxLimit k)) (buckets k)))).
Proof.
  intros Hm Hnew Hrun.
  destruct (reachable_count_ge a p k0 ops k Hm Hnew Hrun) as [Hwf Hge].
  destruct (FindClosest_spec k target 0 Hwf ltac:(lia))
    as (r & vs & Hr & (Hs & Hlen & Hperm) & Hle & _ & Hfar & Hnear).
  simpl in Hlen, Hperm.
  exists r. split; [done|]. split.
  { apply sortedByDistanceTo_Sorted. by apply StronglySorted_Sorted. }
  split; [lia|]. split.
  - intros Hi b Hb Hne. rewrite (Hfar eq_refl Hi b Hb Hne) in Hlen, Hperm.
    simpl in Hlen, Hperm. rewrite Z.add_0_r in Hlen, Hperm.
    split; [done|]. intros Hfit. rewrite (Hperm Hfit). unfold held. simpl.
    by rewrite app_nil_r.
  - intros Hi Hpop. rewrite (Hnear eq_refl Hi Hpop) in Hlen, Hperm. done.
Qed.

Lemma FindClosest_zero_witness :
  ∃ r, FindClosest table5 [128; 0]%N 0 = Ok r
    ∧ sortedByDistanceTo [128; 0]%N r = true
    ∧ len r ≤ Z.min 1000 (count table5)
    ∧ (proximityBin table5 [128; 0]%N < proxLimit table5 →
       ∀ b, buckets table5 !! Z.to_nat (proximityBin table5 [128; 0]%N) = Some b →
         nodes b ≠ [] →
         len r = Z.min 1000 (len (nodes b))
         ∧ (len (nodes b) ≤ 1000 → r ≡ₚ nodes b))
    ∧ (proxLimit table5 ≤ proximityBin table5 [128; 0]%N → 0 < proxPopulation table5 →
       len r = Z.min 1000 (proxPopulation table5)
       ∧ (proxPopulation table5 ≤ 1000 →
          r ≡ₚ held (drop (Z.to_nat (proxLimit table5)) (buckets table5)))).
Proof.
  apply (FindClosest_zero base defaults fresh five table5 [128; 0]%N);
    [done | reflexivity | vm_compute; reflexivity].
Defined.

End KadFacts.

(** * Further properties of the routing table *)

Module KadProps.
Import Kademlia ResFacts KadFacts.

(** ** Tables reached from [New] *)

(** No bucket holds more nodes than its size. *)
Definition roomy (k : Kademlia) : Prop :=
  Forall (λ b, len (nodes b) ≤ size b) (buckets k).

Lemma New_roomy a p k : New a p = Ok k → 0 ≤ BucketSize p → roomy k.
Proof.
  unfold New, newKadDb. simpl. destruct (Z.ltb_spec (MaxProx p + 1) 0); [done|].
  simpl. intros [= <-] Hb. unfold roomy. simpl. apply Forall_replicate. simpl.
  by rewrite len_nil.
Qed.

Lemma step_roomy k o k' e : wf k → roomy k → step k o = Ok (k', e) → roomy k'.
Proof.
  intros Hwf Hr Hstep. destruct o as [node cb|node cb]; simpl in Hstep.
  - destruct (On_spec k node cb Hwf) as (k1 & e1 & Hon1 & _ & _ & _ & Hcase).
    rewrite Hstep in Hon1. injection Hon1 as <- <-.
    destruct Hcase as [(_ & Hb & _)|(_ & b & Hb & Hlt & Hbs & _)].
    + unfold roomy. by rewrite Hb.
    + unfold roomy. rewrite Hbs. apply Forall_insert; [done|]. simpl.
      rewrite len_app, len_cons, len_nil. lia.
  - destruct (Off_spec k node cb Hwf)
      as (k1 & e1 & Hoff1 & _ & _ & _ & b & found & ns & Hb & Hscan & Hcase).
    rewrite Hstep in Hoff1. injection Hoff1 as <- <-.
    destruct found; [|by destruct Hcase as [-> _]].
    destruct Hcase as [Hbs _]. unfold roomy. rewrite Hbs.
    apply Forall_insert; [done|]. simpl.
    pose proof (Forall_lookup_1 _ _ _ _ Hr Hb) as Hle. simpl in Hle.
    apply Off_scan_shrinks in Hscan as [[_ ->]|[_ Hlt]]; unfold len in *; lia.
Qed.

Lemma run_roomy k ops k' : wf k → roomy k → run k ops = Ok k' → wf k' ∧ roomy k'.
Proof.
  revert k. induction ops as [|o ops IH]; intros k Hwf Hr; simpl.
  - by intros [= <-].
  - destruct (step_wf k o Hwf) as (k1 & e & Hs & Hw1 & _). rewrite Hs. simpl.
    apply IH; [done|]. by apply (step_roomy k o k1 e).
Qed.

Lemma run_params k ops k' : wf k → run k ops = Ok k' → params k' = params k.
Proof.
  intros Hwf Hrun. destruct (run_wf k ops Hwf) as (k1 & Hr & _ & Hp). congruence.
Qed.

Lemma New_params a p k :
  New a p = Ok k → params k = mkKadParams (MaxProx p) 4 (BucketSize p) ∧ addr k = a.
Proof.
  unfold New, newKadDb. simpl. destruct (Z.ltb_spec (MaxProx p + 1) 0); [done|].
  simpl. by intros [= <-].
Qed.

(** X1: no bin of a table ever holds more than [BucketSize] nodes: in every
    state reached from [New] by [On] and [Off], [binsize(i)] is defined for
    each bin [0 <= i <= MaxProx] and is at most [BucketSize]. *)
Theorem binsize_bounded a p k0 ops k i :
  0 ≤ MaxProx p → 0 ≤ BucketSize p → New a p = Ok k0 → run k0 ops = Ok k →
  0 ≤ i ≤ MaxProx p →
  ∃ n, binsize k i = Ok n ∧ 0 ≤ n ≤ BucketSize p.
Proof.
  intros Hm Hb Hnew Hrun Hi.
  pose proof (New_wf a p k0 Hnew Hm) as Hwf0.
  destruct (run_roomy k0 ops k Hwf0 (New_roomy a p k0 Hnew Hb) Hrun) as [Hwf Hr].
  pose proof (run_params k0 ops k Hwf0 Hrun) as Hp.
  destruct (New_params a p k0 Hnew) as [Hp0 _]. rewrite Hp0 in Hp.
  destruct Hwf as (_ & Hl & _ & Hsz & _). rewrite Hp in Hl, Hsz. simpl in Hl, Hsz.
  unfold binsize. destruct (index_at_total (buckets k) i) as [b Hbk]; [lia|].
  rewrite Hbk. simpl. apply index_at_Ok in Hbk as [_ Hbk].
  exists (len (nodes b)). split; [done|]. split; [apply len_nonneg|].
  pose proof (Forall_lookup_1 _ _ _ _ Hr Hbk) as H1.
  pose proof (Forall_lookup_1 _ _ _ _ Hsz Hbk) as H2. simpl in *. lia.
Qed.

Lemma binsize_bounded_witness :
  ∃ n, binsize full8 8 = Ok n ∧ 0 ≤ n ≤ BucketSize defaults.
Proof.
  apply (binsize_bounded base defaults fresh fill8 full8 8);
    [done | done | reflexivity | vm_compute; reflexivity | done].
Defined.

(** ** [Off] *)

(** X2: [Off] of a node whose address no bucket holds changes nothing: the
    table is returned as it is, with no error, and the callback is not
    invoked. *)
Theorem Off_absent a p k0 ops k node cb :
  0 ≤ MaxProx p → New a p = Ok k0 → run k0 ops = Ok k →
  live k (Addr node) = false →
  Off k node cb = Ok (k, None).
Proof.
  intros Hm Hnew Hrun Hlive.
  destruct (run_wf k0 ops (New_wf a p k0 Hnew Hm)) as (k1 & Hr & Hwf & _).
  assert (k1 = k) as -> by congruence.
  destruct (Off_spec k node cb Hwf)
    as (k' & e & Hoff & _ & _ & _ & b & found & ns & Hb & Hscan & Hcase).
  rewrite Off_scan_absent in Hscan.
  - injection Hscan as <- <-. by destruct Hcase as [-> ->].
  - lia.
  - rewrite drop_0. by eapply live_false.
Qed.

Lemma Off_absent_witness :
  Off full8 (peer 1 0) None = Ok (full8, None).
Proof.
  apply (Off_absent base defaults fresh fill8 full8 (peer 1 0) None);
    [done | reflexivity | vm_compute; reflexivity | vm_compute; reflexivity].
Defined.

Lemma Off_scan_true fuel a : ∀ ns i found,
  (length ns ≤ fuel + i)%nat → a ∈ Addr <$> drop i ns →
  ∃ ns', Off_scan fuel a ns i found = Ok (true, ns') ∧ (length ns' < length ns)%nat.
Proof.
  induction fuel as [|fuel IH]; intros ns i found Hf Ha.
  - rewrite drop_ge in Ha by lia. by apply elem_of_nil in Ha.
  - simpl. destruct (ns !! i) as [n|] eqn:E.
    2:{ rewrite drop_ge in Ha; [by apply elem_of_nil in Ha|]. by apply lookup_ge_None. }
    pose proof (length_delete ns i (mk_is_Some _ _ E)) as Hl.
    pose proof (lookup_lt_Some _ _ _ E) as Hlt.
    destruct (decide (a = Addr n)) as [->|Hne].
    + destruct (Off_scan_sublist fuel (Addr n) (delete i ns) (S i) true)
        as (f' & ns' & Hscan & _); [lia|].
      rewrite Hscan. apply Off_scan_shrinks in Hscan as [[-> ->]|[-> Hlt']].
      * exists (delete i ns). split; [done|]. lia.
      * exists ns'. split; [done|]. lia.
    + apply IH; [lia|].
      rewrite (drop_S _ _ _ E), fmap_cons in Ha.
      apply elem_of_cons in Ha as [?|?]; [congruence | done].
Qed.

Lemma filter_delete_out {A} (P : A → Prop) `{∀ x, Decision (P x)} (l : list A) i x :
  l !! i = Some x → ¬ P x → filter P (delete i l) = filter P l.
Proof.
  revert i. induction l as [|y l IH]; intros [|i] E Hx; simpl in *; try done.
  - injection E as ->. by rewrite filter_cons_False.
  - rewrite !filter_cons. by rewrite (IH i E Hx).
Qed.

(** The loop takes out no entry with another address. *)
Lemma Off_scan_others fuel a : ∀ ns i found found' ns',
  Off_scan fuel a ns i found = Ok (found', ns') →
  filter (λ n, Addr n ≠ a) ns' = filter (λ n, Addr n ≠ a) ns.
Proof.
  induction fuel as [|fuel IH]; intros ns i found found' ns'; simpl.
  - destruct (ns !! i); [done|]. by intros [= _ <-].
  - destruct (ns !! i) as [n|] eqn:E; [|by intros [= _ <-]].
    destruct (decide (a = Addr n)) as [->|Hne]; intros Hscan.
    + rewrite (IH _ _ _ _ _ Hscan). apply (filter_delete_out _ _ _ _ E). by intros ?.
    + by apply (IH _ _ _ _ _ Hscan).
Qed.

(** Two adjacent entries with the address: the loop removes the first and steps
    over the second, which stays in the bin. *)
Lemma Off_scan_adjacent n : Off_scan 2 (Addr n) [n; n] 0 false = Ok (true, [n]).
Proof. simpl. by rewrite decide_True. Qed.

(** X3: in every state reached from [New] (with [MaxProx >= 0] and
    [BucketSize >= 0]) by [On] and [Off], [Off] of a node whose address its bin
    holds always reports an error.
    The loop takes at least one entry with that address out of the bin, and
    no entry with another address: the bin afterwards is a strictly shorter
    sublist of the bin before and holds the same entries with other addresses,
    in the same order (entries with the node's address may remain: the loop
    steps over the entry that follows a removed one).  The other bins are as
    before and [count] is decremented by one.  Since a bin never holds more
    than [BucketSize] nodes the bin is then short of its size, so the call
    returns "insufficient nodes" with the new length of the bin, which is
    what [binsize] gives for it afterwards. *)
Theorem Off_reports_insufficient a p k0 ops k node cb b :
  0 ≤ MaxProx p → 0 ≤ BucketSize p → New a p = Ok k0 → run k0 ops = Ok k →
  buckets k !! Z.to_nat (proximityBin k (Addr node)) = Some b →
  Addr node ∈ Addr <$> nodes b →
  ∃ k' ns, Off k node cb
           = Ok (k', Some (InsufficientNodes (len ns) (proximityBin k (Addr node))))
    ∧ buckets k'
      = store_at (buckets k) (proximityBin k (Addr node)) (mkBucket (size b) ns)
    ∧ binsize k' (proximityBin k (Addr node)) = Ok (len ns)
    ∧ sublist ns (nodes b)
    ∧ filter (λ n, Addr n ≠ Addr node) ns = filter (λ n, Addr n ≠ Addr node) (nodes b)
    ∧ len ns < len (nodes b) ∧ len ns < BucketSize p
    ∧ count k' = count k - 1.
Proof.
  intros Hm Hbs Hnew Hrun Hb Hin.
  pose proof (New_wf a p k0 Hnew Hm) as Hwf0.
  destruct (run_roomy k0 ops k Hwf0 (New_roomy a p k0 Hnew Hbs) Hrun) as [Hwf Hr].
  pose proof (run_params k0 ops k Hwf0 Hrun) as Hp.
  destruct (New_params a p k0 Hnew) as [Hp0 _]. rewrite Hp0 in Hp.
  pose proof Hwf as (_ & Hl & Hpl & Hsz & Hn & Hix).
  pose proof (proximityBin_range k (Addr node) ltac:(by rewrite Hp)) as Hi.
  set (i := proximityBin k (Addr node)) in *.
  pose proof (Forall_lookup_1 _ _ _ _ Hsz Hb) as Hsb. simpl in Hsb.
  pose proof (Forall_lookup_1 _ _ _ _ Hr Hb) as Hrb. simpl in Hrb.
  pose proof (Forall_lookup_1 _ _ _ _ Hix Hb) as Hxb. simpl in Hxb.
  destruct (Off_scan_true (length (nodes b)) (Addr node) (nodes b) 0 false)
    as (ns & Hscan & Hlt); [lia | by rewrite drop_0 |].
  pose proof (Off_scan_others _ _ _ _ _ _ _ Hscan) as Hoth.
  destruct (Off_scan_sublist (length (nodes b)) (Addr node) (nodes b) 0 false)
    as (f1 & ns1 & Hscan1 & Hsub); [lia|].
  rewrite Hscan in Hscan1. injection Hscan1 as <- <-.
  unfold Off. fold i.
  assert (index_at (buckets k) i = Ok b) as ->.
  { apply index_at_Ok. split; [lia | done]. }
  simpl. rewrite Hscan. simpl.
  set (k1 := with_count _ _).
  destruct (setProxLimit_spec k1 i true) as (k2 & Hk2 & Hs & _);
    subst k1; simpl; try rewrite len_store; try lia.
  rewrite Hk2. simpl. destruct Hs as (_ & _ & Hc & Hbk & Hdb).
  simpl in Hc, Hbk, Hdb. rewrite Hdb.
  apply list_elem_of_fmap in Hin as (n & Hn1 & Hn2).
  rewrite Forall_forall in Hxb. destruct (Hxb n Hn2) as [r Hr'].
  rewrite <- Hn1 in Hr'. rewrite Hr'.
  destruct (Z.ltb_spec (len ns) (size b)) as [_|Hge]; [|unfold len in *; lia].
  rewrite Hp in Hsb. simpl in Hsb.
  eexists _, ns. split; [done|]. unfold binsize. simpl. rewrite Hbk, Hc.
  split_and!; try done; unfold len in *; try lia.
  assert (index_at (store_at (buckets k) i (mkBucket (size b) ns)) i
          = Ok (mkBucket (size b) ns)) as ->; [|done].
  apply index_at_Ok. split; [lia|]. unfold store_at.
  apply list_lookup_insert_eq. by apply (lookup_lt_Some _ _ b).
Qed.

Lemma Off_reports_insufficient_witness :
  ∃ k' ns, Off full8 (peer 0 129) None
           = Ok (k', Some (InsufficientNodes (len ns) (proximityBin full8 (Addr (peer 0 129)))))
    ∧ buckets k'
      = store_at (buckets full8) (proximityBin full8 (Addr (peer 0 129))) (mkBucket 3 ns)
    ∧ binsize k' (proximityBin full8 (Addr (peer 0 129))) = Ok (len ns)
    ∧ sublist ns [peer 0 128; peer 0 129; peer 0 130]
    ∧ filter (λ n, Addr n ≠ Addr (peer 0 129)) ns
      = filter (λ n, Addr n ≠ Addr (peer 0 129)) [peer 0 128; peer 0 129; peer 0 130]
    ∧ len ns < len [peer 0 128; peer 0 129; peer 0 130]
    ∧ len ns < BucketSize defaults
    ∧ count k' = count full8 - 1.
Proof.
  apply (Off_reports_insufficient base defaults fresh fill8 full8 (peer 0 129) None
           (mkBucket 3 [peer 0 128; peer 0 129; peer 0 130])).
  - done.
  - done.
  - reflexivity.
  - vm_compute. reflexivity.
  - vm_compute. reflexivity.
  - simpl. set_solver.
Defined.

(** ** The proximity limit *)

(** No bin below [proxLimit] is empty. *)
Definition dense (k : Kademlia) : Prop :=
  ∀ i b, 0 ≤ i < proxLimit k → buckets k !! Z.to_nat i = Some b → nodes b ≠ [].

Lemma expand_limit fuel : ∀ k r k',
  expand fuel k r = Ok k' → 0 ≤ r →
  same_table k k' ∧ proxLimit k' ≤ r ∧ proxLimit k' ≤ proxLimit k.
Proof.
  induction fuel as [|fuel IH]; intros k r k'; simpl;
    destruct (_ && _) eqn:E; try done.
  - intros [= <-] Hr. split; [apply same_table_refl|].
    apply andb_false_iff in E as [E|E]; [apply orb_false_iff in E as [_ E]|]; lia.
  - destruct (index_at (buckets k) (proxLimit k - 1)) as [b| |]; try done. simpl.
    intros H Hr. destruct (IH _ r k' H Hr) as (Hs & H1 & H2). simpl in H2.
    split; [|lia]. destruct Hs as (?&?&?&?&?). by repeat split.
  - intros [= <-] Hr. split; [apply same_table_refl|].
    apply andb_false_iff in E as [E|E]; [apply orb_false_iff in E as [_ E]|]; lia.
Qed.

Lemma contract_dense fuel : ∀ k k',
  contract fuel k = Ok k' → 0 ≤ proxLimit k → dense k →
  same_table k k' ∧ dense k' ∧ proxLimit k ≤ proxLimit k'.
Proof.
  assert (∀ k k', Ok k = Ok k' → dense k →
    same_table k k' ∧ dense k' ∧ proxLimit k ≤ proxLimit k') as Hstop.
  { intros k k' [= <-] Hd. split; [apply same_table_refl|]. split; [done|lia]. }
  induction fuel as [|fuel IH]; intros k k' Hrun H0 Hd; simpl in Hrun.
  - destruct (proxLimit k <? MaxProx (params k)); [|by apply Hstop].
    destruct (index_at (buckets k) (proxLimit k)) as [b| |]; try done. simpl in Hrun.
    destruct (_ && _); [done | by apply Hstop].
  - destruct (proxLimit k <? MaxProx (params k)); [|by apply Hstop].
    destruct (index_at (buckets k) (proxLimit k)) as [b| |] eqn:Hb; try done.
    simpl in Hrun. destruct (_ && _) eqn:E; [|by apply Hstop].
    apply andb_prop in E as [E _]. apply Z.ltb_lt in E.
    apply index_at_Ok in Hb as [_ Hb].
    destruct (IH _ k' Hrun) as (Hs & Hd' & Hle); simpl; [lia| |].
    + intros i c Hi Hc. simpl in Hi, Hc.
      destruct (decide (i = proxLimit k)) as [->|Hne].
      * assert (c = b) as -> by congruence. intros Hnil.
        rewrite Hnil in E. by vm_compute in E.
      * apply (Hd i c); [lia | done].
    + simpl in Hle. split; [|split; [done|lia]].
      destruct Hs as (?&?&?&?&?). by repeat split.
Qed.

Lemma dense_same k k' :
  dense k → buckets k' = buckets k → proxLimit k' = proxLimit k → dense k'.
Proof. intros Hd Hb Hp i b. rewrite Hb, Hp. apply Hd. Qed.

Lemma setProxLimit_dense k r off k' :
  setProxLimit k r off = Ok k' → 0 ≤ r → 0 ≤ proxLimit k →
  (∀ i b, 0 ≤ i < proxLimit k → i ≠ r → buckets k !! Z.to_nat i = Some b → nodes b ≠ []) →
  (off = false → dense k) →
  same_table k k' ∧ dense k'.
Proof.
  unfold setProxLimit. intros H Hr H0 Hd Hon.
  destruct (Z.ltb_spec r (proxLimit k)) as [Hlt|Hge].
  - destruct (index_at (buckets k) r) as [b| |] eqn:Hb; try done. simpl in H.
    apply index_at_Ok in Hb as [_ Hb].
    destruct (Z.ltb_spec 0 (len (nodes b))) as [Hpos|Hemp].
    + injection H as <-. split; [apply same_table_refl|]. intros i c Hi Hc.
      destruct (decide (i = r)) as [->|Hne]; [|by apply (Hd i c)].
      assert (c = b) as -> by congruence. intros Hnil.
      rewrite Hnil in Hpos. by vm_compute in Hpos.
    + destruct off.
      * apply expand_limit in H as (Hs & H1 & H2); [|done]. simpl in H2.
        split; [destruct Hs as (?&?&?&?&?); by repeat split|].
        destruct Hs as (_ & _ & _ & Hbs & _). simpl in Hbs.
        intros i c Hi Hc. rewrite Hbs in Hc. apply (Hd i c); [lia | lia | done].
      * apply contract_dense in H as (Hs & Hd' & _); simpl; [| lia |].
        -- split; [|done]. destruct Hs as (?&?&?&?&?). by repeat split.
        -- apply (dense_same k); [by apply Hon | done | done].
  - simpl in H. destruct off.
    + apply expand_limit in H as (Hs & H1 & H2); [|done]. simpl in H2.
      split; [destruct Hs as (?&?&?&?&?); by repeat split|].
      destruct Hs as (_ & _ & _ & Hbs & _). simpl in Hbs.
      intros i c Hi Hc. rewrite Hbs in Hc. apply (Hd i c); [lia | lia | done].
    + apply contract_dense in H as (Hs & Hd' & _); simpl; [| lia |].
      * split; [|done]. destruct Hs as (?&?&?&?&?). by repeat split.
      * apply (dense_same k); [by apply Hon | done | done].
Qed.

(** [On], down to its call of [setProxLimit]. *)
Lemma On_unfold k node cb k' e :
  On k node cb = Ok (k', e) →
  let i := proximityBin k (Addr node) in
  (buckets k' = buckets k ∧ proxLimit k' = proxLimit k ∧ proxSize k' = proxSize k
   ∧ count k' = count k)
  ∨ (e = None ∧ ∃ b k1, buckets k !! Z.to_nat i = Some b ∧ 0 ≤ i
       ∧ len (nodes b) < size b
       ∧ buckets k1 = <[Z.to_nat i := mkBucket (size b) (nodes b ++ [node])]> (buckets k)
       ∧ proxLimit k1 = proxLimit k ∧ proxSize k1 = proxSize k
       ∧ count k1 = count k + 1 ∧ params k1 = params k
       ∧ setProxLimit k1 i false = Ok k').
Proof.
  intros Hon i. unfold On in Hon. fold i in Hon.
  destruct (findOrCreate (db k) i (Addr node) (Url node)) as [[d record]| |]; try done.
  simpl in Hon.
  destruct (match cb with Some f => _ | None => _ end) as [record' err].
  destruct err as [err|]; [injection Hon as <- <-; by left|].
  simpl in Hon.
  destruct (index_at (buckets k) i) as [b| |] eqn:Hb; try done. simpl in Hon.
  apply index_at_Ok in Hb as [Hi Hb].
  unfold insert in Hon. destruct (Z.leb_spec (size b) (len (nodes b))) as [Hfull|Hroom].
  - injection Hon as <- <-. left. simpl. split_and!; try done.
    unfold store_at. by apply list_insert_id.
  - simpl in Hon. set (k1 := with_count _ _) in Hon.
    destruct (setProxLimit k1 i false) as [k2| |] eqn:Hset; try done.
    injection Hon as <- <-. right. split; [done|]. exists b, k1. by split_and!.
Qed.

(** [Off], down to its call of [setProxLimit]. *)
Lemma Off_unfold k node cb k' e :
  Off k node cb = Ok (k', e) →
  let i := proximityBin k (Addr node) in
  k' = k
  ∨ (∃ b ns k1 k2, buckets k !! Z.to_nat i = Some b ∧ 0 ≤ i
       ∧ Off_scan (length (nodes b)) (Addr node) (nodes b) 0 false = Ok (true, ns)
       ∧ buckets k1 = <[Z.to_nat i := mkBucket (size b) ns]> (buckets k)
       ∧ proxLimit k1 = proxLimit k ∧ proxSize k1 = proxSize k
       ∧ count k1 = count k - 1 ∧ params k1 = params k
       ∧ setProxLimit k1 i true = Ok k2
       ∧ buckets k' = buckets k2 ∧ proxLimit k' = proxLimit k2
       ∧ proxSize k' = proxSize k2 ∧ count k' = count k2).
Proof.
  intros Hoff i. unfold Off in Hoff. fold i in Hoff.
  destruct (index_at (buckets k) i) as [b| |] eqn:Hb; try done. simpl in Hoff.
  apply index_at_Ok in Hb as [Hi Hb].
  destruct (Off_scan _ _ _ _ _) as [[found ns]| |] eqn:Hscan; try done. simpl in Hoff.
  destruct found; [|injection Hoff as <- <-; by left].
  set (k1 := with_count _ _) in Hoff.
  destruct (setProxLimit k1 i true) as [k2| |] eqn:Hset; try done. simpl in Hoff.
  destruct (index (db k2) !! Addr node) as [r|]; try done.
  injection Hoff as <- <-. right. exists b, ns, k1, k2. by split_and!.
Qed.

Lemma step_dense k o k' e : wf k → dense k → step k o = Ok (k', e) → dense k'.
Proof.
  intros Hwf Hd Hstep. pose proof Hwf as (Hm & Hl & Hp & _).
  destruct o as [node cb|node cb]; simpl in Hstep.
  - destruct (On_unfold k node cb k' e Hstep)
      as [(Hb & Hpl & _)|(_ & b & k1 & Hb & Hi & _ & Hbs & Hpl & _ & _ & _ & Hset)].
    + by apply (dense_same k).
    + apply setProxLimit_dense in Hset as [_ Hd']; try done; try lia.
      * intros j c Hj Hne Hc. rewrite Hbs in Hc.
        rewrite list_lookup_insert_ne in Hc by lia. apply (Hd j c); [lia | done].
      * intros _ j c Hj Hc. rewrite Hbs in Hc. rewrite Hpl in Hj.
        destruct (decide (j = proximityBin k (Addr node))) as [->|Hne].
        -- rewrite list_lookup_insert_eq in Hc by (by apply (lookup_lt_Some _ _ b)).
           injection Hc as <-. simpl. by destruct (nodes b).
        -- rewrite list_lookup_insert_ne in Hc by lia. by apply (Hd j c).
  - destruct (Off_unfold k node cb k' e Hstep)
      as [->|(b & ns & k1 & k2 & Hb & Hi & _ & Hbs & Hpl & _ & _ & _ & Hset & Hb' & Hpl' & _)];
      [done|].
    apply setProxLimit_dense in Hset as [_ Hd']; try done; try lia.
    + by apply (dense_same k2).
    + intros j c Hj Hne Hc. rewrite Hbs in Hc.
      rewrite list_lookup_insert_ne in Hc by lia. apply (Hd j c); [lia | done].
Qed.

Lemma run_dense k ops k' : wf k → dense k → run k ops = Ok k' → dense k'.
Proof.
  revert k. induction ops as [|o ops IH]; intros k Hwf Hd; simpl.
  - by intros [= <-].
  - destruct (step_wf k o Hwf) as (k1 & e & Hs & Hw1 & _). rewrite Hs. simpl.
    apply IH; [done|]. by apply (step_dense k o k1 e).
Qed.

(** X4: no bin below [proxLimit] is empty, as the comment of [setProxLimit]
    promises: in every state reached from [New] by [On] and [Off], each bin
    [0 <= i < proxLimit] holds at least one node. *)
Theorem bins_below_proxLimit a p k0 ops k i :
  0 ≤ MaxProx p → New a p = Ok k0 → run k0 ops = Ok k →
  0 ≤ i < proxLimit k →
  ∃ n, binsize k i = Ok n ∧ 0 < n.
Proof.
  intros Hm Hnew Hrun Hi.
  pose proof (New_wf a p k0 Hnew Hm) as Hwf0.
  assert (dense k0) as Hd0.
  { intros j b Hj. revert Hnew. unfold New, newKadDb. simpl.
    destruct (_ <? 0); [done|]. simpl. intros [= <-]. simpl in Hj. lia. }
  pose proof (run_dense k0 ops k Hwf0 Hd0 Hrun) as Hd.
  destruct (run_wf k0 ops Hwf0) as (k1 & Hr & Hwf & _).
  assert (k1 = k) as -> by congruence.
  destruct Hwf as (_ & Hl & Hp & _).
  unfold binsize. destruct (index_at_total (buckets k) i) as [b Hb]; [lia|].
  rewrite Hb. simpl. apply index_at_Ok in Hb as [_ Hb].
  exists (len (nodes b)). split; [done|].
  pose proof (Hd i b Hi Hb). unfold len. destruct (nodes b); [done|]. simpl. lia.
Qed.

Lemma bins_below_proxLimit_witness :
  ∃ n, binsize table5 0 = Ok n ∧ 0 < n.
Proof.
  apply (bins_below_proxLimit base defaults fresh five table5 0);
    [done | reflexivity | vm_compute; reflexivity | vm_compute; done].
Defined.

(** ** What [setProxLimit] accounts for *)

Lemma expand_account fuel : ∀ k r k',
  expand fuel k r = Ok k' →
  proxSize k' - proxPopulation k' = proxSize k - proxPopulation k.
Proof.
  induction fuel as [|fuel IH]; intros k r k'; simpl;
    destruct (_ && _) eqn:E; try done; try (by intros [= <-]).
  destruct (index_at (buckets k) (proxLimit k - 1)) as [b| |] eqn:Hb; try done. simpl.
  intros H. rewrite (IH _ r k' H). unfold proxPopulation. simpl.
  apply andb_prop in E as [_ E]. apply Z.ltb_lt in E.
  apply index_at_Ok in Hb as [_ Hb].
  rewrite (population_drop _ _ b Hb).
  replace (S (Z.to_nat (proxLimit k - 1))) with (Z.to_nat (proxLimit k)) by lia. lia.
Qed.

Lemma contract_account fuel : ∀ k k',
  contract fuel k = Ok k' → 0 ≤ proxLimit k →
  proxSize k' - proxPopulation k' = proxSize k - proxPopulation k.
Proof.
  induction fuel as [|fuel IH]; intros k k' Hrun H0; simpl in Hrun.
  - destruct (proxLimit k <? MaxProx (params k)); [|by injection Hrun as <-].
    destruct (index_at (buckets k) (proxLimit k)) as [b| |]; try done. simpl in Hrun.
    destruct (_ && _); [done | by injection Hrun as <-].
  - destruct (proxLimit k <? MaxProx (params k)); [|by injection Hrun as <-].
    destruct (index_at (buckets k) (proxLimit k)) as [b| |] eqn:Hb; try done.
    simpl in Hrun. destruct (_ && _); [|by injection Hrun as <-].
    rewrite (IH _ k' Hrun) by (simpl; lia). unfold proxPopulation. simpl.
    apply index_at_Ok in Hb as [_ Hb]. rewrite (population_drop _ _ b Hb).
    replace (S (Z.to_nat (proxLimit k))) with (Z.to_nat (proxLimit k + 1)) by lia. lia.
Qed.

(** X5: [setProxLimit(r, off)] on a valid bin never touches the buckets or
    [count]; it moves [proxLimit] only down when [off] and only up otherwise,
    within [0, MaxProx]; and unless it returns early (bin [r] lies below
    [proxLimit] and is not empty) it changes the difference between
    [proxSize] and the number of nodes in the bins from [proxLimit] on by
    exactly -1 when [off] and +1 otherwise. *)
Theorem setProxLimit_accounting k r off :
  0 ≤ r < len (buckets k) →
  0 ≤ proxLimit k ≤ MaxProx (params k) →
  MaxProx (params k) < len (buckets k) →
  ∃ k', setProxLimit k r off = Ok k'
    ∧ buckets k' = buckets k ∧ count k' = count k ∧ params k' = params k
    ∧ 0 ≤ proxLimit k' ≤ MaxProx (params k)
    ∧ (if off then proxLimit k' ≤ proxLimit k else proxLimit k ≤ proxLimit k')
    ∧ ((k' = k ∧ r < proxLimit k ∧ ∃ n, binsize k r = Ok n ∧ 0 < n)
       ∨ proxSize k' - proxPopulation k'
         = proxSize k - proxPopulation k + (if off then -1 else 1)).
Proof.
  intros Hr Hp Hm.
  destruct (setProxLimit_spec k r off Hr Hp Hm) as (k' & Hset & Hs & Hpl).
  destruct Hs as (_ & Hpar & Hc & Hb & _).
  exists k'. split; [done|]. split_and!; try done; try lia.
  - revert Hset. unfold setProxLimit.
    destruct (index_at_total (buckets k) r) as [b Hbr]; [done|].
    destruct ((if r <? proxLimit k then _ else _) : res bool) as [[|]| |];
      simpl; try done; [by intros [= <-]; destruct off; lia|].
    destruct off; intros Hrun.
    + apply expand_limit in Hrun as (_ & _ & ?); [done | lia].
    + destruct (contract_spec (Z.to_nat (MaxProx (params k) - proxLimit k))
                  (with_prox k (proxLimit k) (proxSize k + 1)))
        as (k2 & Hk2 & _ & Hl); simpl; [lia | lia | lia |].
      simpl in Hrun. rewrite Hk2 in Hrun. injection Hrun as <-. simpl in Hl. lia.
  - revert Hset. unfold setProxLimit, binsize.
    destruct (index_at_total (buckets k) r) as [b Hbr]; [done|]. rewrite Hbr. simpl.
    destruct (Z.ltb_spec r (proxLimit k)) as [Hlt|Hge]; simpl.
    + destruct (Z.ltb_spec 0 (len (nodes b))) as [Hpos|Hemp].
      * intros [= <-]. left. split_and!; try done. by exists (len (nodes b)).
      * right. destruct off.
        -- apply expand_account in Hset. rewrite Hset. unfold proxPopulation. simpl. lia.
        -- apply contract_account in Hset; [|simpl; lia].
           rewrite Hset. unfold proxPopulation. simpl. lia.
    + right. destruct off.
      * apply expand_account in Hset. rewrite Hset. unfold proxPopulation. simpl. lia.
      * apply contract_account in Hset; [|simpl; lia].
        rewrite Hset. unfold proxPopulation. simpl. lia.
Qed.

Lemma setProxLimit_accounting_witness :
  ∃ k', setProxLimit table5 7 true = Ok k'
    ∧ buckets k' = buckets table5 ∧ count k' = count table5 ∧ params k' = params table5
    ∧ 0 ≤ proxLimit k' ≤ MaxProx (params table5)
    ∧ (if true then proxLimit k' ≤ proxLimit table5 else proxLimit table5 ≤ proxLimit k')
    ∧ ((k' = table5 ∧ 7 < proxLimit table5 ∧ ∃ n, binsize table5 7 = Ok n ∧ 0 < n)
       ∨ proxSize k' - proxPopulation k'
         = proxSize table5 - proxPopulation table5 + (if true then -1 else 1)).
Proof.
  apply (setProxLimit_accounting table5 7 true); vm_compute; done.
Defined.

(** ** Runs *)

(** X6: on a table built by [New] with [MaxProx >= 0] no sequence of [On]
    and [Off] calls panics: every bin index is in range and [Off] finds the
    record of every node it removes.  The table keeps its [MaxProx + 1]
    buckets of size [BucketSize], its parameters ([ProxBinSize] set to 4 by
    [New]) and [0 <= proxLimit <= MaxProx]. *)
Theorem run_total a p k0 ops :
  0 ≤ MaxProx p → New a p = Ok k0 →
  ∃ k, run k0 ops = Ok k
    ∧ addr k = a ∧ params k = mkKadParams (MaxProx p) 4 (BucketSize p)
    ∧ len (buckets k) = MaxProx p + 1
    ∧ Forall (λ b, size b = BucketSize p) (buckets k)
    ∧ 0 ≤ proxLimit k ≤ MaxProx p.
Proof.
  intros Hm Hnew. pose proof (New_wf a p k0 Hnew Hm) as Hwf0.
  destruct (New_params a p k0 Hnew) as [Hp0 Ha0].
  assert (∀ ops k, wf k → ∃ k', run k ops = Ok k' ∧ wf k' ∧ params k' = params k
            ∧ addr k' = addr k) as Hrun.
  { clear. induction ops as [|o ops IH]; intros k Hwf; simpl; [eauto|].
    assert (∃ k1 e, step k o = Ok (k1, e) ∧ wf k1 ∧ params k1 = params k
              ∧ addr k1 = addr k) as (k1 & e & -> & Hw1 & Hp1 & Ha1).
    { destruct o as [node cb|node cb]; simpl.
      - destruct (On_spec k node cb Hwf) as (k' & e & H & Hw & Ha & Hp & _). eauto 7.
      - destruct (Off_spec k node cb Hwf) as (k' & e & H & Hw & Ha & Hp & _). eauto 7. }
    simpl. destruct (IH k1 Hw1) as (k' & Hr & Hw' & Hp' & Ha').
    exists k'. split; [done|]. split; [done|]. split; congruence. }
  destruct (Hrun ops k0 Hwf0) as (k & Hr & Hwf & Hp & Ha).
  rewrite Hp0 in Hp. destruct Hwf as (_ & Hl & Hpl & Hsz & _).
  rewrite Hp in Hl, Hpl, Hsz. simpl in *.
  exists k. split_and!; try done; try lia. congruence.
Qed.

Lemma run_total_witness :
  ∃ k, run fresh sample = Ok k
    ∧ addr k = base ∧ params k = mkKadParams (MaxProx defaults) 4 (BucketSize defaults)
    ∧ len (buckets k) = MaxProx defaults + 1
    ∧ Forall (λ b, size b = BucketSize defaults) (buckets k)
    ∧ 0 ≤ proxLimit k ≤ MaxProx defaults.
Proof. apply (run_total base defaults fresh sample); [done | reflexivity]. Defined.

(** X7: a negative [MaxProx] is not supported: below -1 [New] itself panics
    (a slice of negative length), and with [MaxProx = -1] it builds a table
    without buckets on which every [On] and every [Off] panics. *)
Theorem New_negative a p :
  MaxProx p < 0 →
  (MaxProx p < -1 ∧ New a p = Panic)
  ∨ (MaxProx p = -1 ∧ ∃ k0, New a p = Ok k0 ∧ buckets k0 = []
       ∧ ∀ o, step k0 o = Panic).
Proof.
  intros Hm. destruct (Z.lt_ge_cases (MaxProx p) (-1)) as [Hlt|Hge].
  - left. split; [done|]. unfold New. by destruct (Z.ltb_spec (MaxProx p + 1) 0); [|lia].
  - right. split; [lia|].
    assert (∃ k0, New a p = Ok k0 ∧ buckets k0 = []) as (k0 & Hnew & Hb).
    { unfold New, newKadDb. simpl. destruct (Z.ltb_spec (MaxProx p + 1) 0); [lia|].
      simpl. eexists. split; [done|]. simpl. by replace (MaxProx p + 1) with 0 by lia. }
    exists k0. split_and!; try done. intros o. by apply (New_degenerate a p).
Qed.

Lemma New_negative_witness :
  (MaxProx (mkKadParams (-1) 4 3) < -1 ∧ New base (mkKadParams (-1) 4 3) = Panic)
  ∨ (MaxProx (mkKadParams (-1) 4 3) = -1
     ∧ ∃ k0, New base (mkKadParams (-1) 4 3) = Ok k0 ∧ buckets k0 = []
       ∧ ∀ o, step k0 o = Panic).
Proof. apply (New_negative base (mkKadParams (-1) 4 3)). simpl. lia. Defined.

(** ** [On] followed by [Off] *)

Lemma Off_scan_last (n : Node) ns fuel : ∀ i found,
  (length ns + 1 ≤ fuel + i)%nat → (i ≤ length ns)%nat →
  Addr n ∉ Addr <$> drop i ns →
  Off_scan fuel (Addr n) (ns ++ [n]) i found = Ok (true, ns).
Proof.
  induction fuel as [|fuel IH]; intros i found Hf Hi Hn; [lia|]. simpl.
  destruct (decide (i = length ns)) as [->|Hne].
  - rewrite list_lookup_middle by done. rewrite decide_True by done.
    assert (delete (length ns) (ns ++ [n]) = ns) as ->.
    { rewrite delete_middle. by rewrite app_nil_r. }
    destruct fuel; simpl; by rewrite lookup_ge_None_2 by lia.
  - assert (i < length ns)%nat as Hlt by lia.
    destruct (lookup_lt_is_Some_2 ns i Hlt) as [m Hm].
    rewrite lookup_app_l by done. rewrite Hm.
    rewrite (drop_S _ _ _ Hm), fmap_cons in Hn. apply not_elem_of_cons in Hn as [Hn1 Hn2].
    rewrite decide_False by done. apply IH; [lia | lia | done].
Qed.

(** [On] with no callback on a bin that is not full. *)
Lemma On_accepts k node b :
  wf k → buckets k !! Z.to_nat (proximityBin k (Addr node)) = Some b →
  len (nodes b) < size b →
  ∃ k', On k node None = Ok (k', None) ∧ wf k' ∧ addr k' = addr k
    ∧ params k' = params k
    ∧ buckets k' = <[Z.to_nat (proximityBin k (Addr node))
                     := mkBucket (size b) (nodes b ++ [node])]> (buckets k)
    ∧ count k' = count k + 1.
Proof.
  intros Hwf Hb Hroom.
  destruct (On_spec k node None Hwf) as (k' & e & Hon & Hwf' & Ha & Hp & _).
  pose proof Hwf as (Hm & Hl & Hpl & _).
  pose proof (proximityBin_range k (Addr node) Hm) as Hi.
  revert Hon. unfold On.
  destruct (findOrCreate _ _ _ _) as [[d record]| |]; try done. simpl.
  assert (index_at (buckets k) (proximityBin k (Addr node)) = Ok b) as ->.
  { apply index_at_Ok. split; [lia | done]. }
  simpl. unfold insert. destruct (Z.leb_spec (size b) (len (nodes b))); [lia|]. simpl.
  set (k1 := with_count _ _).
  destruct (setProxLimit_spec k1 (proximityBin k (Addr node)) false) as (k2 & Hk2 & Hs & _);
    subst k1; simpl; try rewrite len_store; try lia.
  rewrite Hk2. simpl. intros [= <- <-].
  destruct Hs as (_ & _ & Hc & Hbs & _). simpl in Hc, Hbs.
  exists k2. by split_and!.
Qed.

(** X8: taking a node online and offline again restores the buckets: when
    the bin of the node is not full and does not hold its address, [On] with
    no callback appends the node to the end of its bin and increments
    [count], and [Off] of the same node then gives back the buckets and the
    [count] of before. *)
Theorem On_Off_restores a p k0 ops k node cb b :
  0 ≤ MaxProx p → New a p = Ok k0 → run k0 ops = Ok k →
  buckets k !! Z.to_nat (proximityBin k (Addr node)) = Some b →
  len (nodes b) < BucketSize p →
  Addr node ∉ Addr <$> nodes b →
  ∃ k1 k2 e, On k node None = Ok (k1, None)
    ∧ buckets k1 = <[Z.to_nat (proximityBin k (Addr node))
                     := mkBucket (size b) (nodes b ++ [node])]> (buckets k)
    ∧ count k1 = count k + 1
    ∧ Off k1 node cb = Ok (k2, e)
    ∧ buckets k2 = buckets k ∧ count k2 = count k.
Proof.
  intros Hm Hnew Hrun Hb Hroom Hfresh.
  pose proof (New_wf a p k0 Hnew Hm) as Hwf0.
  destruct (run_wf k0 ops Hwf0) as (k' & Hr & Hwf & Hp).
  assert (k' = k) as -> by congruence.
  destruct (New_params a p k0 Hnew) as [Hp0 _]. rewrite Hp0 in Hp.
  pose proof Hwf as (_ & Hl & _ & Hsz & _).
  pose proof (Forall_lookup_1 _ _ _ _ Hsz Hb) as Hsb. simpl in Hsb.
  rewrite Hp in Hsb. simpl in Hsb.
  destruct (On_accepts k node b Hwf Hb ltac:(lia))
    as (k1 & Hon & Hwf1 & Ha1 & Hp1 & Hb1 & Hc1).
  assert (proximityBin k1 (Addr node) = proximityBin k (Addr node)) as Hbin.
  { unfold proximityBin. by rewrite Ha1, Hp1. }
  destruct (Off_spec k1 node cb Hwf1)
    as (k2 & e & Hoff & _ & _ & _ & b1 & found & ns & Hbk1 & Hscan & Hcase').
  rewrite Hbin, Hb1 in Hbk1.
  rewrite list_lookup_insert_eq in Hbk1 by (by apply (lookup_lt_Some _ _ b)).
  injection Hbk1 as <-. simpl in Hscan, Hcase'.
  rewrite Off_scan_last in Hscan.
  2:{ rewrite length_app. simpl. lia. }
  2:{ lia. }
  2:{ by rewrite drop_0. }
  injection Hscan as <- <-. destruct Hcase' as [Hb2 Hc2].
  exists k1, k2, e. split_and!; try done; try lia.
  rewrite Hb2, Hbin, Hb1. rewrite list_insert_insert_eq.
  apply list_insert_id. by destruct b.
Qed.

Lemma On_Off_restores_witness :
  ∃ k1 k2 e, On table5 (peer 2 0) None = Ok (k1, None)
    ∧ buckets k1 = <[Z.to_nat (proximityBin table5 (Addr (peer 2 0)))
                     := mkBucket (size (mkBucket 3 [])) (nodes (mkBucket 3 []) ++ [peer 2 0])]>
                     (buckets table5)
    ∧ count k1 = count table5 + 1
    ∧ Off k1 (peer 2 0) None = Ok (k2, e)
    ∧ buckets k2 = buckets table5 ∧ count k2 = count table5.
Proof.
  apply (On_Off_restores base defaults fresh five table5 (peer 2 0) None (mkBucket 3 []));
    [done | reflexivity | vm_compute; reflexivity | vm_compute; reflexivity
     | vm_compute; reflexivity | simpl; set_solver].
Defined.

(** ** [push] and [FindClosest] *)

#[local] Instance nearer_transitive target : Transitive (nearer target).
Proof. intros x y z. apply cmp_bytes_trans. Qed.

(** X9: [push] keeps a list that is sorted by distance to the target sorted.
    It never panics; the list grows by the node when it is shorter than
    [max] and keeps its length otherwise (the node then takes the place of
    the farthest one, or is dropped when it is the farthest itself); the
    result holds only nodes of the old list and the new node. *)
Theorem push_keeps_order target h node max :
  sortedByDistanceTo target h = true →
  ∃ h', push target h node max = Ok h'
    ∧ sortedByDistanceTo target h' = true
    ∧ len h' = (if len h <? max then len h + 1 else len h)
    ∧ h' ⊆+ node :: h
    ∧ (len h < max → node ∈ h').
Proof.
  intros Hs. apply sortedByDistanceTo_Sorted in Hs.
  apply (Sorted_StronglySorted (nearer target)) in Hs.
  destruct (push_spec target h node max Hs) as (m & Hm & Hpush & Hs').
  eexists. split; [exact Hpush|]. split_and!.
  - apply sortedByDistanceTo_Sorted, StronglySorted_Sorted.
    by apply StronglySorted_take.
  - rewrite len_take_put. destruct (len h <? max); lia.
  - etrans; [apply submseteq_take|]. by rewrite put_at_Permutation.
  - intros Hlt. destruct (Z.ltb_spec (len h) max); [|lia].
    rewrite take_ge by (rewrite length_put_at; lia).
    rewrite put_at_Permutation. by left.
Qed.

Lemma push_keeps_order_witness :
  ∃ h', push base [peer 0 1; peer 0 3] (peer 0 2) 2 = Ok h'
    ∧ sortedByDistanceTo base h' = true
    ∧ len h' = (if len [peer 0 1; peer 0 3] <? 2 then len [peer 0 1; peer 0 3] + 1
                else len [peer 0 1; peer 0 3])
    ∧ h' ⊆+ peer 0 2 :: [peer 0 1; peer 0 3]
    ∧ (len [peer 0 1; peer 0 3] < 2 → peer 0 2 ∈ h').
Proof.
  apply (push_keeps_order base [peer 0 1; peer 0 3] (peer 0 2) 2). reflexivity.
Defined.






(** ** Where the nodes are *)

(** Every node sits in the bin of its proximity order. *)
Definition binned (k : Kademlia) : Prop :=
  ∀ i b n, buckets k !! i = Some b → n ∈ nodes b →
    Z.to_nat (proximityBin k (Addr n)) = i.

Lemma proximityBin_same k k' a :
  addr k' = addr k → params k' = params k → proximityBin k' a = proximityBin k a.
Proof. intros Ha Hp. unfold proximityBin. by rewrite Ha, Hp. Qed.

Lemma step_binned k o k' e : wf k → binned k → step k o = Ok (k', e) → binned k'.
Proof.
  intros Hwf Hbin Hstep. destruct o as [node cb|node cb]; simpl in Hstep.
  - destruct (On_spec k node cb Hwf) as (k1 & e1 & Hon1 & _ & Ha & Hp & Hcase).
    rewrite Hstep in Hon1. injection Hon1 as <- <-.
    intros i c n Hc Hn. rewrite (proximityBin_same k k' _ Ha Hp).
    destruct Hcase as [(_ & Hb & _)|(_ & b & Hb & _ & Hbs & _)].
    + rewrite Hb in Hc. by apply (Hbin i c n).
    + rewrite Hbs in Hc.
      destruct (decide (i = Z.to_nat (proximityBin k (Addr node)))) as [->|Hne].
      * rewrite list_lookup_insert_eq in Hc by (by apply (lookup_lt_Some _ _ b)).
        injection Hc as <-. simpl in Hn.
        apply elem_of_app in Hn as [Hn|Hn%list_elem_of_singleton]; [|by subst n].
        by apply (Hbin _ b n).
      * rewrite list_lookup_insert_ne in Hc by done. by apply (Hbin i c n).
  - destruct (Off_spec k node cb Hwf)
      as (k1 & e1 & Hoff1 & _ & Ha & Hp & b & found & ns & Hb & Hscan & Hcase).
    rewrite Hstep in Hoff1. injection Hoff1 as <- <-.
    destruct found; [|by destruct Hcase as [-> _]].
    destruct Hcase as [Hbs _].
    intros i c n Hc Hn. rewrite (proximityBin_same k k' _ Ha Hp). rewrite Hbs in Hc.
    destruct (decide (i = Z.to_nat (proximityBin k (Addr node)))) as [->|Hne].
    + rewrite list_lookup_insert_eq in Hc by (by apply (lookup_lt_Some _ _ b)).
      injection Hc as <-. simpl in Hn. apply (Hbin _ b n Hb).
      destruct (Off_scan_sublist (length (nodes b)) (Addr node) (nodes b) 0 false)
        as (f' & ns' & Hscan' & Hsub); [lia|].
      rewrite Hscan in Hscan'. injection Hscan' as _ <-.
      by apply (sublist_subseteq _ _ Hsub).
    + rewrite list_lookup_insert_ne in Hc by done. by apply (Hbin i c n).
Qed.

Lemma run_binned k ops k' : wf k → binned k → run k ops = Ok k' → binned k'.
Proof.
  revert k. induction ops as [|o ops IH]; intros k Hwf Hb; simpl.
  - by intros [= <-].
  - destruct (step_wf k o Hwf) as (k1 & e & Hs & Hw1 & _). rewrite Hs. simpl.
    apply IH; [done|]. by apply (step_binned k o k1 e).
Qed.

Lemma New_binned a p k : New a p = Ok k → binned k.
Proof.
  unfold New, newKadDb. simpl. destruct (_ <? 0); [done|]. simpl. intros [= <-].
  intros i b n Hb Hn. simpl in Hb. apply lookup_replicate in Hb as [-> _].
  by apply elem_of_nil in Hn.
Qed.

(** X11: every node sits in the bin of its proximity order: in every table
    reached from [New] by [On] and [Off], a node held by bucket [i] has
    [proximityBin] [i] with respect to the table. *)
Theorem nodes_in_their_bin a p k0 ops k i b n :
  0 ≤ MaxProx p → New a p = Ok k0 → run k0 ops = Ok k →
  buckets k !! i = Some b → n ∈ nodes b →
  proximityBin k (Addr n) = Z.of_nat i.
Proof.
  intros Hm Hnew Hrun Hb Hn.
  pose proof (New_wf a p k0 Hnew Hm) as Hwf0.
  pose proof (run_binned k0 ops k Hwf0 (New_binned a p k0 Hnew) Hrun i b n Hb Hn) as H.
  destruct (run_wf k0 ops Hwf0) as (k1 & Hr & Hwf & _).
  assert (k1 = k) as -> by congruence. destruct Hwf as (Hm' & _).
  pose proof (proximityBin_range k (Addr n) Hm'). lia.
Qed.

Lemma nodes_in_their_bin_witness :
  proximityBin full8 (Addr (peer 0 129)) = Z.of_nat 8.
Proof.
  apply (nodes_in_their_bin base defaults fresh fill8 full8 8
           (mkBucket 3 [peer 0 128; peer 0 129; peer 0 130]) (peer 0 129));
    [done | reflexivity | vm_compute; reflexivity | vm_compute; reflexivity
     | set_solver].
Defined.




(** X13: [count] never falls below the number of nodes in the buckets: in
    every table reached from [New] by [On] and [Off], the sum of the lengths
    of the buckets is at most [Count()]. *)
Theorem Count_covers a p k0 ops k :
  0 ≤ MaxProx p → New a p = Ok k0 → run k0 ops = Ok k →
  0 ≤ population (buckets k) ≤ Count k.
Proof.
  intros Hm Hnew Hrun.
  destruct (reachable_count_ge a p k0 ops k Hm Hnew Hrun) as [_ Hle].
  split; [apply population_nonneg | done].
Qed.

Lemma Count_covers_witness : 0 ≤ population (buckets table5) ≤ Count table5.
Proof.
  apply (Count_covers base defaults fresh five table5);
    [done | reflexivity | vm_compute; reflexivity].
Defined.

End KadProps.


(** * Facts about the memory store *)

Module MemFacts.
Import MemStore ResFacts.

(** ** Arithmetic of the access tree *)

Lemma uint_small z : 0 ≤ z < 2 ^ 64 → uint z = z.
Proof. intros. unfold uint. by apply Z.mod_small. Qed.

Lemma shiftr_1 z : Z.shiftr z 1 = z / 2.
Proof. by rewrite Z.shiftr_div_pow2. Qed.

Lemma lxor_1_even z : 0 ≤ z → Z.even z = true → Z.lxor z 1 = z + 1.
Proof.
  intros Hz He. symmetry. apply Z.add_nocarry_lxor.
  apply Z.bits_inj'. intros n Hn. rewrite Z.land_spec, Z.bits_0.
  destruct (decide (n = 0)) as [->|Hne].
  - rewrite Z.bit0_odd, <- Z.negb_even, He. done.
  - replace 1 with (2 ^ 0) by done. rewrite Z.pow2_bits_eqb by lia.
    destruct (Z.eqb_spec 0 n); [lia|]. apply andb_false_r.
Qed.

Lemma lxor_1_odd z : 0 < z → Z.odd z = true → Z.lxor z 1 = z - 1.
Proof.
  intros Hz Ho.
  assert (Z.even (z - 1) = true) as He.
  { rewrite Z.even_sub. rewrite <- Z.negb_odd, Ho. done. }
  assert (Z.lxor (z - 1) 1 = z) as H by (rewrite lxor_1_even; [lia | lia | done]).
  rewrite <- H at 1. by rewrite Z.lxor_assoc, Z.lxor_nilpotent, Z.lxor_0_r.
Qed.

(** The sibling of slot [i > 0] in the access tree. *)
Definition sib (i : Z) : Z := Z.lxor (i - 1) 1 + 1.

Lemma sib_odd i : 0 < i → Z.odd i = true → sib i = i + 1.
Proof.
  intros Hi Ho. unfold sib. rewrite lxor_1_even; [lia | lia |].
  rewrite Z.even_sub. rewrite <- Z.negb_odd, Ho. done.
Qed.

Lemma sib_even i : 0 < i → Z.even i = true → sib i = i - 1.
Proof.
  intros Hi He. unfold sib.
  assert (1 < i).
  { destruct (decide (i = 1)) as [->|]; [done | lia]. }
  rewrite lxor_1_odd; [lia | lia |].
  rewrite Z.odd_sub. rewrite <- Z.negb_even, He. done.
Qed.

Lemma sib_cases i :
  0 < i →
  (i = 2 * ((i - 1) / 2) + 1 ∧ sib i = 2 * ((i - 1) / 2) + 2)
  ∨ (i = 2 * ((i - 1) / 2) + 2 ∧ sib i = 2 * ((i - 1) / 2) + 1).
Proof.
  intros Hi. destruct (Z.odd i) eqn:Ho.
  - left. rewrite (sib_odd i Hi Ho).
    pose proof (Z.odd_spec i) as [H _]. destruct (H Ho) as [m ->]. 
    replace (2 * m + 1 - 1) with (m * 2) by lia. rewrite Z.div_mul by done. lia.
  - right. assert (Z.even i = true) as He by (rewrite <- Z.negb_odd, Ho; done).
    rewrite (sib_even i Hi He).
    pose proof (Z.even_spec i) as [H _]. destruct (H He) as [m ->].
    assert ((2 * m - 1) / 2 = m - 1) as ->; [|lia].
    symmetry. apply Z.div_unique with 1; lia.
Qed.

(** [minnz x y]: the smaller of the two, where 0 stands for "none". *)
Definition minnz (x y : Z) : Z :=
  if x =? 0 then y else if y =? 0 then x else Z.min x y.

Lemma minnz_comm x y : minnz x y = minnz y x.
Proof.
  unfold minnz. destruct (Z.eqb_spec x 0), (Z.eqb_spec y 0); try lia.
Qed.

(** The choice [if aa != 0 && aa < a then aa else a] of the code. *)
Lemma choose_minnz aa a :
  a ≠ 0 → (if negb (aa =? 0) && (aa <? a) then aa else a) = minnz a aa.
Proof.
  intros Ha. unfold minnz.
  destruct (Z.eqb_spec aa 0), (Z.eqb_spec a 0), (Z.ltb_spec aa a); simpl; lia.
Qed.

(** ** The shape of the heap *)

(** The value of slot [i] of the access array of node [h]. *)
Definition val (hp : list dpaMemTree) (h : nat) (i : Z) : Z :=
  match hp !! h with
  | Some n => default 0 (access n !! Z.to_nat i)
  | None => 0
  end.

Record shape (n : dpaMemTree) : Prop := {
  shape_bits : bits_ n = memTreeLW ∨ bits_ n = memTreeFLW;
  shape_width : width n = 2 ^ bits_ n;
  shape_subtree : len (subtree n) = width n;
  shape_access : len (access n) = width n - 1;
}.

(** The heap is a tree rooted at node 0: parent and child pointers agree,
    a child is allocated after its parent, and a node that holds an entry has
    no subtree. *)
Record wf (hp : list dpaMemTree) : Prop := {
  wf_shape : ∀ h n, hp !! h = Some n → shape n;
  wf_root : ∃ r, hp !! 0%nat = Some r ∧ parent r = None ∧ entry r = None;
  wf_parent : ∀ h n p, hp !! h = Some n → parent n = Some p →
      (p < h)%nat ∧ bits_ n = memTreeLW
      ∧ ∃ pn, hp !! p = Some pn ∧ 0 ≤ parent_idx n
              ∧ subtree pn !! Z.to_nat (parent_idx n) = Some (Some h);
  wf_orphan : ∀ h n, hp !! h = Some n → parent n = None → h = 0%nat;
  wf_child : ∀ h n j c, hp !! h = Some n → subtree n !! j = Some (Some c) →
      ∃ cn, hp !! c = Some cn ∧ parent cn = Some h ∧ parent_idx cn = Z.of_nat j;
  wf_leaf : ∀ h n, hp !! h = Some n → is_Some (entry n) →
      Forall (λ c, c = None) (subtree n);
}.

(** Everything of a node but the contents of its access array. *)
Definition skel (n : dpaMemTree) :=
  (subtree n, parent n, parent_idx n, bits_ n, width n, entry n, length (access n)).

Definition same_skel (hp hp' : list dpaMemTree) : Prop := skel <$> hp' = skel <$> hp.

Lemma same_skel_refl hp : same_skel hp hp.
Proof. done. Qed.

Lemma same_skel_trans hp1 hp2 hp3 :
  same_skel hp1 hp2 → same_skel hp2 hp3 → same_skel hp1 hp3.
Proof. unfold same_skel. congruence. Qed.

Lemma same_skel_length hp hp' : same_skel hp hp' → length hp' = length hp.
Proof. intros H. by rewrite <- (length_fmap skel hp'), H, length_fmap. Qed.

Lemma same_skel_lookup hp hp' h n' :
  same_skel hp hp' → hp' !! h = Some n' → ∃ n, hp !! h = Some n ∧ skel n = skel n'.
Proof.
  intros H Hn'. assert ((skel <$> hp) !! h = Some (skel n')) as Hl.
  { rewrite <- H, list_lookup_fmap, Hn'. done. }
  rewrite list_lookup_fmap in Hl. destruct (hp !! h) as [n|]; [|done].
  exists n. split; [done|]. simpl in Hl. congruence.
Qed.

Lemma same_skel_lookup_r hp hp' h n :
  same_skel hp hp' → hp !! h = Some n → ∃ n', hp' !! h = Some n' ∧ skel n = skel n'.
Proof.
  intros H Hn. assert ((skel <$> hp') !! h = Some (skel n)) as Hl.
  { rewrite H, list_lookup_fmap, Hn. done. }
  rewrite list_lookup_fmap in Hl. destruct (hp' !! h) as [n'|]; [|done].
  exists n'. split; [done|]. simpl in Hl. congruence.
Qed.

Ltac skel_eq H :=
  let H1 := fresh "Hst" in let H2 := fresh "Hpar" in let H3 := fresh "Hpi" in
  let H4 := fresh "Hbits" in let H5 := fresh "Hwd" in let H6 := fresh "Hent" in
  let H7 := fresh "Hacc" in
  unfold skel in H; injection H as H1 H2 H3 H4 H5 H6 H7.

Lemma wf_same_skel hp hp' : wf hp → same_skel hp hp' → wf hp'.
Proof.
  intros [Hsh Hroot Hpar Horph Hch Hlf] Hs. split.
  - intros h n' Hn'. destruct (same_skel_lookup _ _ _ _ Hs Hn') as (n & Hn & E).
    skel_eq E. destruct (Hsh h n Hn) as [B W S A].
    split; unfold len in *; congruence.
  - destruct Hroot as (r & Hr & Hp & He).
    destruct (same_skel_lookup_r _ _ _ _ Hs Hr) as (r' & Hr' & E). skel_eq E.
    exists r'. split; [done|]. split; congruence.
  - intros h n' p Hn' Hp. destruct (same_skel_lookup _ _ _ _ Hs Hn') as (n & Hn & E).
    skel_eq E. destruct (Hpar h n p Hn ltac:(congruence)) as (Hlt & Hb & pn & Hpn & Hi & Hsub).
    destruct (same_skel_lookup_r _ _ _ _ Hs Hpn) as (pn' & Hpn' & E'). skel_eq E'.
    split; [done|]. split; [congruence|]. exists pn'. split; [done|].
    split; [congruence|]. congruence.
  - intros h n' Hn' Hp. destruct (same_skel_lookup _ _ _ _ Hs Hn') as (n & Hn & E).
    skel_eq E. apply (Horph h n Hn). congruence.
  - intros h n' j c Hn' Hj. destruct (same_skel_lookup _ _ _ _ Hs Hn') as (n & Hn & E).
    skel_eq E. destruct (Hch h n j c Hn ltac:(congruence)) as (cn & Hcn & Hp & Hi).
    destruct (same_skel_lookup_r _ _ _ _ Hs Hcn) as (cn' & Hcn' & E'). skel_eq E'.
    exists cn'. split; [done|]. split; congruence.
  - intros h n' Hn' He. destruct (same_skel_lookup _ _ _ _ Hs Hn') as (n & Hn & E).
    skel_eq E. rewrite <- Hst. apply (Hlf h n Hn). congruence.
Qed.

(** ** Writes to the access arrays *)

Lemma deref_Ok hp h n : deref hp (Some h) = Ok n ↔ hp !! h = Some n.
Proof. unfold deref. destruct (hp !! h); split; congruence. Qed.

Lemma set_access_Ok hp h i v hp' :
  set_access hp h i v = Ok hp' ↔
  ∃ n, hp !! h = Some n ∧ 0 ≤ i < len (access n)
       ∧ hp' = <[h := with_access n (<[Z.to_nat i := v]> (access n))]> hp.
Proof.
  unfold set_access, put_node, store_at, deref. split.
  - destruct (hp !! h) as [n|]; [|done]. simpl.
    destruct (index_at (access n) i) as [x| |] eqn:Hx; [|done..]. simpl.
    intros [= <-]. apply index_at_Ok in Hx as [Hi Hx].
    exists n. split; [done|]. split; [|done].
    apply lookup_lt_Some in Hx. unfold len. lia.
  - intros (n & Hn & Hi & ->). rewrite Hn. simpl.
    destruct (index_at_total (access n) i Hi) as [x ->]. done.
Qed.

Lemma set_access_skel hp h i v hp' : set_access hp h i v = Ok hp' → same_skel hp hp'.
Proof.
  intros (n & Hn & Hi & ->)%set_access_Ok. unfold same_skel.
  rewrite list_fmap_insert. apply list_insert_id.
  rewrite list_lookup_fmap, Hn. simpl. unfold skel. simpl.
  by rewrite length_insert.
Qed.

Lemma set_access_val hp h i v hp' h' i' :
  set_access hp h i v = Ok hp' → 0 ≤ i' →
  val hp' h' i' = if decide (h' = h ∧ i' = i) then v else val hp h' i'.
Proof.
  intros (n & Hn & Hi & ->)%set_access_Ok Hi'. unfold val.
  destruct (decide (h' = h)) as [->|Hne].
  - rewrite list_lookup_insert_eq by (by eapply lookup_lt_Some). rewrite Hn. simpl.
    destruct (decide (i' = i)) as [->|Hne'].
    + rewrite decide_True by done.
      rewrite list_lookup_insert_eq; [done|]. unfold len in Hi. lia.
    + rewrite decide_False by tauto.
      rewrite list_lookup_insert_ne; [done|]. lia.
  - rewrite list_lookup_insert_ne by done. rewrite decide_False by tauto. done.
Qed.

Lemma index_access hp h n i :
  hp !! h = Some n → 0 ≤ i < len (access n) → index_at (access n) i = Ok (val hp h i).
Proof.
  intros Hn Hi. destruct (index_at_total _ _ Hi) as [x Hx]. rewrite Hx.
  apply index_at_Ok in Hx as [_ Hx]. unfold val. by rewrite Hn, Hx.
Qed.

(** ** Slots, their parents and their siblings *)

(** The value a subtree reports to its parent: [access[0]] of the subtree,
    0 when it is nil. *)
Definition chv (hp : list dpaMemTree) (n : dpaMemTree) (j : Z) : Z :=
  match subtree n !! Z.to_nat j with
  | Some (Some c) => val hp c 0
  | _ => 0
  end.

(** The access array of a node continued by the values of its subtrees:
    position [m] is slot [m] for [m < width - 1] and subtree
    [m - (width - 1)] from there on.  Slot [i] has its two children at
    positions [2i+1] and [2i+2]. *)
Definition ext (hp : list dpaMemTree) (h : nat) (n : dpaMemTree) (m : Z) : Z :=
  if m <? width n - 1 then val hp h m else chv hp n (m - (width n - 1)).

Definition min_at (hp : list dpaMemTree) (h : nat) (n : dpaMemTree) (i : Z) : Prop :=
  val hp h i = minnz (ext hp h n (2 * i + 1)) (ext hp h n (2 * i + 2)).

(** The embedded min-trees: every slot of a node without entry holds the
    minimum of its two children. *)
Definition min_ok (hp : list dpaMemTree) : Prop :=
  ∀ h n i, hp !! h = Some n → entry n = None → 0 ≤ i < width n - 1 → min_at hp h n i.

Definition min_ok_except (hp : list dpaMemTree) (g : nat) (k : Z) : Prop :=
  ∀ h n i, hp !! h = Some n → entry n = None → 0 ≤ i < width n - 1 →
           (h, i) ≠ (g, k) → min_at hp h n i.

(** The slot above slot [i] of node [h]. *)
Definition upslot (hp : list dpaMemTree) (h : nat) (i : Z) : option (nat * Z) :=
  if 0 <? i then Some (h, (i - 1) / 2)
  else
    n ← hp !! h; p ← parent n; pn ← hp !! p;
    Some (p, (width pn + parent_idx n - 2) / 2).

(** The value of the other child of the slot above. *)
Definition sibval (hp : list dpaMemTree) (h : nat) (i : Z) : Z :=
  if 0 <? i then val hp h (sib i)
  else
    default 0 (n ← hp !! h; p ← parent n; pn ← hp !! p;
               Some (chv hp pn (Z.lxor (parent_idx n) 1))).

(** A measure that decreases from a slot to the slot above. *)
Definition rank (h : nat) (i : Z) : Z :=
  (if decide (h = 0%nat) then 0 else 2 ^ memTreeFLW + 4 * Z.of_nat h) + i.

Lemma shape_cases n :
  shape n → (width n = 4 ∧ bits_ n = 2) ∨ (width n = 16384 ∧ bits_ n = 14).
Proof.
  intros [[B|B] W _ _]; rewrite B in W; [left | right]; split; try done.
Qed.

Lemma wf_has_parent hp h n :
  wf hp → hp !! h = Some n → h ≠ 0%nat → ∃ p, parent n = Some p.
Proof.
  intros Hwf Hn Hne. destruct (parent n) as [p|] eqn:E; [eauto|].
  destruct (wf_orphan hp Hwf h n Hn E). done.
Qed.

Lemma wf_width_child hp h n :
  wf hp → hp !! h = Some n → h ≠ 0%nat → width n = 4.
Proof.
  intros Hwf Hn Hne. destruct (wf_has_parent hp h n Hwf Hn Hne) as [p Hp].
  destruct (wf_parent hp Hwf h n p Hn Hp) as (_ & Hb & _).
  destruct (wf_shape hp Hwf h n Hn) as [_ W _ _]. by rewrite W, Hb.
Qed.

Lemma sib_range w i :
  w = 4 ∨ w = 16384 → 0 < i < w - 1 →
  0 < sib i < w - 1 ∧ (sib i - 1) / 2 = (i - 1) / 2 ∧ sib i ≠ i.
Proof.
  intros Hw Hi. destruct (sib_cases i (proj1 Hi)) as [[E1 E2]|[E1 E2]].
  - assert ((sib i - 1) / 2 = (i - 1) / 2) as Hd.
    { rewrite E2. symmetry. apply Z.div_unique with 1; lia. }
    split; [lia|]. split; [done | lia].
  - assert ((sib i - 1) / 2 = (i - 1) / 2) as Hd.
    { rewrite E2. symmetry. apply Z.div_unique with 0; lia. }
    split; [lia|]. split; [done | lia].
Qed.

Lemma child_pos w j :
  w = 4 ∨ w = 16384 → 0 ≤ j < w →
  let P := (w + j - 2) / 2 in
  0 ≤ P < w - 1
  ∧ ((2 * P + 1 = w - 1 + j ∧ 2 * P + 2 = w - 1 + Z.lxor j 1)
     ∨ (2 * P + 2 = w - 1 + j ∧ 2 * P + 1 = w - 1 + Z.lxor j 1))
  ∧ 0 ≤ Z.lxor j 1 < w
  ∧ (w + Z.lxor j 1 - 2) / 2 = P
  ∧ Z.lxor j 1 ≠ j.
Proof.
  intros Hw Hj P. subst P.
  assert (∃ k, w = 2 * k + 2 ∧ 0 < k) as (k & -> & Hk)
    by (destruct Hw as [->| ->]; [exists 1 | exists 8191]; lia).
  clear Hw. destruct (Z.odd j) eqn:Ho.
  - assert (0 < j) by (destruct (decide (j = 0)) as [E|]; [by rewrite E in Ho | lia]).
    rewrite (lxor_1_odd j) by done.
    pose proof (Z.odd_spec j) as [Hx _]. destruct (Hx Ho) as [m Em]. subst j.
    replace ((2 * k + 2 + (2 * m + 1) - 2) / 2) with (k + m)
      by (apply Z.div_unique with 1; lia).
    replace ((2 * k + 2 + (2 * m + 1 - 1) - 2) / 2) with (k + m)
      by (apply Z.div_unique with 0; lia).
    lia.
  - assert (Z.even j = true) as He by (rewrite <- Z.negb_odd, Ho; done).
    rewrite (lxor_1_even j) by (lia || done).
    pose proof (Z.even_spec j) as [Hx _]. destruct (Hx He) as [m Em]. subst j.
    replace ((2 * k + 2 + 2 * m - 2) / 2) with (k + m)
      by (apply Z.div_unique with 0; lia).
    replace ((2 * k + 2 + (2 * m + 1) - 2) / 2) with (k + m)
      by (apply Z.div_unique with 1; lia).
    lia.
Qed.

Lemma shape_width_cases n : shape n → width n = 4 ∨ width n = 16384.
Proof. intros H. destruct (shape_cases n H) as [[? _]|[? _]]; auto. Qed.

Lemma upslot_spec hp h n i p P :
  wf hp → hp !! h = Some n → 0 ≤ i < width n - 1 →
  upslot hp h i = Some (p, P) →
  ∃ pn, hp !! p = Some pn ∧ 0 ≤ P < width pn - 1
    ∧ rank p P < rank h i
    ∧ (p, P) ≠ (h, i)
    ∧ (0 < i → p = h)
    ∧ (i = 0 → parent n = Some p)
    ∧ minnz (ext hp p pn (2 * P + 1)) (ext hp p pn (2 * P + 2))
      = minnz (val hp h i) (sibval hp h i).
Proof.
  intros Hwf Hn Hi. unfold upslot, sibval.
  destruct (Z.ltb_spec 0 i) as [Hpos|Hz].
  - intros [= <- <-]. exists n. split; [done|].
    assert (0 ≤ (i - 1) / 2 < i) as HP.
    { split; [apply Z.div_pos; lia | apply Z.div_lt_upper_bound; lia]. }
    pose proof (shape_width_cases n (wf_shape hp Hwf h n Hn)) as W.
    destruct (sib_range (width n) i W ltac:(lia)) as (Hs & _ & _).
    split; [lia|]. split; [unfold rank; lia|].
    split; [intros [=]; lia|]. split; [done|]. split; [lia|].
    unfold ext. destruct (sib_cases i Hpos) as [[E1 E2]|[E1 E2]];
      rewrite <- E1, <- E2;
      (destruct (Z.ltb_spec i (width n - 1)); [|lia]);
      (destruct (Z.ltb_spec (sib i) (width n - 1)); [|lia]);
      [done | apply minnz_comm].
  - assert (i = 0) as -> by lia.
    rewrite Hn. simpl.
    destruct (parent n) as [q|] eqn:Hq; [|done]. simpl.
    destruct (wf_parent hp Hwf h n q Hn Hq) as (Hlt & Hb & pn & Hpn & Hpi & Hsub).
    rewrite Hpn. simpl. intros [= <- <-]. exists pn. split; [done|].
    pose proof (lookup_lt_Some _ _ _ Hsub) as Hlen.
    destruct (wf_shape hp Hwf q pn Hpn) as [_ _ S _]. unfold len in S.
    assert (0 ≤ parent_idx n < width pn) as Hr by lia.
    assert (val hp h 0 = chv hp pn (parent_idx n)) as Hv.
    { unfold chv. by rewrite Hsub. }
    pose proof (shape_width_cases pn (wf_shape hp Hwf q pn Hpn)) as W.
    destruct (child_pos (width pn) (parent_idx n) W Hr) as (HP & Hk & Hx & _ & _).
    split; [done|]. split.
    { unfold rank. change (2 ^ memTreeFLW) with 16384.
      destruct (decide (h = 0%nat)); [lia|].
      destruct (decide (q = 0%nat)); [destruct W as [W|W]; rewrite W in *; lia|].
      pose proof (wf_width_child hp q pn Hwf Hpn ltac:(done)) as W4.
      rewrite W4 in *. lia. }
    split; [intros [=]; lia|]. split; [lia|]. split; [done|].
    rewrite Hv. unfold ext.
    destruct Hk as [[E1 E2]|[E1 E2]]; rewrite E1, E2;
      do 2 (match goal with |- context [?a <? ?b] =>
              destruct (Z.ltb_spec a b); [lia|] end);
      [|rewrite minnz_comm]; f_equal; f_equal; lia.
Qed.

Lemma ext_set_access hp g k v hp' h n n' m :
  wf hp → set_access hp g k v = Ok hp' →
  hp !! h = Some n → hp' !! h = Some n' →
  1 ≤ m → upslot hp g k ≠ Some (h, (m - 1) / 2) →
  ext hp' h n' m = ext hp h n m.
Proof.
  intros Hwf Hset Hn Hn' Hm Hup.
  destruct (same_skel_lookup _ _ _ _ (set_access_skel _ _ _ _ _ Hset) Hn')
    as (n0 & Hn0 & E).
  assert (n0 = n) as -> by congruence. skel_eq E.
  pose proof Hset as (ng & Hg & Hk & _)%set_access_Ok.
  unfold ext. rewrite <- Hwd. destruct (Z.ltb_spec m (width n - 1)).
  - rewrite (set_access_val _ _ _ _ _ h m Hset) by lia.
    destruct (decide (h = g ∧ m = k)) as [[-> ->]|]; [|done].
    exfalso. apply Hup. unfold upslot. destruct (Z.ltb_spec 0 k); [done | lia].
  - unfold chv. rewrite <- Hst.
    destruct (subtree n !! Z.to_nat (m - (width n - 1))) as [[c|]|] eqn:Hc; try done.
    rewrite (set_access_val _ _ _ _ _ c 0 Hset) by lia.
    destruct (decide (c = g ∧ 0 = k)) as [[-> <-]|]; [|done].
    exfalso. apply Hup. unfold upslot. simpl.
    destruct (wf_child hp Hwf h n _ g Hn Hc) as (cn & Hcn & Hp & Hi).
    rewrite Hcn. simpl. rewrite Hp. simpl. rewrite Hn. simpl.
    rewrite Hi. do 2 f_equal. f_equal. lia.
Qed.

Lemma read_sibling hp h n p pn :
  wf hp → hp !! h = Some n → parent n = Some p → hp !! p = Some pn →
  (nn ← index_at (subtree pn) (Z.lxor (parent_idx n) 1);
   match nn with
   | Some c => cn ← deref hp (Some c); index_at (access cn) 0
   | None => Ok 0
   end) = Ok (sibval hp h 0).
Proof.
  intros Hwf Hn Hp Hpn.
  destruct (wf_parent hp Hwf h n p Hn Hp) as (_ & _ & pn' & Hpn' & Hpi & Hsub).
  assert (pn' = pn) as -> by congruence.
  pose proof (lookup_lt_Some _ _ _ Hsub) as Hlen.
  destruct (wf_shape hp Hwf p pn Hpn) as [_ _ S _]. unfold len in S.
  pose proof (shape_width_cases pn (wf_shape hp Hwf p pn Hpn)) as W.
  destruct (child_pos (width pn) (parent_idx n) W ltac:(lia)) as (_ & _ & Hx & _ & _).
  destruct (index_at_total (subtree pn) (Z.lxor (parent_idx n) 1)) as [nn Hnn];
    [unfold len; lia|].
  rewrite Hnn. simpl. apply index_at_Ok in Hnn as [_ Hnn].
  unfold sibval. simpl. rewrite Hn. simpl. rewrite Hp. simpl. rewrite Hpn. simpl.
  unfold chv. rewrite Hnn. destruct nn as [c|]; [|done].
  destruct (wf_child hp Hwf p pn _ c Hpn Hnn) as (cn & Hcn & _ & _).
  rewrite Hcn. simpl.
  apply index_access; [done|].
  destruct (wf_shape hp Hwf c cn Hcn) as [_ _ _ A].
  destruct (shape_width_cases cn (wf_shape hp Hwf c cn Hcn)) as [W'|W']; lia.
Qed.

Lemma wf_parent_interior hp h n p pn :
  wf hp → hp !! h = Some n → parent n = Some p → hp !! p = Some pn → entry pn = None.
Proof.
  intros Hwf Hn Hp Hpn.
  destruct (wf_parent hp Hwf h n p Hn Hp) as (_ & _ & pn' & Hpn' & Hpi & Hsub).
  assert (pn' = pn) as -> by congruence.
  destruct (entry pn) as [e|] eqn:He; [|done].
  pose proof (wf_leaf hp Hwf p pn Hpn ltac:(by rewrite He)) as Hl.
  rewrite Forall_forall in Hl. specialize (Hl (Some h)).
  discriminate Hl. by eapply list_elem_of_lookup_2.
Qed.

Lemma upslot_skel hp hp' h i : same_skel hp hp' → upslot hp' h i = upslot hp h i.
Proof.
  intros Hs. unfold upslot. destruct (0 <? i); [done|].
  destruct (hp !! h) as [n|] eqn:Hn.
  - destruct (same_skel_lookup_r _ _ _ _ Hs Hn) as (n' & -> & E). skel_eq E. simpl.
    rewrite <- Hpar, <- Hpi. destruct (parent n) as [p|]; [|done]. simpl.
    destruct (hp !! p) as [pn|] eqn:Hpn.
    + destruct (same_skel_lookup_r _ _ _ _ Hs Hpn) as (pn' & -> & E). skel_eq E.
      simpl. by rewrite Hwd0.
    + destruct (hp' !! p) as [pn'|] eqn:Hpn'; [|done].
      destruct (same_skel_lookup _ _ _ _ Hs Hpn') as (? & ? & _). congruence.
  - destruct (hp' !! h) as [n'|] eqn:Hn'; [|done].
    destruct (same_skel_lookup _ _ _ _ Hs Hn') as (? & ? & _). congruence.
Qed.

Lemma sibval_set_access hp h i v hp' n :
  wf hp → hp !! h = Some n → 0 ≤ i < width n - 1 →
  set_access hp h i v = Ok hp' → sibval hp' h i = sibval hp h i.
Proof.
  intros Hwf Hn Hi Hset. unfold sibval. destruct (Z.ltb_spec 0 i) as [Hpos|Hz].
  - pose proof (shape_width_cases n (wf_shape hp Hwf h n Hn)) as W.
    destruct (sib_range (width n) i W ltac:(lia)) as (Hs & _ & Hne).
    rewrite (set_access_val _ _ _ _ _ h (sib i) Hset) by lia.
    by rewrite decide_False by (intros [_ ?]; done).
  - assert (i = 0) as -> by lia.
    destruct (same_skel_lookup_r _ _ _ _ (set_access_skel _ _ _ _ _ Hset) Hn)
      as (n' & Hn' & E). skel_eq E.
    rewrite Hn, Hn'. simpl. rewrite <- Hpar, <- Hpi.
    destruct (parent n) as [p|] eqn:Hp; [|done]. simpl.
    destruct (wf_parent hp Hwf h n p Hn Hp) as (_ & _ & pn & Hpn & Hpi' & Hsub).
    destruct (same_skel_lookup_r _ _ _ _ (set_access_skel _ _ _ _ _ Hset) Hpn)
      as (pn' & Hpn' & E). skel_eq E.
    rewrite Hpn, Hpn'. simpl. unfold chv. rewrite <- Hst0.
    destruct (subtree pn !! Z.to_nat (Z.lxor (parent_idx n) 1)) as [[c|]|] eqn:Hc; try done.
    rewrite (set_access_val _ _ _ _ _ c 0 Hset) by lia.
    destruct (decide (c = h ∧ 0 = 0)) as [[-> _]|]; [|done].
    exfalso. destruct (wf_child hp Hwf p pn _ h Hpn Hc) as (cn & Hcn & _ & Hi').
    assert (cn = n) as -> by congruence.
    pose proof (lookup_lt_Some _ _ _ Hsub) as Hlen.
    destruct (wf_shape hp Hwf p pn Hpn) as [_ _ S _]. unfold len in S.
    pose proof (shape_width_cases pn (wf_shape hp Hwf p pn Hpn)) as W.
    destruct (child_pos (width pn) (parent_idx n) W ltac:(lia)) as (_ & _ & Hx & _ & Hne).
    lia.
Qed.

Lemma sibval_le hp h i X :
  (∀ h' i', 0 ≤ i' → val hp h' i' ≤ X) → 0 ≤ X → sibval hp h i ≤ X.
Proof.
  intros HX H0. unfold sibval. destruct (Z.ltb_spec 0 i) as [Hpos|_].
  - apply HX. pose proof (Z.div_pos (i - 1) 2).
    destruct (sib_cases i Hpos) as [[_ ->]|[_ ->]]; lia.
  - destruct (hp !! h) as [n|]; simpl; [|done].
    destruct (parent n) as [q|]; simpl; [|done].
    destruct (hp !! q) as [qn|]; simpl; [|done].
    unfold chv. destruct (subtree qn !! _) as [[c|]|]; try done. by apply HX.
Qed.

(** ** [update_access] *)

(** What holds when the loop of [update_access] stands at slot [i] of node
    [h] with the value [a] in hand: the min-trees are in order everywhere but
    at that slot, [a] is what the slot must hold, and the slot is already right
    when it does not hold the old value [oa]. *)
Definition ua_inv (B oa : Z) (hp : list dpaMemTree) (h : nat) (i a : Z) : Prop :=
  ∃ n, wf hp ∧ hp !! h = Some n ∧ 0 ≤ i < width n - 1
    ∧ (0 < i → entry n = None)
    ∧ min_ok_except hp h i
    ∧ (entry n = None → a = minnz (ext hp h n (2 * i + 1)) (ext hp h n (2 * i + 2)))
    ∧ (val hp h i ≠ oa → min_at hp h n i)
    ∧ (val hp h i = oa →
       a ≠ 0 ∧ (oa ≠ 0 → oa ≤ a) ∧ (oa = 0 → ∀ h' i', 0 ≤ i' → val hp h' i' ≤ a))
    ∧ (∀ h' i', 0 ≤ i' → val hp h' i' ≤ B) ∧ 0 ≤ B ∧ a ≤ B.

Lemma ua_inv_stop B oa hp h i a :
  ua_inv B oa hp h i a → val hp h i ≠ oa → min_ok hp.
Proof.
  intros (n & Hwf & Hn & Hi & _ & Hex & _ & Hstop & _) Hne h' n' i' Hn' He' Hi'.
  destruct (decide ((h', i') = (h, i))) as [[= -> ->]|Hd].
  - assert (n' = n) as -> by congruence. by apply Hstop.
  - by apply Hex.
Qed.

(** The write of [a] into the slot, seen from every slot but the one above. *)
Lemma ua_write B oa hp h i a hp1 :
  ua_inv B oa hp h i a → val hp h i = oa →
  set_access hp h i a = Ok hp1 →
  wf hp1
  ∧ (∀ h' i', 0 ≤ i' → val hp1 h' i' ≤ B)
  ∧ (∀ h' n' i', hp1 !! h' = Some n' → entry n' = None → 0 ≤ i' < width n' - 1 →
       upslot hp h i ≠ Some (h', i') → min_at hp1 h' n' i').
Proof.
  intros (n & Hwf & Hn & Hi & Hint & Hex & Ha & _ & _ & HB & _ & HaB) Hv Hset.
  pose proof (set_access_skel _ _ _ _ _ Hset) as Hsk.
  split; [by eapply wf_same_skel|]. split.
  { intros h' i' Hi'. rewrite (set_access_val _ _ _ _ _ h' i' Hset) by done.
    destruct (decide _); [done | by apply HB]. }
  intros h' n1 i' Hn1 He1 Hi' Hup.
  destruct (same_skel_lookup _ _ _ _ Hsk Hn1) as (n' & Hn' & E). skel_eq E.
  unfold min_at.
  rewrite (ext_set_access hp h i a hp1 h' n' n1 (2 * i' + 1)); try done; try lia.
  2:{ by replace ((2 * i' + 1 - 1) / 2) with i' by (apply Z.div_unique with 0; lia). }
  rewrite (ext_set_access hp h i a hp1 h' n' n1 (2 * i' + 2)); try done; try lia.
  2:{ by replace ((2 * i' + 2 - 1) / 2) with i' by (apply Z.div_unique with 1; lia). }
  rewrite (set_access_val _ _ _ _ _ h' i' Hset) by lia.
  destruct (decide (h' = h ∧ i' = i)) as [[-> ->]|Hd].
  - assert (n' = n) as -> by congruence. apply Ha. congruence.
  - apply Hex; try done; try congruence. intros [= -> ->]. tauto.
Qed.

Lemma ua_inv_step B oa hp h i a hp1 p P :
  ua_inv B oa hp h i a → val hp h i = oa →
  set_access hp h i a = Ok hp1 →
  upslot hp h i = Some (p, P) →
  ua_inv B oa hp1 p P (minnz a (sibval hp h i)).
Proof.
  intros Hinv Hv Hset Hup.
  destruct (ua_write B oa hp h i a hp1 Hinv Hv Hset) as (Hwf1 & HB1 & Hmin1).
  destruct Hinv as (n & Hwf & Hn & Hi & Hint & Hex & Ha & _ & HJ & HB & HB0 & HaB).
  destruct (HJ Hv) as (Ha0 & Hoa & Hz).
  pose proof (set_access_skel _ _ _ _ _ Hset) as Hsk.
  destruct (upslot_spec hp h n i p P Hwf Hn Hi Hup)
    as (pn & Hpn & HP & Hrank & Hne & Hin & Hpar & Hkids).
  destruct (same_skel_lookup_r _ _ _ _ Hsk Hn) as (n1 & Hn1 & E). skel_eq E.
  destruct (same_skel_lookup_r _ _ _ _ Hsk Hpn) as (pn1 & Hpn1 & E'). skel_eq E'.
  assert (entry pn = None) as Hepn.
  { destruct (Z.ltb_spec 0 i) as [Hpos|Hz'].
    - rewrite (Hin Hpos) in Hpn. assert (pn = n) as -> by congruence. by apply Hint.
    - apply (wf_parent_interior hp h n p pn); try done. apply Hpar. lia. }
  assert (0 ≤ i < width n1 - 1) as Hi1 by lia.
  rewrite <- (upslot_skel hp hp1 h i Hsk) in Hup.
  destruct (upslot_spec hp1 h n1 i p P Hwf1 Hn1 Hi1 Hup)
    as (pn1' & Hpn1' & _ & _ & _ & _ & _ & Hkids1).
  assert (pn1' = pn1) as -> by congruence.
  rewrite (sibval_set_access hp h i a hp1 n Hwf Hn Hi Hset) in Hkids1.
  rewrite (set_access_val _ _ _ _ _ h i Hset) in Hkids1 by lia.
  rewrite decide_True in Hkids1 by done.
  assert (val hp1 p P = minnz oa (sibval hp h i)) as HvP.
  { rewrite (set_access_val _ _ _ _ _ p P Hset) by lia.
    rewrite decide_False by (intros [-> ->]; done).
    rewrite <- Hv, <- Hkids. apply Hex; try done. }
  assert (sibval hp h i ≤ B ∧ (oa = 0 → sibval hp h i ≤ a)) as [HsB Hsa].
  { split; [by apply sibval_le|]. intros Hoa0. apply sibval_le; [auto|].
    specialize (Hz Hoa0 h i). lia. }
  exists pn1. split; [done|]. split; [done|]. split; [lia|].
  split; [intros; congruence|]. split.
  { intros h' n' i' Hn' He' Hi' Hd. apply Hmin1; try done.
    rewrite (upslot_skel hp hp1 h i Hsk) in Hup. rewrite Hup. congruence. }
  split; [by intros _|]. split.
  { unfold min_at. rewrite Hkids1, HvP. unfold minnz.
    intros Hd. destruct (Z.eqb_spec oa 0), (Z.eqb_spec (sibval hp h i) 0),
      (Z.eqb_spec a 0); lia. }
  split.
  { rewrite HvP. unfold minnz. intros Hd.
    destruct (Z.eqb_spec oa 0), (Z.eqb_spec (sibval hp h i) 0), (Z.eqb_spec a 0);
      try lia.
    split; [done|]. split; [done|]. intros _ h' i' Hi'.
    rewrite (set_access_val _ _ _ _ _ h' i' Hset) by done.
    destruct (decide _); [lia | auto]. }
  split; [done|]. split; [done|]. unfold minnz.
  destruct (Z.eqb_spec a 0), (Z.eqb_spec (sibval hp h i) 0); lia.
Qed.

Lemma update_access_loop_eq fuel hp oa h aidx a :
  update_access_loop fuel hp oa h aidx a =
  (node ← deref hp (Some h);
   v ← index_at (access node) aidx;
   if v =? oa then
     match fuel with
     | O => OutOfFuel
     | S fuel' =>
         hp ← set_access hp h aidx a;
         if 0 <? aidx then
           node ← deref hp (Some h);
           aa ← index_at (access node) (uint (Z.lxor (aidx - 1) 1 + 1));
           let aidx := Z.shiftr (aidx - 1) 1 in
           let a := if negb (aa =? 0) && (aa <? a) then aa else a in
           update_access_loop fuel' hp oa h aidx a
         else
           let pidx := parent_idx node in
           match parent node with
           | None => Ok hp
           | Some p =>
               pn ← deref hp (Some p);
               nn ← index_at (subtree pn) (Z.lxor pidx 1);
               aa ← match nn with
                    | Some c => cn ← deref hp (Some c); index_at (access cn) 0
                    | None => Ok 0
                    end;
               let aidx := Z.shiftr (uint (width pn + pidx - 2)) 1 in
               let a := if negb (aa =? 0) && (aa <? a) then aa else a in
               update_access_loop fuel' hp oa p aidx a
           end
     end
   else Ok hp).
Proof. by destruct fuel. Qed.

Lemma set_access_total hp h n i v :
  hp !! h = Some n → 0 ≤ i < len (access n) → ∃ hp', set_access hp h i v = Ok hp'.
Proof. intros Hn Hi. eexists. apply set_access_Ok. eauto. Qed.

Lemma rank_nonneg h i : 0 ≤ i → 0 ≤ rank h i.
Proof.
  intros. unfold rank. change (2 ^ memTreeFLW) with 16384.
  destruct (decide (h = 0%nat)); lia.
Qed.

(** The slots the walk of [update_access] leaves alone: every slot that is
    not below the one it starts from in [rank], and every slot of a node that
    holds an entry. *)
Definition ua_frame (hp hp' : list dpaMemTree) (h : nat) (i : Z) : Prop :=
  ∀ h' i', 0 ≤ i' → (h', i') ≠ (h, i) →
    rank h i ≤ rank h' i' ∨ (∃ n', hp !! h' = Some n' ∧ is_Some (entry n')) →
    val hp' h' i' = val hp h' i'.

Lemma update_access_loop_spec B oa fuel : ∀ hp h i a,
  ua_inv B oa hp h i a → (Z.to_nat (rank h i) < fuel)%nat →
  ∃ hp', update_access_loop fuel hp oa h i a = Ok hp'
    ∧ same_skel hp hp' ∧ wf hp' ∧ min_ok hp'
    ∧ (∀ h' i', 0 ≤ i' → val hp' h' i' ≤ B)
    ∧ ua_frame hp hp' h i
    ∧ (val hp h i = oa → val hp' h i = a).
Proof.
  induction fuel as [|fuel IH]; intros hp h i a Hinv Hfuel; [lia|].
  pose proof Hinv as (n & Hwf & Hn & Hi & Hint & Hex & Ha & Hstop & HJ & HB & HB0 & HaB).
  pose proof (wf_shape hp Hwf h n Hn) as [_ _ _ Hlen].
  rewrite update_access_loop_eq. rewrite (proj2 (deref_Ok hp h n) Hn). simpl.
  rewrite (index_access hp h n i Hn) by lia. simpl.
  destruct (Z.eqb_spec (val hp h i) oa) as [Hv|Hv].
  2:{ exists hp. split; [done|]. split; [apply same_skel_refl|]. split; [done|].
      split; [by eapply ua_inv_stop|]. split; [done|]. split; [by intros ?|done]. }
  destruct (set_access_total hp h n i a Hn ltac:(lia)) as [hp1 Hset].
  rewrite Hset. simpl.
  destruct (ua_write B oa hp h i a hp1 Hinv Hv Hset) as (Hwf1 & HB1 & Hmin1).
  pose proof (set_access_skel _ _ _ _ _ Hset) as Hsk.
  destruct (same_skel_lookup_r _ _ _ _ Hsk Hn) as (n1 & Hn1 & E). skel_eq E.
  assert (val hp1 h i = a) as Hhi.
  { rewrite (set_access_val _ _ _ _ _ h i Hset) by lia. by rewrite decide_True. }
  assert (∀ p P, upslot hp h i = Some (p, P) →
    ∃ hp', update_access_loop fuel hp1 oa p P (minnz a (sibval hp h i)) = Ok hp'
      ∧ same_skel hp hp' ∧ wf hp' ∧ min_ok hp'
      ∧ (∀ h' i', 0 ≤ i' → val hp' h' i' ≤ B)
      ∧ ua_frame hp hp' h i
      ∧ (val hp h i = oa → val hp' h i = a)) as Hrec.
  { intros p P Hup.
    destruct (upslot_spec hp h n i p P Hwf Hn Hi Hup)
      as (pn & Hpn & HP & Hrank & Hne & Hin & Hup0 & _).
    pose proof (rank_nonneg p P ltac:(lia)) as Hr0.
    destruct (IH hp1 p P _ (ua_inv_step B oa hp h i a hp1 p P Hinv Hv Hset Hup)
      ltac:(lia)) as (hp' & Hrun & Hsk' & Hwf' & Hmin' & HB' & Hfr & _).
    exists hp'. split; [done|]. split; [by eapply same_skel_trans|].
    split; [done|]. split; [done|]. split; [done|]. split.
    - intros h' i' Hi' Hd Hor. rewrite Hfr; try done.
      + rewrite (set_access_val _ _ _ _ _ h' i' Hset) by done.
        rewrite decide_False; [done|]. intros [-> ->]. done.
      + intros [= -> ->]. destruct Hor as [Hor|(n' & Hn' & He')]; [lia|].
        assert (entry pn = None) as Hepn.
        { destruct (Z.ltb_spec 0 i) as [Hpos|Hz'].
          - rewrite (Hin Hpos) in Hpn. assert (pn = n) as -> by congruence. auto.
          - apply (wf_parent_interior hp h n p pn); try done. apply Hup0. lia. }
        assert (n' = pn) as -> by congruence. rewrite Hepn in He'. by destruct He'.
      + destruct Hor as [Hor|(n' & Hn' & He')]; [left; lia|right].
        destruct (same_skel_lookup_r _ _ _ _ Hsk Hn') as (n2 & Hn2 & E2). skel_eq E2.
        exists n2. split; [done|]. congruence.
    - intros _. rewrite Hfr; try done; [lia|left; lia]. }
  assert (a ≠ 0) as Ha0 by (by destruct (HJ Hv)).
  destruct (Z.ltb_spec 0 i) as [Hpos|Hz].
  - rewrite Hn1. simpl.
    pose proof (shape_width_cases n (wf_shape hp Hwf h n Hn)) as W.
    destruct (sib_range (width n) i W ltac:(lia)) as (Hs & _ & _).
    change (Z.lxor (i - 1) 1 + 1) with (sib i).
    rewrite uint_small by (destruct W; lia).
    pose proof (wf_shape hp1 Hwf1 h n1 Hn1) as [_ _ _ Hlen1].
    rewrite (index_access hp1 h n1 (sib i) Hn1) by lia. simpl.
    rewrite shiftr_1, choose_minnz by done.
    assert (val hp1 h (sib i) = sibval hp h i) as ->.
    { rewrite <- (sibval_set_access hp h i a hp1 n Hwf Hn Hi Hset).
      unfold sibval. by destruct (Z.ltb_spec 0 i); [|lia]. }
    apply Hrec. unfold upslot. by destruct (Z.ltb_spec 0 i); [|lia].
  - assert (i = 0) as -> by lia.
    destruct (parent n) as [p|] eqn:Hp.
    + destruct (wf_parent hp Hwf h n p Hn Hp) as (_ & _ & pn & Hpn & Hpi' & Hsub).
      destruct (same_skel_lookup_r _ _ _ _ Hsk Hpn) as (pn1 & Hpn1 & E'). skel_eq E'.
      rewrite Hpn1. simpl.
      pose proof (read_sibling hp1 h n1 p pn1 Hwf1 Hn1 ltac:(congruence) Hpn1) as Hrd.
      rewrite <- Hpi in Hrd.
      destruct (index_at (subtree pn1) (Z.lxor (parent_idx n) 1)) as [nn| |];
        simpl in Hrd |- *; try done.
      destruct (match nn with Some c => _ | None => _ end) as [aa| |];
        simpl in Hrd |- *; try done.
      injection Hrd as ->.
      rewrite (sibval_set_access hp h 0 a hp1 n Hwf Hn Hi Hset).
      pose proof (shape_width_cases pn (wf_shape hp Hwf p pn Hpn)) as W.
      pose proof (lookup_lt_Some _ _ _ Hsub) as Hlt.
      destruct (wf_shape hp Hwf p pn Hpn) as [_ _ S _]. unfold len in S.
      rewrite uint_small by (destruct W; lia).
      rewrite shiftr_1, choose_minnz by done. rewrite <- Hwd0.
      apply Hrec. unfold upslot. simpl. rewrite Hn. simpl. rewrite Hp. simpl.
      by rewrite Hpn.
    + exists hp1. split; [done|]. split; [done|]. split; [done|]. split.
      { intros h' n' i' Hn' He' Hi'. apply Hmin1; try done.
        unfold upslot. simpl. rewrite Hn. simpl. by rewrite Hp. }
      split; [done|]. split; [|done].
      intros h' i' Hi' Hd _. rewrite (set_access_val _ _ _ _ _ h' i' Hset) by done.
      rewrite decide_False; [done|]. intros [-> ->]. done.
Qed.

Lemma walk_fuel_enough hp h n i :
  wf hp → hp !! h = Some n → 0 ≤ i < width n - 1 →
  (Z.to_nat (rank h i) < walk_fuel hp)%nat.
Proof.
  intros Hwf Hn Hi. pose proof (lookup_lt_Some _ _ _ Hn) as Hlt.
  pose proof (shape_width_cases n (wf_shape hp Hwf h n Hn)) as W.
  unfold walk_fuel, rank, len. change (2 ^ memTreeFLW) with 16384.
  destruct (decide (h = 0%nat)); [|assert (width n = 4); [|lia]]; [lia|].
  destruct (parent n) as [p|] eqn:Hp.
  - destruct (wf_parent hp Hwf h n p Hn Hp) as (_ & Hb & _).
    destruct (wf_shape hp Hwf h n Hn) as [_ Hw _ _]. by rewrite Hw, Hb.
  - by pose proof (wf_orphan hp Hwf h n Hn Hp).
Qed.

(** [update_access] with a value newer than every value of the tree, at a
    node that holds an entry: the walk ends, the min-trees are in order
    again, and the node holds the new value. *)
Lemma update_access_fresh B hp h n a :
  wf hp → min_ok hp → hp !! h = Some n → is_Some (entry n) →
  (∀ h' i', 0 ≤ i' → val hp h' i' < a) → 0 < a → a ≤ B →
  ∃ hp', update_access hp h a = Ok hp'
    ∧ same_skel hp hp' ∧ wf hp' ∧ min_ok hp'
    ∧ (∀ h' i', 0 ≤ i' → val hp' h' i' ≤ B)
    ∧ ua_frame hp hp' h 0
    ∧ val hp' h 0 = a.
Proof.
  intros Hwf Hmin Hn [e He] Hlt Ha HaB.
  pose proof (shape_width_cases n (wf_shape hp Hwf h n Hn)) as W.
  destruct (wf_shape hp Hwf h n Hn) as [_ _ _ Hlen].
  unfold update_access. rewrite (proj2 (deref_Ok hp h n) Hn). simpl.
  rewrite (index_access hp h n 0 Hn) by (destruct W; lia). simpl.
  destruct (update_access_loop_spec B (val hp h 0) (walk_fuel hp) hp h 0 a)
    as (hp' & Hrun & Hsk & Hwf' & Hmin' & HB' & Hfr & Hv).
  - exists n. split; [done|]. split; [done|]. split; [destruct W; lia|].
    split; [lia|]. split.
    { intros h' n' i' Hn' He' Hi' _. by apply Hmin. }
    split; [intros; congruence|]. split; [done|]. split.
    { intros _. split; [lia|]. split.
      - intros _. specialize (Hlt h 0). lia.
      - intros _ h' i' Hi'. specialize (Hlt h' i'). lia. }
    split; [|lia]. intros h' i' Hi'. specialize (Hlt h' i'). lia.
  - apply (walk_fuel_enough hp h n 0); try done. destruct W; lia.
  - exists hp'. repeat (split; [done|]). by apply Hv.
Qed.

(** One write, seen from a slot that is neither the written one nor the one
    above it. *)
Lemma set_access_min_at hp g k v hp1 h' n' n1 i' :
  wf hp → set_access hp g k v = Ok hp1 →
  hp !! h' = Some n' → hp1 !! h' = Some n1 → 0 ≤ i' →
  (h', i') ≠ (g, k) → upslot hp g k ≠ Some (h', i') →
  min_at hp h' n' i' → min_at hp1 h' n1 i'.
Proof.
  intros Hwf Hset Hn' Hn1 Hi' Hd Hup Hm. unfold min_at in *.
  rewrite (ext_set_access hp g k v hp1 h' n' n1 (2 * i' + 1)); try done; try lia.
  2:{ by replace ((2 * i' + 1 - 1) / 2) with i' by (apply Z.div_unique with 0; lia). }
  rewrite (ext_set_access hp g k v hp1 h' n' n1 (2 * i' + 2)); try done; try lia.
  2:{ by replace ((2 * i' + 2 - 1) / 2) with i' by (apply Z.div_unique with 1; lia). }
  rewrite (set_access_val _ _ _ _ _ h' i' Hset) by lia.
  rewrite decide_False; [done|]. intros [-> ->]. done.
Qed.

(** ** Growing the tree *)

(** The node [newTreeNode(memTreeLW, node, l)] allocates. *)
Definition bare (h : nat) (l : Z) (oe : option Chunk) : dpaMemTree :=
  mkTree (replicate 4 None) (Some h) l memTreeLW 4 oe (replicate 3 0).

(** The heap after a new node has been hung below node [h] at index [l];
    [oe] is the entry the new node holds, and node [h] holds none. *)
Definition graft (hp : list dpaMemTree) (h : nat) (n : dpaMemTree) (l : Z)
    (oe : option Chunk) : list dpaMemTree :=
  <[h := mkTree (<[Z.to_nat l := Some (length hp)]> (subtree n)) (parent n)
           (parent_idx n) (bits_ n) (width n) None (access n)]>
    (hp ++ [bare h l oe]).

Lemma set_entry_Ok hp h n e :
  hp !! h = Some n → set_entry hp h e = Ok (<[h := with_entry n e]> hp).
Proof. intros Hn. unfold set_entry, deref. by rewrite Hn. Qed.

Lemma newTreeNode_Ok hp h n l :
  hp !! h = Some n → 0 ≤ l < len (subtree n) →
  newTreeNode hp memTreeLW (Some h) l =
    Ok (<[h := with_subtree n (<[Z.to_nat l := Some (length hp)]> (subtree n))]>
          (hp ++ [bare h l None]), length hp).
Proof.
  intros Hn Hl. unfold newTreeNode.
  change (uint (Z.shiftl 1 (uint memTreeLW))) with 4.
  change (Z.to_nat 4) with 4%nat. change (Z.to_nat (4 - 1)) with 3%nat.
  unfold deref. rewrite (lookup_app_l_Some _ _ _ _ Hn). simpl.
  by destruct (index_at_total (subtree n) l Hl) as [x ->].
Qed.

Lemma newTreeNode_graft hp h n l :
  hp !! h = Some n → entry n = None → 0 ≤ l < len (subtree n) →
  newTreeNode hp memTreeLW (Some h) l = Ok (graft hp h n l None, length hp).
Proof.
  intros Hn He Hl. rewrite (newTreeNode_Ok hp h n l Hn Hl).
  unfold graft, with_subtree. by rewrite He.
Qed.

(** The first half of a pass of the second loop of [add]: the entry of a
    leaf moves to a new node below it. *)
Lemma push_down_graft hp h n old l :
  hp !! h = Some n → entry n = Some old → 0 ≤ l < len (subtree n) →
  ∃ hp1 hp2,
    newTreeNode hp memTreeLW (Some h) l = Ok (hp1, length hp)
    ∧ set_entry hp1 (length hp) (Some old) = Ok hp2
    ∧ set_entry hp2 h None = Ok (graft hp h n l (Some old)).
Proof.
  intros Hn He Hl. pose proof (lookup_lt_Some _ _ _ Hn) as Hlt.
  eexists _, _. split; [by apply newTreeNode_Ok|]. split.
  - apply set_entry_Ok. rewrite list_lookup_insert_ne by lia.
    rewrite lookup_app_r by lia. by rewrite Nat.sub_diag.
  - erewrite set_entry_Ok.
    2:{ rewrite list_lookup_insert_ne by lia. apply list_lookup_insert_eq.
        rewrite length_app. lia. }
    f_equal. unfold graft, with_entry, with_subtree, bare. simpl.
    rewrite (list_insert_insert_ne _ (length hp) h) by lia.
    rewrite list_insert_insert_eq, insert_app_r_alt by lia.
    by rewrite Nat.sub_diag.
Qed.

Section graft.
Context (hp : list dpaMemTree) (h : nat) (n : dpaMemTree) (l : Z) (oe : option Chunk).
Context (Hwf : wf hp) (Hn : hp !! h = Some n).
Context (Hl : 0 ≤ l < width n) (Hfree : subtree n !! Z.to_nat l = Some None).

Lemma graft_length : length (graft hp h n l oe) = S (length hp).
Proof. unfold graft. rewrite length_insert, length_app. simpl. lia. Qed.

Lemma graft_lookup_at :
  graft hp h n l oe !! h =
    Some (mkTree (<[Z.to_nat l := Some (length hp)]> (subtree n)) (parent n)
            (parent_idx n) (bits_ n) (width n) None (access n)).
Proof.
  unfold graft. apply list_lookup_insert_eq. rewrite length_app.
  pose proof (lookup_lt_Some _ _ _ Hn). lia.
Qed.

Lemma graft_lookup_new : graft hp h n l oe !! length hp = Some (bare h l oe).
Proof.
  unfold graft. pose proof (lookup_lt_Some _ _ _ Hn).
  rewrite list_lookup_insert_ne by lia.
  rewrite lookup_app_r by lia. by rewrite Nat.sub_diag.
Qed.

Lemma graft_lookup_old g : g ≠ h → g ≠ length hp → graft hp h n l oe !! g = hp !! g.
Proof.
  intros H1 H2. unfold graft. rewrite list_lookup_insert_ne by done.
  destruct (decide (g < length hp)%nat).
  - by rewrite lookup_app_l.
  - rewrite lookup_app_r by lia. rewrite (lookup_ge_None_2 hp g) by lia.
    destruct (g - length hp)%nat eqn:E; [lia|done].
Qed.

(** Every node of the new heap, by cases. *)
Lemma graft_lookup g m :
  graft hp h n l oe !! g = Some m →
  (g = h ∧ m = mkTree (<[Z.to_nat l := Some (length hp)]> (subtree n)) (parent n)
                 (parent_idx n) (bits_ n) (width n) None (access n))
  ∨ (g = length hp ∧ m = bare h l oe)
  ∨ (g ≠ h ∧ g ≠ length hp ∧ hp !! g = Some m).
Proof.
  intros Hg. destruct (decide (g = h)) as [->|H1].
  { left. rewrite graft_lookup_at in Hg. split; congruence. }
  destruct (decide (g = length hp)) as [->|H2].
  { right; left. rewrite graft_lookup_new in Hg. split; congruence. }
  right; right. by rewrite graft_lookup_old in Hg.
Qed.

Lemma graft_val g i : val (graft hp h n l oe) g i = val hp g i.
Proof.
  unfold val. destruct (decide (g = h)) as [->|H1].
  { by rewrite graft_lookup_at, Hn. }
  destruct (decide (g = length hp)) as [->|H2].
  { rewrite graft_lookup_new. rewrite (lookup_ge_None_2 hp) by lia. simpl.
    by destruct (Z.to_nat i) as [|[|[|]]]. }
  by rewrite graft_lookup_old.
Qed.

End graft.

(** ** The bits of a key *)

(** The keys of one store have one length [L], and hold bytes. *)
Definition valid_key (L : nat) (k : Key) : Prop :=
  length k = L ∧ Forall (λ b, 0 ≤ b < 256) k.

(** The bit position and the number of bits [add] and [find] read at depth
    [d] of the tree: [memTreeFLW] bits at the root, [memTreeLW] below. *)
Definition pos (d : nat) : Z :=
  match d with O => 0 | S _ => 12 + 2 * Z.of_nat d end.

Definition wid (d : nat) : Z :=
  match d with O => memTreeFLW | S _ => memTreeLW end.

Lemma pos_S d : pos (S d) = pos d + wid d.
Proof. destruct d; unfold pos, wid, memTreeFLW, memTreeLW; lia. Qed.

Lemma pos_nonneg d : 0 ≤ pos d.
Proof. destruct d; unfold pos; lia. Qed.

Lemma byte_quarters b :
  0 ≤ b < 256 →
  b = b mod 4 + 4 * ((b / 4) mod 4) + 16 * ((b / 16) mod 4) + 64 * ((b / 64) mod 4).
Proof. intros. Z.div_mod_to_equations. lia. Qed.

Lemma bits_past k i j :
  0 ≤ i → Z.of_nat (length k) < 2 ^ 64 → 8 * Z.of_nat (length k) ≤ i → bits k i j = Ok 0.
Proof.
  intros Hi Hk Hle. unfold bits, Size. rewrite uint_small by lia.
  rewrite Z.shiftr_div_pow2 by lia. change (2 ^ 3) with 8.
  destruct (Z.leb_spec (Z.of_nat (length k)) (i / 8)); [done|].
  exfalso. Z.div_mod_to_equations. lia.
Qed.

Lemma bits_two (k : list Z) ii q b :
  k !! ii = Some b → 0 ≤ b < 256 → 0 ≤ q < 4 → Z.of_nat (length k) < 2 ^ 60 →
  bits k (8 * Z.of_nat ii + 2 * q) memTreeLW = Ok ((b / 4 ^ q) mod 4).
Proof.
  intros Hb Hr Hq Hk. pose proof (lookup_lt_Some _ _ _ Hb) as Hlt.
  unfold bits, Size. rewrite uint_small by lia.
  rewrite Z.shiftr_div_pow2 by lia. change (2 ^ 3) with 8.
  change 7 with (Z.ones 3). rewrite Z.land_ones by lia. change (2 ^ 3) with 8.
  assert ((8 * Z.of_nat ii + 2 * q) / 8 = Z.of_nat ii) as -> by
    (Z.div_mod_to_equations; lia).
  assert ((8 * Z.of_nat ii + 2 * q) mod 8 = 2 * q) as -> by
    (Z.div_mod_to_equations; lia).
  destruct (Z.leb_spec (Z.of_nat (length k)) (Z.of_nat ii)); [lia|].
  unfold memTreeLW. rewrite uint_small by lia.
  destruct (Z.leb_spec (2 * q + 2) 8); [|lia].
  unfold index_at. destruct (Z.ltb_spec (Z.of_nat ii) 0); [lia|].
  rewrite Nat2Z.id, Hb. simpl. f_equal.
  change (byte (byte (Z.shiftl 1 2) - 1)) with (Z.ones 2).
  rewrite Z.land_ones by lia. rewrite Z.shiftr_div_pow2 by lia.
  by rewrite Z.pow_mul_r by lia.
Qed.

Lemma bits_root (k : list Z) b0 b1 :
  k !! 0%nat = Some b0 → k !! 1%nat = Some b1 → 0 ≤ b0 < 256 → 0 ≤ b1 < 256 →
  Z.of_nat (length k) < 2 ^ 60 →
  bits k 0 memTreeFLW = Ok (b0 + 256 * (b1 mod 64)).
Proof.
  intros H0 H1 R0 R1 Hk. pose proof (lookup_lt_Some _ _ _ H1) as Hlt.
  unfold bits, Size. rewrite uint_small by lia.
  change (Z.shiftr 0 3) with 0. change (Z.land 0 7) with 0.
  destruct (Z.leb_spec (Z.of_nat (length k)) 0); [lia|].
  change (uint (0 + memTreeFLW) <=? 8) with false. cbv iota.
  unfold index_at at 1. simpl. change (Z.to_nat 0) with 0%nat. rewrite H0. simpl.
  change (uint (0 + 1)) with 1. unfold index_at. simpl.
  change (Z.to_nat 1) with 1%nat. rewrite H1. simpl. f_equal.
  change (byte (byte (Z.shiftl 1 (uint (memTreeFLW - uint (8 - 0)))) - 1))
    with (Z.ones 6).
  change (uint (8 - 0)) with 8.
  rewrite Z.land_ones by lia. rewrite Z.shiftl_mul_pow2 by lia.
  change (2 ^ 6) with 64. change (2 ^ 8) with 256. rewrite Z.shiftr_0_r.
  pose proof (Z.mod_pos_bound b1 64 ltac:(lia)).
  rewrite (uint_small (b1 mod 64 * 256)) by lia. rewrite uint_small by lia. lia.
Qed.

(** Every position of depth [d ≥ 1] is a pair of bits of one byte. *)
Lemma pos_split d :
  ∃ ii q, pos (S d) = 8 * Z.of_nat ii + 2 * q ∧ 0 ≤ q < 4
    ∧ Z.of_nat ii = (12 + 2 * Z.of_nat (S d)) / 8.
Proof.
  exists (Z.to_nat ((12 + 2 * Z.of_nat (S d)) / 8)),
         (((12 + 2 * Z.of_nat (S d)) mod 8) / 2).
  unfold pos. rewrite Z2Nat.id by (Z.div_mod_to_equations; lia).
  repeat split; Z.div_mod_to_equations; lia.
Qed.

Section keys.
Context (L : nat) (HL : (2 ≤ L)%nat) (HL' : Z.of_nat L < 2 ^ 60).

Lemma valid_key_lookup (k : list Z) ii :
  valid_key L k → (ii < L)%nat → ∃ b, k !! ii = Some b ∧ 0 ≤ b < 256.
Proof.
  intros [Hlen Hall] Hi. destruct (lookup_lt_is_Some_2 k ii) as [b Hb]; [lia|].
  exists b. split; [done|]. by apply (Forall_lookup_1 _ _ _ _ Hall Hb).
Qed.

(** [bits] returns, and what it returns indexes a subtree of that depth. *)
Lemma bits_pos k d :
  valid_key L k → ∃ l, bits k (pos d) (wid d) = Ok l ∧ 0 ≤ l < 2 ^ wid d.
Proof.
  intros Hk. pose proof Hk as [Hlen _]. destruct d as [|d].
  - destruct (valid_key_lookup k 0 Hk ltac:(lia)) as (b0 & H0 & R0).
    destruct (valid_key_lookup k 1 Hk ltac:(lia)) as (b1 & H1 & R1).
    exists (b0 + 256 * (b1 mod 64)). split.
    + apply bits_root; try done. lia.
    + change (2 ^ wid 0) with 16384. Z.div_mod_to_equations. lia.
  - destruct (pos_split d) as (ii & q & -> & Hq & Hii).
    change (wid (S d)) with memTreeLW. change (2 ^ memTreeLW) with 4.
    destruct (decide (ii < L)%nat) as [Hlt|Hge].
    + destruct (valid_key_lookup k ii Hk Hlt) as (b & Hb & Rb).
      exists ((b / 4 ^ q) mod 4). split; [apply bits_two; try done; lia|].
      apply Z.mod_pos_bound. lia.
    + exists 0. split; [|lia]. apply bits_past; lia.
Qed.

(** Two keys whose bits agree at every depth are one key. *)
Lemma keys_agree (k k' : list Z) :
  valid_key L k → valid_key L k' →
  (∀ d, pos d < 8 * Z.of_nat L → bits k (pos d) (wid d) = bits k' (pos d) (wid d)) →
  k = k'.
Proof.
  intros Hk Hk' Hall. pose proof Hk as [Hlen _]. pose proof Hk' as [Hlen' _].
  destruct (valid_key_lookup k 0 Hk ltac:(lia)) as (b0 & H0 & R0).
  destruct (valid_key_lookup k 1 Hk ltac:(lia)) as (b1 & H1 & R1).
  destruct (valid_key_lookup k' 0 Hk' ltac:(lia)) as (c0 & G0 & S0).
  destruct (valid_key_lookup k' 1 Hk' ltac:(lia)) as (c1 & G1 & S1).
  pose proof (Hall 0%nat ltac:(simpl; lia)) as E0. simpl in E0.
  rewrite (bits_root k b0 b1), (bits_root k' c0 c1) in E0 by (try done; lia).
  injection E0 as E0.
  pose proof (Hall 1%nat ltac:(simpl; lia)) as E1.
  change (pos 1) with (8 * Z.of_nat 1 + 2 * 3) in E1. change (wid 1) with memTreeLW in E1.
  rewrite (bits_two k 1 3 b1), (bits_two k' 1 3 c1) in E1 by (try done; lia).
  injection E1 as E1. change (4 ^ 3) with 64 in E1.
  apply list_eq. intros i.
  destruct (decide (i < L)%nat) as [Hi|Hi].
  2:{ by rewrite !lookup_ge_None_2 by lia. }
  destruct (decide (i = 0%nat)) as [->|Hi0].
  { rewrite H0, G0. f_equal. Z.div_mod_to_equations. lia. }
  destruct (decide (i = 1%nat)) as [->|Hi1].
  { rewrite H1, G1. f_equal. Z.div_mod_to_equations. lia. }
  destruct (valid_key_lookup k i Hk Hi) as (b & Hb & Rb).
  destruct (valid_key_lookup k' i Hk' Hi) as (c & Hc & Rc).
  rewrite Hb, Hc. f_equal.
  assert (∀ q, 0 ≤ q < 4 → (b / 4 ^ q) mod 4 = (c / 4 ^ q) mod 4) as Hq.
  { intros q Hq.
    pose proof (Hall (Z.to_nat (4 * Z.of_nat i - 6 + q))) as E.
    destruct (Z.to_nat (4 * Z.of_nat i - 6 + q)) as [|d] eqn:Ed; [lia|].
    unfold pos, wid in E. rewrite <- Ed in E. rewrite Z2Nat.id in E by lia.
    replace (12 + 2 * (4 * Z.of_nat i - 6 + q)) with (8 * Z.of_nat i + 2 * q) in E
      by lia.
    rewrite (bits_two k i q b), (bits_two k' i q c) in E by (try done; lia).
    specialize (E ltac:(lia)). by injection E. }
  pose proof (Hq 0 ltac:(lia)) as Q0. pose proof (Hq 1 ltac:(lia)) as Q1.
  pose proof (Hq 2 ltac:(lia)) as Q2. pose proof (Hq 3 ltac:(lia)) as Q3.
  change (4 ^ 0) with 1 in Q0. change (4 ^ 1) with 4 in Q1.
  change (4 ^ 2) with 16 in Q2. change (4 ^ 3) with 64 in Q3.
  rewrite !Z.div_1_r in Q0.
  rewrite (byte_quarters b), (byte_quarters c) by done.
  by rewrite Q0, Q1, Q2, Q3.
Qed.

End keys.

(** ** The tree after a graft *)

Section graft_wf.
Context (hp : list dpaMemTree) (h : nat) (n : dpaMemTree) (l : Z) (oe : option Chunk).
Context (Hwf : wf hp) (Hn : hp !! h = Some n).
Context (Hl : 0 ≤ l < width n) (Hfree : subtree n !! Z.to_nat l = Some None).

Local Abbreviation hp' := (graft hp h n l oe).
Local Abbreviation n' :=
  (mkTree (<[Z.to_nat l := Some (length hp)]> (subtree n)) (parent n)
     (parent_idx n) (bits_ n) (width n) None (access n)).

Lemma graft_wf : wf hp'.
Proof.
  pose proof (lookup_lt_Some _ _ _ Hn) as Hlt.
  pose proof (lookup_lt_Some _ _ _ Hfree) as Hll.
  destruct Hwf as [Hsh Hroot Hpar Horph Hch Hlf]. split.
  - intros g m Hg. destruct (graft_lookup hp h n l oe Hn g m Hg)
      as [[-> ->]|[[-> ->]|(H1 & H2 & Hm)]].
    + destruct (Hsh h n Hn) as [B W S A]. split; simpl; try done.
      unfold len in *. by rewrite length_insert.
    + split; simpl; try done. by left.
    + by apply (Hsh g m).
  - destruct Hroot as (r & Hr & Hp & He).
    destruct (decide (h = 0%nat)) as [->|H0].
    + exists n'. split; [by apply graft_lookup_at|].
      assert (r = n) as -> by congruence. done.
    + exists r. split; [|done]. rewrite graft_lookup_old; try done. lia.
  - intros g m p Hg Hp. destruct (graft_lookup hp h n l oe Hn g m Hg)
      as [[-> ->]|[[-> ->]|(H1 & H2 & Hm)]].
    + simpl in Hp. destruct (Hpar h n p Hn Hp) as (Hph & Hb & pn & Hpn & Hi & Hsub).
      split; [done|]. split; [done|]. exists pn. split; [|done].
      rewrite graft_lookup_old; try done; lia.
    + simpl in Hp. injection Hp as <-. split; [done|]. split; [done|].
      exists n'. split; [by apply graft_lookup_at|]. split; [simpl; lia|].
      simpl. by apply list_lookup_insert_eq.
    + destruct (Hpar g m p Hm Hp) as (Hph & Hb & pn & Hpn & Hi & Hsub).
      split; [done|]. split; [done|].
      destruct (decide (p = h)) as [->|Hne].
      * exists n'. split; [by apply graft_lookup_at|]. split; [done|].
        simpl. assert (pn = n) as -> by congruence.
        rewrite list_lookup_insert_ne; [done|]. intros E. rewrite E in Hfree.
        congruence.
      * exists pn. split; [|done].
        pose proof (lookup_lt_Some _ _ _ Hm).
        rewrite graft_lookup_old; try done. lia.
  - intros g m Hg Hp. destruct (graft_lookup hp h n l oe Hn g m Hg)
      as [[-> ->]|[[-> ->]|(H1 & H2 & Hm)]]; simpl in Hp.
    + by apply (Horph h n).
    + done.
    + by apply (Horph g m).
  - intros g m j c Hg Hj. destruct (graft_lookup hp h n l oe Hn g m Hg)
      as [[-> ->]|[[-> ->]|(H1 & H2 & Hm)]]; simpl in Hj.
    + destruct (decide (j = Z.to_nat l)) as [->|Hne].
      * rewrite list_lookup_insert_eq in Hj by done. injection Hj as <-.
        exists (bare h l oe). split; [by apply graft_lookup_new|].
        split; [done|]. simpl. lia.
      * rewrite list_lookup_insert_ne in Hj by done.
        destruct (Hch h n j c Hn Hj) as (cn & Hcn & Hp & Hi).
        destruct (Hpar c cn h Hcn Hp) as (Hc & _).
        pose proof (lookup_lt_Some _ _ _ Hcn).
        exists cn. split; [|done]. rewrite graft_lookup_old; try done; lia.
    + exfalso. by destruct j as [|[|[|[|]]]].
    + destruct (Hch g m j c Hm Hj) as (cn & Hcn & Hp & Hi).
      pose proof (lookup_lt_Some _ _ _ Hcn).
      destruct (decide (c = h)) as [->|Hne].
      * exists n'. split; [by apply graft_lookup_at|].
        assert (cn = n) as -> by congruence. done.
      * exists cn. split; [|done]. rewrite graft_lookup_old; try done; lia.
  - intros g m Hg He. destruct (graft_lookup hp h n l oe Hn g m Hg)
      as [[-> ->]|[[-> ->]|(H1 & H2 & Hm)]]; simpl in He.
    + by destruct He.
    + simpl. by repeat constructor.
    + by apply (Hlf g m).
Qed.

(** What a slot sees below it is what it saw before. *)
Lemma graft_ext g m m' i :
  hp !! g = Some m → hp' !! g = Some m' → ext hp' g m' i = ext hp g m i.
Proof.
  intros Hm Hm'. pose proof (lookup_lt_Some _ _ _ Hm) as Hlt.
  unfold ext. rewrite graft_val by done.
  destruct (graft_lookup hp h n l oe Hn g m' Hm')
    as [[-> ->]|[[-> ->]|(H1 & H2 & Hm2)]]; [|lia|].
  - assert (m = n) as -> by congruence. simpl.
    destruct (_ <? _); [done|]. unfold chv. simpl.
    destruct (decide (Z.to_nat (i - (width n - 1)) = Z.to_nat l)) as [E|E].
    + rewrite E, Hfree.
      rewrite list_lookup_insert_eq by (by eapply lookup_lt_Some).
      rewrite graft_val by done. unfold val.
      by rewrite (lookup_ge_None_2 hp (length hp)) by lia.
    + rewrite list_lookup_insert_ne by done.
      destruct (subtree n !! Z.to_nat (i - (width n - 1))) as [[c|]|]; try done.
      by rewrite graft_val.
  - assert (m' = m) as -> by congruence.
    destruct (_ <? _); [done|]. unfold chv.
    destruct (subtree m !! _) as [[c|]|]; try done. by rewrite graft_val.
Qed.

Lemma graft_min_at g m m' i :
  hp !! g = Some m → hp' !! g = Some m' → min_at hp g m i → min_at hp' g m' i.
Proof.
  intros Hm Hm' H. unfold min_at in *. rewrite graft_val by done.
  by rewrite !(graft_ext g m m').
Qed.

Lemma graft_min_at_new i : min_at hp' (length hp) (bare h l oe) i.
Proof.
  unfold min_at. rewrite graft_val by done.
  assert (∀ i, val hp (length hp) i = 0) as Hz.
  { intros j. unfold val. by rewrite (lookup_ge_None_2 hp (length hp)) by lia. }
  assert (∀ j, chv (graft hp h n l oe) (bare h l oe) j = 0) as Hc.
  { intros j. unfold chv. simpl. by destruct (Z.to_nat j) as [|[|[|[|]]]]. }
  unfold ext. rewrite !graft_val, !Hz, !Hc by done.
  by repeat destruct (_ <? _).
Qed.

(** A graft below a node that held no entry keeps the min-trees in order. *)
Lemma graft_min_ok : entry n = None → min_ok hp → min_ok hp'.
Proof.
  intros He Hmin g m i Hg Hem Hi. destruct (graft_lookup hp h n l oe Hn g m Hg)
    as [[-> ->]|[[-> ->]|(H1 & H2 & Hm)]].
  - apply (graft_min_at h n); try done. by apply Hmin.
  - apply graft_min_at_new.
  - apply (graft_min_at g m); try done. by apply Hmin.
Qed.

End graft_wf.

(** ** Paths of keys *)

(** Node [h] lies at depth [d] on the way [add] and [find] take for key [k]. *)
Inductive at_path (hp : list dpaMemTree) (k : Key) : nat → nat → Prop :=
  | at_root : at_path hp k 0 0
  | at_child h d n l c :
      at_path hp k h d → hp !! h = Some n →
      bits k (pos d) (bits_ n) = Ok l →
      subtree n !! Z.to_nat l = Some (Some c) →
      at_path hp k c (S d).

(** The second heap has every link of the first. *)
Definition grows (hp hp' : list dpaMemTree) : Prop :=
  ∀ h n, hp !! h = Some n →
    ∃ n', hp' !! h = Some n' ∧ bits_ n' = bits_ n
      ∧ ∀ j c, subtree n !! j = Some (Some c) → subtree n' !! j = Some (Some c).

Lemma at_path_grows hp hp' k h d : grows hp hp' → at_path hp k h d → at_path hp' k h d.
Proof.
  intros Hg. induction 1 as [|h d n l c _ IH Hn Hb Hc]; [constructor|].
  destruct (Hg h n Hn) as (n' & Hn' & Hbits & Hsub).
  apply (at_child hp' k h d n' l c); auto. by rewrite Hbits.
Qed.

Lemma grows_same_skel hp hp' : same_skel hp hp' → grows hp hp'.
Proof.
  intros Hs h n Hn. destruct (same_skel_lookup_r _ _ _ _ Hs Hn) as (n' & Hn' & E).
  skel_eq E. exists n'. split; [done|]. split; [done|]. intros j c. by rewrite Hst.
Qed.

Lemma grows_graft hp h n l oe :
  hp !! h = Some n → subtree n !! Z.to_nat l = Some None → grows hp (graft hp h n l oe).
Proof.
  intros Hn Hfree g m Hm. pose proof (lookup_lt_Some _ _ _ Hm) as Hlt.
  destruct (decide (g = h)) as [->|Hne].
  - assert (m = n) as -> by congruence. eexists. split; [by apply graft_lookup_at|].
    split; [done|]. simpl. intros j c Hj. rewrite list_lookup_insert_ne; [done|].
    intros <-. congruence.
  - exists m. split; [|done]. rewrite graft_lookup_old; try done. lia.
Qed.

Lemma grows_set_entry hp h n e : hp !! h = Some n → grows hp (<[h := with_entry n e]> hp).
Proof.
  intros Hn g m Hm. pose proof (lookup_lt_Some _ _ _ Hm) as Hlt.
  destruct (decide (g = h)) as [->|Hne].
  - assert (m = n) as -> by congruence. exists (with_entry n e).
    split; [by apply list_lookup_insert_eq|]. done.
  - exists m. split; [|done]. by rewrite list_lookup_insert_ne.
Qed.

Definition one_if (o : option Chunk) : Z :=
  match o with Some _ => 1 | None => 0 end.

(** The number of nodes that hold an entry. *)
Fixpoint leaves (hp : list dpaMemTree) : Z :=
  match hp with
  | [] => 0
  | n :: hp => one_if (entry n) + leaves hp
  end.

Lemma leaves_app hp hp' : leaves (hp ++ hp') = leaves hp + leaves hp'.
Proof. induction hp as [|n hp IH]; simpl; lia. Qed.

Lemma leaves_insert hp h n n' :
  hp !! h = Some n →
  leaves (<[h := n']> hp) =
    leaves hp - one_if (entry n) + one_if (entry n').
Proof.
  revert h. induction hp as [|m hp IH]; intros [|h] Hn; simpl in *; try done.
  - injection Hn as ->. lia.
  - rewrite (IH h Hn). lia.
Qed.

Lemma leaves_same_skel hp hp' : same_skel hp hp' → leaves hp' = leaves hp.
Proof.
  unfold same_skel. revert hp'.
  induction hp as [|n hp IH]; intros [|n' hp'] H; try done.
  rewrite !fmap_cons in H. injection H as _ _ _ _ _ He _ H. simpl.
  by rewrite He, (IH hp').
Qed.

Lemma leaves_nonneg hp : 0 ≤ leaves hp.
Proof. induction hp as [|n hp IH]; simpl; [done|]. destruct (entry n); simpl; lia. Qed.

Lemma leaves_graft hp h n l oe :
  hp !! h = Some n →
  leaves (graft hp h n l oe) =
    leaves hp - one_if (entry n) + one_if oe.
Proof.
  intros Hn. unfold graft.
  rewrite (leaves_insert _ h n) by (by apply lookup_app_l_Some).
  rewrite leaves_app. simpl. lia.
Qed.

(** A node that holds an entry exists when the count is not zero. *)
Lemma leaves_pos hp : 0 < leaves hp → ∃ h n, hp !! h = Some n ∧ is_Some (entry n).
Proof.
  induction hp as [|m hp IH]; simpl; [lia|]. intros H.
  destruct (entry m) eqn:E; simpl in H.
  - exists 0%nat, m. split; [done|]. by rewrite E.
  - destruct (IH ltac:(lia)) as (h & n & Hn & He). by exists (S h), n.
Qed.

(** ** The invariant of the store's heap *)

(** Entry [e] is stored, with access value [v]. *)
Definition stored (hp : list dpaMemTree) (e : Chunk) (v : Z) : Prop :=
  ∃ h n, hp !! h = Some n ∧ entry n = Some e ∧ val hp h 0 = v.

(** What every heap the store builds satisfies; [L] is the length of the
    keys and [C] the access counter.  A node [x] that has just taken an entry
    has no access value yet. *)
Record sound_at (x : option nat) (L : nat) (C : Z) (hp : list dpaMemTree) : Prop := {
  s_wf : wf hp;
  s_root : ∃ r, hp !! 0%nat = Some r ∧ bits_ r = memTreeFLW;
  s_min : min_ok hp;
  s_bound : ∀ h i, 0 ≤ i → val hp h i ≤ C;
  s_leaf : ∀ h n, hp !! h = Some n → is_Some (entry n) →
      (x ≠ Some h → 0 < val hp h 0) ∧ val hp h 1 = 0 ∧ val hp h 2 = 0;
  s_key : ∀ h n e, hp !! h = Some n → entry n = Some e →
      valid_key L (Chunk_Key e) ∧ ∃ d, at_path hp (Chunk_Key e) h d;
  s_distinct : ∀ h h' n n', hp !! h = Some n → hp !! h' = Some n' →
      is_Some (entry n) → is_Some (entry n') → x ≠ Some h → x ≠ Some h' →
      val hp h 0 = val hp h' 0 → h = h';
}.

Abbreviation sound := (sound_at None).

(** *** Paths in a well-formed heap *)

Lemma at_path_depth hp k h d : wf hp → at_path hp k h d → (d ≤ h)%nat.
Proof.
  intros Hwf. induction 1 as [|h d n l c _ IH Hn Hb Hc]; [done|].
  destruct (wf_child hp Hwf h n _ c Hn Hc) as (cn & Hcn & Hp & _).
  destruct (wf_parent hp Hwf c cn h Hcn Hp) as (Hlt & _). lia.
Qed.

Lemma at_path_lookup hp k h d : wf hp → at_path hp k h d → is_Some (hp !! h).
Proof.
  intros Hwf. destruct 1 as [|h d n l c _ Hn Hb Hc].
  - destruct (wf_root hp Hwf) as (r & Hr & _). by exists r.
  - destruct (wf_child hp Hwf h n _ c Hn Hc) as (cn & Hcn & _). by exists cn.
Qed.

(** The root is the one node of depth 0. *)
Lemma at_path_root hp k h d : wf hp → at_path hp k h d → (h = 0%nat ↔ d = 0%nat).
Proof.
  intros Hwf. destruct 1 as [|h d n l c _ Hn Hb Hc]; [done|].
  destruct (wf_child hp Hwf h n _ c Hn Hc) as (cn & Hcn & Hp & _).
  destruct (wf_parent hp Hwf c cn h Hcn Hp) as (Hlt & _). split; intros; lia.
Qed.

Lemma at_path_bits L C hp k h d n :
  sound L C hp → at_path hp k h d → hp !! h = Some n → bits_ n = wid d.
Proof.
  intros Hs Hp. pose proof (s_wf _ _ _ _ Hs) as Hwf.
  destruct Hp as [|h d m l c _ Hm Hb Hc]; intros Hn.
  - destruct (s_root _ _ _ _ Hs) as (r & Hr & Hbits). simpl. congruence.
  - destruct (wf_child hp Hwf h m _ c Hm Hc) as (cn & Hcn & Hp & _).
    assert (cn = n) as -> by congruence.
    by destruct (wf_parent hp Hwf c n h Hn Hp) as (_ & Hbits & _).
Qed.

Lemma shape_width_bits n : shape n → width n = 2 ^ bits_ n.
Proof. by intros []. Qed.

Lemma wf_has_child hp h n j c :
  wf hp → hp !! h = Some n → subtree n !! j = Some (Some c) → entry n = None.
Proof.
  intros Hwf Hn Hc. destruct (entry n) as [e|] eqn:He; [|done].
  pose proof (wf_leaf hp Hwf h n Hn ltac:(by rewrite He)) as Hl.
  by pose proof (Forall_lookup_1 _ _ _ _ Hl Hc).
Qed.

(** The way of a key holds one node at each depth. *)
Lemma at_path_unique hp k h h' d :
  at_path hp k h d → at_path hp k h' d → h = h'.
Proof.
  intros Hp. revert h'. induction Hp as [|h d n l c Hp IH Hn Hb Hc]; intros h' Hp'.
  - by inversion Hp'.
  - inversion Hp' as [|g d0 m x y Hg Hm Hx Hy]; subst.
    pose proof (IH g Hg) as <-. assert (m = n) as -> by congruence.
    assert (x = l) as -> by congruence. congruence.
Qed.

(** The nodes above a node of the way lie on the way, and hold no entry. *)
Lemma at_path_prefix hp k h d d' :
  wf hp → at_path hp k h d → (d' < d)%nat →
  ∃ g m, at_path hp k g d' ∧ hp !! g = Some m ∧ entry m = None.
Proof.
  intros Hwf Hp. induction Hp as [|h d n l c Hp IH Hn Hb Hc]; intros Hd; [lia|].
  destruct (decide (d' = d)) as [->|Hne]; [|apply IH; lia].
  exists h, n. split; [done|]. split; [done|]. by eapply wf_has_child.
Qed.

(** A node that holds an entry ends the way through it: a key is stored at
    most once. *)
Lemma at_path_leaf hp k h d h' d' n n' :
  wf hp → at_path hp k h d → at_path hp k h' d' →
  hp !! h = Some n → hp !! h' = Some n' →
  is_Some (entry n) → is_Some (entry n') → h = h'.
Proof.
  intros Hwf Hp Hp' Hn Hn' [e He] [e' He'].
  destruct (lt_eq_lt_dec d d') as [[Hlt| ->]|Hlt].
  - destruct (at_path_prefix hp k h' d' d Hwf Hp' Hlt) as (g & m & Hg & Hm & Hem).
    pose proof (at_path_unique hp k h g d Hp Hg) as <-. congruence.
  - by eapply at_path_unique.
  - destruct (at_path_prefix hp k h d d' Hwf Hp Hlt) as (g & m & Hg & Hm & Hem).
    pose proof (at_path_unique hp k h' g d' Hp' Hg) as <-. congruence.
Qed.

Section paths.
Context (L : nat) (HL : (2 ≤ L)%nat) (HL' : Z.of_nat L < 2 ^ 60).
Context (C : Z) (hp : list dpaMemTree) (Hs : sound L C hp).

(** Two keys that lead to one node agree on every bit read on the way. *)
Lemma at_path_agree k k' h d d' :
  valid_key L k → valid_key L k' →
  at_path hp k h d → at_path hp k' h d' →
  d = d' ∧ ∀ j, (j < d)%nat → bits k (pos j) (wid j) = bits k' (pos j) (wid j).
Proof.
  intros Hk Hk' Hp. pose proof (s_wf _ _ _ _ Hs) as Hwf. revert d'.
  induction Hp as [|h d n l c Hp IH Hn Hb Hc]; intros d' Hp'.
  - pose proof (proj1 (at_path_root hp k' 0 d' Hwf Hp') eq_refl) as ->.
    split; [done|]. intros; lia.
  - destruct Hp' as [|h' d' n' l' c Hp' Hn' Hb' Hc'].
    { destruct (wf_child hp Hwf h n _ 0%nat Hn Hc) as (cn & Hcn & Hpar & _).
      destruct (wf_parent hp Hwf _ cn h Hcn Hpar) as (Hlt & _). lia. }
    destruct (wf_child hp Hwf h n _ c Hn Hc) as (cn & Hcn & Hpar & Hidx).
    destruct (wf_child hp Hwf h' n' _ c Hn' Hc') as (cn' & Hcn' & Hpar' & Hidx').
    assert (cn' = cn) as -> by congruence.
    assert (h' = h) as -> by congruence.
    assert (n' = n) as -> by congruence.
    destruct (IH d' Hp') as (-> & Hag). split; [done|].
    intros j Hj. destruct (decide (j = d')) as [->|Hne]; [|apply Hag; lia].
    rewrite (at_path_bits L C hp k h d' n Hs Hp Hn) in Hb, Hb'.
    destruct (bits_pos L HL HL' k d' Hk) as (x & Hx & Rx).
    destruct (bits_pos L HL HL' k' d' Hk') as (x' & Hx' & Rx').
    assert (x = l) as -> by congruence. assert (x' = l') as -> by congruence.
    rewrite Hb, Hb'. f_equal. lia.
Qed.

End paths.

(** ** An access to a node that holds an entry *)

Lemma is_leaf_skel (n n' : dpaMemTree) : skel n = skel n' → is_Some (entry n') → is_Some (entry n).
Proof. intros E. skel_eq E. by rewrite Hent. Qed.

Lemma refresh_sound x L C hp g gn a :
  sound_at x L C hp → x = None ∨ x = Some g →
  hp !! g = Some gn → is_Some (entry gn) → C < a → 0 < a →
  ∃ hp2, update_access hp g a = Ok hp2 ∧ same_skel hp hp2 ∧ sound L a hp2
    ∧ val hp2 g 0 = a
    ∧ (∀ h n, hp !! h = Some n → is_Some (entry n) → h ≠ g →
         val hp2 h 0 = val hp h 0).
Proof.
  intros Hs Hx Hg Hleaf HC Ha.
  destruct (update_access_fresh a hp g gn a) as
    (hp2 & Hrun & Hsk & Hwf2 & Hmin2 & HB2 & Hfr & Hv); try done.
  { apply (s_wf _ _ _ _ Hs). } { apply (s_min _ _ _ _ Hs). }
  { intros h i Hi. pose proof (s_bound _ _ _ _ Hs h i Hi). lia. }
  exists hp2. split; [done|]. split; [done|].
  assert (∀ h n i, hp !! h = Some n → is_Some (entry n) → 0 ≤ i → (h, i) ≠ (g, 0) →
    val hp2 h i = val hp h i) as Hleafv.
  { intros h n i Hn He Hi Hd. apply Hfr; try done. right. by exists n. }
  split; [|split; [done|]].
  2:{ intros h n Hn He Hd. apply (Hleafv h n); try done. congruence. }
  split; try done.
  - destruct (s_root _ _ _ _ Hs) as (r & Hr & Hb).
    destruct (same_skel_lookup_r _ _ _ _ Hsk Hr) as (r' & Hr' & E). skel_eq E.
    exists r'. split; [done|]. congruence.
  - intros h n' Hn' He'.
    destruct (same_skel_lookup _ _ _ _ Hsk Hn') as (n & Hn & E).
    pose proof (is_leaf_skel n n' E He') as He.
    destruct (s_leaf _ _ _ _ Hs h n Hn He) as (H0 & H1 & H2).
    rewrite (Hleafv h n 1), (Hleafv h n 2) by (try done; congruence).
    split; [|done]. intros _. destruct (decide (h = g)) as [->|Hne]; [lia|].
    rewrite (Hleafv h n 0) by (try done; congruence). apply H0.
    destruct Hx as [->| ->]; congruence.
  - intros h n' e Hn' He'.
    destruct (same_skel_lookup _ _ _ _ Hsk Hn') as (n & Hn & E). skel_eq E.
    destruct (s_key _ _ _ _ Hs h n e Hn ltac:(congruence)) as (Hk & d & Hp).
    split; [done|]. exists d. eapply at_path_grows; [|done]. by apply grows_same_skel.
  - intros h h' n1 n1' Hn1 Hn1' He1 He1' _ _ Heq.
    destruct (same_skel_lookup _ _ _ _ Hsk Hn1) as (n & Hn & E).
    destruct (same_skel_lookup _ _ _ _ Hsk Hn1') as (n' & Hn' & E').
    pose proof (is_leaf_skel n n1 E He1) as He.
    pose proof (is_leaf_skel n' n1' E' He1') as He'.
    destruct (decide (h = g)) as [->|Hne]; destruct (decide (h' = g)) as [->|Hne'];
      try done.
    + rewrite Hv, (Hleafv h' n' 0) in Heq by (try done; congruence).
      pose proof (s_bound _ _ _ _ Hs h' 0 ltac:(lia)). lia.
    + rewrite Hv, (Hleafv h n 0) in Heq by (try done; congruence).
      pose proof (s_bound _ _ _ _ Hs h 0 ltac:(lia)). lia.
    + rewrite (Hleafv h n 0), (Hleafv h' n' 0) in Heq by (try done; congruence).
      apply (s_distinct _ _ _ _ Hs h h' n n'); try done;
        destruct Hx as [->| ->]; congruence.
Qed.

(** ** A new empty node *)

Lemma graft_sound L C hp h n l :
  sound L C hp → hp !! h = Some n → entry n = None →
  0 ≤ l < width n → subtree n !! Z.to_nat l = Some None →
  sound L C (graft hp h n l None).
Proof.
  intros Hs Hn He Hl Hfree. pose proof (s_wf _ _ _ _ Hs) as Hwf.
  pose proof (lookup_lt_Some _ _ _ Hn) as Hlt.
  assert (∀ g m, graft hp h n l None !! g = Some m → is_Some (entry m) →
    hp !! g = Some m) as Hold.
  { intros g m Hg Hem. destruct (graft_lookup hp h n l None Hn g m Hg)
      as [[-> ->]|[[-> ->]|(H1 & H2 & Hm)]]; try done; by destruct Hem. }
  split.
  - by apply graft_wf.
  - destruct (s_root _ _ _ _ Hs) as (r & Hr & Hb).
    destruct (decide (h = 0%nat)) as [->|H0].
    + eexists. split; [by apply graft_lookup_at|]. simpl. congruence.
    + exists r. split; [|done]. rewrite graft_lookup_old; try done. lia.
  - apply graft_min_ok; try done. apply (s_min _ _ _ _ Hs).
  - intros g i Hi. rewrite graft_val by done. by apply (s_bound _ _ _ _ Hs).
  - intros g m Hg Hem. rewrite !graft_val by done.
    apply (s_leaf _ _ _ _ Hs g m); auto.
  - intros g m e Hg Hem.
    destruct (s_key _ _ _ _ Hs g m e (Hold g m Hg ltac:(by rewrite Hem)) Hem)
      as (Hk & d & Hp).
    split; [done|]. exists d. eapply at_path_grows; [|done]. by apply grows_graft.
  - intros g g' m m' Hg Hg' Hem Hem' _ _. rewrite !graft_val by done.
    apply (s_distinct _ _ _ _ Hs g g' m m'); auto.
Qed.

(** ** A node takes an entry *)

Lemma set_entry_val hp h n e g i :
  hp !! h = Some n → val (<[h := with_entry n e]> hp) g i = val hp g i.
Proof.
  intros Hn. unfold val. destruct (decide (g = h)) as [->|Hne].
  - rewrite list_lookup_insert_eq by (by eapply lookup_lt_Some). by rewrite Hn.
  - by rewrite list_lookup_insert_ne.
Qed.

Lemma set_entry_lookup (hp : list dpaMemTree) (h : nat) n e (g : nat) m' :
  hp !! h = Some n → <[h := with_entry n e]> hp !! g = Some m' →
  (g = h ∧ m' = with_entry n e) ∨ (g ≠ h ∧ hp !! g = Some m').
Proof.
  intros Hn Hg. destruct (decide (g = h)) as [->|Hne].
  - rewrite list_lookup_insert_eq in Hg by (by eapply lookup_lt_Some).
    left. split; congruence.
  - rewrite list_lookup_insert_ne in Hg by done. by right.
Qed.

Lemma set_entry_lookup_r (hp : list dpaMemTree) (h : nat) n e (g : nat) m :
  hp !! h = Some n → hp !! g = Some m →
  <[h := with_entry n e]> hp !! g = Some (if decide (g = h) then with_entry n e else m).
Proof.
  intros Hn Hg. destruct (decide (g = h)) as [->|Hne].
  - by apply list_lookup_insert_eq, (lookup_lt_Some _ _ n).
  - by rewrite list_lookup_insert_ne.
Qed.

Lemma set_entry_ext hp h n e g m m' i :
  hp !! h = Some n → hp !! g = Some m → <[h := with_entry n e]> hp !! g = Some m' →
  ext (<[h := with_entry n e]> hp) g m' i = ext hp g m i.
Proof.
  intros Hn Hg Hg'. unfold ext. rewrite set_entry_val by done.
  assert (width m' = width m ∧ subtree m' = subtree m) as [-> Hsub].
  { destruct (set_entry_lookup hp h n e g m' Hn Hg') as [[-> ->]|[_ ?]].
    - assert (m = n) as -> by congruence. done.
    - assert (m' = m) as -> by congruence. done. }
  destruct (_ <? _); [done|]. unfold chv. rewrite Hsub.
  destruct (subtree m !! _) as [[c|]|]; try done. by rewrite set_entry_val.
Qed.

(** Taking or dropping an entry keeps the tree well formed, when the node is
    not the root and has no subtree. *)
Lemma set_entry_wf hp h n e :
  wf hp → hp !! h = Some n → Forall (λ c, c = None) (subtree n) →
  (is_Some e → is_Some (parent n)) →
  wf (<[h := with_entry n e]> hp).
Proof.
  intros Hwf Hn Hbare Hpar'. pose proof Hwf as [Hsh Hroot Hpar Horph Hch Hlf]. split.
  - intros g m Hg. destruct (set_entry_lookup hp h n e g m Hn Hg) as [[-> ->]|[_ Hm]].
    + destruct (Hsh h n Hn). by split.
    + by apply (Hsh g m).
  - destruct Hroot as (r & Hr & Hp & He).
    rewrite (set_entry_lookup_r hp h n e 0 r Hn Hr).
    destruct (decide (0%nat = h)) as [<-|Hne]; [|by exists r].
    assert (r = n) as -> by congruence. exists (with_entry n e). split; [done|].
    split; [done|]. simpl. destruct e as [c|]; [|done].
    destruct (Hpar' ltac:(done)) as [p Hpp]. congruence.
  - intros g m p Hg Hp.
    assert (∃ m0, hp !! g = Some m0 ∧ parent m0 = parent m ∧ bits_ m0 = bits_ m
      ∧ parent_idx m0 = parent_idx m) as (m0 & Hm0 & E1 & E2 & E3).
    { destruct (set_entry_lookup hp h n e g m Hn Hg) as [[-> ->]|[_ Hm]]; eauto. }
    destruct (Hpar g m0 p Hm0 ltac:(congruence)) as (Hlt & Hb & pn & Hpn & Hi & Hsub).
    split; [done|]. split; [congruence|].
    exists (if decide (p = h) then with_entry n e else pn).
    split; [by apply set_entry_lookup_r|]. split; [congruence|].
    rewrite <- E3. destruct (decide (p = h)) as [->|]; [|done].
    assert (pn = n) as -> by congruence. done.
  - intros g m Hg Hp. destruct (set_entry_lookup hp h n e g m Hn Hg) as [[-> ->]|[_ Hm]].
    + by apply (Horph h n).
    + by apply (Horph g m).
  - intros g m j c Hg Hj.
    assert (∃ m0, hp !! g = Some m0 ∧ subtree m0 = subtree m) as (m0 & Hm0 & E).
    { destruct (set_entry_lookup hp h n e g m Hn Hg) as [[-> ->]|[_ Hm]]; eauto. }
    destruct (Hch g m0 j c Hm0 ltac:(congruence)) as (cn & Hcn & Hp & Hi).
    exists (if decide (c = h) then with_entry n e else cn).
    split; [by apply set_entry_lookup_r|].
    destruct (decide (c = h)) as [->|]; [|done].
    assert (cn = n) as -> by congruence. done.
  - intros g m Hg He. destruct (set_entry_lookup hp h n e g m Hn Hg) as [[-> ->]|[_ Hm]].
    + done.
    + by apply (Hlf g m).
Qed.

Lemma chv_bare hp n j : Forall (λ c, c = None) (subtree n) → chv hp n j = 0.
Proof.
  intros Hb. unfold chv. destruct (subtree n !! Z.to_nat j) as [[c|]|] eqn:E; try done.
  by pose proof (Forall_lookup_1 _ _ _ _ Hb E).
Qed.

(** A node below the root is four wide. *)
Lemma wf_width_4 hp h n : wf hp → hp !! h = Some n → is_Some (parent n) → width n = 4.
Proof.
  intros Hwf Hn [p Hp]. destruct (wf_parent hp Hwf h n p Hn Hp) as (_ & Hb & _).
  destruct (wf_shape hp Hwf h n Hn) as [_ Hw _ _]. by rewrite Hw, Hb.
Qed.

(** The access values of a node with neither entry nor subtree are zero. *)
Lemma bare_vals hp g gn :
  wf hp → min_ok hp → hp !! g = Some gn → entry gn = None →
  Forall (λ c, c = None) (subtree gn) → is_Some (parent gn) →
  val hp g 0 = 0 ∧ val hp g 1 = 0 ∧ val hp g 2 = 0.
Proof.
  intros Hwf Hmin Hg He Hb Hp. pose proof (wf_width_4 hp g gn Hwf Hg Hp) as Hw.
  pose proof (Hmin g gn 1 Hg He ltac:(lia)) as H1.
  pose proof (Hmin g gn 2 Hg He ltac:(lia)) as H2.
  pose proof (Hmin g gn 0 Hg He ltac:(lia)) as H0.
  unfold min_at, ext in *. rewrite Hw in *. simpl in *.
  rewrite !chv_bare in H1, H2 by done.
  change (2 * 0 + 1) with 1 in H0. change (2 * 0 + 2) with 2 in H0.
  rewrite H1, H2 in H0. by rewrite H0, H1, H2.
Qed.

Lemma plant_sound L C hp g gn e d :
  sound L C hp → hp !! g = Some gn → entry gn = None →
  Forall (λ c, c = None) (subtree gn) → is_Some (parent gn) →
  valid_key L (Chunk_Key e) → at_path hp (Chunk_Key e) g d →
  sound_at (Some g) L C (<[g := with_entry gn (Some e)]> hp).
Proof.
  intros Hs Hg He Hb Hp Hk Hpath. pose proof (s_wf _ _ _ _ Hs) as Hwf.
  destruct (bare_vals hp g gn Hwf (s_min _ _ _ _ Hs) Hg He Hb Hp) as (V0 & V1 & V2).
  split.
  - by apply set_entry_wf.
  - destruct (s_root _ _ _ _ Hs) as (r & Hr & Hbits).
    rewrite (set_entry_lookup_r hp g gn (Some e) 0 r Hg Hr).
    destruct (decide (0%nat = g)) as [<-|]; [|by exists r].
    assert (r = gn) as -> by congruence. by exists (with_entry gn (Some e)).
  - intros h m i Hm Hem Hi.
    destruct (set_entry_lookup hp g gn (Some e) h m Hg Hm) as [[-> ->]|[Hne Hm0]];
      [done|].
    unfold min_at. rewrite set_entry_val by done.
    rewrite !(set_entry_ext hp g gn (Some e) h m m) by done.
    by apply (s_min _ _ _ _ Hs).
  - intros h i Hi. rewrite set_entry_val by done. by apply (s_bound _ _ _ _ Hs).
  - intros h m Hm Hem. rewrite !set_entry_val by done.
    destruct (set_entry_lookup hp g gn (Some e) h m Hg Hm) as [[-> ->]|[Hne Hm0]].
    + split; [done|]. done.
    + destruct (s_leaf _ _ _ _ Hs h m Hm0 Hem) as (H0 & H1 & H2). split; [|done].
      intros _. by apply H0.
  - intros h m e' Hm Hem.
    destruct (set_entry_lookup hp g gn (Some e) h m Hg Hm) as [[-> ->]|[Hne Hm0]].
    + simpl in Hem. injection Hem as <-. split; [done|]. exists d.
      eapply at_path_grows; [|done]. by apply grows_set_entry.
    + destruct (s_key _ _ _ _ Hs h m e' Hm0 Hem) as (Hk' & d' & Hp').
      split; [done|]. exists d'. eapply at_path_grows; [|done]. by apply grows_set_entry.
  - intros h h' m m' Hm Hm' Hem Hem' Hx Hx'. rewrite !set_entry_val by done.
    destruct (set_entry_lookup hp g gn (Some e) h m Hg Hm) as [[-> ->]|[Hne Hm0]];
      [done|].
    destruct (set_entry_lookup hp g gn (Some e) h' m' Hg Hm') as [[-> ->]|[Hne' Hm0']];
      [done|].
    by apply (s_distinct _ _ _ _ Hs h h' m m').
Qed.

(** ** An entry moves down *)

#[local] Arguments update_access_loop : simpl never.

(** [st.update_access(node.access[0])] in the second loop of [add]: node [h]
    has just handed its entry to its one subtree [st]; the walk writes the
    value [x] of [h] into [st] and into the slot of [h] above [st], and stops
    at the root slot of [h], which holds [x] already. *)
Lemma update_access_split hp h n st sn x l :
  wf hp → hp !! h = Some n → width n = 4 →
  hp !! st = Some sn → parent sn = Some h → parent_idx sn = l → 0 ≤ l < 4 →
  subtree n !! Z.to_nat (Z.lxor l 1) = Some None →
  val hp st 0 = 0 → val hp h 1 = 0 → val hp h 2 = 0 → val hp h 0 = x → x ≠ 0 →
  ∃ hp1 hp2, set_access hp st 0 x = Ok hp1
    ∧ set_access hp1 h ((l + 2) / 2) x = Ok hp2
    ∧ update_access hp st x = Ok hp2.
Proof.
  intros Hwf Hn Hw Hst Hp Hpi Hl Hsib V0 V1 V2 Vx Hx.
  pose proof (wf_shape hp Hwf h n Hn) as [_ _ _ Hlen].
  pose proof (wf_shape hp Hwf st sn Hst) as [_ _ _ Hlens].
  pose proof (shape_width_cases sn (wf_shape hp Hwf st sn Hst)) as Ws.
  assert (1 ≤ (l + 2) / 2 ≤ 2) as Hs1 by (Z.div_mod_to_equations; lia).
  destruct (wf_parent hp Hwf st sn h Hst Hp) as (Hlt & _).
  destruct (set_access_total hp st sn 0 x Hst ltac:(destruct Ws; lia)) as [hp1 Hset1].
  pose proof (set_access_skel _ _ _ _ _ Hset1) as Hsk1.
  pose proof (wf_same_skel hp hp1 Hwf Hsk1) as Hwf1.
  destruct (same_skel_lookup_r _ _ _ _ Hsk1 Hn) as (n1 & Hn1 & E1).
  destruct (same_skel_lookup_r _ _ _ _ Hsk1 Hst) as (sn1 & Hst1 & Es1).
  assert (width n1 = 4 ∧ len (access n1) = 3) as [Hw1 Hlen1].
  { skel_eq E1. unfold len in *. split; [congruence|]. rewrite <- Hacc. lia. }
  destruct (set_access_total hp1 h n1 ((l + 2) / 2) x Hn1 ltac:(lia)) as [hp2 Hset2].
  pose proof (set_access_skel _ _ _ _ _ Hset2) as Hsk2.
  destruct (same_skel_lookup_r _ _ _ _ Hsk2 Hn1) as (n2 & Hn2 & E2).
  assert (len (access n2) = 3) as Hlen2.
  { skel_eq E2. unfold len in *. rewrite <- Hacc. lia. }
  exists hp1, hp2. split; [done|]. split; [done|].
  assert (∃ f, walk_fuel hp = S (S (S f))) as [f Hf].
  { exists (walk_fuel hp - 3)%nat. unfold walk_fuel.
    change (2 ^ memTreeFLW) with 16384. pose proof (len_nonneg hp). lia. }
  unfold update_access. rewrite (proj2 (deref_Ok hp st sn) Hst). simpl.
  rewrite (index_access hp st sn 0 Hst) by (destruct Ws; lia). simpl.
  rewrite V0, Hf.
  (* the slot of [st] *)
  rewrite update_access_loop_eq. rewrite (proj2 (deref_Ok hp st sn) Hst). simpl.
  rewrite (index_access hp st sn 0 Hst) by (destruct Ws; lia). simpl.
  rewrite V0. simpl. rewrite Hset1. simpl. rewrite Hp, Hn1. simpl.
  pose proof (read_sibling hp1 st sn1 h n1 Hwf1 Hst1) as Hrd.
  assert (parent sn1 = Some h ∧ parent_idx sn1 = l) as [Hp1 Hpi1].
  { skel_eq Es1. split; congruence. }
  specialize (Hrd Hp1 Hn1). rewrite Hpi1 in Hrd. rewrite Hpi.
  assert (sibval hp1 st 0 = 0) as Hsv.
  { rewrite (sibval_set_access hp st 0 x hp1 sn Hwf Hst ltac:(destruct Ws; lia) Hset1).
    unfold sibval. simpl. rewrite Hst. simpl. rewrite Hp. simpl. rewrite Hn. simpl.
    unfold chv. by rewrite Hpi, Hsib. }
  rewrite Hsv in Hrd.
  destruct (index_at (subtree n1) (Z.lxor l 1)) as [nn| |]; simpl in Hrd |- *; try done.
  destruct (match nn with Some c => _ | None => _ end) as [aa| |];
    simpl in Hrd |- *; try done.
  injection Hrd as ->. simpl. rewrite Hw1.
  rewrite uint_small by lia. rewrite shiftr_1.
  replace (4 + l - 2) with (l + 2) by lia.
  (* the slot of [h] above [st] *)
  rewrite update_access_loop_eq. rewrite (proj2 (deref_Ok hp1 h n1) Hn1). simpl.
  rewrite (index_access hp1 h n1 _ Hn1) by lia. simpl.
  assert (val hp1 h ((l + 2) / 2) = 0) as ->.
  { rewrite (set_access_val _ _ _ _ _ h _ Hset1) by lia.
    rewrite decide_False by lia.
    destruct (decide ((l + 2) / 2 = 1)) as [->|]; [done|].
    by replace ((l + 2) / 2) with 2 by lia. }
  simpl. rewrite Hset2. simpl.
  destruct (Z.ltb_spec 0 ((l + 2) / 2)) as [_|]; [|lia].
  rewrite Hn2. simpl.
  change (Z.lxor ((l + 2) / 2 - 1) 1 + 1) with (sib ((l + 2) / 2)).
  destruct (sib_range 4 ((l + 2) / 2) ltac:(by left) ltac:(lia)) as (Hsr & _ & Hsne).
  rewrite uint_small by lia.
  rewrite (index_access hp2 h n2 _ Hn2) by lia. simpl.
  assert (val hp2 h (sib ((l + 2) / 2)) = 0) as ->.
  { rewrite (set_access_val _ _ _ _ _ h _ Hset2) by lia.
    rewrite decide_False by (intros [_ ?]; done).
    rewrite (set_access_val _ _ _ _ _ h _ Hset1) by lia.
    rewrite decide_False by lia.
    destruct (decide (sib ((l + 2) / 2) = 1)) as [->|]; [done|].
    by replace (sib ((l + 2) / 2)) with 2 by lia. }
  simpl. rewrite shiftr_1.
  replace (((l + 2) / 2 - 1) / 2) with 0 by (Z.div_mod_to_equations; lia).
  (* the root slot of [h] *)
  rewrite update_access_loop_eq. rewrite (proj2 (deref_Ok hp2 h n2) Hn2). simpl.
  rewrite (index_access hp2 h n2 0 Hn2) by lia. simpl.
  assert (val hp2 h 0 = x) as ->.
  { rewrite (set_access_val _ _ _ _ _ h _ Hset2) by lia.
    rewrite decide_False by lia.
    rewrite (set_access_val _ _ _ _ _ h _ Hset1) by lia.
    by rewrite decide_False by lia. }
  by destruct (Z.eqb_spec x 0).
Qed.

(** A node that holds an entry is not the root. *)
Lemma wf_leaf_parent hp h n :
  wf hp → hp !! h = Some n → is_Some (entry n) → is_Some (parent n).
Proof.
  intros Hwf Hn [e He]. destruct (parent n) as [p|] eqn:Hp; [done|].
  pose proof (wf_orphan hp Hwf h n Hn Hp) as ->.
  destruct (wf_root hp Hwf) as (r & Hr & _ & Her). congruence.
Qed.

Lemma subtree_free hp h n l :
  wf hp → hp !! h = Some n → Forall (λ c, c = None) (subtree n) →
  0 ≤ l < width n → subtree n !! Z.to_nat l = Some None.
Proof.
  intros Hwf Hn Hb Hl. destruct (wf_shape hp Hwf h n Hn) as [_ _ S _].
  unfold len in S.
  destruct (lookup_lt_is_Some_2 (subtree n) (Z.to_nat l)) as [c Hc]; [lia|].
  by rewrite Hc, (Forall_lookup_1 _ _ _ _ Hb Hc).
Qed.

Lemma split_step L C hp h n old l d :
  sound L C hp → hp !! h = Some n → entry n = Some old →
  at_path hp (Chunk_Key old) h d →
  bits (Chunk_Key old) (pos d) (bits_ n) = Ok l → 0 ≤ l < width n →
  ∃ hp4, update_access (graft hp h n l (Some old)) (length hp) (val hp h 0) = Ok hp4
    ∧ same_skel (graft hp h n l (Some old)) hp4
    ∧ sound L C hp4
    ∧ (∀ e v, stored hp e v → stored hp4 e v).
Proof.
  intros Hs Hn He Hpath Hbits Hl. pose proof (s_wf _ _ _ _ Hs) as Hwf.
  pose proof (lookup_lt_Some _ _ _ Hn) as Hlt.
  assert (is_Some (entry n)) as Hleaf by (by rewrite He).
  pose proof (wf_leaf_parent hp h n Hwf Hn Hleaf) as Hpar.
  pose proof (wf_width_4 hp h n Hwf Hn Hpar) as Hw.
  pose proof (wf_leaf hp Hwf h n Hn Hleaf) as Hbare.
  pose proof (subtree_free hp h n l Hwf Hn Hbare Hl) as Hfree.
  destruct (s_leaf _ _ _ _ Hs h n Hn Hleaf) as (Hx & V1 & V2).
  specialize (Hx ltac:(done)).
  set (x := val hp h 0) in *. set (st := length hp).
  set (hp3 := graft hp h n l (Some old)).
  pose proof (graft_wf hp h n l (Some old) Hwf Hn Hl Hfree) as Hwf3. fold hp3 in Hwf3.
  pose proof (graft_lookup_at hp h n l (Some old) Hn) as H3h. fold hp3 in H3h.
  pose proof (graft_lookup_new hp h n l (Some old) Hn) as H3s. fold hp3 st in H3s.
  set (n3 := mkTree (<[Z.to_nat l := Some (length hp)]> (subtree n)) (parent n)
               (parent_idx n) (bits_ n) (width n) None (access n)) in *.
  assert (∀ g i, val hp3 g i = val hp g i) as V3.
  { intros g i. by apply graft_val. }
  assert (∀ i, val hp st i = 0) as Vst.
  { intros i. unfold val. by rewrite (lookup_ge_None_2 hp st) by (unfold st; lia). }
  rewrite Hw in Hl.
  destruct (child_pos 4 l ltac:(by left) Hl) as (HP & Hkids & Hlx & Hlne).
  replace (4 + l - 2) with (l + 2) in * by lia.
  set (s1 := (l + 2) / 2) in *.
  assert (subtree n3 !! Z.to_nat (Z.lxor l 1) = Some None) as Hsib.
  { simpl. rewrite list_lookup_insert_ne by lia.
    apply (subtree_free hp h n); try done. lia. }
  destruct (update_access_split hp3 h n3 st (bare h l (Some old)) x l)
    as (hp5 & hp6 & Hset1 & Hset2 & Hrun); try done.
  { by rewrite V3, Vst. } { by rewrite V3. } { by rewrite V3. } { lia. }
  fold s1 in Hset2.
  exists hp6. split; [done|].
  pose proof (set_access_skel _ _ _ _ _ Hset1) as Hsk1.
  pose proof (set_access_skel _ _ _ _ _ Hset2) as Hsk2.
  pose proof (same_skel_trans _ _ _ Hsk1 Hsk2) as Hsk.
  pose proof (wf_same_skel _ _ Hwf3 Hsk1) as Hwf5.
  pose proof (wf_same_skel _ _ Hwf3 Hsk) as Hwf6.
  split; [done|].
  assert (h ≠ st) as Hhst by (unfold st; lia).
  assert (∀ g i, 0 ≤ i → val hp6 g i =
    if decide (g = h ∧ i = s1) then x
    else if decide (g = st ∧ i = 0) then x else val hp g i) as V6.
  { intros g i Hi. rewrite (set_access_val _ _ _ _ _ g i Hset2) by done.
    destruct (decide _); [done|].
    rewrite (set_access_val _ _ _ _ _ g i Hset1) by done.
    destruct (decide _); [done|]. apply V3. }
  destruct (same_skel_lookup_r _ _ _ _ Hsk H3h) as (n6 & H6h & E6h).
  destruct (same_skel_lookup_r _ _ _ _ Hsk H3s) as (s6 & H6s & E6s).
  destruct (same_skel_lookup_r _ _ _ _ Hsk1 H3h) as (n5 & H5h & E5h).
  assert (upslot hp3 st 0 = Some (h, s1)) as Hup1.
  { unfold upslot. simpl. rewrite H3s. simpl. rewrite H3h. simpl. rewrite Hw.
    by replace (4 + l - 2) with (l + 2) by lia. }
  assert (upslot hp5 h s1 = Some (h, 0)) as Hup2.
  { unfold upslot. destruct (Z.ltb_spec 0 s1); [|lia]. do 2 f_equal.
    unfold s1 in *. Z.div_mod_to_equations. lia. }
  assert (∀ g m, hp6 !! g = Some m → is_Some (entry m) →
    (g = st ∧ entry m = Some old) ∨ (g ≠ st ∧ g ≠ h ∧ ∃ m0, hp !! g = Some m0
       ∧ entry m0 = entry m)) as Hleaves.
  { intros g m Hm Hem.
    destruct (same_skel_lookup _ _ _ _ Hsk Hm) as (m3 & Hm3 & E). skel_eq E.
    destruct (graft_lookup hp h n l (Some old) Hn g m3 Hm3)
      as [[-> ->]|[[-> ->]|(H1 & H2 & Hm0)]].
    - simpl in Hent. rewrite <- Hent in Hem. by destruct Hem.
    - left. split; [done|]. by rewrite <- Hent.
    - right. split; [done|]. split; [done|]. by exists m3. }
  split; [split|].
  - done.
  - destruct (s_root _ _ _ _ Hs) as (r & Hr & Hb).
    assert (hp3 !! 0%nat = Some r) as Hr3.
    { unfold hp3. rewrite graft_lookup_old; try done; [|lia].
      intros <-. destruct (wf_root hp Hwf) as (r' & Hr' & _ & Her). congruence. }
    destruct (same_skel_lookup_r _ _ _ _ Hsk Hr3) as (r6 & Hr6 & E). skel_eq E.
    exists r6. split; [done|]. congruence.
  - intros g m6 i Hm6 Hem6 Hi.
    destruct (same_skel_lookup _ _ _ _ Hsk Hm6) as (m3 & Hm3 & E3).
    destruct (same_skel_lookup_r _ _ _ _ Hsk1 Hm3) as (m5 & Hm5 & E5).
    destruct (decide (g = h ∧ i = 0)) as [[-> ->]|Hd0].
    { assert (m6 = n6) as -> by congruence.
      rewrite <- (upslot_skel hp5 hp6 h s1 Hsk2) in Hup2.
      assert (0 ≤ s1 < width n6 - 1) as Hs1.
      { skel_eq E6h. rewrite <- Hwd. simpl. lia. }
      destruct (upslot_spec hp6 h n6 s1 h 0 Hwf6 H6h Hs1 Hup2)
        as (pn & Hpn & _ & _ & _ & _ & _ & Hk).
      assert (pn = n6) as -> by congruence.
      unfold min_at. rewrite Hk. unfold sibval.
      destruct (Z.ltb_spec 0 s1); [|lia].
      destruct (sib_range 4 s1 ltac:(by left) ltac:(lia)) as (Hsr & _ & Hsne).
      rewrite !V6 by lia.
      rewrite decide_False by lia. rewrite decide_False by lia.
      rewrite decide_True by done.
      rewrite decide_False by (intros [_ ?]; done). rewrite decide_False by lia.
      fold x. assert (val hp h (sib s1) = 0) as ->.
      { destruct (decide (sib s1 = 1)) as [->|]; [done|].
        by replace (sib s1) with 2 by lia. }
      unfold minnz. by destruct (Z.eqb_spec x 0); [lia|]. }
    destruct (decide (g = h ∧ i = s1)) as [[-> ->]|Hd1].
    { assert (m6 = n6) as -> by congruence.
      rewrite <- (upslot_skel hp3 hp6 st 0 Hsk) in Hup1.
      assert (0 ≤ 0 < width s6 - 1) as Hs0.
      { skel_eq E6s. rewrite <- Hwd. simpl. lia. }
      destruct (upslot_spec hp6 st s6 0 h s1 Hwf6 H6s Hs0 Hup1)
        as (pn & Hpn & _ & _ & _ & _ & _ & Hk).
      assert (pn = n6) as -> by congruence.
      unfold min_at. rewrite Hk. unfold sibval. simpl. rewrite H6s. simpl.
      assert (parent s6 = Some h ∧ parent_idx s6 = l) as [-> ->].
      { skel_eq E6s. split; congruence. }
      simpl. rewrite H6h. simpl. unfold chv.
      assert (subtree n6 = subtree n3) as ->
        by (skel_eq E6h; unfold n3; simpl; congruence).
      rewrite Hsib. rewrite !V6 by lia.
      rewrite decide_True by done. rewrite decide_False by lia.
      rewrite decide_True by done.
      unfold minnz. by destruct (Z.eqb_spec x 0); [lia|]. }
    assert (min_at hp3 g m3 i) as Hm.
    { skel_eq E3.
      destruct (graft_lookup hp h n l (Some old) Hn g m3 Hm3)
        as [[-> ->]|[[-> ->]|(H1 & H2 & Hm0)]].
      - simpl in Hwd. rewrite <- Hwd, Hw in Hi.
        assert (∀ nn j, subtree nn = <[Z.to_nat l := Some (length hp)]> (subtree n) →
          chv hp3 nn j = 0) as Hc.
        { intros nn j Hnn. unfold chv. rewrite Hnn.
          destruct (decide (Z.to_nat j = Z.to_nat l)) as [->|Hne].
          - rewrite list_lookup_insert_eq by (by eapply lookup_lt_Some).
            by rewrite V3, Vst.
          - rewrite list_lookup_insert_ne by done.
            destruct (subtree n !! Z.to_nat j) as [[c|]|] eqn:Ec; try done.
            by pose proof (Forall_lookup_1 _ _ _ _ Hbare Ec). }
        unfold min_at, ext. simpl. rewrite Hw.
        destruct (decide (i = 1)) as [->|]; [|assert (i = 2) as -> by lia];
          simpl; rewrite V3, !Hc by done; done.
      - simpl in Hent. congruence.
      - apply (graft_min_at hp h n l (Some old) Hn Hfree g m3 m3); try done.
        apply (s_min _ _ _ _ Hs); try done; congruence. }
    apply (set_access_min_at hp5 h s1 x hp6 g m5 m6 i); try done; try lia.
    { intros [= -> ->]. tauto. } { rewrite Hup2. intros [= <- <-]. tauto. }
    apply (set_access_min_at hp3 st 0 x hp5 g m3 m5 i); try done; try lia.
    { intros [= -> ->]. skel_eq E3. assert (m3 = bare h l (Some old)) as -> by congruence.
      simpl in Hent. congruence. }
    rewrite Hup1. intros [= <- <-]. tauto.
  - intros g i Hi. rewrite V6 by done. pose proof (s_bound _ _ _ _ Hs h 0 ltac:(lia)).
    repeat destruct (decide _); try done. by apply (s_bound _ _ _ _ Hs).
  - intros g m Hm Hem. rewrite !V6 by lia.
    destruct (Hleaves g m Hm Hem) as [[-> Ho]|(H1 & H2 & m0 & Hm0 & E0)].
    + rewrite decide_False by lia. rewrite decide_True by done.
      rewrite decide_False by lia. rewrite decide_False by lia.
      rewrite decide_False by lia. rewrite decide_False by lia.
      by rewrite !Vst.
    + rewrite !decide_False by tauto.
      apply (s_leaf _ _ _ _ Hs g m0 Hm0). by rewrite E0.
  - intros g m e Hm Hem.
    assert (grows hp hp6) as Hgr.
    { intros g' m' Hm'. destruct (grows_graft hp h n l (Some old) Hn Hfree g' m' Hm')
        as (m3 & Hm3 & Hb3 & Hsub3).
      destruct (grows_same_skel _ _ Hsk g' m3 Hm3) as (m6 & Hm6 & Hb6 & Hsub6).
      exists m6. split; [done|]. split; [congruence|]. auto. }
    destruct (Hleaves g m Hm ltac:(by rewrite Hem)) as [[-> Ho]|(H1 & H2 & m0 & Hm0 & E0)].
    + assert (e = old) as -> by congruence.
      destruct (s_key _ _ _ _ Hs h n old Hn He) as (Hk & d' & Hp').
      pose proof (at_path_unique hp (Chunk_Key old)) as _.
      split; [done|]. exists (S d).
      apply (at_child hp6 _ h d n6 l st).
      * by apply (at_path_grows hp).
      * done.
      * skel_eq E6h. by rewrite <- Hbits0.
      * skel_eq E6h. rewrite <- Hst. simpl.
        by apply list_lookup_insert_eq, (lookup_lt_Some _ _ None).
    + destruct (s_key _ _ _ _ Hs g m0 e Hm0 ltac:(congruence)) as (Hk & d' & Hp').
      split; [done|]. exists d'. by apply (at_path_grows hp).
  - intros g g' m m' Hm Hm' Hem Hem' _ _. rewrite !V6 by lia.
    destruct (Hleaves g m Hm Hem) as [[-> Ho]|(H1 & H2 & m0 & Hm0 & E0)];
      destruct (Hleaves g' m' Hm' Hem') as [[-> Ho']|(H1' & H2' & m0' & Hm0' & E0')];
      try done.
    + rewrite decide_False by lia. rewrite decide_True by done.
      rewrite !decide_False by tauto. intros Heq.
      exfalso. apply H2'. apply (s_distinct _ _ _ _ Hs g' h m0' n); try done.
      by rewrite E0'.
    + rewrite !decide_False by tauto. rewrite decide_False by lia.
      rewrite decide_True by done. intros Heq.
      exfalso. apply H2. apply (s_distinct _ _ _ _ Hs g h m0 n); try done.
      by rewrite E0.
    + rewrite !decide_False by tauto.
      apply (s_distinct _ _ _ _ Hs g g' m0 m0'); try done; [by rewrite E0|by rewrite E0'].
  - intros e v (g & m & Hm & Hem & Hv).
    destruct (decide (g = h)) as [->|Hne].
    + assert (m = n) as -> by congruence. assert (e = old) as -> by congruence.
      exists st, s6. split; [done|]. split.
      * skel_eq E6s. by rewrite <- Hent.
      * rewrite V6 by lia. rewrite decide_False by lia. by rewrite decide_True.
    + pose proof (lookup_lt_Some _ _ _ Hm).
      assert (hp3 !! g = Some m) as Hm3.
      { unfold hp3. rewrite graft_lookup_old; try done. lia. }
      destruct (same_skel_lookup_r _ _ _ _ Hsk Hm3) as (m6 & Hm6 & E). skel_eq E.
      exists g, m6. split; [done|]. split; [congruence|].
      rewrite V6 by lia. rewrite !decide_False; try done; unfold st; lia.
Qed.

(** ** The descent of [add] *)

Lemma add_descend_eq fuel hp key h bitpos :
  add_descend fuel hp key h bitpos =
  (node ← deref hp (Some h);
   match entry node with
   | Some _ => Ok (hp, h, bitpos)
   | None =>
       match fuel with
       | O => OutOfFuel
       | S fuel' =>
           l ← bits key bitpos (bits_ node);
           st ← index_at (subtree node) l;
           match st with
           | None =>
               '(hp, st) ← newTreeNode hp memTreeLW (Some h) l;
               Ok (hp, st, uint (bitpos + bits_ node))
           | Some st => add_descend fuel' hp key st (uint (bitpos + bits_ node))
           end
       end
   end).
Proof. by destruct fuel. Qed.

#[local] Arguments add_descend : simpl never.
#[local] Arguments newTreeNode : simpl never.
#[local] Arguments deref : simpl never.
#[local] Arguments set_entry : simpl never.
#[local] Arguments set_access : simpl never.
#[local] Arguments update_access : simpl never.
#[local] Arguments bits : simpl never.
#[local] Arguments index_at : simpl never.

(** A node with neither entry nor subtree, below the root. *)
Definition vacant (hp : list dpaMemTree) (h : nat) : Prop :=
  ∃ n, hp !! h = Some n ∧ entry n = None
    ∧ Forall (λ c, c = None) (subtree n) ∧ is_Some (parent n).

Lemma at_path_le hp k h d d' :
  at_path hp k h d → (d' ≤ d)%nat → ∃ g, at_path hp k g d'.
Proof.
  induction 1 as [|h d n l c Hp IH Hn Hb Hc]; intros Hd.
  - assert (d' = 0%nat) as -> by lia. exists 0%nat. constructor.
  - destruct (decide (d' = S d)) as [->|Hne]; [|apply IH; lia].
    exists c. by apply (at_child hp k h d n l c).
Qed.

(** Where the way of a key ends at a free index, no node lies further along. *)
Lemma at_path_end hp k g d gn l h' d' :
  at_path hp k g d → hp !! g = Some gn →
  bits k (pos d) (bits_ gn) = Ok l → subtree gn !! Z.to_nat l = Some None →
  at_path hp k h' d' → (d' ≤ d)%nat.
Proof.
  intros Hg Hgn Hb Hfree Hp'.
  destruct (decide (d' ≤ d)%nat) as [|Hgt]; [done|]. exfalso.
  destruct (at_path_le hp k h' d' (S d) Hp' ltac:(lia)) as (c & Hc).
  inversion Hc as [|g0 d0 m x y Hg0 Hm Hx Hy]; subst.
  pose proof (at_path_unique hp k g g0 d Hg Hg0) as <-.
  assert (m = gn) as -> by congruence. assert (x = l) as -> by congruence.
  congruence.
Qed.

Section descend.
Context (L : nat) (HL : (2 ≤ L)%nat) (HL' : Z.of_nat L < 2 ^ 60).
Context (C : Z) (hp : list dpaMemTree) (Hs : sound L C hp).
Context (key : list Z) (Hkey : valid_key L key).
Context (Hsize : Z.of_nat (length hp) < 2 ^ 62).

(** The bits [add] and [find] read at a node of the way index its subtree. *)
Lemma path_bits h d n :
  at_path hp key h d → hp !! h = Some n →
  ∃ l, bits key (pos d) (bits_ n) = Ok l ∧ 0 ≤ l < width n
    ∧ uint (pos d + bits_ n) = pos (S d)
    ∧ ∃ c, index_at (subtree n) l = Ok c ∧ subtree n !! Z.to_nat l = Some c.
Proof.
  intros Hp Hn. pose proof (s_wf _ _ _ _ Hs) as Hwf.
  pose proof (at_path_bits L C hp key h d n Hs Hp Hn) as Hb.
  destruct (bits_pos L HL HL' key d Hkey) as (l & Hl & Rl).
  destruct (wf_shape hp Hwf h n Hn) as [_ Hw Hst _].
  exists l. rewrite Hb. split; [done|]. split; [by rewrite Hw, Hb|]. split.
  - rewrite pos_S. apply uint_small.
    pose proof (at_path_depth hp key h d Hwf Hp). pose proof (lookup_lt_Some _ _ _ Hn).
    pose proof (pos_nonneg d).
    destruct d; unfold pos, wid, memTreeFLW, memTreeLW; lia.
  - destruct (index_at_total (subtree n) l) as [c Hc]; [rewrite Hst, Hw, Hb; lia|].
    exists c. split; [done|]. by apply index_at_Ok in Hc as [_ Hc].
Qed.

Lemma add_descend_spec fuel : ∀ h d,
  at_path hp key h d → (length hp ≤ fuel + h)%nat →
  ∃ hp' h' d', add_descend fuel hp key h (pos d) = Ok (hp', h', pos d')
    ∧ at_path hp' key h' d'
    ∧ ((hp' = hp ∧ ∃ n', hp !! h' = Some n' ∧ is_Some (entry n'))
       ∨ (sound L C hp' ∧ length hp' = S (length hp) ∧ leaves hp' = leaves hp
          ∧ (∀ e v, stored hp e v → stored hp' e v) ∧ vacant hp' h'
          ∧ ∀ e v, ¬ (stored hp e v ∧ Chunk_Key e = key))).
Proof.
  pose proof (s_wf _ _ _ _ Hs) as Hwf.
  induction fuel as [|fuel IH]; intros h d Hp Hfuel;
    destruct (at_path_lookup hp key h d Hwf Hp) as [n Hn];
    pose proof (lookup_lt_Some _ _ _ Hn) as Hlt;
    rewrite add_descend_eq, (proj2 (deref_Ok hp h n) Hn); simpl;
    destruct (entry n) as [e|] eqn:He.
  - exists hp, h, d. split; [done|]. split; [done|]. left. split; [done|].
    exists n. by rewrite He.
  - lia.
  - exists hp, h, d. split; [done|]. split; [done|]. left. split; [done|].
    exists n. by rewrite He.
  - destruct (path_bits h d n Hp Hn) as (l & Hl & Rl & Hpos & c & Hc & Hc').
    rewrite Hl. simpl. rewrite Hc. simpl. rewrite Hpos. destruct c as [c|].
    + destruct (wf_child hp Hwf h n _ c Hn Hc') as (cn & Hcn & Hpar & _).
      destruct (wf_parent hp Hwf c cn h Hcn Hpar) as (Hhc & _).
      apply IH; [|lia]. by apply (at_child hp key h d n l c).
    + rewrite (newTreeNode_graft hp h n l Hn He) by
        (by destruct (wf_shape hp Hwf h n Hn) as [_ _ -> _]).
      simpl. exists (graft hp h n l None), (length hp), (S d).
      split; [done|].
      pose proof (grows_graft hp h n l None Hn Hc') as Hgr.
      split.
      { eapply (at_child _ key h d _ l (length hp)).
        - by apply (at_path_grows hp).
        - by apply graft_lookup_at.
        - done.
        - simpl. by apply list_lookup_insert_eq, (lookup_lt_Some _ _ None). }
      right. split; [by apply graft_sound|]. split; [by apply graft_length|].
      split; [rewrite leaves_graft by done; rewrite He; simpl; lia|].
      split.
      { intros e v (g & m & Hm & Hem & Hv). pose proof (lookup_lt_Some _ _ _ Hm).
        exists g, m. split; [|split; [done|by rewrite graft_val]].
        rewrite graft_lookup_old; try done; [|lia]. intros ->. congruence. }
      split.
      { exists (bare h l None). split; [by apply graft_lookup_new|].
        split; [done|]. split; [by repeat constructor|done]. }
      intros e v [(g & m & Hm & Hem & Hv) Hk].
      destruct (s_key _ _ _ _ Hs g m e Hm Hem) as (_ & d' & Hp').
      rewrite Hk in Hp'.
      pose proof (at_path_end hp key h d n l g d' Hp Hn Hl Hc' Hp') as Hle.
      destruct (at_path_le hp key h d d' Hp Hle) as (g' & Hg').
      pose proof (at_path_unique hp key g g' d' Hp' Hg') as <-.
      destruct (decide (d' = d)) as [->|Hne].
      * pose proof (at_path_unique hp key g h d Hp' Hp) as ->. congruence.
      * destruct (at_path_prefix hp key h d d' Hwf Hp ltac:(lia)) as (g2 & m2 & Hg2 & Hm2 & He2).
        pose proof (at_path_unique hp key g g2 d' Hp' Hg2) as <-. congruence.
Qed.

End descend.

(** ** The second loop of [add] *)

Lemma add_split_eq fuel hp key h bitpos :
  add_split fuel hp key h bitpos =
  (node ← deref hp (Some h);
   match entry node with
   | None => Ok (hp, h)
   | Some old =>
       match fuel with
       | O => OutOfFuel
       | S fuel' =>
           l ← bits (Chunk_Key old) bitpos (bits_ node);
           st ← index_at (subtree node) l;
           '(hp, st) ← match st with
                       | None => newTreeNode hp memTreeLW (Some h) l
                       | Some st => Ok (hp, st)
                       end;
           hp ← set_entry hp st (Some old);
           hp ← set_entry hp h None;
           node ← deref hp (Some h);
           a0 ← index_at (access node) 0;
           hp ← update_access hp st a0;
           node ← deref hp (Some h);
           l ← bits key bitpos (bits_ node);
           st ← index_at (subtree node) l;
           '(hp, st) ← match st with
                       | None => newTreeNode hp memTreeLW (Some h) l
                       | Some st => Ok (hp, st)
                       end;
           add_split fuel' hp key st (uint (bitpos + bits_ node))
       end
   end).
Proof. by destruct fuel. Qed.

#[local] Arguments add_split : simpl never.

Lemma stored_graft hp h n l e v :
  hp !! h = Some n → entry n = None → stored hp e v → stored (graft hp h n l None) e v.
Proof.
  intros Hn He (g & m & Hm & Hem & Hv). pose proof (lookup_lt_Some _ _ _ Hm).
  exists g, m. split; [|split; [done|by rewrite graft_val]].
  rewrite graft_lookup_old; try done; [|lia]. intros ->. congruence.
Qed.

Lemma pos_mono j d : pos j < pos d → (j < d)%nat.
Proof. destruct j, d; unfold pos; lia. Qed.

Section split.
Context (L : nat) (HL : (2 ≤ L)%nat) (HL' : Z.of_nat L < 2 ^ 60).
Context (C : Z) (key : list Z) (Hkey : valid_key L key).

(** A node that holds another key lies where the two keys still have bits
    to differ in. *)
Lemma leaf_depth hp h n old d :
  sound L C hp → hp !! h = Some n → entry n = Some old → Chunk_Key old ≠ key →
  at_path hp key h d →
  at_path hp (Chunk_Key old) h d ∧ valid_key L (Chunk_Key old) ∧ (d < 4 * L)%nat.
Proof.
  intros Hs Hn He Hne Hp.
  destruct (s_key _ _ _ _ Hs h n old Hn He) as (Hko & d' & Hpo).
  destruct (at_path_agree L HL HL' C hp Hs _ _ h d' d Hko Hkey Hpo Hp) as (-> & Hag).
  split; [done|]. split; [done|].
  destruct (decide (d < 4 * L)%nat) as [|Hge]; [done|]. exfalso. apply Hne.
  apply (keys_agree L HL HL'); try done. intros j Hj. apply Hag.
  apply pos_mono. destruct d; unfold pos in *; lia.
Qed.

Lemma add_split_spec fuel : ∀ hp h d n old,
  sound L C hp → Z.of_nat (length hp) + 2 * Z.of_nat (4 * L - d) < 2 ^ 62 →
  hp !! h = Some n → entry n = Some old → Chunk_Key old ≠ key →
  at_path hp key h d → (4 * L ≤ fuel + d)%nat →
  ∃ hp' h' d', add_split fuel hp key h (pos d) = Ok (hp', h')
    ∧ sound L C hp' ∧ at_path hp' key h' d' ∧ vacant hp' h'
    ∧ leaves hp' = leaves hp
    ∧ (∀ e v, stored hp e v → stored hp' e v)
    ∧ (length hp' + 2 * d ≤ length hp + 2 * d')%nat ∧ (d' ≤ 4 * L)%nat.
Proof.
  induction fuel as [|fuel IH]; intros hp h d n old Hs Hsize Hn He Hne Hp Hfuel;
    destruct (leaf_depth hp h n old d Hs Hn He Hne Hp) as (Hpo & Hko & Hd); [lia|].
  pose proof (s_wf _ _ _ _ Hs) as Hwf.
  pose proof (lookup_lt_Some _ _ _ Hn) as Hlt.
  assert (is_Some (entry n)) as Hleaf by (by rewrite He).
  pose proof (wf_leaf hp Hwf h n Hn Hleaf) as Hbare.
  rewrite add_split_eq, (proj2 (deref_Ok hp h n) Hn). simpl. rewrite He.
  destruct (path_bits L HL HL' C hp Hs _ Hko ltac:(lia) h d n Hpo Hn)
    as (l & Hl & Rl & Hpos & c & Hc & Hc').
  rewrite Hl. simpl. rewrite Hc. simpl.
  pose proof (subtree_free hp h n l Hwf Hn Hbare Rl) as Hfree.
  assert (c = None) as -> by congruence.
  destruct (push_down_graft hp h n old l Hn He) as (hp1 & hp2 & Hnew & Hse1 & Hse2).
  { by destruct (wf_shape hp Hwf h n Hn) as [_ _ -> _]. }
  rewrite Hnew. simpl. rewrite Hse1. simpl. rewrite Hse2. simpl.
  set (hp3 := graft hp h n l (Some old)).
  pose proof (graft_lookup_at hp h n l (Some old) Hn) as H3h. fold hp3 in H3h.
  rewrite (proj2 (deref_Ok _ _ _) H3h). simpl.
  pose proof (graft_wf hp h n l (Some old) Hwf Hn Rl Hfree) as Hwf3. fold hp3 in Hwf3.
  pose proof (wf_width_4 hp h n Hwf Hn (wf_leaf_parent hp h n Hwf Hn Hleaf)) as Hw.
  rewrite (index_access hp h n 0 Hn) by
    (destruct (wf_shape hp Hwf h n Hn) as [_ _ _ ->]; lia).
  simpl.
  destruct (split_step L C hp h n old l d Hs Hn He Hpo Hl Rl)
    as (hp4 & Hrun & Hsk & Hs4 & Hst4).
  fold hp3 in Hrun, Hsk. rewrite Hrun. simpl.
  destruct (same_skel_lookup_r _ _ _ _ Hsk H3h) as (n4 & H4h & E4). skel_eq E4.
  simpl in *.
  rewrite (proj2 (deref_Ok _ _ _) H4h). simpl.
  pose proof (same_skel_length _ _ Hsk) as Hlen4. unfold hp3 in Hlen4.
  rewrite graft_length in Hlen4 by done.
  assert (grows hp hp4) as Hgr.
  { intros g' m' Hm'. destruct (grows_graft hp h n l (Some old) Hn Hfree g' m' Hm')
      as (m3 & Hm3 & Hb3 & Hsub3).
    destruct (grows_same_skel _ _ Hsk g' m3 Hm3) as (m6 & Hm6 & Hb6 & Hsub6).
    exists m6. split; [done|]. split; [congruence|]. auto. }
  pose proof (at_path_grows hp hp4 key h d Hgr Hp) as Hp4.
  destruct (path_bits L HL HL' C hp4 Hs4 _ Hkey ltac:(lia) h d n4 Hp4 H4h)
    as (l' & Hl' & Rl' & Hpos' & c' & Hc1 & Hc1').
  rewrite Hl'. simpl. rewrite Hc1. simpl. rewrite Hpos'.
  assert (leaves hp4 = leaves hp) as Hlv.
  { rewrite (leaves_same_skel _ _ Hsk). unfold hp3.
    rewrite leaves_graft, He by done. simpl. lia. }
  rewrite <- Hst in Hc1'.
  destruct (decide (Z.to_nat l' = Z.to_nat l)) as [El|El].
  - rewrite El, list_lookup_insert_eq in Hc1' by (by eapply lookup_lt_Some).
    injection Hc1' as <-. simpl.
    pose proof (graft_lookup_new hp h n l (Some old) Hn) as H3s. fold hp3 in H3s.
    destruct (same_skel_lookup_r _ _ _ _ Hsk H3s) as (s4 & H4s & E). skel_eq E.
    simpl in *.
    destruct (IH hp4 (length hp) (S d) s4 old Hs4 ltac:(lia) H4s ltac:(done) Hne)
      as (hp' & h' & d' & Hrun' & Hs' & Hp' & Hv' & Hlv' & Hst' & Hlen' & Hd');
      [|lia|].
    { apply (at_child hp4 key h d n4 l' (length hp)); try done.
      rewrite <- Hst. rewrite El.
      by apply list_lookup_insert_eq, (lookup_lt_Some _ _ None). }
    exists hp', h', d'. split; [done|]. split; [done|]. split; [done|].
    split; [done|]. split; [congruence|]. split; [auto|]. lia.
  - rewrite list_lookup_insert_ne in Hc1' by done.
    assert (c' = None) as ->.
    { pose proof (Forall_lookup_1 _ _ _ _ Hbare Hc1'). done. }
    assert (entry n4 = None) as He4 by done.
    assert (subtree n4 !! Z.to_nat l' = Some None) as Hfree4.
    { rewrite <- Hst. by rewrite list_lookup_insert_ne. }
    rewrite (newTreeNode_graft hp4 h n4 l' H4h He4) by
      (by destruct (wf_shape hp4 (s_wf _ _ _ _ Hs4) h n4 H4h) as [_ _ -> _]).
    simpl.
    rewrite add_split_eq.
    rewrite (proj2 (deref_Ok _ _ _) (graft_lookup_new hp4 h n4 l' None H4h)). simpl.
    exists (graft hp4 h n4 l' None), (length hp4), (S d).
    split; [done|]. split; [by apply graft_sound|]. split.
    { eapply (at_child _ key h d _ l' (length hp4)).
      - apply (at_path_grows hp4); [by apply grows_graft|done].
      - by apply graft_lookup_at.
      - done.
      - simpl. by apply list_lookup_insert_eq, (lookup_lt_Some _ _ None). }
    split.
    { exists (bare h l' None). split; [by apply graft_lookup_new|].
      split; [done|]. split; [by repeat constructor|done]. }
    split; [rewrite leaves_graft, He4 by done; simpl; lia|].
    split; [intros e v Hev; by apply stored_graft, Hst4|].
    rewrite graft_length by done. lia.
Qed.

End split.

(** ** A new entry *)

Lemma leaves_le_length hp : leaves hp ≤ Z.of_nat (length hp).
Proof. induction hp as [|n hp IH]; simpl; [done|]. destruct (entry n); simpl; lia. Qed.

(** [node.entry = entry; node.update_access(s.access_cnt)] at a vacant node
    on the way of the key. *)
Lemma plant_refresh L C hp g e d a :
  sound L C hp → vacant hp g → valid_key L (Chunk_Key e) →
  at_path hp (Chunk_Key e) g d → C < a → 0 < a →
  ∃ hp1 hp2, set_entry hp g (Some e) = Ok hp1 ∧ update_access hp1 g a = Ok hp2
    ∧ sound L a hp2 ∧ stored hp2 e a
    ∧ leaves hp2 = leaves hp + 1 ∧ length hp2 = length hp
    ∧ (∀ e' v, stored hp e' v → stored hp2 e' v).
Proof.
  intros Hs (gn & Hg & He & Hb & Hpar) Hk Hp HC Ha.
  pose proof (lookup_lt_Some _ _ _ Hg) as Hlt.
  set (hp1 := <[g := with_entry gn (Some e)]> hp).
  pose proof (plant_sound L C hp g gn e d Hs Hg He Hb Hpar Hk Hp) as Hs1. fold hp1 in Hs1.
  assert (hp1 !! g = Some (with_entry gn (Some e))) as Hg1
    by (by apply list_lookup_insert_eq).
  destruct (refresh_sound (Some g) L C hp1 g _ a Hs1 ltac:(by right) Hg1
    ltac:(done) HC Ha) as (hp2 & Hrun & Hsk & Hs2 & Hv & Hfr).
  exists hp1, hp2. split; [by apply set_entry_Ok|]. split; [done|]. split; [done|].
  destruct (same_skel_lookup_r _ _ _ _ Hsk Hg1) as (g2 & Hg2 & E).
  split.
  { exists g, g2. split; [done|]. split; [|done]. skel_eq E. by rewrite <- Hent. }
  split.
  { rewrite (leaves_same_skel _ _ Hsk). unfold hp1.
    rewrite (leaves_insert hp g gn) by done. rewrite He. simpl. lia. }
  split.
  { rewrite (same_skel_length _ _ Hsk). unfold hp1. by rewrite length_insert. }
  intros e' v (h & m & Hm & Hem & Hmv).
  assert (h ≠ g) as Hne by (intros ->; congruence).
  assert (hp1 !! h = Some m) as Hm1 by (unfold hp1; by rewrite list_lookup_insert_ne).
  destruct (same_skel_lookup_r _ _ _ _ Hsk Hm1) as (m2 & Hm2 & E2). skel_eq E2.
  exists h, m2. split; [done|]. split; [congruence|].
  rewrite (Hfr h m Hm1) by (try done; by rewrite Hem).
  unfold hp1. by rewrite set_entry_val.
Qed.

(** The state of the store between two operations: [N] bounds the number
    of operations so far. *)
Record inv (L N : nat) (s : dpaMemStorage) : Prop := {
  i_root : memtree s = Some 0%nat;
  i_sound : sound L (access_cnt s) (heap s);
  i_access : 0 ≤ access_cnt s ≤ Z.of_nat N;
  i_entries : entry_cnt s = leaves (heap s);
  i_size : Z.of_nat (length (heap s)) ≤ 1 + (8 * Z.of_nat L + 2) * Z.of_nat N;
}.

(** The counters and bit positions of a run of [N] operations on keys of
    length [L] stay within 64 bits. *)
Definition fits (L N : nat) : Prop :=
  (8 * Z.of_nat L + 2) * (Z.of_nat N + 2) + 16 < 2 ^ 62.

Section add.
Context (L : nat) (HL : (2 ≤ L)%nat) (HL' : Z.of_nat L < 2 ^ 60).

Lemma add_spec N s e :
  inv L N s → valid_key L (Chunk_Key e) → fits L N →
  ∃ s', add s e = Ok s' ∧ inv L (S N) s' ∧ access_cnt s' = access_cnt s + 1
    ∧ ((∃ e0 v, stored (heap s) e0 v ∧ Chunk_Key e0 = Chunk_Key e
          ∧ stored (heap s') e0 (access_cnt s') ∧ entry_cnt s' = entry_cnt s)
       ∨ ((∀ e0 v, ¬ (stored (heap s) e0 v ∧ Chunk_Key e0 = Chunk_Key e))
          ∧ stored (heap s') e (access_cnt s') ∧ entry_cnt s' = entry_cnt s + 1))
    ∧ (∀ e' v, stored (heap s) e' v → Chunk_Key e' ≠ Chunk_Key e →
         stored (heap s') e' v).
Proof.
  intros [Hroot Hs Hacc Hent Hsize] Hk Hfit. unfold fits in Hfit.
  destruct s as [hp mt ec ac]. simpl in *. subst mt.
  pose proof (s_wf _ _ _ _ Hs) as Hwf.
  pose proof (leaves_le_length hp) as Hll. pose proof (leaves_nonneg hp) as Hl0.
  assert (Z.of_nat (length hp) < 2 ^ 62) as Hsz by nia.
  unfold add. remember (8 * length (Chunk_Key e) + 8)%nat as sf eqn:Hsf.
  simpl. rewrite (uint_small (ac + 1)) by nia.
  change 0 with (pos 0) at 1.
  destruct (add_descend_spec L HL HL' ac hp Hs _ Hk Hsz (length hp) 0 0 (at_root _ _)
    ltac:(lia)) as (hp1 & h1 & d1 & Hrun & Hp1 & Hcase).
  rewrite Hrun. simpl.
  assert (∀ hpv g dv, sound L ac hpv → vacant hpv g → at_path hpv (Chunk_Key e) g dv →
    leaves hpv = leaves hp → Z.of_nat (length hpv) ≤ Z.of_nat (length hp) + 8 * Z.of_nat L + 1 →
    (∀ e' v, stored hp e' v → stored hpv e' v) →
    (∀ e0 v, ¬ (stored hp e0 v ∧ Chunk_Key e0 = Chunk_Key e)) →
    ∃ s', (hp ← set_entry hpv g (Some e); hp ← update_access hp g (ac + 1);
           Ok (mkStorage hp (Some 0%nat) (uint (ec + 1)) (ac + 1))) = Ok s'
      ∧ inv L (S N) s' ∧ access_cnt s' = ac + 1
      ∧ ((∃ e0 v, stored hp e0 v ∧ Chunk_Key e0 = Chunk_Key e
            ∧ stored (heap s') e0 (access_cnt s') ∧ entry_cnt s' = ec)
         ∨ ((∀ e0 v, ¬ (stored hp e0 v ∧ Chunk_Key e0 = Chunk_Key e))
            ∧ stored (heap s') e (access_cnt s') ∧ entry_cnt s' = ec + 1))
      ∧ (∀ e' v, stored hp e' v → Chunk_Key e' ≠ Chunk_Key e → stored (heap s') e' v))
    as Hplant.
  { intros hpv g dv Hsv Hvac Hpv Hlv Hlenv Hstv Hnone.
    destruct (plant_refresh L ac hpv g e dv (ac + 1) Hsv Hvac Hk Hpv ltac:(lia) ltac:(lia))
      as (hp2 & hp3 & Hse & Hua & Hs3 & Hst3 & Hlv3 & Hlen3 & Hpers).
    rewrite Hse. simpl. rewrite Hua. simpl. rewrite (uint_small (ec + 1)) by nia.
    eexists. split; [done|]. split.
    { split; simpl; try done; lia. }
    split; [done|]. split; [right; by simpl|]. simpl. auto. }
  destruct Hcase as [(-> & n1 & Hn1 & He1)|(Hs1 & Hlen1 & Hlv1 & Hst1 & Hvac & Hnone)].
  - rewrite (proj2 (deref_Ok _ _ _) Hn1). simpl. destruct He1 as [e1 He1]. rewrite He1.
    unfold isEqual. destruct (bool_decide_reflect (Chunk_Key e1 = Chunk_Key e)) as [Heq|Hneq].
    + destruct (refresh_sound None L ac hp h1 n1 (ac + 1) Hs ltac:(by left) Hn1
        ltac:(by rewrite He1) ltac:(lia) ltac:(lia)) as (hp2 & Hua & Hsk & Hs2 & Hv & Hfr).
      rewrite Hua. simpl. eexists. split; [done|].
      destruct (same_skel_lookup_r _ _ _ _ Hsk Hn1) as (n2 & Hn2 & E). skel_eq E.
      split.
      { split; simpl; try done; try lia.
        - by rewrite (leaves_same_skel _ _ Hsk).
        - rewrite (same_skel_length _ _ Hsk). nia. }
      split; [done|]. split.
      { left. exists e1, (val hp h1 0). split; [by exists h1, n1|]. split; [done|].
        split; [|done]. exists h1, n2. split; [done|]. split; [congruence|done]. }
      simpl. intros e' v (g & m & Hm & Hem & Hv') Hne.
      assert (g ≠ h1) as Hg by (intros ->; congruence).
      destruct (same_skel_lookup_r _ _ _ _ Hsk Hm) as (m2 & Hm2 & E2). skel_eq E2.
      exists g, m2. split; [done|]. split; [congruence|].
      rewrite (Hfr g m Hm); try done.
    + assert (∀ e0 v, ¬ (stored hp e0 v ∧ Chunk_Key e0 = Chunk_Key e)) as Hnone.
      { intros e0 v [(g & m & Hm & Hem & _) Hk0].
        destruct (s_key _ _ _ _ Hs g m e0 Hm Hem) as (_ & d0 & Hp0). rewrite Hk0 in Hp0.
        pose proof (at_path_leaf hp _ g d0 h1 d1 m n1 Hwf Hp0 Hp1 Hm Hn1
          ltac:(by rewrite Hem) ltac:(by rewrite He1)) as ->.
        congruence. }
      destruct Hk as [Hklen Hkb].
      destruct (add_split_spec L HL HL' ac _ (conj Hklen Hkb) sf
        hp h1 d1 n1 e1 Hs ltac:(nia) Hn1 He1 Hneq Hp1 ltac:(lia))
        as (hp2 & h2 & d2 & Hsp & Hs2 & Hp2 & Hvac & Hlv2 & Hst2 & Hlen2 & Hd2).
      rewrite Hsp. simpl.
      apply (Hplant hp2 h2 d2 Hs2 Hvac Hp2 Hlv2 ltac:(lia) Hst2 Hnone).
  - destruct (Hplant hp1 h1 d1 Hs1 Hvac Hp1 Hlv1 ltac:(lia) Hst1 Hnone) as (s' & Hrun' & Hrest).
    exists s'. split; [|done].
    destruct Hvac as (n2 & Hn2 & He2 & _).
    rewrite (proj2 (deref_Ok _ _ _) Hn2). simpl. by rewrite He2.
Qed.

End add.

(** ** [find] *)

Lemma find_descend_eq fuel hp hash h bitpos :
  find_descend fuel hp hash h bitpos =
  (node ← deref hp (Some h);
   match entry node with
   | Some _ => Ok (Some h)
   | None =>
       match fuel with
       | O => OutOfFuel
       | S fuel' =>
           l ← bits hash bitpos (bits_ node);
           st ← index_at (subtree node) l;
           match st with
           | None => Ok None
           | Some st => find_descend fuel' hp hash st (uint (bitpos + bits_ node))
           end
       end
   end).
Proof. by destruct fuel. Qed.

#[local] Arguments find_descend : simpl never.

(** A key is stored once. *)
Lemma stored_unique L C hp e v e' v' :
  sound L C hp → stored hp e v → stored hp e' v' → Chunk_Key e = Chunk_Key e' →
  e = e' ∧ v = v'.
Proof.
  intros Hs (g & m & Hm & Hem & Hv) (g' & m' & Hm' & Hem' & Hv') Hk.
  destruct (s_key _ _ _ _ Hs g m e Hm Hem) as (_ & d & Hp).
  destruct (s_key _ _ _ _ Hs g' m' e' Hm' Hem') as (_ & d' & Hp').
  rewrite Hk in Hp.
  pose proof (at_path_leaf hp _ g d g' d' m m' (s_wf _ _ _ _ Hs) Hp Hp' Hm Hm'
    ltac:(by rewrite Hem) ltac:(by rewrite Hem')) as ->.
  split; congruence.
Qed.

(** Where the way of a key ends at a free index, the key is not stored. *)
Lemma free_not_stored L C hp key h d n l :
  sound L C hp → at_path hp key h d → hp !! h = Some n → entry n = None →
  bits key (pos d) (bits_ n) = Ok l → subtree n !! Z.to_nat l = Some None →
  ∀ e v, ¬ (stored hp e v ∧ Chunk_Key e = key).
Proof.
  intros Hs Hp Hn He Hl Hc' e v [(g & m & Hm & Hem & Hv) Hk].
  pose proof (s_wf _ _ _ _ Hs) as Hwf.
  destruct (s_key _ _ _ _ Hs g m e Hm Hem) as (_ & d' & Hp').
  rewrite Hk in Hp'.
  pose proof (at_path_end hp key h d n l g d' Hp Hn Hl Hc' Hp') as Hle.
  destruct (decide (d' = d)) as [->|Hne].
  - pose proof (at_path_unique hp key g h d Hp' Hp) as ->. congruence.
  - destruct (at_path_prefix hp key h d d' Hwf Hp ltac:(lia)) as (g2 & m2 & Hg2 & Hm2 & He2).
    pose proof (at_path_unique hp key g g2 d' Hp' Hg2) as <-. congruence.
Qed.

Section find.
Context (L : nat) (HL : (2 ≤ L)%nat) (HL' : Z.of_nat L < 2 ^ 60).

Lemma find_descend_spec C hp key fuel :
  sound L C hp → valid_key L key → Z.of_nat (length hp) < 2 ^ 62 →
  ∀ h d, at_path hp key h d → (length hp ≤ fuel + h)%nat →
  (∃ h' d' n', find_descend fuel hp key h (pos d) = Ok (Some h')
     ∧ at_path hp key h' d' ∧ hp !! h' = Some n' ∧ is_Some (entry n'))
  ∨ (find_descend fuel hp key h (pos d) = Ok None
     ∧ ∀ e v, ¬ (stored hp e v ∧ Chunk_Key e = key)).
Proof.
  intros Hs Hkey Hsize. pose proof (s_wf _ _ _ _ Hs) as Hwf.
  induction fuel as [|fuel IH]; intros h d Hp Hfuel;
    destruct (at_path_lookup hp key h d Hwf Hp) as [n Hn];
    pose proof (lookup_lt_Some _ _ _ Hn) as Hlt;
    rewrite find_descend_eq, (proj2 (deref_Ok hp h n) Hn); simpl;
    destruct (entry n) as [e|] eqn:He.
  - left. exists h, d, n. split; [done|]. split; [done|]. split; [done|]. by rewrite He.
  - lia.
  - left. exists h, d, n. split; [done|]. split; [done|]. split; [done|]. by rewrite He.
  - destruct (path_bits L HL HL' C hp Hs key Hkey Hsize h d n Hp Hn)
      as (l & Hl & Rl & Hpos & c & Hc & Hc').
    rewrite Hl. simpl. rewrite Hc. simpl. rewrite Hpos. destruct c as [c|].
    + destruct (wf_child hp Hwf h n _ c Hn Hc') as (cn & Hcn & Hpar & _).
      destruct (wf_parent hp Hwf c cn h Hcn Hpar) as (Hhc & _).
      apply IH; [|lia]. by apply (at_child hp key h d n l c).
    + right. split; [done|]. by apply (free_not_stored L C hp key h d n l).
Qed.

Lemma inv_mono N N' s : inv L N s → (N ≤ N')%nat → inv L N' s.
Proof. intros [? ? ? ? ?] ?. split; try done; nia. Qed.

Lemma find_spec N s k :
  inv L N s → valid_key L k → fits L N →
  ∃ s' r, find s k = Ok (s', r) ∧ inv L (S N) s' ∧ entry_cnt s' = entry_cnt s
    ∧ ((r = None ∧ s' = s ∧ ∀ e v, ¬ (stored (heap s) e v ∧ Chunk_Key e = k))
       ∨ (∃ e v, r = Some e ∧ stored (heap s) e v ∧ Chunk_Key e = k
            ∧ access_cnt s' = access_cnt s + 1
            ∧ stored (heap s') e (access_cnt s')
            ∧ ∀ e' v', stored (heap s) e' v' → Chunk_Key e' ≠ k →
                stored (heap s') e' v')).
Proof.
  intros Hinv Hk Hfit. pose proof Hinv as [Hroot Hs Hacc Hent Hsize].
  unfold fits in Hfit. destruct s as [hp mt ec ac]. simpl in *. subst mt.
  assert (Z.of_nat (length hp) < 2 ^ 62) as Hsz by nia.
  unfold find. simpl. change 0 with (pos 0) at 1.
  destruct (find_descend_spec ac hp k (length hp) Hs Hk Hsz 0 0 (at_root _ _) ltac:(lia))
    as [(h & d & n & Hrun & Hp & Hn & [e He])|[Hrun Hnone]]; rewrite Hrun; simpl.
  2:{ exists (mkStorage hp (Some 0%nat) ec ac), None. split; [done|].
      split; [by apply (inv_mono N); [|lia]|]. split; [done|]. by left. }
  rewrite (proj2 (deref_Ok _ _ _) Hn). simpl. rewrite He. unfold isEqual.
  destruct (bool_decide_reflect (Chunk_Key e = k)) as [Heq|Hneq].
  - rewrite (uint_small (ac + 1)) by nia.
    destruct (refresh_sound None L ac hp h n (ac + 1) Hs ltac:(by left) Hn
      ltac:(by rewrite He) ltac:(lia) ltac:(lia)) as (hp2 & Hua & Hsk & Hs2 & Hv & Hfr).
    rewrite Hua. simpl. eexists _, _. split; [done|].
    destruct (same_skel_lookup_r _ _ _ _ Hsk Hn) as (n2 & Hn2 & E). skel_eq E.
    split.
    { split; simpl; try done; try lia.
      - by rewrite (leaves_same_skel _ _ Hsk).
      - rewrite (same_skel_length _ _ Hsk). nia. }
    split; [done|]. right. exists e, (val hp h 0). split; [done|].
    split; [by exists h, n|]. split; [done|]. split; [done|]. simpl. split.
    { exists h, n2. split; [done|]. split; [congruence|done]. }
    intros e' v (g & m & Hm & Hem & Hv') Hne.
    assert (g ≠ h) as Hg by (intros ->; congruence).
    destruct (same_skel_lookup_r _ _ _ _ Hsk Hm) as (m2 & Hm2 & E2). skel_eq E2.
    exists g, m2. split; [done|]. split; [congruence|].
    rewrite (Hfr g m Hm); try done.
  - exists (mkStorage hp (Some 0%nat) ec ac), None. split; [done|].
    split; [by apply (inv_mono N); [|lia]|]. split; [done|]. left.
    split; [done|]. split; [done|].
    intros e0 v [(g & m & Hm & Hem & _) Hk0].
    destruct (s_key _ _ _ _ Hs g m e0 Hm Hem) as (_ & d0 & Hp0). rewrite Hk0 in Hp0.
    pose proof (at_path_leaf hp _ g d0 h d m n (s_wf _ _ _ _ Hs) Hp0 Hp Hm Hn
      ltac:(by rewrite Hem) ltac:(by rewrite He)) as ->.
    congruence.
Qed.

End find.

(** ** The way from a slot to the root *)

(** A slot of the access tree of a node that holds no entry. *)
Definition slot (hp : list dpaMemTree) (q : nat * Z) : Prop :=
  ∃ n, hp !! q.1 = Some n ∧ entry n = None ∧ 0 ≤ q.2 < width n - 1.

Definition up (hp : list dpaMemTree) (q : nat * Z) : option (nat * Z) :=
  upslot hp q.1 q.2.

(** [r] lies on the way from slot [q] to the root. *)
Inductive above (hp : list dpaMemTree) : nat * Z → nat * Z → Prop :=
  | above_refl q : above hp q q
  | above_step q p r : up hp q = Some p → above hp p r → above hp q r.

(** Every slot above [q] holds the value of the subtree that is not on the
    way from [q]: what the descent of [remove_oldest] leaves behind. *)
Inductive holes (hp : list dpaMemTree) : nat * Z → Prop :=
  | holes_top q : up hp q = None → holes hp q
  | holes_up q p :
      up hp q = Some p → val hp p.1 p.2 = sibval hp q.1 q.2 → holes hp p → holes hp q.

(** The min-trees are in order at every slot that is not strictly above [q]. *)
Definition min_off (hp : list dpaMemTree) (q : nat * Z) : Prop :=
  ∀ h n i, hp !! h = Some n → entry n = None → 0 ≤ i < width n - 1 →
    (∀ p, up hp q = Some p → ¬ above hp p (h, i)) → min_at hp h n i.

Lemma up_slot hp q p :
  wf hp → slot hp q → up hp q = Some p →
  slot hp p ∧ rank p.1 p.2 < rank q.1 q.2.
Proof.
  intros Hwf (n & Hn & He & Hi) Hup. destruct q as [h i], p as [p P]. simpl in *.
  destruct (upslot_spec hp h n i p P Hwf Hn Hi Hup)
    as (pn & Hpn & HP & Hrank & _ & Hin & Hpar & _).
  split; [|done]. exists pn. split; [done|]. split; [|done].
  destruct (Z.ltb_spec 0 i) as [Hpos|Hz].
  - rewrite (Hin Hpos) in Hpn. simpl in Hpn. congruence.
  - apply (wf_parent_interior hp h n p pn); try done. apply Hpar. lia.
Qed.

Lemma above_slot hp q r :
  wf hp → slot hp q → above hp q r →
  slot hp r ∧ (r = q ∨ rank r.1 r.2 < rank q.1 q.2).
Proof.
  intros Hwf Hq Hab. induction Hab as [q|q p r Hup Hab IH].
  - split; [done|by left].
  - destruct (up_slot hp q p Hwf Hq Hup) as (Hp & Hrank).
    destruct (IH Hp) as (Hr & Hor). split; [done|]. right.
    destruct Hor as [->|]; lia.
Qed.

Lemma up_skel hp hp' q : same_skel hp hp' → up hp' q = up hp q.
Proof. intros. by apply upslot_skel. Qed.

Lemma above_skel hp hp' q r : same_skel hp hp' → above hp q r → above hp' q r.
Proof.
  intros Hs. induction 1 as [q|q p r Hup Hab IH]; [constructor|].
  apply (above_step hp' q p r); [|done]. by rewrite (up_skel hp hp').
Qed.

Lemma same_skel_sym hp hp' : same_skel hp hp' → same_skel hp' hp.
Proof. unfold same_skel. congruence. Qed.

Lemma slot_skel hp hp' q : same_skel hp hp' → slot hp q → slot hp' q.
Proof.
  intros Hs (n & Hn & He & Hi).
  destruct (same_skel_lookup_r _ _ _ _ Hs Hn) as (n' & Hn' & E). skel_eq E.
  exists n'. split; [done|]. split; [congruence|]. by rewrite <- Hwd.
Qed.

(** A write changes what a slot sees beside it only when it goes to the
    slot's sibling. *)
Lemma sibval_frame hp g k v hp1 h i n :
  wf hp → set_access hp g k v = Ok hp1 →
  hp !! h = Some n → 0 ≤ i < width n - 1 →
  (g, k) = (h, i) ∨ upslot hp g k ≠ upslot hp h i →
  sibval hp1 h i = sibval hp h i.
Proof.
  intros Hwf Hset Hn Hi [[= -> ->]|Hne]; [by apply (sibval_set_access hp h i v hp1 n)|].
  pose proof (set_access_skel _ _ _ _ _ Hset) as Hsk.
  pose proof Hset as (ng & Hg & Hk & _)%set_access_Ok.
  pose proof (shape_width_cases n (wf_shape hp Hwf h n Hn)) as W.
  unfold sibval. destruct (Z.ltb_spec 0 i) as [Hpos|Hz].
  - destruct (sib_range (width n) i W ltac:(lia)) as (Hs & Hsd & _).
    rewrite (set_access_val _ _ _ _ _ h (sib i) Hset) by lia.
    destruct (decide (h = g ∧ sib i = k)) as [[-> <-]|]; [|done].
    exfalso. apply Hne. unfold upslot.
    destruct (Z.ltb_spec 0 (sib i)); [|lia]. destruct (Z.ltb_spec 0 i); [|lia].
    by rewrite Hsd.
  - assert (i = 0) as -> by lia.
    destruct (same_skel_lookup_r _ _ _ _ Hsk Hn) as (n' & Hn' & E). skel_eq E.
    rewrite Hn, Hn'. simpl. rewrite <- Hpar, <- Hpi.
    destruct (parent n) as [p|] eqn:Hp; [|done]. simpl.
    destruct (wf_parent hp Hwf h n p Hn Hp) as (_ & _ & pn & Hpn & Hpi' & Hsub).
    destruct (same_skel_lookup_r _ _ _ _ Hsk Hpn) as (pn' & Hpn' & E'). skel_eq E'.
    rewrite Hpn, Hpn'. simpl. unfold chv. rewrite <- Hst0.
    destruct (subtree pn !! Z.to_nat (Z.lxor (parent_idx n) 1)) as [[c|]|] eqn:Hc; try done.
    rewrite (set_access_val _ _ _ _ _ c 0 Hset) by lia.
    destruct (decide (c = g ∧ 0 = k)) as [[-> <-]|]; [|done].
    exfalso. apply Hne. unfold upslot. simpl.
    destruct (wf_child hp Hwf p pn _ g Hpn Hc) as (cn & Hcn & Hpc & Hic).
    rewrite Hcn, Hn. simpl. rewrite Hpc, Hp. simpl. rewrite Hpn. simpl.
    do 2 f_equal. rewrite Hic.
    pose proof (lookup_lt_Some _ _ _ Hsub) as Hlen.
    destruct (wf_shape hp Hwf p pn Hpn) as [_ _ S _]. unfold len in S.
    pose proof (shape_width_cases pn (wf_shape hp Hwf p pn Hpn)) as Wp.
    destruct (child_pos (width pn) (parent_idx n) Wp ltac:(lia)) as (_ & Hk2 & Hx & _).
    rewrite Z2Nat.id by lia. simpl in Hk2.
    destruct Wp as [Wp|Wp]; rewrite Wp in *; Z.div_mod_to_equations; lia.
Qed.

Lemma above_snoc hp q r p : above hp q r → up hp r = Some p → above hp q p.
Proof.
  induction 1 as [q|q p' r Hup Hab IH]; intros Hr.
  - apply (above_step hp q p p); [done|constructor].
  - apply (above_step hp q p' p); auto.
Qed.

Lemma above_inv hp q r : above hp q r → r = q ∨ ∃ p, up hp q = Some p ∧ above hp p r.
Proof. destruct 1 as [q|q p r Hup Hab]; [by left|right; eauto]. Qed.

(** A write to a slot leaves the holes above it as they are. *)
Lemma holes_write_self hp q v hp1 :
  wf hp → slot hp q → holes hp q → set_access hp q.1 q.2 v = Ok hp1 → holes hp1 q.
Proof.
  intros Hwf Hq Hh Hset. pose proof (set_access_skel _ _ _ _ _ Hset) as Hsk.
  assert (∀ r, holes hp r → above hp q r → holes hp1 r) as Hgen;
    [|apply Hgen; [done|constructor]].
  intros r Hr. induction Hr as [r Hup|r p Hup Hv Hp IH]; intros Hab.
  { apply holes_top. by rewrite (up_skel hp hp1). }
  destruct (above_slot hp q r Hwf Hq Hab) as (Hrs & Hor).
  destruct (up_slot hp r p Hwf Hrs Hup) as (Hps & Hrank).
  apply (holes_up hp1 r p).
  - by rewrite (up_skel hp hp1).
  - rewrite (set_access_val _ _ _ _ _ p.1 p.2 Hset) by (destruct Hps as (? & _ & _ & ?); lia).
    rewrite decide_False.
    2:{ intros [E1 E2]. destruct Hor as [->|]; rewrite E1, E2 in Hrank; lia. }
    rewrite Hv. symmetry. destruct Hrs as (rn & Hrn & _ & Hri).
    apply (sibval_frame hp q.1 q.2 v hp1 r.1 r.2 rn); try done.
    destruct (above_inv hp q r Hab) as [->|(pq & Hq' & Habq)]; [by left|].
    right. fold (up hp q) (up hp r). rewrite Hq', Hup. intros [= ->].
    destruct (up_slot hp q p Hwf Hq Hq') as (Hps' & _).
    destruct (above_slot hp p r Hwf Hps' Habq) as (_ & [->|Hlt]); lia.
  - apply IH. by apply (above_snoc hp q r p).
Qed.

Lemma holes_ext hp hp' q :
  (∀ q, up hp' q = up hp q) → (∀ g i, val hp' g i = val hp g i) →
  (∀ g i, sibval hp' g i = sibval hp g i) → holes hp q → holes hp' q.
Proof.
  intros Hu Hv Hsv. induction 1 as [r Hup|r p Hup Hval Hp IH].
  - apply holes_top. by rewrite Hu.
  - apply (holes_up hp' r p); [by rewrite Hu|by rewrite Hv, Hsv|done].
Qed.

Lemma above_ext hp hp' q r : (∀ q, up hp' q = up hp q) → above hp q r → above hp' q r.
Proof.
  intros Hu. induction 1 as [q|q p r Hup Hab IH]; [constructor|].
  apply (above_step hp' q p r); [by rewrite Hu|done].
Qed.

Lemma set_entry_up (hp : list dpaMemTree) (h : nat) n e q :
  hp !! h = Some n → up (<[h := with_entry n e]> hp) q = up hp q.
Proof.
  intros Hn. unfold up, upslot. destruct (0 <? q.2); [done|].
  destruct (hp !! q.1) as [m|] eqn:Hm.
  - rewrite (set_entry_lookup_r hp h n e q.1 m Hn Hm).
    assert (parent (if decide (q.1 = h) then with_entry n e else m) = parent m
      ∧ parent_idx (if decide (q.1 = h) then with_entry n e else m) = parent_idx m)
      as [E1 E2].
    { destruct (decide (q.1 = h)) as [E|]; [|done]. rewrite E in Hm.
      assert (m = n) as -> by congruence. done. }
    simpl. rewrite E1, E2. destruct (parent m) as [p|]; [|done]. simpl.
    destruct (hp !! p) as [pn|] eqn:Hpn.
    + rewrite (set_entry_lookup_r hp h n e p pn Hn Hpn). simpl.
      destruct (decide (p = h)) as [->|]; [|done].
      assert (pn = n) as -> by congruence. done.
    + rewrite (proj2 (lookup_ge_None _ _)); [done|].
      rewrite length_insert. by apply lookup_ge_None.
  - rewrite (proj2 (lookup_ge_None _ _)); [done|].
    rewrite length_insert. by apply lookup_ge_None.
Qed.

Lemma set_entry_sibval (hp : list dpaMemTree) (h : nat) n e g i :
  hp !! h = Some n → sibval (<[h := with_entry n e]> hp) g i = sibval hp g i.
Proof.
  intros Hn. unfold sibval. rewrite set_entry_val by done.
  destruct (0 <? i); [done|].
  destruct (hp !! g) as [m|] eqn:Hm.
  - rewrite (set_entry_lookup_r hp h n e g m Hn Hm).
    assert (parent (if decide (g = h) then with_entry n e else m) = parent m
      ∧ parent_idx (if decide (g = h) then with_entry n e else m) = parent_idx m)
      as [E1 E2].
    { destruct (decide (g = h)) as [->|]; [|done].
      assert (m = n) as -> by congruence. done. }
    simpl. rewrite E1, E2. destruct (parent m) as [p|]; [|done]. simpl.
    destruct (hp !! p) as [pn|] eqn:Hpn.
    + rewrite (set_entry_lookup_r hp h n e p pn Hn Hpn). simpl.
      assert (subtree (if decide (p = h) then with_entry n e else pn) = subtree pn) as E3.
      { destruct (decide (p = h)) as [->|]; [|done].
        assert (pn = n) as -> by congruence. done. }
      unfold chv. rewrite E3.
      destruct (subtree pn !! _) as [[c|]|]; try done. by rewrite set_entry_val.
    + rewrite (proj2 (lookup_ge_None _ _)); [done|].
      rewrite length_insert. by apply lookup_ge_None.
  - rewrite (proj2 (lookup_ge_None _ _)); [done|].
    rewrite length_insert. by apply lookup_ge_None.
Qed.

(** After the descent has written a slot and moved below it, the min-trees
    are in order wherever they were, but at the written slot. *)
Lemma min_off_down hp q v hp1 q' :
  wf hp → set_access hp q.1 q.2 v = Ok hp1 → min_off hp q →
  up hp q' = Some q → min_off hp1 q'.
Proof.
  intros Hwf Hset Hmin Hup h n1 i Hn1 He1 Hi Hoff.
  pose proof (set_access_skel _ _ _ _ _ Hset) as Hsk.
  destruct (same_skel_lookup _ _ _ _ Hsk Hn1) as (n & Hn & E). skel_eq E.
  assert (¬ above hp q (h, i)) as Hnab.
  { intros Hab. apply (Hoff q); [by rewrite (up_skel hp hp1)|].
    by apply (above_skel hp hp1). }
  apply (set_access_min_at hp q.1 q.2 v hp1 h n n1 i); try done; try lia.
  - intros E. apply Hnab. destruct q. simpl in E. rewrite E. constructor.
  - intros E. apply Hnab. apply (above_step hp q (h, i)); [done|constructor].
  - apply Hmin; try done; try congruence; try lia.
    intros p Hp Hab. apply Hnab. by apply (above_step hp q p).
Qed.

Lemma min_off_self hp h n i :
  wf hp → hp !! h = Some n → entry n = None → 0 ≤ i < width n - 1 →
  min_off hp (h, i) → min_at hp h n i.
Proof.
  intros Hwf Hn He Hi Hmin. apply Hmin; try done. intros p Hup Hab.
  assert (slot hp (h, i)) as Hq by (by exists n).
  destruct (up_slot hp (h, i) p Hwf Hq Hup) as (Hp & Hrank).
  destruct (above_slot hp p (h, i) Hwf Hp Hab) as (_ & [E|Hlt]).
  - rewrite <- E in Hrank. lia.
  - simpl in *. lia.
Qed.

(** ** The descent of [remove_oldest] *)

(** The heap while [remove_oldest] descends from heap [hp0] and stands at
    slot [q]: [av] is the oldest access value, which the way to [q] has
    followed. *)
Record dinv (hp0 : list dpaMemTree) (B av : Z) (hp : list dpaMemTree) (q : nat * Z)
    : Prop := {
  d_wf : wf hp;
  d_skel : same_skel hp0 hp;
  d_leaf : ∀ g n i, hp0 !! g = Some n → is_Some (entry n) → 0 ≤ i →
      val hp g i = val hp0 g i;
  d_bound : ∀ g i, 0 ≤ i → val hp g i ≤ B;
  d_holes : holes hp q;
  d_min : min_off hp q;
  d_val : val hp q.1 q.2 = av;
}.

Lemma dinv_step hp0 B av hp q v hp1 q' n' :
  dinv hp0 B av hp q → slot hp q → set_access hp q.1 q.2 v = Ok hp1 → v ≤ B →
  hp !! q'.1 = Some n' → 0 ≤ q'.2 < width n' - 1 →
  up hp q' = Some q → sibval hp q'.1 q'.2 = v → val hp q'.1 q'.2 = av →
  dinv hp0 B av hp1 q'.
Proof.
  intros [Hwf Hsk Hleaf HB Hh Hmin Hv] Hq Hset HvB Hn' Hi' Hup Hsib Hav.
  pose proof (set_access_skel _ _ _ _ _ Hset) as Hsk1.
  destruct Hq as (n & Hn & He & Hi).
  destruct q as [h a], q' as [h' a']. simpl in *.
  destruct (upslot_spec hp h' n' a' h a Hwf Hn' Hi' Hup) as (_ & _ & _ & _ & Hne & _).
  split.
  - by apply (wf_same_skel hp).
  - by apply (same_skel_trans _ hp).
  - intros g m i Hm Hem Hgi. rewrite (set_access_val _ _ _ _ _ g i Hset) by done.
    rewrite decide_False; [by apply (Hleaf g m)|]. intros [-> _].
    destruct (same_skel_lookup_r _ _ _ _ Hsk Hm) as (m' & Hm' & E). skel_eq E.
    assert (m' = n) as -> by congruence. rewrite Hent, He in Hem. by destruct Hem.
  - intros g i Hgi. rewrite (set_access_val _ _ _ _ _ g i Hset) by done.
    destruct (decide _); [done|by apply HB].
  - apply (holes_up hp1 (h', a') (h, a)).
    + by rewrite (up_skel hp hp1).
    + simpl. rewrite (set_access_val _ _ _ _ _ h a Hset) by lia.
      rewrite decide_True by done.
      rewrite (sibval_frame hp h a v hp1 h' a' n'); try done.
      right. change (upslot hp h' a') with (up hp (h', a')). rewrite Hup. intros Hself.
      destruct (up_slot hp (h, a) (h, a) Hwf ltac:(by exists n) Hself) as (_ & ?). lia.
    + apply (holes_write_self hp (h, a) v hp1); try done. by exists n.
  - by apply (min_off_down hp (h, a) v hp1).
  - simpl. rewrite (set_access_val _ _ _ _ _ h' a' Hset) by lia.
    rewrite decide_False; [done|]. intros [-> ->]. done.
Qed.

Lemma oldest_slot_eq fuel hp h av aidx :
  oldest_slot fuel hp h av aidx =
  (node ← deref hp (Some h);
   if aidx <? uint (width node / 2 - 1) then
     match fuel with
     | O => OutOfFuel
     | S fuel' =>
         l ← index_at (access node) (uint (aidx * 2 + 1));
         if av =? l then
           r ← index_at (access node) (uint (aidx * 2 + 2));
           hp ← set_access hp h aidx r;
           oldest_slot fuel' hp h av (uint (aidx * 2 + 1))
         else
           r ← index_at (access node) (uint (aidx * 2 + 2));
           if av =? r then
             hp ← set_access hp h aidx l;
             oldest_slot fuel' hp h av (uint (aidx * 2 + 2))
           else Panic
     end
   else Ok (hp, aidx)).
Proof. by destruct fuel. Qed.

#[local] Arguments oldest_slot : simpl never.

Lemma minnz_cases x y : minnz x y ≠ 0 → minnz x y = x ∨ minnz x y = y.
Proof. unfold minnz. destruct (x =? 0), (y =? 0); lia. Qed.

Lemma half_small w :
  w = 4 ∨ w = 16384 → uint (w / 2 - 1) = w / 2 - 1 ∧ 2 * (w / 2) = w ∧ 4 ≤ w < 2 ^ 60.
Proof. by intros [-> | ->]. Qed.

Lemma oldest_slot_spec hp0 B av fuel :
  av ≠ 0 →
  ∀ hp h a n, dinv hp0 B av hp (h, a) →
    hp !! h = Some n → entry n = None → 0 ≤ a < width n - 1 →
    width n ≤ (a + 1) * 2 ^ Z.of_nat fuel →
    ∃ hp' a' n', oldest_slot fuel hp h av a = Ok (hp', a')
      ∧ dinv hp0 B av hp' (h, a')
      ∧ hp' !! h = Some n' ∧ width n' / 2 - 1 ≤ a' < width n' - 1.
Proof.
  intros Hav. induction fuel as [|fuel IH]; intros hp h a n Hd Hn He Ha Hlev;
    pose proof (d_wf _ _ _ _ _ Hd) as Hwf;
    pose proof (shape_width_cases n (wf_shape hp Hwf h n Hn)) as W;
    destruct (wf_shape hp Hwf h n Hn) as [_ _ _ Hlen];
    rewrite oldest_slot_eq, (proj2 (deref_Ok hp h n) Hn); simpl;
    destruct (half_small (width n) W) as (-> & Hhalf & Hwr);
    destruct (Z.ltb_spec a (width n / 2 - 1)) as [Hlt|Hge];
    try (exists hp, a, n; split; [done|]; split; [done|]; split; [done|lia]).
  - exfalso. simpl in Hlev. lia.
  - assert (2 * a + 2 < width n - 1) as Hk by lia.
    replace (a * 2 + 1) with (2 * a + 1) by lia.
    replace (a * 2 + 2) with (2 * a + 2) by lia.
    rewrite !uint_small by lia.
    rewrite (index_access hp h n (2 * a + 1) Hn) by lia. simpl.
    rewrite (index_access hp h n (2 * a + 2) Hn) by lia.
    pose proof (min_off_self hp h n a Hwf Hn He Ha (d_min _ _ _ _ _ Hd)) as Hm.
    unfold min_at, ext in Hm.
    destruct (Z.ltb_spec (2 * a + 1) (width n - 1)); [|lia].
    destruct (Z.ltb_spec (2 * a + 2) (width n - 1)); [|lia].
    pose proof (d_val _ _ _ _ _ Hd) as Hv. simpl in Hv. rewrite Hv in Hm.
    assert (∀ k, (k = 2 * a + 1 ∨ k = 2 * a + 2) → val hp h k = av →
      ∃ hp1 n1, set_access hp h a (val hp h (sib k)) = Ok hp1
        ∧ dinv hp0 B av hp1 (h, k) ∧ hp1 !! h = Some n1 ∧ entry n1 = None
        ∧ width n1 = width n) as Hstep.
    { intros k Hk' Hkv.
      destruct (set_access_total hp h n a (val hp h (sib k)) Hn ltac:(lia)) as [hp1 Hset].
      destruct (same_skel_lookup_r _ _ _ _ (set_access_skel _ _ _ _ _ Hset) Hn)
        as (n1 & Hn1 & E). skel_eq E.
      exists hp1, n1. split; [done|]. split; [|split; [done|split; congruence]].
      apply (dinv_step hp0 B av hp (h, a) (val hp h (sib k)) hp1 (h, k) n); try done.
      - by exists n.
      - apply (d_bound _ _ _ _ _ Hd).
        destruct (sib_range (width n) k W ltac:(lia)) as (? & _). lia.
      - simpl. lia.
      - unfold up, upslot. simpl. destruct (Z.ltb_spec 0 k); [|lia].
        do 2 f_equal. Z.div_mod_to_equations. lia.
      - unfold sibval. simpl. by destruct (Z.ltb_spec 0 k); [|lia]. }
    assert (sib (2 * a + 1) = 2 * a + 2) as Hs1.
    { rewrite sib_odd; [lia|lia|]. rewrite Z.add_comm, Z.odd_add_mul_2. done. }
    assert (sib (2 * a + 2) = 2 * a + 1) as Hs2.
    { rewrite sib_even; [lia|lia|].
      replace (2 * a + 2) with (0 + 2 * (a + 1)) by lia.
      by rewrite Z.even_add_mul_2. }
    destruct (Z.eqb_spec av (val hp h (2 * a + 1))) as [El|El]; simpl.
    + destruct (Hstep (2 * a + 1) ltac:(by left) ltac:(done))
        as (hp1 & n1 & Hset & Hd1 & Hn1 & He1 & Hw1).
      rewrite Hs1 in Hset. rewrite Hset. simpl.
      destruct (IH hp1 h (2 * a + 1) n1 Hd1 Hn1 He1 ltac:(lia))
        as (hp' & a' & n' & Hrun & Hd' & Hn' & Ha'); [|by exists hp', a', n'].
      rewrite Hw1. replace (Z.of_nat (S fuel)) with (Z.of_nat fuel + 1) in Hlev by lia.
      rewrite Z.pow_add_r in Hlev by lia. lia.
    + destruct (Z.eqb_spec av (val hp h (2 * a + 2))) as [Er|Er]; simpl.
      * destruct (Hstep (2 * a + 2) ltac:(by right) ltac:(done))
          as (hp1 & n1 & Hset & Hd1 & Hn1 & He1 & Hw1).
        rewrite Hs2 in Hset. rewrite Hset. simpl.
        destruct (IH hp1 h (2 * a + 2) n1 Hd1 Hn1 He1 ltac:(lia))
          as (hp' & a' & n' & Hrun & Hd' & Hn' & Ha'); [|by exists hp', a', n'].
        rewrite Hw1. replace (Z.of_nat (S fuel)) with (Z.of_nat fuel + 1) in Hlev by lia.
        rewrite Z.pow_add_r in Hlev by lia. lia.
      * exfalso. destruct (minnz_cases _ _ ltac:(by rewrite <- Hm)); congruence.
Qed.

Lemma oldest_leaf_eq fuel hp h :
  oldest_leaf fuel hp h =
  (node ← deref hp (Some h);
   match entry node with
   | Some _ => Ok (hp, h)
   | None =>
       match fuel with
       | O => OutOfFuel
       | S fuel' =>
           av ← index_at (access node) 0;
           '(hp, aidx) ← oldest_slot (Z.to_nat (bits_ node)) hp h av 0;
           node ← deref hp (Some h);
           let pidx := uint (aidx * 2 + 2 - width node) in
           left ← subtree_access hp node pidx;
           if bool_decide (left = Some av) then
             right ← subtree_access hp node (uint (pidx + 1));
             hp ← set_access hp h aidx (default 0 right);
             node ← deref hp (Some h);
             st ← index_at (subtree node) pidx;
             match st with
             | None => Panic
             | Some c => oldest_leaf fuel' hp c
             end
           else
             right ← subtree_access hp node (uint (pidx + 1));
             if bool_decide (right = Some av) then
               hp ← set_access hp h aidx (default 0 left);
               node ← deref hp (Some h);
               st ← index_at (subtree node) (uint (pidx + 1));
               match st with
               | None => Panic
               | Some c => oldest_leaf fuel' hp c
               end
             else Panic
       end
   end).
Proof. by destruct fuel. Qed.

#[local] Arguments oldest_leaf : simpl never.
#[local] Arguments subtree_access : simpl never.

(** What [node.subtree[j].access[0]] reads. *)
Definition child_val (hp : list dpaMemTree) (n : dpaMemTree) (j : Z) : option Z :=
  match subtree n !! Z.to_nat j with
  | Some (Some c) => Some (val hp c 0)
  | _ => None
  end.

Lemma chv_child_val hp n j : chv hp n j = default 0 (child_val hp n j).
Proof. unfold chv, child_val. by destruct (subtree n !! Z.to_nat j) as [[c|]|]. Qed.

Lemma subtree_access_spec hp h n j :
  wf hp → hp !! h = Some n → 0 ≤ j < width n →
  subtree_access hp n j = Ok (child_val hp n j).
Proof.
  intros Hwf Hn Hj. destruct (wf_shape hp Hwf h n Hn) as [_ _ S _].
  unfold subtree_access, child_val.
  destruct (index_at_total (subtree n) j ltac:(lia)) as [x Hx]. rewrite Hx. simpl.
  apply index_at_Ok in Hx as [_ Hx]. rewrite Hx. destruct x as [c|]; [|done].
  destruct (wf_child hp Hwf h n _ c Hn Hx) as (cn & Hcn & _).
  rewrite (proj2 (deref_Ok hp c cn) Hcn). simpl.
  pose proof (shape_width_cases cn (wf_shape hp Hwf c cn Hcn)) as W.
  destruct (wf_shape hp Hwf c cn Hcn) as [_ _ _ A].
  rewrite (index_access hp c cn 0 Hcn) by (destruct W; lia). done.
Qed.

Lemma oldest_leaf_spec hp0 B av fuel :
  av ≠ 0 → 0 ≤ B →
  ∀ hp c cn, dinv hp0 B av hp (c, 0) → hp !! c = Some cn →
    (length hp ≤ fuel + c)%nat →
    ∃ hp' l ln, oldest_leaf fuel hp c = Ok (hp', l)
      ∧ dinv hp0 B av hp' (l, 0) ∧ hp' !! l = Some ln ∧ is_Some (entry ln).
Proof.
  intros Hav HB0. induction fuel as [|fuel IH]; intros hp c cn Hd Hc Hfuel;
    pose proof (lookup_lt_Some _ _ _ Hc) as Hlt;
    rewrite oldest_leaf_eq, (proj2 (deref_Ok hp c cn) Hc); simpl;
    destruct (entry cn) as [e|] eqn:He;
    try (exists hp, c, cn; split; [done|]; split; [done|]; split; [done|by rewrite He]);
    [lia|].
  pose proof (d_wf _ _ _ _ _ Hd) as Hwf.
  pose proof (shape_width_cases cn (wf_shape hp Hwf c cn Hc)) as W.
  destruct (wf_shape hp Hwf c cn Hc) as [Hb Hw _ Hlen].
  rewrite (index_access hp c cn 0 Hc) by (destruct W; lia). simpl.
  pose proof (d_val _ _ _ _ _ Hd) as Hv. simpl in Hv. rewrite Hv.
  destruct (oldest_slot_spec hp0 B av (Z.to_nat (bits_ cn)) Hav hp c 0 cn Hd Hc He)
    as (hp1 & a1 & n1 & Hrun & Hd1 & Hn1 & Ha1).
  { destruct W; lia. }
  { rewrite Z2Nat.id by (destruct Hb as [-> | ->]; done). rewrite Hw. lia. }
  rewrite Hrun. simpl. rewrite (proj2 (deref_Ok hp1 c n1) Hn1). simpl.
  pose proof (d_wf _ _ _ _ _ Hd1) as Hwf1.
  pose proof (shape_width_cases n1 (wf_shape hp1 Hwf1 c n1 Hn1)) as W1.
  destruct (half_small (width n1) W1) as (_ & Hhalf & Hwr).
  assert (entry n1 = None) as He1.
  { pose proof (same_skel_trans _ _ _ (same_skel_sym _ _ (d_skel _ _ _ _ _ Hd))
      (d_skel _ _ _ _ _ Hd1)) as Hsk.
    destruct (same_skel_lookup_r _ _ _ _ Hsk Hc) as (n1' & Hn1' & E). skel_eq E.
    congruence. }
  set (pidx := a1 * 2 + 2 - width n1).
  assert (0 ≤ pidx ∧ pidx + 1 < width n1 ∧ Z.even pidx = true) as (Hp0 & Hp1 & Hpe).
  { unfold pidx. split; [lia|]. split; [lia|].
    replace (a1 * 2 + 2 - width n1) with (0 + 2 * (a1 + 1 - width n1 / 2)) by lia.
    by rewrite Z.even_add_mul_2. }
  rewrite (uint_small pidx) by lia. rewrite (uint_small (pidx + 1)) by lia.
  rewrite (subtree_access_spec hp1 c n1 pidx Hwf1 Hn1) by lia. simpl.
  rewrite !(subtree_access_spec hp1 c n1 (pidx + 1) Hwf1 Hn1) by lia. simpl.
  pose proof (min_off_self hp1 c n1 a1 Hwf1 Hn1 He1 ltac:(lia) (d_min _ _ _ _ _ Hd1)) as Hm.
  unfold min_at, ext in Hm.
  destruct (Z.ltb_spec (2 * a1 + 1) (width n1 - 1)); [lia|].
  destruct (Z.ltb_spec (2 * a1 + 2) (width n1 - 1)); [lia|].
  replace (2 * a1 + 1 - (width n1 - 1)) with pidx in Hm by (unfold pidx; lia).
  replace (2 * a1 + 2 - (width n1 - 1)) with (pidx + 1) in Hm by (unfold pidx; lia).
  pose proof (d_val _ _ _ _ _ Hd1) as Hv1. simpl in Hv1. rewrite Hv1 in Hm.
  rewrite !chv_child_val in Hm.
  assert (∀ j c', (j = pidx ∨ j = pidx + 1) →
    subtree n1 !! Z.to_nat j = Some (Some c') → val hp1 c' 0 = av →
    ∃ hp2 n2, set_access hp1 c a1 (default 0 (child_val hp1 n1 (Z.lxor j 1))) = Ok hp2
      ∧ hp2 !! c = Some n2 ∧ subtree n2 = subtree n1
      ∧ ∃ hp' l ln, oldest_leaf fuel hp2 c' = Ok (hp', l)
          ∧ dinv hp0 B av hp' (l, 0) ∧ hp' !! l = Some ln ∧ is_Some (entry ln)) as Hstep.
  { intros j c' Hj Hc' Hcv.
    destruct (wf_shape hp1 Hwf1 c n1 Hn1) as [_ _ _ Hlen1].
    destruct (set_access_total hp1 c n1 a1 (default 0 (child_val hp1 n1 (Z.lxor j 1)))
      Hn1 ltac:(lia)) as [hp2 Hset].
    pose proof (set_access_skel _ _ _ _ _ Hset) as Hsk2.
    destruct (same_skel_lookup_r _ _ _ _ Hsk2 Hn1) as (n2 & Hn2 & E). skel_eq E.
    exists hp2, n2. split; [done|]. split; [done|]. split; [done|].
    destruct (wf_child hp1 Hwf1 c n1 _ c' Hn1 Hc') as (cn' & Hcn' & Hpar' & Hidx').
    destruct (wf_parent hp1 Hwf1 c' cn' c Hcn' Hpar') as (Hcc & _).
    destruct (same_skel_lookup_r _ _ _ _ Hsk2 Hcn') as (cn2 & Hcn2 & _).
    apply (IH hp2 c' cn2); try done;
      [|rewrite (same_skel_length _ _ Hsk2);
        rewrite (same_skel_length _ _ (same_skel_trans _ _ _
          (same_skel_sym _ _ (d_skel _ _ _ _ _ Hd)) (d_skel _ _ _ _ _ Hd1))); lia].
    pose proof (shape_width_cases cn' (wf_shape hp1 Hwf1 c' cn' Hcn')) as W'.
    apply (dinv_step hp0 B av hp1 (c, a1) (default 0 (child_val hp1 n1 (Z.lxor j 1)))
      hp2 (c', 0) cn'); try done.
    - exists n1. simpl. split; [done|]. split; [done|]. lia.
    - rewrite <- chv_child_val. unfold chv.
      destruct (subtree n1 !! Z.to_nat (Z.lxor j 1)) as [[x|]|]; try done.
      by apply (d_bound _ _ _ _ _ Hd1).
    - simpl. destruct W'; lia.
    - unfold up, upslot. simpl. rewrite Hcn'. simpl. rewrite Hpar'. simpl.
      rewrite Hn1. simpl. do 2 f_equal. rewrite Hidx', Z2Nat.id by lia.
      unfold pidx in Hj. Z.div_mod_to_equations. lia.
    - unfold sibval. simpl. rewrite Hcn'. simpl. rewrite Hpar'. simpl.
      rewrite Hn1. simpl. rewrite Hidx', Z2Nat.id by lia. apply chv_child_val. }
  assert (Z.lxor pidx 1 = pidx + 1) as Hx0 by (by apply lxor_1_even).
  assert (Z.lxor (pidx + 1) 1 = pidx) as Hx1.
  { rewrite lxor_1_odd; [lia|lia|]. rewrite Z.odd_add, <- Z.negb_even, Hpe. done. }
  destruct (bool_decide_reflect (child_val hp1 n1 pidx = Some av)) as [El|El].
  - assert (∃ c', subtree n1 !! Z.to_nat pidx = Some (Some c') ∧ val hp1 c' 0 = av)
      as (c' & Hc' & Hcv).
    { unfold child_val in El. destruct (subtree n1 !! Z.to_nat pidx) as [[c'|]|]; try done.
      exists c'. split; [done|]. congruence. }
    destruct (Hstep pidx c' ltac:(by left) Hc' Hcv) as (hp2 & n2 & Hset & Hn2 & Hst2 & Hrest).
    rewrite Hx0 in Hset. simpl. rewrite Hset. simpl.
    rewrite (proj2 (deref_Ok hp2 c n2) Hn2). simpl. rewrite Hst2.
    rewrite (proj2 (index_at_Ok _ _ _) (conj Hp0 Hc')). simpl. done.
  - destruct (bool_decide_reflect (child_val hp1 n1 (pidx + 1) = Some av)) as [Er|Er].
    + assert (∃ c', subtree n1 !! Z.to_nat (pidx + 1) = Some (Some c') ∧ val hp1 c' 0 = av)
        as (c' & Hc' & Hcv).
      { unfold child_val in Er.
        destruct (subtree n1 !! Z.to_nat (pidx + 1)) as [[c'|]|]; try done.
        exists c'. split; [done|]. congruence. }
      destruct (Hstep (pidx + 1) c' ltac:(by right) Hc' Hcv)
        as (hp2 & n2 & Hset & Hn2 & Hst2 & Hrest).
      rewrite Hx1 in Hset. simpl. rewrite Hset. simpl.
      rewrite (proj2 (deref_Ok hp2 c n2) Hn2). simpl. rewrite Hst2.
      assert (0 ≤ pidx + 1) as Hp1' by lia.
      rewrite (proj2 (index_at_Ok _ _ _) (conj Hp1' Hc')). simpl. done.
    + exfalso. destruct (minnz_cases _ _ ltac:(by rewrite <- Hm)) as [E|E];
        rewrite <- Hm in E.
      * apply El. destruct (child_val hp1 n1 pidx); simpl in E; congruence.
      * apply Er. destruct (child_val hp1 n1 (pidx + 1)); simpl in E; congruence.
Qed.

(** ** The walk back of [remove_oldest] *)

(** Writing the value a slot holds changes nothing. *)
Lemma set_access_same hp h n i :
  hp !! h = Some n → 0 ≤ i < len (access n) → set_access hp h i (val hp h i) = Ok hp.
Proof.
  intros Hn Hi. apply set_access_Ok. exists n. split; [done|]. split; [done|].
  destruct (index_at_total _ _ Hi) as [x Hx]. apply index_at_Ok in Hx as [_ Hx].
  unfold val. rewrite Hn, Hx. simpl. rewrite (list_insert_id (access n)) by done.
  symmetry. apply list_insert_id. rewrite Hn. clear. destruct n. reflexivity.
Qed.

(** The step of the walk from a slot to the slot above it. *)
Lemma walk_up hp h n i :
  wf hp → hp !! h = Some n → 0 ≤ i < width n - 1 →
  (if 0 <? i then Ok (Some (h, Z.shiftr (i - 1) 1))
   else
     match parent n with
     | None => Ok None
     | Some p =>
         pn ← deref hp (Some p);
         Ok (Some (p, Z.shiftr (uint (width pn + parent_idx n - 2)) 1))
     end) = Ok (upslot hp h i).
Proof.
  intros Hwf Hn Hi. unfold upslot. rewrite !shiftr_1.
  destruct (Z.ltb_spec 0 i); [done|]. rewrite Hn. simpl.
  destruct (parent n) as [p|] eqn:Hp; [|done]. simpl.
  destruct (wf_parent hp Hwf h n p Hn Hp) as (_ & _ & pn & Hpn & Hpi & Hsub).
  rewrite (proj2 (deref_Ok hp p pn) Hpn), Hpn. simpl.
  pose proof (lookup_lt_Some _ _ _ Hsub) as Hlen.
  destruct (wf_shape hp Hwf p pn Hpn) as [_ _ S _]. unfold len in S.
  pose proof (shape_width_cases pn (wf_shape hp Hwf p pn Hpn)) as W.
  rewrite uint_small by (destruct W; lia). by rewrite shiftr_1.
Qed.

#[local] Arguments restore_access : simpl never.

Lemma restore_access_eq fuel hp h aidx :
  restore_access (S fuel) hp h aidx =
  (node ← deref hp (Some h);
   aa ← index_at (access node) aidx;
   up ← (if 0 <? aidx then Ok (Some (h, Z.shiftr (aidx - 1) 1))
         else
           match parent node with
           | None => Ok None
           | Some p =>
               pn ← deref hp (Some p);
               Ok (Some (p, Z.shiftr (uint (width pn + parent_idx node - 2)) 1))
           end);
   match up with
   | None => Ok hp
   | Some (h, aidx) =>
       node ← deref hp (Some h);
       v ← index_at (access node) aidx;
       hp ← (if negb (aa =? 0) && ((aa <? v) || (v =? 0))
             then set_access hp h aidx aa
             else Ok hp);
       restore_access fuel hp h aidx
   end).
Proof. done. Qed.

Lemma restore_access_spec B fuel : ∀ hp q,
  wf hp → (∀ g i, 0 ≤ i → val hp g i ≤ B) →
  slot hp q → holes hp q → min_off hp q →
  (Z.to_nat (rank q.1 q.2) < fuel)%nat →
  ∃ hp', restore_access fuel hp q.1 q.2 = Ok hp'
    ∧ same_skel hp hp' ∧ min_ok hp'
    ∧ (∀ g i, 0 ≤ i → val hp' g i ≤ B)
    ∧ (∀ g n i, hp !! g = Some n → is_Some (entry n) → 0 ≤ i →
         val hp' g i = val hp g i).
Proof.
  induction fuel as [|fuel IH]; intros hp [h i] Hwf HB Hq Hh Hmin Hfuel; [lia|].
  pose proof Hq as (n & Hn & He & Hi). simpl in *.
  destruct (wf_shape hp Hwf h n Hn) as [_ _ _ Hlen].
  rewrite restore_access_eq, (proj2 (deref_Ok hp h n) Hn). simpl.
  rewrite (index_access hp h n i Hn) by lia. simpl.
  rewrite (walk_up hp h n i Hwf Hn Hi). simpl.
  destruct (upslot hp h i) as [[p P]|] eqn:Hup.
  2:{ exists hp. split; [done|]. split; [done|]. split; [|done].
      intros g m j Hm Hem Hj. apply Hmin; try done. intros p' Hp'.
      unfold up in Hp'. simpl in Hp'. congruence. }
  destruct (upslot_spec hp h n i p P Hwf Hn Hi Hup)
    as (pn & Hpn & HP & Hrank & Hne & _ & _ & Hkids).
  destruct (up_slot hp (h, i) (p, P) Hwf Hq Hup) as (Hps & _).
  destruct (wf_shape hp Hwf p pn Hpn) as [_ _ _ Hlenp].
  rewrite (proj2 (deref_Ok hp p pn) Hpn). simpl.
  rewrite (index_access hp p pn P Hpn) by lia. simpl.
  assert (val hp p P = sibval hp h i ∧ holes hp (p, P)) as [Hv Hhp].
  { inversion Hh as [q Hq0|q p0 Hq0 Hv0 Hp0]; subst; unfold up in Hq0; simpl in Hq0.
    - congruence.
    - rewrite Hup in Hq0. injection Hq0 as <-. done. }
  set (aa := val hp h i) in *. set (v := val hp p P) in *.
  assert (∃ hp1, (if negb (aa =? 0) && ((aa <? v) || (v =? 0))
                  then set_access hp p P aa else Ok hp) = Ok hp1
            ∧ set_access hp p P (minnz aa v) = Ok hp1) as (hp1 & Hcode & Hset).
  { destruct (set_access_total hp p pn P aa Hpn ltac:(lia)) as [hpw Hw].
    pose proof (set_access_same hp p pn P Hpn ltac:(lia)) as Hsame. fold v in Hsame.
    unfold minnz.
    destruct (Z.eqb_spec aa 0), (Z.eqb_spec v 0), (Z.ltb_spec aa v); simpl;
      try (exists hp; split; [done|]; try done;
           try (replace (Z.min aa v) with v by lia; done); congruence);
      try (exists hpw; split; [done|]; try done;
           try (replace (Z.min aa v) with aa by lia; done)). }
  rewrite Hcode. simpl.
  pose proof (set_access_skel _ _ _ _ _ Hset) as Hsk.
  assert (minnz aa v ≤ B) as HmB.
  { pose proof (HB h i ltac:(lia)). pose proof (HB p P ltac:(lia)).
    unfold minnz. fold aa v in H, H0. destruct (aa =? 0), (v =? 0); lia. }
  destruct (IH hp1 (p, P)) as (hp' & Hrun & Hsk' & Hmin' & HB' & Hfr').
  - by apply (wf_same_skel hp).
  - intros g j Hj. rewrite (set_access_val _ _ _ _ _ g j Hset) by done.
    destruct (decide _); [done|by apply HB].
  - by apply (slot_skel hp).
  - by apply (holes_write_self hp (p, P) (minnz aa v) hp1).
  - intros g m1 j Hm1 Hem1 Hj Hoff.
    destruct (same_skel_lookup _ _ _ _ Hsk Hm1) as (m & Hm & E).
    destruct (decide ((g, j) = (p, P))) as [[= -> ->]|Hd].
    + assert (m = pn) as -> by congruence. unfold min_at.
      rewrite (ext_set_access hp p P (minnz aa v) hp1 p pn m1 (2 * P + 1) Hwf Hset Hpn Hm1)
        by (try lia; replace ((2 * P + 1 - 1) / 2) with P
              by (Z.div_mod_to_equations; lia);
            intros Hself; destruct (up_slot hp (p, P) (p, P) Hwf Hps Hself); lia).
      rewrite (ext_set_access hp p P (minnz aa v) hp1 p pn m1 (2 * P + 2) Hwf Hset Hpn Hm1)
        by (try lia; replace ((2 * P + 2 - 1) / 2) with P
              by (Z.div_mod_to_equations; lia);
            intros Hself; destruct (up_slot hp (p, P) (p, P) Hwf Hps Hself); lia).
      rewrite Hkids. rewrite (set_access_val _ _ _ _ _ p P Hset) by lia.
      rewrite decide_True by done. by rewrite Hv.
    + assert (¬ above hp (p, P) (g, j)) as Hnab.
      { intros Hab. destruct (above_inv hp _ _ Hab) as [E'|(pp & Hpp & Habp)]; [done|].
        apply (Hoff pp); [by rewrite (up_skel hp hp1)|by apply (above_skel hp hp1)]. }
      skel_eq E.
      apply (set_access_min_at hp p P (minnz aa v) hp1 g m m1 j); try done; try lia.
      * intros Hself. apply Hnab. apply (above_step hp (p, P) (g, j)); [done|constructor].
      * apply Hmin; try done; try congruence; try lia.
        intros p' Hp'. unfold up in Hp'. simpl in Hp'. rewrite Hup in Hp'.
        by injection Hp' as <-.
  - simpl. pose proof (rank_nonneg p P ltac:(lia)). lia.
  - simpl in Hrun. exists hp'. split; [done|]. split; [by apply (same_skel_trans _ hp1)|].
    split; [done|]. split; [done|].
    intros g m j Hm Hem Hj.
    destruct (same_skel_lookup_r _ _ _ _ Hsk Hm) as (m1 & Hm1 & E).
    rewrite (Hfr' g m1 j Hm1 ltac:(by apply (is_leaf_skel m1 m); [skel_eq E; unfold skel; congruence|]) Hj).
    rewrite (set_access_val _ _ _ _ _ g j Hset) by done.
    rewrite decide_False; [done|]. intros [-> _].
    destruct Hps as (pn' & Hpn' & Hepn & _). simpl in Hpn'.
    assert (m = pn') as -> by congruence. rewrite Hepn in Hem. by destruct Hem.
Qed.

(** ** The oldest access value *)

Lemma minnz_le x y : x ≠ 0 → minnz x y ≠ 0 ∧ minnz x y ≤ x.
Proof. unfold minnz. destruct (Z.eqb_spec x 0), (Z.eqb_spec y 0); lia. Qed.

(** The way from any slot ends at the root slot of the root. *)
Lemma above_root hp h n i :
  wf hp → hp !! h = Some n → 0 ≤ i < width n - 1 → above hp (h, i) (0%nat, 0).
Proof.
  intros Hwf. remember (Z.to_nat (rank h i)) as k eqn:Hk. revert h n i Hk.
  induction k as [k IH] using lt_wf_ind. intros h n i Hk Hn Hi.
  destruct (upslot hp h i) as [[p P]|] eqn:Hup.
  - destruct (upslot_spec hp h n i p P Hwf Hn Hi Hup) as (pn & Hpn & HP & Hrank & _).
    apply (above_step hp (h, i) (p, P)); [done|].
    pose proof (rank_nonneg p P ltac:(lia)).
    apply (IH (Z.to_nat (rank p P)) ltac:(lia) p pn P eq_refl Hpn HP).
  - unfold upslot in Hup. destruct (Z.ltb_spec 0 i); [done|].
    rewrite Hn in Hup. simpl in Hup. destruct (parent n) as [p|] eqn:Hp.
    + simpl in Hup. destruct (wf_parent hp Hwf h n p Hn Hp) as (_ & _ & pn & Hpn & _).
      by rewrite Hpn in Hup.
    + rewrite (wf_orphan hp Hwf h n Hn Hp). assert (i = 0) as -> by lia. constructor.
Qed.

(** Along the way up, the access values do not grow, and do not vanish. *)
Lemma chain_min hp q r :
  wf hp → min_ok hp → slot hp q → above hp q r →
  val hp q.1 q.2 ≠ 0 → val hp r.1 r.2 ≠ 0 ∧ val hp r.1 r.2 ≤ val hp q.1 q.2.
Proof.
  intros Hwf Hmin Hq Hab. induction Hab as [q|q p r Hup Hab IH]; [lia|].
  intros Hv. destruct (up_slot hp q p Hwf Hq Hup) as (Hp & _).
  pose proof Hq as (n & Hn & He & Hi). pose proof Hp as (pn & Hpn & Hep & HP).
  destruct q as [h i], p as [p P]. simpl in *.
  destruct (upslot_spec hp h n i p P Hwf Hn Hi Hup) as (pn' & Hpn' & _ & _ & _ & _ & _ & Hk).
  assert (pn' = pn) as -> by congruence.
  pose proof (Hmin p pn P Hpn Hep HP) as Hm. unfold min_at in Hm. rewrite Hk in Hm.
  destruct (minnz_le (val hp h i) (sibval hp h i) Hv) as (Hnz & Hle).
  rewrite <- Hm in Hnz, Hle. specialize (IH Hp Hnz). lia.
Qed.

(** The root holds a value that is not zero, and not above the value of any
    node that holds an entry. *)
Lemma root_oldest L C hp l ln :
  sound L C hp → hp !! l = Some ln → is_Some (entry ln) →
  val hp 0 0 ≠ 0 ∧ val hp 0 0 ≤ val hp l 0.
Proof.
  intros Hs Hl Hleaf. pose proof (s_wf _ _ _ _ Hs) as Hwf.
  destruct (s_leaf _ _ _ _ Hs l ln Hl Hleaf) as (Hv & _). specialize (Hv ltac:(done)).
  destruct (wf_leaf_parent hp l ln Hwf Hl Hleaf) as [p Hp].
  pose proof (wf_width_4 hp l ln Hwf Hl ltac:(by rewrite Hp)) as Hw.
  destruct (wf_parent hp Hwf l ln p Hl Hp) as (_ & _ & pn & Hpn & Hpi & Hsub).
  assert (upslot hp l 0 = Some (p, (width pn + parent_idx ln - 2) / 2)) as Hup.
  { unfold upslot. simpl. rewrite Hl. simpl. rewrite Hp. simpl. by rewrite Hpn. }
  destruct (upslot_spec hp l ln 0 p _ Hwf Hl ltac:(lia) Hup)
    as (pn' & Hpn' & HP & _ & _ & _ & _ & Hk).
  assert (pn' = pn) as -> by congruence.
  pose proof (wf_parent_interior hp l ln p pn Hwf Hl Hp Hpn) as Hep.
  pose proof (s_min _ _ _ _ Hs p pn _ Hpn Hep HP) as Hm.
  unfold min_at in Hm. rewrite Hk in Hm.
  destruct (minnz_le (val hp l 0) (sibval hp l 0) ltac:(lia)) as (Hnz & Hle).
  rewrite <- Hm in Hnz, Hle.
  destruct (chain_min hp (p, (width pn + parent_idx ln - 2) / 2) (0%nat, 0) Hwf
    (s_min _ _ _ _ Hs)) as (Hr0 & Hr1); try done.
  - by exists pn.
  - by apply (above_root hp p pn).
  - simpl in *. lia.
Qed.

(** ** [remove_oldest] *)

Lemma remove_oldest_heap L C hp :
  sound L C hp → 0 ≤ C → 0 < leaves hp →
  ∃ hp1 l e hpA hpB hpC,
    oldest_leaf (length hp) hp 0 = Ok (hp1, l)
    ∧ set_entry hp1 l None = Ok hpA ∧ set_access hpA l 0 0 = Ok hpB
    ∧ restore_access (walk_fuel hpB) hpB l 0 = Ok hpC
    ∧ sound L C hpC ∧ leaves hpC = leaves hp - 1 ∧ length hpC = length hp
    ∧ stored hp e (val hp 0 0)
    ∧ (∀ e' v, stored hp e' v → e' ≠ e → stored hpC e' v)
    ∧ (∀ e' v, stored hpC e' v → stored hp e' v ∧ e' ≠ e).
Proof.
  intros Hs HC Hlv. pose proof (s_wf _ _ _ _ Hs) as Hwf.
  destruct (leaves_pos hp Hlv) as (l0 & ln0 & Hl0 & Hleaf0).
  destruct (root_oldest L C hp l0 ln0 Hs Hl0 Hleaf0) as (Hav & _).
  set (av := val hp 0 0) in *.
  destruct (wf_root hp Hwf) as (r & Hr & Hrp & Hre).
  assert (dinv hp C av hp (0%nat, 0)) as Hd0.
  { split; try done.
    - apply (s_bound _ _ _ _ Hs).
    - apply holes_top. unfold up, upslot. simpl. rewrite Hr. simpl. by rewrite Hrp.
    - intros g m i Hm Hem Hi _. by apply (s_min _ _ _ _ Hs). }
  destruct (oldest_leaf_spec hp C av (length hp) Hav HC hp 0 r Hd0 Hr ltac:(lia))
    as (hp1 & l & ln & Hrun & [Hwf1 Hsk1 Hleaf1 HB1 Hh1 Hmin1 Hv1] & Hl & Hleaf).
  simpl in Hv1. destruct Hleaf as [e He].
  set (hpA := <[l := with_entry ln None]> hp1).
  pose proof (wf_leaf hp1 Hwf1 l ln Hl ltac:(by rewrite He)) as Hbare.
  pose proof (wf_leaf_parent hp1 l ln Hwf1 Hl ltac:(by rewrite He)) as Hpar.
  pose proof (wf_width_4 hp1 l ln Hwf1 Hl Hpar) as Hw.
  assert (wf hpA) as HwfA by (by apply set_entry_wf).
  assert (hpA !! l = Some (with_entry ln None)) as HlA.
  { apply list_lookup_insert_eq. by apply (lookup_lt_Some _ _ ln). }
  destruct (wf_shape hp1 Hwf1 l ln Hl) as [_ _ _ Hlen].
  destruct (set_access_total hpA l _ 0 0 HlA ltac:(simpl; lia)) as [hpB HsetB].
  pose proof (set_access_skel _ _ _ _ _ HsetB) as HskB.
  pose proof (wf_same_skel _ _ HwfA HskB) as HwfB.
  destruct (same_skel_lookup_r _ _ _ _ HskB HlA) as (lB & HlB & EB).
  assert (entry lB = None ∧ width lB = 4 ∧ subtree lB = subtree ln) as (HeB & HwB & HstB).
  { skel_eq EB. simpl in *. repeat split; congruence. }
  destruct (same_skel_lookup _ _ _ _ Hsk1 Hl) as (ln' & Hl' & E').
  assert (entry ln' = Some e) as He' by (skel_eq E'; congruence).
  destruct (s_leaf _ _ _ _ Hs l ln' Hl' ltac:(by rewrite He')) as (_ & V1 & V2).
  assert (∀ g i, val hpA g i = val hp1 g i) as VA by (intros; by apply set_entry_val).
  assert (∀ g i, 0 ≤ i → val hpB g i = if decide (g = l ∧ i = 0) then 0 else val hp1 g i)
    as VB.
  { intros g i Hi. rewrite (set_access_val _ _ _ _ _ g i HsetB) by done. by rewrite VA. }
  assert (∀ i, 0 ≤ i < 3 → val hpB l i = 0) as VlB.
  { intros i Hi. rewrite VB by lia. destruct (decide _); [done|].
    rewrite (Hleaf1 l ln' i Hl' ltac:(by rewrite He') ltac:(lia)).
    destruct (decide (i = 1)) as [->|]; [done|]. assert (i = 2) as -> by lia. done. }
  assert (∀ q, up hpB q = up hp1 q) as UB.
  { intros q. rewrite (up_skel hpA hpB q HskB). by apply set_entry_up. }
  destruct (restore_access_spec C (walk_fuel hpB) hpB (l, 0)) as
    (hpC & HrunC & HskC & HminC & HBC & HfrC); try done.
  { intros g i Hi. rewrite VB by done. destruct (decide _); [done|by apply HB1]. }
  { exists lB. split; [done|]. split; [done|]. simpl. lia. }
  { apply (holes_write_self hpA (l, 0) 0 hpB); try done.
    - exists (with_entry ln None). split; [done|]. split; [done|]. simpl. lia.
    - apply (holes_ext hp1); try done.
      + intros q. by apply set_entry_up.
      + intros g i. by apply set_entry_sibval. }
  { intros g mB i HmB HemB Hi Hoff.
    destruct (decide (g = l)) as [->|Hne].
    - assert (mB = lB) as -> by congruence. rewrite HwB in Hi.
      unfold min_at, ext. rewrite HwB.
      assert (∀ j, chv hpB lB j = 0) as Hc by (intros j; apply chv_bare; by rewrite HstB).
      destruct (decide (i = 0)) as [->|]; simpl.
      + by rewrite !VlB by lia.
      + destruct (Z.ltb_spec (2 * i + 1) (4 - 1)); [lia|].
        destruct (Z.ltb_spec (2 * i + 2) (4 - 1)); [lia|]. by rewrite VlB, !Hc by lia.
    - destruct (same_skel_lookup _ _ _ _ HskB HmB) as (mA & HmA & EA).
      assert (hp1 !! g = Some mA) as Hm1.
      { unfold hpA in HmA. by rewrite list_lookup_insert_ne in HmA. }
      assert (entry mA = None ∧ width mA = width mB) as [HeA HwA]
        by (skel_eq EA; split; congruence).
      apply (set_access_min_at hpA l 0 0 hpB g mA mB i); try done; try lia.
      + intros [= -> _]. done.
      + intros Hup. apply (Hoff (g, i)); [|constructor].
        rewrite (up_skel hpA hpB (l, 0) HskB). done.
      + unfold min_at. rewrite VA. unfold hpA.
        rewrite !(set_entry_ext hp1 l ln None g mA mA) by
          (try done; by rewrite list_lookup_insert_ne).
        apply Hmin1; try done; [lia|].
        intros p Hp Hab. apply (Hoff p); [by rewrite UB|].
        apply (above_ext hp1); [|done]. intros q. by rewrite UB. }
  { apply (walk_fuel_enough hpB l lB 0 HwfB HlB). lia. }
  simpl in HrunC.
  exists hp1, l, e, hpA, hpB, hpC. split; [done|].
  split; [by apply set_entry_Ok|]. split; [done|]. split; [done|].
  (* the nodes of the new heap that hold an entry held it before *)
  assert (∀ g m, hpC !! g = Some m → is_Some (entry m) →
    g ≠ l ∧ ∃ m0, hp !! g = Some m0 ∧ entry m0 = entry m
      ∧ ∀ i, 0 ≤ i → val hpC g i = val hp g i) as Hold.
  { intros g m Hm Hem.
    destruct (same_skel_lookup _ _ _ _ HskC Hm) as (mB & HmB & EB').
    destruct (same_skel_lookup _ _ _ _ HskB HmB) as (mA & HmA & EA).
    assert (entry mB = entry m ∧ entry mA = entry mB) as [E1 E2]
      by (skel_eq EB'; skel_eq EA; split; congruence).
    assert (g ≠ l) as Hne.
    { intros ->. assert (mA = with_entry ln None) as -> by congruence.
      simpl in E2. rewrite <- E1, <- E2 in Hem. by destruct Hem. }
    split; [done|]. unfold hpA in HmA. rewrite list_lookup_insert_ne in HmA by done.
    destruct (same_skel_lookup _ _ _ _ Hsk1 HmA) as (m0 & Hm0 & E0).
    assert (entry m0 = entry mA) as E3 by (skel_eq E0; congruence).
    exists m0. split; [done|]. split; [congruence|]. intros i Hi.
    rewrite (HfrC g mB i HmB ltac:(by rewrite E1) Hi).
    rewrite VB by done. rewrite decide_False by tauto.
    apply (Hleaf1 g m0 i Hm0); [|done]. by rewrite E3, E2, E1. }
  assert (∀ g m0, hp !! g = Some m0 → g ≠ l →
    ∃ m, hpC !! g = Some m ∧ entry m = entry m0 ∧ bits_ m = bits_ m0
      ∧ subtree m = subtree m0) as Hnew.
  { intros g m0 Hm0 Hne.
    destruct (same_skel_lookup_r _ _ _ _ Hsk1 Hm0) as (m1 & Hm1 & E1).
    assert (hpA !! g = Some m1) as HmA by (unfold hpA; by rewrite list_lookup_insert_ne).
    destruct (same_skel_lookup_r _ _ _ _ HskB HmA) as (mB & HmB & EB').
    destruct (same_skel_lookup_r _ _ _ _ HskC HmB) as (m & Hm & EC).
    exists m. split; [done|]. skel_eq E1. skel_eq EB'. skel_eq EC.
    repeat split; congruence. }
  assert (grows hp hpC) as Hgr.
  { intros g m0 Hm0. destruct (decide (g = l)) as [->|Hne].
    - destruct (same_skel_lookup_r _ _ _ _ HskC HlB) as (lC & HlC & EC).
      exists lC. split; [done|]. assert (m0 = ln') as -> by congruence.
      skel_eq E'. skel_eq EB. skel_eq EC. simpl in *. split; [congruence|].
      intros j c. congruence.
    - destruct (Hnew g m0 Hm0 Hne) as (m & Hm & _ & Hb & Hst).
      exists m. split; [done|]. split; [done|]. intros j c. by rewrite Hst. }
  split; [split|].
  - by apply (wf_same_skel hpB).
  - destruct (s_root _ _ _ _ Hs) as (r0 & Hr0 & Hb0).
    destruct (Hgr 0%nat r0 Hr0) as (rC & HrC & HbC & _). exists rC. split; [done|]. congruence.
  - done.
  - done.
  - intros g m Hm Hem. destruct (Hold g m Hm Hem) as (Hne & m0 & Hm0 & E0 & Hval).
    rewrite !Hval by lia. apply (s_leaf _ _ _ _ Hs g m0 Hm0). by rewrite E0.
  - intros g m e0 Hm Hem.
    destruct (Hold g m Hm ltac:(by rewrite Hem)) as (Hne & m0 & Hm0 & E0 & Hval).
    destruct (s_key _ _ _ _ Hs g m0 e0 Hm0 ltac:(congruence)) as (Hk & d & Hp).
    split; [done|]. exists d. by apply (at_path_grows hp).
  - intros g g' m m' Hm Hm' Hem Hem' _ _.
    destruct (Hold g m Hm Hem) as (Hne & m0 & Hm0 & E0 & Hval).
    destruct (Hold g' m' Hm' Hem') as (Hne' & m0' & Hm0' & E0' & Hval').
    rewrite Hval, Hval' by lia.
    apply (s_distinct _ _ _ _ Hs g g' m0 m0'); try done; [by rewrite E0|by rewrite E0'].
  - split.
    { rewrite (leaves_same_skel _ _ HskC), (leaves_same_skel _ _ HskB). unfold hpA.
      rewrite (leaves_insert hp1 l ln) by done. rewrite He. simpl.
      rewrite (leaves_same_skel _ _ Hsk1). lia. }
    split.
    { rewrite (same_skel_length _ _ HskC), (same_skel_length _ _ HskB). unfold hpA.
      rewrite length_insert. by apply same_skel_length. }
    split.
    { exists l, ln'. split; [done|]. split; [done|].
      rewrite <- (Hleaf1 l ln' 0 Hl' ltac:(by rewrite He') ltac:(lia)). done. }
    split.
    + intros e' v (g & m0 & Hm0 & Hem0 & Hv0) Hne.
      assert (g ≠ l) as Hgl by (intros ->; congruence).
      destruct (Hnew g m0 Hm0 Hgl) as (m & Hm & Hem & _).
      destruct (Hold g m Hm ltac:(by rewrite Hem, Hem0)) as (_ & _ & _ & _ & Hval).
      exists g, m. split; [done|]. split; [congruence|]. by rewrite Hval by lia.
    + intros e' v (g & m & Hm & Hem & Hv).
      destruct (Hold g m Hm ltac:(by rewrite Hem)) as (Hne & m0 & Hm0 & E0 & Hval).
      split.
      * exists g, m0. split; [done|]. split; [congruence|]. by rewrite <- Hval by lia.
      * intros ->. apply Hne.
        destruct (s_key _ _ _ _ Hs g m0 e Hm0 ltac:(congruence)) as (_ & d & Hp).
        destruct (s_key _ _ _ _ Hs l ln' e Hl' He') as (_ & d' & Hp').
        apply (at_path_leaf hp _ g d l d' m0 ln' Hwf Hp Hp' Hm0 Hl');
          [rewrite E0, Hem|rewrite He']; done.
Qed.

#[local] Arguments walk_fuel : simpl never.

Lemma fits_size L N (hp : list dpaMemTree) :
  fits L N → Z.of_nat (length hp) ≤ 1 + (8 * Z.of_nat L + 2) * Z.of_nat N →
  Z.of_nat (length hp) < 2 ^ 62.
Proof. unfold fits. intros. nia. Qed.

Lemma remove_oldest_spec L N s :
  inv L N s → fits L N → 0 < entry_cnt s →
  ∃ s' e, remove_oldest s = Ok s' ∧ inv L N s'
    ∧ entry_cnt s' = entry_cnt s - 1 ∧ access_cnt s' = access_cnt s
    ∧ stored (heap s) e (val (heap s) 0 0)
    ∧ (∀ e' v, stored (heap s) e' v → e' ≠ e → stored (heap s') e' v)
    ∧ (∀ e' v, stored (heap s') e' v → stored (heap s) e' v ∧ e' ≠ e).
Proof.
  intros [Hroot Hs Hacc Hent Hsize] Hfit Hpos.
  destruct s as [hp mt ec ac]. simpl in *. subst mt.
  destruct (remove_oldest_heap L ac hp Hs ltac:(lia) ltac:(lia))
    as (hp1 & l & e & hpA & hpB & hpC & Hrun & HA & HB & HC & HsC & Hlv & Hlen & Hst & Hp1 & Hp2).
  pose proof (leaves_le_length hp) as Hll.
  pose proof (fits_size L N hp Hfit Hsize) as Hlt.
  unfold remove_oldest. simpl. rewrite Hrun. simpl. rewrite HA. simpl.
  rewrite HB. simpl. rewrite HC. simpl.
  rewrite (uint_small (ec - 1)) by lia.
  eexists _, e. split; [done|]. split.
  { split; simpl; try done; lia. }
  simpl. done.
Qed.

(** ** The store after [Init] *)

Definition root_node : dpaMemTree :=
  mkTree (replicate (Z.to_nat 16384) None) None 0 memTreeFLW 16384 None
    (replicate (Z.to_nat 16383) 0).

(** The store [Init] builds from the zero value. *)
Definition start : dpaMemStorage := mkStorage [root_node] (Some 0%nat) 0 0.

Lemma Init_zero : Init zero = Ok start.
Proof. reflexivity. Qed.

Lemma start_lookup (h : nat) n : [root_node] !! h = Some n → h = 0%nat ∧ n = root_node.
Proof. destruct h as [|h]; [|done]. intros [= <-]. done. Qed.

Lemma start_val h i : val [root_node] h i = 0.
Proof.
  unfold val. destruct ([root_node] !! h) as [n|] eqn:E; [|done].
  apply start_lookup in E as [-> ->].
  change (access root_node) with (replicate (Z.to_nat 16383) 0).
  destruct (replicate (Z.to_nat 16383) 0 !! Z.to_nat i) as [x|] eqn:E; [|done].
  by apply lookup_replicate in E as [-> _].
Qed.

Lemma start_chv j : chv [root_node] root_node j = 0.
Proof.
  unfold chv. change (subtree root_node) with (replicate (Z.to_nat 16384) (@None nat)).
  destruct (replicate (Z.to_nat 16384) None !! Z.to_nat j) as [[c|]|] eqn:E; try done.
  by apply lookup_replicate in E as [? _].
Qed.

Lemma start_wf : wf [root_node].
Proof.
  split.
  - intros h n [-> ->]%start_lookup. split.
    + by right.
    + done.
    + unfold len. change (subtree root_node) with (replicate (Z.to_nat 16384) (@None nat)).
      by rewrite length_replicate.
    + unfold len. change (access root_node) with (replicate (Z.to_nat 16383) 0).
      by rewrite length_replicate.
  - by exists root_node.
  - by intros h n p [-> ->]%start_lookup.
  - by intros h n [-> ->]%start_lookup.
  - intros h n j c [-> ->]%start_lookup Hc.
    change (subtree root_node) with (replicate (Z.to_nat 16384) (@None nat)) in Hc.
    by apply lookup_replicate in Hc as [? _].
  - intros h n [-> ->]%start_lookup He. by destruct He.
Qed.

Lemma start_inv L : inv L 0 start.
Proof.
  split.
  { done. }
  2: { by unfold start. }
  2: { done. }
  2: { unfold start; simpl; lia. }
  change (sound L 0 [root_node]). split.
  - apply start_wf.
  - by exists root_node.
  - intros h n i [-> ->]%start_lookup He Hi.
    unfold min_at, ext. rewrite !start_val, !start_chv. by repeat destruct (_ <? _).
  - intros h i _. change (heap start) with [root_node]. by rewrite start_val.
  - intros h n [-> ->]%start_lookup He. by destruct He.
  - by intros h n e [-> ->]%start_lookup.
  - intros h h' n n' [-> ->]%start_lookup _ He. by destruct He.
Qed.

(** ** [Put], [Get] and runs *)

Definition key_of (o : op) : Key :=
  match o with OpPut c => Chunk_Key c | OpGet c => Chunk_Key c end.

(** Every operation of the run is on a key of [L] bytes. *)
Definition valid_ops (L : nat) (ops : list op) : Prop :=
  Forall (λ o, valid_key L (key_of o)) ops.

Lemma fits_key L N : fits L N → Z.of_nat L < 2 ^ 60.
Proof. unfold fits. intros. nia. Qed.

Lemma fits_mono L N N' : fits L N' → (N ≤ N')%nat → fits L N.
Proof. unfold fits. intros. nia. Qed.

Section ops.
Context (L : nat) (HL : (2 ≤ L)%nat).

Lemma Put_spec N s c :
  inv L N s → valid_key L (Chunk_Key c) → fits L N →
  ∃ s1 s', Put s c = Ok s' ∧ add s1 c = Ok s' ∧ inv L N s1 ∧ inv L (S N) s'
    ∧ (if maxEntries <=? entry_cnt s then remove_oldest s = Ok s1 else s1 = s)
    ∧ (entry_cnt s ≤ maxEntries → entry_cnt s' ≤ maxEntries).
Proof.
  intros Hinv Hk Hfit. pose proof (fits_key L N Hfit) as HL'.
  unfold Put. destruct (Z.leb_spec maxEntries (entry_cnt s)) as [Hfull|Hroom].
  - destruct (remove_oldest_spec L N s Hinv Hfit) as (s1 & e & Hrm & Hinv1 & Hec & _).
    { unfold maxEntries in Hfull. lia. }
    destruct (add_spec L HL HL' N s1 c Hinv1 Hk Hfit)
      as (s' & Hadd & Hinv' & _ & Hcase & _).
    exists s1, s'. rewrite Hrm. simpl. split_and!; try done.
    intros Hle. destruct Hcase as [(_ & _ & _ & _ & _ & ->)|(_ & _ & ->)]; lia.
  - destruct (add_spec L HL HL' N s c Hinv Hk Hfit)
      as (s' & Hadd & Hinv' & _ & Hcase & _).
    exists s, s'. simpl. split_and!; try done.
    intros _. destruct Hcase as [(_ & _ & _ & _ & _ & ->)|(_ & _ & ->)]; lia.
Qed.

Lemma Get_spec N s c :
  inv L N s → valid_key L (Chunk_Key c) → fits L N →
  ∃ s' r, find s (Chunk_Key c) = Ok (s', r) ∧ Get s c = Ok s' ∧ inv L (S N) s'
    ∧ entry_cnt s' = entry_cnt s.
Proof.
  intros Hinv Hk Hfit. pose proof (fits_key L N Hfit) as HL'.
  destruct (find_spec L HL HL' N s (Chunk_Key c) Hinv Hk Hfit)
    as (s' & r & Hf & Hinv' & Hec & _).
  exists s', r. unfold Get. rewrite Hf. by split_and!.
Qed.

Lemma step_inv N s o :
  inv L N s → entry_cnt s ≤ maxEntries → valid_key L (key_of o) → fits L N →
  ∃ s', step s o = Ok s' ∧ inv L (S N) s' ∧ entry_cnt s' ≤ maxEntries.
Proof.
  intros Hinv Hle Hk Hfit. destruct o as [c|c]; simpl in *.
  - destruct (Put_spec N s c Hinv Hk Hfit) as (s1 & s' & HP & _ & _ & Hinv' & _ & Hb).
    exists s'. auto.
  - destruct (Get_spec N s c Hinv Hk Hfit) as (s' & r & _ & HG & Hinv' & Hec).
    exists s'. split_and!; try done. lia.
Qed.

Lemma run_inv ops : ∀ N s,
  inv L N s → entry_cnt s ≤ maxEntries → valid_ops L ops →
  fits L (N + length ops) →
  ∃ s', run s ops = Ok s' ∧ inv L (N + length ops) s' ∧ entry_cnt s' ≤ maxEntries.
Proof.
  induction ops as [|o ops IH]; intros N s Hinv Hle Hv Hfit; simpl.
  - exists s. rewrite Nat.add_0_r. done.
  - apply Forall_cons in Hv as [Ho Hv].
    destruct (step_inv N s o Hinv Hle Ho) as (s1 & -> & Hinv1 & Hle1).
    { eapply fits_mono; [done|]. simpl. lia. }
    simpl. destruct (IH (S N) s1 Hinv1 Hle1 Hv) as (s' & Hr & Hinv' & Hle').
    { by replace (S N + length ops)%nat with (N + S (length ops))%nat by lia. }
    exists s'. split; [done|].
    by replace (N + S (length ops))%nat with (S N + length ops)%nat by lia.
Qed.

End ops.

(** The states a run of [Put]s and [Get]s on keys of [L] bytes reaches from
    the store [Init] builds out of the zero value. *)
Definition reachable (L : nat) (s : dpaMemStorage) : Prop :=
  ∃ s0 ops, Init zero = Ok s0 ∧ valid_ops L ops ∧ fits L (length ops)
    ∧ run s0 ops = Ok s.

Lemma reachable_inv L s :
  (2 ≤ L)%nat → reachable L s →
  ∃ N, inv L N s ∧ fits L N ∧ entry_cnt s ≤ maxEntries.
Proof.
  intros HL (s0 & ops & Hinit & Hv & Hfit & Hrun).
  rewrite Init_zero in Hinit. injection Hinit as <-.
  destruct (run_inv L HL ops 0 start (start_inv L)) as (s' & Hr & Hinv & Hle); try done.
  rewrite Hrun in Hr. injection Hr as <-. by exists (length ops).
Qed.

Lemma stored_leaves hp e v : stored hp e v → 0 < leaves hp.
Proof.
  intros (h & n & Hn & He & _). revert h Hn.
  induction hp as [|m hp IH]; intros h Hn; [done|]. simpl.
  pose proof (leaves_nonneg hp). destruct h as [|h]; simpl in Hn.
  - injection Hn as ->. rewrite He. simpl. lia.
  - specialize (IH h Hn). destruct (entry m); simpl; lia.
Qed.

Lemma stored_stamp L C hp e v :
  sound L C hp → stored hp e v → valid_key L (Chunk_Key e) ∧ 0 < v ≤ C.
Proof.
  intros Hs (h & n & Hn & He & Hv). split.
  - by destruct (s_key _ _ _ _ Hs h n e Hn He).
  - destruct (s_leaf _ _ _ _ Hs h n Hn ltac:(by rewrite He)) as (H0 & _).
    specialize (H0 ltac:(done)). pose proof (s_bound _ _ _ _ Hs h 0 ltac:(done)). lia.
Qed.

Lemma stored_same_stamp L C hp e e' v :
  sound L C hp → stored hp e v → stored hp e' v → e = e'.
Proof.
  intros Hs (h & n & Hn & He & Hv) (h' & n' & Hn' & He' & Hv').
  assert (h = h') as <-.
  { apply (s_distinct _ _ _ _ Hs h h' n n'); try done; try by eexists. congruence. }
  congruence.
Qed.

(** The access value of the root is that of some entry, when it is not 0. *)
Lemma root_attained L C hp :
  sound L C hp → 0 ≤ C → val hp 0 0 ≠ 0 → ∃ e, stored hp e (val hp 0 0).
Proof.
  intros Hs HC Hav. pose proof (s_wf _ _ _ _ Hs) as Hwf.
  set (av := val hp 0 0) in *.
  destruct (wf_root hp Hwf) as (r & Hr & Hrp & Hre).
  assert (dinv hp C av hp (0%nat, 0)) as Hd0.
  { split; try done.
    - apply (s_bound _ _ _ _ Hs).
    - apply holes_top. unfold up, upslot. simpl. rewrite Hr. simpl. by rewrite Hrp.
    - intros g m i Hm Hem Hi _. by apply (s_min _ _ _ _ Hs). }
  destruct (oldest_leaf_spec hp C av (length hp) Hav HC hp 0 r Hd0 Hr ltac:(lia))
    as (hp1 & l & ln & Hrun & [Hwf1 Hsk1 Hleaf1 HB1 Hh1 Hmin1 Hv1] & Hl & [e He]).
  simpl in Hv1.
  destruct (same_skel_lookup _ _ _ _ Hsk1 Hl) as (ln' & Hl' & E').
  assert (entry ln' = Some e) as He' by (skel_eq E'; congruence).
  exists e, l, ln'. split; [done|]. split; [done|].
  rewrite <- (Hleaf1 l ln' 0 Hl' ltac:(by rewrite He') ltac:(done)). exact Hv1.
Qed.

(** ** The chunks a heap holds *)

Definition entries (hp : list dpaMemTree) : list Chunk := omap entry hp.

Lemma entries_length hp : Z.of_nat (length (entries hp)) = leaves hp.
Proof.
  unfold entries. induction hp as [|n hp IH]; simpl; [done|].
  destruct (entry n); cbn [one_if]; [rewrite length_cons|];
    change (list_omap dpaMemTree Chunk entry hp) with (omap entry hp); lia.
Qed.

Lemma elem_of_entries hp e : e ∈ entries hp ↔ ∃ v, stored hp e v.
Proof.
  unfold entries, stored. rewrite list_elem_of_omap. split.
  - intros (n & Hn & He). apply list_elem_of_lookup in Hn as [h Hn]. eauto 6.
  - intros (v & h & n & Hn & He & _). exists n. split; [|done].
    by eapply list_elem_of_lookup_2.
Qed.

Lemma NoDup_omap_lookup {A B} (f : A → option B) (l : list A) :
  (∀ i j a a' b, l !! i = Some a → l !! j = Some a' → f a = Some b → f a' = Some b →
     i = j) →
  NoDup (omap f l).
Proof.
  induction l as [|a l IH]; intros H; simpl; [constructor|].
  assert (NoDup (omap f l)) as Hnd.
  { apply IH. intros i j x y b Hi Hj Hx Hy.
    assert (S i = S j) by (by apply (H (S i) (S j) x y b)). lia. }
  destruct (f a) as [b|] eqn:E; [|done].
  constructor; [|done]. intros Hin. apply list_elem_of_omap in Hin as (a' & Ha' & Hb).
  apply list_elem_of_lookup in Ha' as [j Hj].
  by specialize (H 0%nat (S j) a a' b eq_refl Hj E Hb).
Qed.

Lemma entries_NoDup L C hp : sound L C hp → NoDup (entries hp).
Proof.
  intros Hs. apply NoDup_omap_lookup. intros h h' n n' e Hn Hn' He He'.
  apply (s_distinct _ _ _ _ Hs h h' n n'); try done; try by eexists.
  assert (stored hp e (val hp h 0)) as H1 by (by exists h, n).
  assert (stored hp e (val hp h' 0)) as H2 by (by exists h', n').
  by destruct (stored_unique L C hp e _ e _ Hs H1 H2 eq_refl).
Qed.

(** A heap that keeps all chunks of another, takes the chunks [new] and has
    as many chunks as that makes, holds no others. *)
Lemma stored_exact L C C' hp hp' (new : list Chunk) :
  sound L C hp → sound L C' hp' →
  leaves hp' = leaves hp + Z.of_nat (length new) → NoDup new →
  (∀ c, c ∈ new → (∀ v, ¬ stored hp c v) ∧ ∃ v, stored hp' c v) →
  (∀ e v, stored hp e v → ∃ v', stored hp' e v') →
  ∀ e v', stored hp' e v' → e ∈ new ∨ ∃ v, stored hp e v.
Proof.
  intros Hs Hs' Hlv Hnd Hnew Hfw e v' He.
  assert (NoDup (new ++ entries hp)) as Hnd'.
  { apply NoDup_app. split; [done|]. split; [|by eapply entries_NoDup].
    intros c Hc Hin. apply elem_of_entries in Hin as [v Hv].
    destruct (Hnew c Hc) as [Hno _]. by apply (Hno v). }
  assert (new ++ entries hp ⊆+ entries hp') as Hsub.
  { apply NoDup_submseteq; [done|]. intros c [Hc|Hc]%elem_of_app.
    - apply elem_of_entries. by destruct (Hnew c Hc).
    - apply elem_of_entries. apply elem_of_entries in Hc as [v Hv]. eauto. }
  apply submseteq_length_Permutation in Hsub.
  2:{ rewrite length_app. pose proof (entries_length hp). pose proof (entries_length hp').
      lia. }
  assert (e ∈ new ++ entries hp) as [Hin|Hin]%elem_of_app.
  { rewrite Hsub. apply elem_of_entries. eauto. }
  - by left.
  - right. by apply elem_of_entries.
Qed.

(** ** Examples *)

(** A chunk with a key of two bytes. *)
Definition chunk (a b d : Z) : Chunk := mkChunk [a; b] [d].

Definition two_puts : list op := [OpPut (chunk 1 0 7); OpPut (chunk 2 0 8)].

(** The store after [Init] and two [Put]s. *)
Definition cache2 : dpaMemStorage :=
  match run start two_puts with Ok s => s | _ => start end.

Lemma reachable_start : reachable 2 start.
Proof.
  exists start, []. split_and!; [reflexivity | constructor | unfold fits; simpl; lia | done].
Qed.

Lemma valid_chunk a b d : 0 ≤ a < 256 → 0 ≤ b < 256 → valid_key 2 (Chunk_Key (chunk a b d)).
Proof. intros. split; [done|]. repeat constructor; lia. Qed.

Lemma reachable_cache2 : reachable 2 cache2.
Proof.
  exists start, two_puts. split_and!.
  - reflexivity.
  - repeat constructor; simpl; lia.
  - unfold fits. simpl. lia.
  - vm_compute. reflexivity.
Qed.

Lemma start_empty e v : ¬ stored (heap start) e v.
Proof. by intros (h & n & [-> ->]%start_lookup & He & _). Qed.

Lemma cache2_first : stored (heap cache2) (chunk 1 0 7) 1.
Proof.
  exists 1%nat, (mkTree [None; None; None; None] (Some 0%nat) 1 2 4 (Some (chunk 1 0 7)) [1; 0; 0]).
  split_and!; vm_compute; reflexivity.
Qed.

Lemma cache2_second : stored (heap cache2) (chunk 2 0 8) 2.
Proof.
  exists 2%nat, (mkTree [None; None; None; None] (Some 0%nat) 2 2 4 (Some (chunk 2 0 8)) [2; 0; 0]).
  split_and!; vm_compute; reflexivity.
Qed.

(** ** What the store guarantees *)

(** X14: every sequence of [Put]s and [Get]s on keys of [L >= 2] bytes, started
    on the store [Init] builds, runs to its end: no index is out of range, no
    nil node is dereferenced, [panic(nil)] is not reached and every loop
    ends.  Afterwards [entry_cnt] is the number of nodes that hold a chunk,
    it is at most [maxEntries], and [access_cnt] is at most the number of
    operations. *)
Theorem run_completes L ops :
  (2 ≤ L)%nat → valid_ops L ops → fits L (length ops) →
  ∃ s0 s, Init zero = Ok s0 ∧ run s0 ops = Ok s
    ∧ entry_cnt s = leaves (heap s) ∧ 0 ≤ entry_cnt s ≤ maxEntries
    ∧ 0 ≤ access_cnt s ≤ Z.of_nat (length ops).
Proof.
  intros HL Hv Hfit.
  destruct (run_inv L HL ops 0 start (start_inv L)) as (s & Hr & Hinv & Hle); try done.
  exists start, s. split; [apply Init_zero|]. split; [done|].
  destruct Hinv as [_ _ Hacc Hent _]. simpl in Hacc.
  pose proof (leaves_nonneg (heap s)). split_and!; try done; lia.
Qed.

Lemma run_completes_witness :
  ∃ s0 s, Init zero = Ok s0 ∧ run s0 two_puts = Ok s
    ∧ entry_cnt s = leaves (heap s) ∧ 0 ≤ entry_cnt s ≤ maxEntries
    ∧ 0 ≤ access_cnt s ≤ Z.of_nat (length two_puts).
Proof.
  apply (run_completes 2 two_puts).
  - lia.
  - repeat constructor; simpl; lia.
  - unfold fits. simpl. lia.
Defined.

(** X15: [find] of a key that no stored chunk has returns nil and leaves the
    store as it is; [access_cnt] in particular is not advanced. *)
Theorem find_absent L s k :
  (2 ≤ L)%nat → reachable L s → valid_key L k →
  (∀ e v, stored (heap s) e v → Chunk_Key e ≠ k) →
  find s k = Ok (s, None).
Proof.
  intros HL Hr Hk Hno. destruct (reachable_inv L s HL Hr) as (N & Hinv & Hfit & _).
  destruct (find_spec L HL (fits_key L N Hfit) N s k Hinv Hk Hfit)
    as (s' & r & Hf & _ & _ & Hcase).
  destruct Hcase as [(-> & -> & _)|(e & v & _ & Hst & Hke & _)]; [done|].
  by destruct (Hno e v Hst).
Qed.

Lemma find_absent_witness : find cache2 [3; 0] = Ok (cache2, None).
Proof.
  apply (find_absent 2 cache2 [3; 0]).
  - lia.
  - exact reachable_cache2.
  - split; [done|]. repeat constructor; lia.
  - intros e v Hst Hk.
    assert (e = chunk 1 0 7 ∨ e = chunk 2 0 8) as [-> | ->]; [|done..].
    destruct Hst as (h & n & Hn & He & _).
    destruct h as [|[|[|h]]]; vm_compute in Hn; [| | |done];
      injection Hn as <-; simpl in He; [done| |]; injection He as <-; auto.
Defined.

(** X16: [find] of the key of a stored chunk returns that chunk, advances
    [access_cnt] by one and gives the chunk the new count as its access
    value; [entry_cnt] and the access values of all other chunks stay. *)
Theorem find_present L s e v :
  (2 ≤ L)%nat → reachable L s → stored (heap s) e v →
  ∃ s', find s (Chunk_Key e) = Ok (s', Some e)
    ∧ entry_cnt s' = entry_cnt s ∧ access_cnt s' = access_cnt s + 1
    ∧ stored (heap s') e (access_cnt s')
    ∧ ∀ e' v', stored (heap s) e' v' → e' ≠ e → stored (heap s') e' v'.
Proof.
  intros HL Hr Hst. destruct (reachable_inv L s HL Hr) as (N & Hinv & Hfit & _).
  pose proof (i_sound _ _ _ Hinv) as Hs.
  destruct (stored_stamp L _ _ e v Hs Hst) as [Hk _].
  destruct (find_spec L HL (fits_key L N Hfit) N s _ Hinv Hk Hfit)
    as (s' & r & Hf & _ & Hec & Hcase).
  destruct Hcase as [(_ & _ & Hno)|(e0 & v0 & -> & Hst0 & Hke & Hac & Hst' & Hfw)].
  { by destruct (Hno e v). }
  destruct (stored_unique L _ _ e0 v0 e v Hs Hst0 Hst Hke) as [-> ->].
  exists s'. split_and!; try done.
  intros e' v' Hst1 Hne. apply Hfw; [done|]. intros Hk'.
  by destruct (stored_unique L _ _ e' v' e v Hs Hst1 Hst Hk').
Qed.

Lemma find_present_witness :
  ∃ s', find cache2 (Chunk_Key (chunk 1 0 7)) = Ok (s', Some (chunk 1 0 7))
    ∧ entry_cnt s' = entry_cnt cache2 ∧ access_cnt s' = access_cnt cache2 + 1
    ∧ stored (heap s') (chunk 1 0 7) (access_cnt s')
    ∧ ∀ e' v', stored (heap cache2) e' v' → e' ≠ chunk 1 0 7 → stored (heap s') e' v'.
Proof.
  apply (find_present 2 cache2 (chunk 1 0 7) 1);
    [lia | exact reachable_cache2 | exact cache2_first].
Defined.

(** What [add] does in a state of the invariant, with the chunks of the
    result listed exactly. *)
Lemma add_exact L N s c :
  (2 ≤ L)%nat → inv L N s → valid_key L (Chunk_Key c) → fits L N →
  ∃ s' c0, add s c = Ok s' ∧ inv L (S N) s' ∧ access_cnt s' = access_cnt s + 1
    ∧ Chunk_Key c0 = Chunk_Key c ∧ stored (heap s') c0 (access_cnt s')
    ∧ ((∃ v, stored (heap s) c0 v) ∧ entry_cnt s' = entry_cnt s
       ∨ (∀ e v, stored (heap s) e v → Chunk_Key e ≠ Chunk_Key c) ∧ c0 = c
         ∧ entry_cnt s' = entry_cnt s + 1)
    ∧ (∀ e v, e ≠ c0 → stored (heap s') e v ↔ stored (heap s) e v).
Proof.
  intros HL Hinv Hk Hfit.
  destruct (add_spec L HL (fits_key L N Hfit) N s c Hinv Hk Hfit)
    as (s' & Hadd & Hinv' & Hac & Hcase & Hfw).
  pose proof (i_sound _ _ _ Hinv) as Hs. pose proof (i_sound _ _ _ Hinv') as Hs'.
  pose proof (i_entries _ _ _ Hinv) as He. pose proof (i_entries _ _ _ Hinv') as He'.
  assert (∃ c0, Chunk_Key c0 = Chunk_Key c ∧ stored (heap s') c0 (access_cnt s')
    ∧ ((∃ v, stored (heap s) c0 v) ∧ entry_cnt s' = entry_cnt s
       ∨ (∀ e v, stored (heap s) e v → Chunk_Key e ≠ Chunk_Key c) ∧ c0 = c
         ∧ entry_cnt s' = entry_cnt s + 1)) as (c0 & Hk0 & Hst0 & Hcase').
  { destruct Hcase as [(e0 & v & Hst & Hke & Hst' & Hec)|(Hno & Hst' & Hec)].
    - exists e0. split_and!; try done. left. eauto.
    - exists c. split_and!; try done. right. split_and!; try done.
      intros e v Hst Hke. by apply (Hno e v). }
  exists s', c0. split_and!; try done.
  assert (∀ e v, e ≠ c0 → stored (heap s) e v → stored (heap s') e v) as Hfw'.
  { intros e v Hne Hst. apply Hfw; [done|]. intros Hke.
    destruct Hcase' as [[[v0 Hv0] _]|[Hno _]].
    - destruct (stored_unique L _ _ e v c0 v0 Hs Hst Hv0) as [? _]; congruence.
    - by apply (Hno e v). }
  intros e v Hne. split; [|by apply Hfw'].
  intros Hst.
  assert (∃ v0, stored (heap s) e v0) as [v0 Hv0].
  { destruct Hcase' as [[[v0 Hv0] Hec]|(Hno & -> & Hec)].
    - destruct (stored_exact L _ _ (heap s) (heap s') [] Hs Hs') with (e := e) (v' := v)
        as [Hin|Hold]; try done.
      + simpl. lia.
      + constructor.
      + intros x Hx. by apply elem_of_nil in Hx.
      + intros x w Hx. destruct (decide (x = c0)) as [->|Hxc]; [eauto|].
        exists w. by apply Hfw'.
      + by apply elem_of_nil in Hin.
    - destruct (stored_exact L _ _ (heap s) (heap s') [c] Hs Hs') with (e := e) (v' := v)
        as [Hin|Hold]; try done.
      + simpl. lia.
      + apply NoDup_singleton.
      + intros x ->%list_elem_of_singleton. split; [|eauto].
        intros w Hw. by apply (Hno c w).
      + intros x w Hx. exists w. apply Hfw'; [|done]. intros ->. by apply (Hno c w).
      + by apply list_elem_of_singleton in Hin. }
  pose proof (Hfw' e v0 Hne Hv0) as Hst2.
  by destruct (stored_unique L _ _ e v e v0 Hs' Hst Hst2 eq_refl) as [_ ->].
Qed.

(** X17: [add] of a chunk whose key no stored chunk has stores it: [entry_cnt]
    and [access_cnt] grow by one, the chunk gets the new count as its access
    value, and the other chunks of the store are those it held before, with
    their access values. *)
Theorem add_new_key L s c :
  (2 ≤ L)%nat → reachable L s → valid_key L (Chunk_Key c) →
  (∀ e v, stored (heap s) e v → Chunk_Key e ≠ Chunk_Key c) →
  ∃ s', add s c = Ok s'
    ∧ entry_cnt s' = entry_cnt s + 1 ∧ access_cnt s' = access_cnt s + 1
    ∧ stored (heap s') c (access_cnt s')
    ∧ ∀ e v, e ≠ c → stored (heap s') e v ↔ stored (heap s) e v.
Proof.
  intros HL Hr Hk Hno. destruct (reachable_inv L s HL Hr) as (N & Hinv & Hfit & _).
  destruct (add_exact L N s c HL Hinv Hk Hfit)
    as (s' & c0 & Hadd & _ & Hac & Hk0 & Hst0 & Hcase & Hrest).
  destruct Hcase as [[[v Hv] _]|(_ & -> & Hec)]; [by destruct (Hno c0 v)|].
  exists s'. by split_and!.
Qed.

Lemma add_new_key_witness :
  ∃ s', add cache2 (chunk 3 0 9) = Ok s'
    ∧ entry_cnt s' = entry_cnt cache2 + 1 ∧ access_cnt s' = access_cnt cache2 + 1
    ∧ stored (heap s') (chunk 3 0 9) (access_cnt s')
    ∧ ∀ e v, e ≠ chunk 3 0 9 → stored (heap s') e v ↔ stored (heap cache2) e v.
Proof.
  apply (add_new_key 2 cache2 (chunk 3 0 9)).
  - lia.
  - exact reachable_cache2.
  - apply valid_chunk; lia.
  - intros e v Hst Hk.
    assert (e = chunk 1 0 7 ∨ e = chunk 2 0 8) as [-> | ->]; [|done..].
    destruct Hst as (h & n & Hn & He & _).
    destruct h as [|[|[|h]]]; vm_compute in Hn; [| | |done];
      injection Hn as <-; simpl in He; [done| |]; injection He as <-; auto.
Defined.

(** X18: [add] of a chunk whose key a stored chunk has does not replace that
    chunk: the stored chunk stays, with its own data, and gets the new access
    count; [entry_cnt] is unchanged and the chunks of the store are the same
    as before, the others with their access values. *)
Theorem add_same_key L s c e v :
  (2 ≤ L)%nat → reachable L s → stored (heap s) e v → Chunk_Key c = Chunk_Key e →
  ∃ s', add s c = Ok s'
    ∧ entry_cnt s' = entry_cnt s ∧ access_cnt s' = access_cnt s + 1
    ∧ stored (heap s') e (access_cnt s')
    ∧ ∀ e' v', e' ≠ e → stored (heap s') e' v' ↔ stored (heap s) e' v'.
Proof.
  intros HL Hr Hst Hke. destruct (reachable_inv L s HL Hr) as (N & Hinv & Hfit & _).
  pose proof (i_sound _ _ _ Hinv) as Hs.
  destruct (stored_stamp L _ _ e v Hs Hst) as [Hk _]. rewrite <- Hke in Hk.
  destruct (add_exact L N s c HL Hinv Hk Hfit)
    as (s' & c0 & Hadd & _ & Hac & Hk0 & Hst0 & Hcase & Hrest).
  destruct Hcase as [[[v0 Hv0] Hec]|(Hno & _)].
  2:{ by destruct (Hno e v Hst). }
  destruct (stored_unique L _ _ c0 v0 e v Hs Hv0 Hst ltac:(congruence)) as [-> _].
  exists s'. by split_and!.
Qed.

Lemma add_same_key_witness :
  ∃ s', add cache2 (chunk 1 0 99) = Ok s'
    ∧ entry_cnt s' = entry_cnt cache2 ∧ access_cnt s' = access_cnt cache2 + 1
    ∧ stored (heap s') (chunk 1 0 7) (access_cnt s')
    ∧ ∀ e' v', e' ≠ chunk 1 0 7 → stored (heap s') e' v' ↔ stored (heap cache2) e' v'.
Proof.
  apply (add_same_key 2 cache2 (chunk 1 0 99) (chunk 1 0 7) 1);
    [lia | exact reachable_cache2 | exact cache2_first | reflexivity].
Defined.

(** X19: [remove_oldest] on a store that holds a chunk removes the chunk with
    the least access value, the one used least recently: it does not panic,
    [entry_cnt] drops by one, [access_cnt] stays, and the chunks left are
    the others, with their access values. *)
Theorem remove_oldest_lru L s :
  (2 ≤ L)%nat → reachable L s → 0 < entry_cnt s →
  ∃ s' e v, remove_oldest s = Ok s' ∧ stored (heap s) e v
    ∧ (∀ e' v', stored (heap s) e' v' → v ≤ v')
    ∧ entry_cnt s' = entry_cnt s - 1 ∧ access_cnt s' = access_cnt s
    ∧ ∀ e' v', stored (heap s') e' v' ↔ stored (heap s) e' v' ∧ e' ≠ e.
Proof.
  intros HL Hr Hpos. destruct (reachable_inv L s HL Hr) as (N & Hinv & Hfit & _).
  pose proof (i_sound _ _ _ Hinv) as Hs.
  destruct (remove_oldest_spec L N s Hinv Hfit Hpos)
    as (s' & e & Hrm & _ & Hec & Hac & Hst & Hfw & Hbw).
  exists s', e, (val (heap s) 0 0). split_and!; try done.
  - intros e' v' (l & ln & Hl & Hel & <-).
    by destruct (root_oldest L _ _ l ln Hs Hl ltac:(by rewrite Hel)).
  - intros e' v'. split; [apply Hbw|]. intros [? ?]. by apply Hfw.
Qed.

Lemma remove_oldest_lru_witness :
  ∃ s' e v, remove_oldest cache2 = Ok s' ∧ stored (heap cache2) e v
    ∧ (∀ e' v', stored (heap cache2) e' v' → v ≤ v')
    ∧ entry_cnt s' = entry_cnt cache2 - 1 ∧ access_cnt s' = access_cnt cache2
    ∧ ∀ e' v', stored (heap s') e' v' ↔ stored (heap cache2) e' v' ∧ e' ≠ e.
Proof.
  apply (remove_oldest_lru 2 cache2);
    [lia | exact reachable_cache2 | vm_compute; reflexivity].
Defined.

(** X20: the access values of the stored chunks are time stamps: each lies
    between 1 and [access_cnt], no two chunks share one, and no two stored
    chunks share a key. *)
Theorem stamps_distinct L s e v e' v' :
  (2 ≤ L)%nat → reachable L s → stored (heap s) e v → stored (heap s) e' v' →
  0 < v ≤ access_cnt s ∧ (v = v' → e = e')
  ∧ (Chunk_Key e = Chunk_Key e' → e = e' ∧ v = v').
Proof.
  intros HL Hr Hst Hst'. destruct (reachable_inv L s HL Hr) as (N & Hinv & Hfit & _).
  pose proof (i_sound _ _ _ Hinv) as Hs. split_and!.
  - by destruct (stored_stamp L _ _ e v Hs Hst) as [_ [? ?]].
  - by destruct (stored_stamp L _ _ e v Hs Hst) as [_ [? ?]].
  - intros <-. by apply (stored_same_stamp L _ _ e e' v Hs).
  - by apply (stored_unique L _ _ e v e' v' Hs).
Qed.

Lemma stamps_distinct_witness :
  0 < 1 ≤ access_cnt cache2 ∧ (1 = 2 → chunk 1 0 7 = chunk 2 0 8)
  ∧ (Chunk_Key (chunk 1 0 7) = Chunk_Key (chunk 2 0 8) → chunk 1 0 7 = chunk 2 0 8 ∧ 1 = 2).
Proof.
  apply (stamps_distinct 2 cache2 (chunk 1 0 7) 1 (chunk 2 0 8) 2);
    [lia | exact reachable_cache2 | exact cache2_first | exact cache2_second].
Defined.

(** X21: [access[0]] of the root is the least access value of the stored
    chunks: it is 0 exactly when the store holds no chunk, no stored chunk
    has a smaller access value, and when the store holds a chunk some stored
    chunk has this value. *)
Theorem root_access_oldest L s :
  (2 ≤ L)%nat → reachable L s →
  memtree s = Some 0%nat
  ∧ (val (heap s) 0 0 = 0 ↔ entry_cnt s = 0)
  ∧ (∀ e v, stored (heap s) e v → val (heap s) 0 0 ≤ v)
  ∧ (0 < entry_cnt s → ∃ e, stored (heap s) e (val (heap s) 0 0)).
Proof.
  intros HL Hr. destruct (reachable_inv L s HL Hr) as (N & Hinv & Hfit & _).
  destruct Hinv as [Hroot Hs Hacc Hent Hsize].
  assert (∀ e v, stored (heap s) e v → val (heap s) 0 0 ≠ 0 ∧ val (heap s) 0 0 ≤ v) as Hle.
  { intros e v (l & ln & Hl & Hel & <-).
    by apply (root_oldest L _ _ l ln Hs Hl ltac:(by rewrite Hel)). }
  assert (0 < entry_cnt s → ∃ e, stored (heap s) e (val (heap s) 0 0)) as Hsome.
  { rewrite Hent. intros (l & ln & Hl & [e Hel])%leaves_pos.
    destruct (Hle e _ ltac:(by exists l, ln)) as [Hnz _].
    apply (root_attained L _ _ Hs); [lia | done]. }
  split_and!; try done.
  - split.
    + intros H0. destruct (decide (entry_cnt s = 0)) as [|Hne]; [done|].
      pose proof (leaves_nonneg (heap s)).
      destruct Hsome as [e He]; [lia|]. by destruct (Hle e _ He).
    + intros H0. destruct (decide (val (heap s) 0 0 = 0)) as [|Hne]; [done|].
      destruct (root_attained L _ _ Hs ltac:(lia) Hne) as [e He].
      apply stored_leaves in He. lia.
  - intros e v Hst. by destruct (Hle e v Hst).
Qed.

Lemma root_access_oldest_witness :
  memtree cache2 = Some 0%nat
  ∧ (val (heap cache2) 0 0 = 0 ↔ entry_cnt cache2 = 0)
  ∧ (∀ e v, stored (heap cache2) e v → val (heap cache2) 0 0 ≤ v)
  ∧ (0 < entry_cnt cache2 → ∃ e, stored (heap cache2) e (val (heap cache2) 0 0)).
Proof.
  apply (root_access_oldest 2 cache2); [lia | exact reachable_cache2].
Defined.

(** [Put] is [remove_oldest], when the store is full, followed by [add]. *)
Lemma Put_exact L N s c :
  (2 ≤ L)%nat → inv L N s → valid_key L (Chunk_Key c) → fits L N →
  ∃ s1 s' c0, Put s c = Ok s' ∧ inv L N s1 ∧ inv L (S N) s'
    ∧ (if maxEntries <=? entry_cnt s then remove_oldest s = Ok s1 else s1 = s)
    ∧ access_cnt s' = access_cnt s1 + 1
    ∧ Chunk_Key c0 = Chunk_Key c ∧ stored (heap s') c0 (access_cnt s')
    ∧ ((∃ v, stored (heap s1) c0 v) ∧ entry_cnt s' = entry_cnt s1
       ∨ (∀ e v, stored (heap s1) e v → Chunk_Key e ≠ Chunk_Key c) ∧ c0 = c
         ∧ entry_cnt s' = entry_cnt s1 + 1)
    ∧ (∀ e v, e ≠ c0 → stored (heap s') e v ↔ stored (heap s1) e v).
Proof.
  intros HL Hinv Hk Hfit.
  destruct (Put_spec L HL N s c Hinv Hk Hfit) as (s1 & s' & HP & Hadd & Hinv1 & _ & Hs1 & _).
  destruct (add_exact L N s1 c HL Hinv1 Hk Hfit)
    as (s2 & c0 & Hadd2 & Hinv2 & Hac & Hk0 & Hst0 & Hcase & Hrest).
  rewrite Hadd in Hadd2. injection Hadd2 as <-.
  exists s1, s', c0. by split_and!.
Qed.








(** The 14 bits of the root layer reach into the second byte of a key. *)
Lemma bits_short b : bits [b] 0 memTreeFLW = Panic.
Proof. reflexivity. Qed.

Lemma short_key_root L N s (k : list Z) :
  inv L N s → length k = 1%nat →
  (∀ fuel, add_descend (S fuel) (heap s) k 0 0 = Panic)
  ∧ (∀ fuel, find_descend (S fuel) (heap s) k 0 0 = Panic)
  ∧ memtree s = Some 0%nat ∧ heap s ≠ [].
Proof.
  intros Hinv Hlen. destruct k as [|b [|? ?]]; try done.
  destruct (s_root _ _ _ _ (i_sound _ _ _ Hinv)) as (r & Hr & Hb).
  destruct (wf_root _ (s_wf _ _ _ _ (i_sound _ _ _ Hinv))) as (r' & Hr' & _ & Hre).
  assert (r' = r) as -> by congruence.
  split_and!.
  - intros fuel. rewrite add_descend_eq, (proj2 (deref_Ok _ _ _) Hr). simpl.
    rewrite Hre, Hb. by rewrite bits_short.
  - intros fuel. rewrite find_descend_eq, (proj2 (deref_Ok _ _ _) Hr). simpl.
    rewrite Hre, Hb. by rewrite bits_short.
  - apply (i_root _ _ _ Hinv).
  - intros E. by rewrite E in Hr.
Qed.

(** X24: keys of one byte are not supported: in every reachable state [Put]
    and [Get] of a chunk whose key has a single byte panic, for [bits] reads
    the 14 bits of the root layer past the end of the key. *)
Theorem short_key_panics L s c :
  (2 ≤ L)%nat → reachable L s → length (Chunk_Key c) = 1%nat →
  Put s c = Panic ∧ Get s c = Panic.
Proof.
  intros HL Hr Hlen. destruct (reachable_inv L s HL Hr) as (N & Hinv & Hfit & _).
  assert (∀ s1, inv L N s1 → add s1 c = Panic) as Hadd.
  { intros s1 Hinv1.
    destruct (short_key_root L N s1 _ Hinv1 Hlen) as (Ha & _ & Hroot & Hne).
    unfold add. rewrite Hroot. simpl. destruct (heap s1) as [|n hp] eqn:E; [done|].
    simpl length. by rewrite Ha. }
  split.
  - unfold Put. destruct (Z.leb_spec maxEntries (entry_cnt s)) as [Hfull|_].
    + destruct (remove_oldest_spec L N s Hinv Hfit) as (s1 & e & -> & Hinv1 & _).
      { unfold maxEntries in Hfull. lia. }
      simpl. by apply Hadd.
    + simpl. by apply Hadd.
  - destruct (short_key_root L N s _ Hinv Hlen) as (_ & Hf & Hroot & Hne).
    unfold Get, find. rewrite Hroot. simpl. destruct (heap s) as [|n hp] eqn:E; [done|].
    simpl length. by rewrite Hf.
Qed.

Lemma short_key_panics_witness :
  Put cache2 (mkChunk [5] []) = Panic ∧ Get cache2 (mkChunk [5] []) = Panic.
Proof.
  apply (short_key_panics 2 cache2 (mkChunk [5] []));
    [lia | exact reachable_cache2 | reflexivity].
Defined.

End MemFacts.

(** * Further properties of the memory store *)

Module MemMore.
Import MemStore ResFacts MemFacts.

#[local] Arguments deref : simpl never.
#[local] Arguments set_access : simpl never.
#[local] Arguments index_at : simpl never.
#[local] Arguments oldest_slot : simpl never.
#[local] Arguments oldest_leaf : simpl never.
#[local] Arguments subtree_access : simpl never.

(** ** How long a chunk stays *)

(** The access values of the nodes that hold a chunk. *)
Definition stamps (hp : list dpaMemTree) : list Z :=
  omap (λ n, match entry n with
             | Some _ => Some (default 0 (access n !! 0%nat))
             | None => None
             end) hp.

Lemma stamps_length hp : Z.of_nat (length (stamps hp)) = leaves hp.
Proof.
  unfold stamps. induction hp as [|n hp IH]; [done|]. cbn [omap list_omap leaves].
  destruct (entry n); cbn [one_if]; [rewrite length_cons|]; lia.
Qed.

Lemma stamps_stored hp x : x ∈ stamps hp ↔ ∃ e, stored hp e x.
Proof.
  unfold stamps, stored. rewrite list_elem_of_omap. split.
  - intros (n & Hn & Hx). apply list_elem_of_lookup in Hn as [h Hn].
    destruct (entry n) as [e|] eqn:He; [|done]. injection Hx as <-.
    exists e, h, n. split_and!; try done. unfold val. by rewrite Hn.
  - intros (e & h & n & Hn & He & Hv). exists n. split; [by eapply list_elem_of_lookup_2|].
    rewrite He. f_equal. unfold val in Hv. by rewrite Hn in Hv.
Qed.

Lemma stamps_NoDup L C hp : sound L C hp → NoDup (stamps hp).
Proof.
  intros Hs. apply NoDup_omap_lookup. intros h h' n n' x Hn Hn' Hx Hx'.
  destruct (entry n) as [e|] eqn:He; [|done].
  destruct (entry n') as [e'|] eqn:He'; [|done].
  apply (s_distinct _ _ _ _ Hs h h' n n'); try done; try by eexists.
  unfold val. rewrite Hn, Hn'. change (Z.to_nat 0) with 0%nat. congruence.
Qed.

(** The stored chunks have different access values between that of the root
    and the access counter: there are not more of them than such values. *)
Lemma pigeon L C hp :
  sound L C hp → 0 < leaves hp → leaves hp ≤ C - val hp 0 0 + 1.
Proof.
  intros Hs Hpos.
  assert (∀ x, x ∈ stamps hp → val hp 0 0 ≤ x ≤ C) as Hrange.
  { intros x (e & l & ln & Hl & He & <-)%stamps_stored. split.
    - by destruct (root_oldest L C hp l ln Hs Hl ltac:(by rewrite He)).
    - by apply (s_bound _ _ _ _ Hs). }
  destruct (leaves_pos hp Hpos) as (l & ln & Hl & [e He]).
  assert (val hp l 0 ∈ stamps hp) as Hin by (apply stamps_stored; by exists e, l, ln).
  apply Hrange in Hin.
  assert (stamps hp ⊆+ seqZ (val hp 0 0) (C - val hp 0 0 + 1)) as Hsub.
  { apply NoDup_submseteq; [by eapply stamps_NoDup|]. intros x Hx.
    apply elem_of_seqZ. apply Hrange in Hx. lia. }
  apply submseteq_length in Hsub. rewrite length_seqZ in Hsub.
  pose proof (stamps_length hp). lia.
Qed.

Lemma step_survives L N s o e v :
  (2 ≤ L)%nat → inv L N s → entry_cnt s ≤ maxEntries → valid_key L (key_of o) →
  fits L N → stored (heap s) e v → access_cnt s - v < maxEntries - 1 →
  ∃ s' v', step s o = Ok s' ∧ inv L (S N) s' ∧ entry_cnt s' ≤ maxEntries
    ∧ stored (heap s') e v' ∧ v ≤ v' ∧ access_cnt s' ≤ access_cnt s + 1.
Proof.
  intros HL Hinv Hle Hk Hfit Hst Hslack.
  pose proof (i_sound _ _ _ Hinv) as Hs.
  destruct (stored_stamp L _ _ e v Hs Hst) as [_ Hv].
  destruct o as [c|c]; simpl in Hk |- *.
  - destruct (Put_spec L HL N s c Hinv Hk Hfit) as (s1' & s'' & HP' & _ & _ & _ & _ & Hb).
    destruct (Put_exact L N s c HL Hinv Hk Hfit)
      as (s1 & s' & c0 & HP & Hinv1 & Hinv' & Hs1 & Hac & Hk0 & Hst0 & Hcase & Hrest).
    assert (s'' = s') as -> by congruence.
    assert (stored (heap s1) e v ∧ access_cnt s1 = access_cnt s) as [Hst1 Hac1].
    { destruct (Z.leb_spec maxEntries (entry_cnt s)) as [Hfull|_]; [|by subst s1].
      destruct (remove_oldest_spec L N s Hinv Hfit) as (s2 & e1 & Hrm & _ & _ & Ha & Hold & Hfw & _).
      { unfold maxEntries in Hfull. lia. }
      rewrite Hs1 in Hrm. injection Hrm as <-. split; [|done]. apply Hfw; [done|].
      intros ->. destruct (stored_unique L _ _ e1 _ e1 v Hs Hold Hst eq_refl) as [_ Hroot].
      pose proof (pigeon L _ _ Hs) as Hp. rewrite <- (i_entries _ _ _ Hinv) in Hp.
      unfold maxEntries in *. lia. }
    destruct (decide (e = c0)) as [->|Hne].
    + exists s', (access_cnt s'). split_and!; try done; try lia.
    + exists s', v. split_and!; try done; try lia. by apply Hrest.
  - destruct (find_spec L HL (fits_key L N Hfit) N s _ Hinv Hk Hfit)
      as (s' & r & Hf & Hinv' & Hec & Hcase).
    unfold Get. rewrite Hf. simpl.
    destruct Hcase as [(_ & -> & _)|(e0 & v0 & _ & Hst0 & Hke & Hac & Hst' & Hfw)].
    + exists s, v. split_and!; try done; try lia.
      all: by apply (inv_mono L N (S N)); [|lia].
    + destruct (decide (Chunk_Key e = Chunk_Key c)) as [Hkc|Hkc].
      * destruct (stored_unique L _ _ e v e0 v0 Hs Hst Hst0 ltac:(congruence)) as [-> ->].
        exists s', (access_cnt s'). split_and!; try done; lia.
      * exists s', v. split_and!; try done; try lia. by apply Hfw.
Qed.

Lemma run_survives L ops : ∀ N s e v,
  (2 ≤ L)%nat → inv L N s → entry_cnt s ≤ maxEntries → valid_ops L ops →
  fits L (N + length ops) → stored (heap s) e v →
  access_cnt s - v + Z.of_nat (length ops) ≤ maxEntries - 1 →
  ∃ s' v', run s ops = Ok s' ∧ inv L (N + length ops) s' ∧ stored (heap s') e v'.
Proof.
  induction ops as [|o ops IH]; intros N s e v HL Hinv Hle Hv Hfit Hst Hslack; simpl.
  - exists s, v. rewrite Nat.add_0_r. done.
  - apply Forall_cons in Hv as [Ho Hv]. simpl length in *.
    destruct (step_survives L N s o e v HL Hinv Hle Ho) as
      (s1 & v1 & -> & Hinv1 & Hle1 & Hst1 & Hv1 & Hac1); try done; try lia.
    { eapply fits_mono; [done|]. lia. }
    simpl. destruct (IH (S N) s1 e v1 HL Hinv1 Hle1 Hv) as (s' & v' & Hr & Hinv' & Hst');
      try done; try lia.
    { by replace (S N + length ops)%nat with (N + S (length ops))%nat by lia. }
    exists s', v'. split; [done|]. split; [|done].
    by replace (N + S (length ops))%nat with (S N + length ops)%nat by lia.
Qed.

(** X25: a chunk lives through the next [maxEntries - 1] operations: after
    [Put(c)] in any reachable state and any further [Put]s and [Get]s, fewer
    than [maxEntries] of them, [find] of the key of [c] returns a chunk with
    that key, and returns [c] itself when no chunk with the key was stored
    before the [Put]. *)
Theorem Put_survives L ops c ops' :
  (2 ≤ L)%nat → valid_ops L ops → valid_key L (Chunk_Key c) → valid_ops L ops' →
  Z.of_nat (length ops') < maxEntries →
  fits L (length ops + 1 + length ops') →
  ∃ s0 s s1 s2 s3 c0, Init zero = Ok s0 ∧ run s0 ops = Ok s ∧ Put s c = Ok s1
    ∧ run s1 ops' = Ok s2
    ∧ find s2 (Chunk_Key c) = Ok (s3, Some c0) ∧ Chunk_Key c0 = Chunk_Key c
    ∧ ((∀ e v, stored (heap s) e v → Chunk_Key e ≠ Chunk_Key c) → c0 = c).
Proof.
  intros HL Hv Hk Hv' Hlen Hfit.
  assert (fits L (length ops)) as Hfit0 by (eapply fits_mono; [done|lia]).
  destruct (run_inv L HL ops 0 start (start_inv L)) as (s & Hr & Hinv & Hle); try done.
  simpl in Hinv.
  destruct (Put_spec L HL _ s c Hinv Hk Hfit0) as (s1' & s1'' & HP' & _ & _ & _ & _ & Hb).
  destruct (Put_exact L _ s c HL Hinv Hk Hfit0)
    as (sr & s1 & c0 & HP & Hinvr & Hinv1 & Hsr & Hac & Hk0 & Hst0 & Hcase & Hrest).
  assert (s1'' = s1) as -> by congruence.
  destruct (run_survives L ops' (S (length ops)) s1 c0 (access_cnt s1) HL Hinv1
              (Hb Hle) Hv') as (s2 & v2 & Hr2 & Hinv2 & Hst2); try done.
  { apply (fits_mono L _ _ Hfit). lia. }
  { unfold maxEntries in *. lia. }
  pose proof (i_sound _ _ _ Hinv2) as Hs2.
  assert (fits L (S (length ops) + length ops')) as Hfit2
    by (apply (fits_mono L _ _ Hfit); lia).
  destruct (find_spec L HL (fits_key L _ Hfit2) _ s2 _ Hinv2 Hk Hfit2)
    as (s3 & r & Hf & _ & _ & Hfc).
  destruct Hfc as [(_ & _ & Hno)|(e0 & v0 & -> & Hst & Hke & _)].
  { by destruct (Hno c0 v2). }
  destruct (stored_unique L _ _ e0 v0 c0 _ Hs2 Hst Hst2 ltac:(congruence)) as [-> _].
  exists start, s, s1, s2, s3, c0. split_and!; try done.
  intros Hno. destruct Hcase as [[[w Hw] _]|(_ & -> & _)]; [|done].
  exfalso. apply (Hno c0 w); [|done].
  destruct (maxEntries <=? entry_cnt s) eqn:E; [|by subst sr].
  destruct (remove_oldest_spec L _ s Hinv Hfit0) as (sr' & e & Hrm & _ & _ & _ & _ & _ & Hbw).
  { apply Z.leb_le in E. unfold maxEntries in E. lia. }
  rewrite Hsr in Hrm. injection Hrm as <-. by destruct (Hbw c0 w Hw).
Qed.

Lemma Put_survives_witness :
  ∃ s0 s s1 s2 s3 c0, Init zero = Ok s0 ∧ run s0 two_puts = Ok s
    ∧ Put s (chunk 3 0 9) = Ok s1
    ∧ run s1 [OpGet (chunk 1 0 0); OpPut (chunk 4 0 1)] = Ok s2
    ∧ find s2 (Chunk_Key (chunk 3 0 9)) = Ok (s3, Some c0)
    ∧ Chunk_Key c0 = Chunk_Key (chunk 3 0 9)
    ∧ ((∀ e v, stored (heap s) e v → Chunk_Key e ≠ Chunk_Key (chunk 3 0 9)) →
       c0 = chunk 3 0 9).
Proof.
  apply (Put_survives 2 two_puts (chunk 3 0 9) [OpGet (chunk 1 0 0); OpPut (chunk 4 0 1)]).
  - lia.
  - repeat constructor; simpl; lia.
  - apply valid_chunk; lia.
  - repeat constructor; simpl; lia.
  - simpl. unfold maxEntries. lia.
  - unfold fits. simpl. lia.
Defined.

(** ** The minimum of a subtree *)

(** [h] lies in the subtree of [g]: parent links lead from [h] to [g]. *)
Inductive below (hp : list dpaMemTree) : nat → nat → Prop :=
  | below_refl g : below hp g g
  | below_up h n p g :
      hp !! h = Some n → parent n = Some p → below hp p g → below hp h g.

Lemma below_trans hp h g f : below hp h g → below hp g f → below hp h f.
Proof.
  induction 1 as [g|h n p g Hn Hp Hb IH]; [done|]. intros Hf.
  apply (below_up hp h n p f); auto.
Qed.

Lemma above_trans hp q r t : above hp q r → above hp r t → above hp q t.
Proof.
  induction 1 as [q|q p r Hup Hab IH]; [done|]. intros Ht.
  apply (above_step hp q p t); auto.
Qed.

(** Inside a node every slot leads to slot 0. *)
Lemma above_top hp h n i :
  wf hp → hp !! h = Some n → 0 ≤ i < width n - 1 → above hp (h, i) (h, 0).
Proof.
  intros Hwf Hn. remember (Z.to_nat i) as k eqn:Hk. revert i Hk.
  induction k as [k IH] using lt_wf_ind. intros i Hk Hi.
  destruct (decide (i = 0)) as [->|Hne]; [constructor|].
  apply (above_step hp (h, i) (h, (i - 1) / 2)).
  - unfold up, upslot. simpl. by destruct (Z.ltb_spec 0 i); [|lia].
  - apply (IH (Z.to_nat ((i - 1) / 2))); [|done|]; Z.div_mod_to_equations; lia.
Qed.

Lemma up_parent hp h n p pn :
  wf hp → hp !! h = Some n → parent n = Some p → hp !! p = Some pn →
  let P := (width pn + parent_idx n - 2) / 2 in
  up hp (h, 0) = Some (p, P) ∧ 0 ≤ P < width pn - 1 ∧ entry pn = None.
Proof.
  intros Hwf Hn Hp Hpn P.
  assert (upslot hp h 0 = Some (p, P)) as Hup.
  { unfold upslot. simpl. rewrite Hn. simpl. rewrite Hp. simpl. by rewrite Hpn. }
  pose proof (shape_width_cases n (wf_shape hp Hwf h n Hn)) as W.
  destruct (upslot_spec hp h n 0 p P Hwf Hn ltac:(destruct W; lia) Hup)
    as (pn' & Hpn' & HP & _).
  assert (pn' = pn) as -> by congruence.
  split_and!; try done; try lia. by apply (wf_parent_interior hp h n p pn).
Qed.

Lemma below_above hp h g :
  wf hp → below hp h g →
  ∀ n i, hp !! h = Some n → 0 ≤ i < width n - 1 → above hp (h, i) (g, 0).
Proof.
  intros Hwf. induction 1 as [g|h n p g Hn Hp Hb IH]; intros m i Hm Hi.
  - by apply (above_top hp g m).
  - assert (m = n) as -> by congruence.
    destruct (wf_parent hp Hwf h n p Hn Hp) as (_ & _ & pn & Hpn & _).
    destruct (up_parent hp h n p pn Hwf Hn Hp Hpn) as (Hup & HP & _).
    apply (above_trans hp _ (h, 0)); [by apply (above_top hp h n)|].
    apply (above_step hp (h, 0) (p, (width pn + parent_idx n - 2) / 2)); [done|].
    by apply (IH pn).
Qed.

(** The value of a node without entry is not above the value of any chunk
    in its subtree. *)
Lemma subtree_le L C hp g gn l ln :
  sound L C hp → hp !! g = Some gn → entry gn = None →
  below hp l g → hp !! l = Some ln → is_Some (entry ln) →
  val hp g 0 ≠ 0 ∧ val hp g 0 ≤ val hp l 0.
Proof.
  intros Hs Hg Heg Hb Hl Hleaf. pose proof (s_wf _ _ _ _ Hs) as Hwf.
  destruct (s_leaf _ _ _ _ Hs l ln Hl Hleaf) as (Hv & _). specialize (Hv ltac:(done)).
  destruct Hb as [g|l n p g Hn Hp Hb].
  { assert (ln = gn) as -> by congruence. rewrite Heg in Hleaf. by destruct Hleaf. }
  assert (n = ln) as -> by congruence.
  destruct (wf_parent hp Hwf l ln p Hl Hp) as (_ & _ & pn & Hpn & _).
  destruct (up_parent hp l ln p pn Hwf Hl Hp Hpn) as (Hup & HP & Hep).
  pose proof (wf_width_4 hp l ln Hwf Hl ltac:(by rewrite Hp)) as Hw.
  destruct (upslot_spec hp l ln 0 p _ Hwf Hl ltac:(lia) Hup)
    as (pn' & Hpn' & _ & _ & _ & _ & _ & Hk).
  assert (pn' = pn) as -> by congruence.
  pose proof (s_min _ _ _ _ Hs p pn _ Hpn Hep HP) as Hm.
  unfold min_at in Hm. rewrite Hk in Hm.
  destruct (minnz_le (val hp l 0) (sibval hp l 0) ltac:(lia)) as (Hnz & Hle).
  rewrite <- Hm in Hnz, Hle.
  destruct (chain_min hp (p, (width pn + parent_idx ln - 2) / 2) (g, 0) Hwf
    (s_min _ _ _ _ Hs)) as (Hr0 & Hr1); try done.
  - by exists pn.
  - by apply (below_above hp p g Hwf Hb pn).
  - simpl in *. lia.
Qed.

(** A value that is not zero is the value of a chunk further down. *)
Lemma attained hp :
  wf hp → min_ok hp →
  ∀ k h n i, k = Z.to_nat (2 ^ memTreeFLW + 4 * Z.of_nat (length hp) + 4 - rank h i) →
    hp !! h = Some n → entry n = None → 0 ≤ i < width n - 1 → val hp h i ≠ 0 →
    ∃ l ln, below hp l h ∧ hp !! l = Some ln ∧ is_Some (entry ln)
      ∧ val hp l 0 = val hp h i.
Proof.
  intros Hwf Hmin k. induction k as [k IH] using lt_wf_ind.
  intros h n i Hk Hn He Hi Hv.
  pose proof (lookup_lt_Some _ _ _ Hn) as Hlt.
  pose proof (shape_width_cases n (wf_shape hp Hwf h n Hn)) as W.
  assert (h ≠ 0%nat → width n = 4) as W4 by (by apply (wf_width_child hp h n)).
  assert (rank h i < 2 ^ memTreeFLW + 4 * Z.of_nat h + 3) as Hrank.
  { unfold rank. change (2 ^ memTreeFLW) with 16384.
    destruct (decide (h = 0%nat)) as [->|Hne]; [destruct W; lia|].
    specialize (W4 Hne). lia. }
  pose proof (Hmin h n i Hn He Hi) as Hm. unfold min_at in Hm.
  assert (∃ m, (m = 2 * i + 1 ∨ m = 2 * i + 2) ∧ ext hp h n m = val hp h i) as (m & Hmm & Hext).
  { rewrite Hm in Hv. destruct (minnz_cases _ _ Hv) as [E|E]; rewrite Hm, E; eauto. }
  unfold ext in Hext. destruct (Z.ltb_spec m (width n - 1)) as [Hin|Hout].
  - destruct (IH (Z.to_nat (2 ^ memTreeFLW + 4 * Z.of_nat (length hp) + 4 - rank h m)))
      with (h := h) (n := n) (i := m) as (l & ln & Hb & Hl & Hleaf & Hval);
      try done; try lia.
    { subst k. unfold rank in *. change (2 ^ memTreeFLW) with 16384 in *. lia. }
    exists l, ln. split_and!; try done. congruence.
  - unfold chv in Hext.
    destruct (subtree n !! Z.to_nat (m - (width n - 1))) as [[c|]|] eqn:Hc;
      try (rewrite <- Hext in Hv; done).
    destruct (wf_child hp Hwf h n _ c Hn Hc) as (cn & Hcn & Hpar & _).
    destruct (wf_parent hp Hwf c cn h Hcn Hpar) as (Hhc & _).
    pose proof (lookup_lt_Some _ _ _ Hcn) as Hltc.
    assert (below hp c h) as Hbc by (apply (below_up hp c cn h h); [done|done|constructor]).
    destruct (entry cn) as [e|] eqn:Hec.
    + exists c, cn. by split_and!.
    + pose proof (wf_width_4 hp c cn Hwf Hcn ltac:(by rewrite Hpar)) as Hwc.
      destruct (IH (Z.to_nat (2 ^ memTreeFLW + 4 * Z.of_nat (length hp) + 4 - rank c 0)))
        with (h := c) (n := cn) (i := 0) as (l & ln & Hb & Hl & Hleaf & Hval);
        try done; try lia.
      { subst k. unfold rank at 1. rewrite decide_False by lia.
        change (2 ^ memTreeFLW) with 16384 in *. lia. }
      exists l, ln. split_and!; try done; [|congruence].
      by apply (below_trans hp l c h).
Qed.

(** X26: [access[0]] of every node without entry is the least access value
    of the chunks in its subtree, where 0 stands for none: it is not 0 and
    not above the access value of any chunk below the node, and when it is
    not 0 some chunk below the node has exactly this value. *)
Theorem subtree_min L s g gn :
  (2 ≤ L)%nat → reachable L s → heap s !! g = Some gn → entry gn = None →
  (∀ l ln, below (heap s) l g → heap s !! l = Some ln → is_Some (entry ln) →
     val (heap s) g 0 ≠ 0 ∧ val (heap s) g 0 ≤ val (heap s) l 0)
  ∧ (val (heap s) g 0 ≠ 0 →
     ∃ l ln, below (heap s) l g ∧ heap s !! l = Some ln ∧ is_Some (entry ln)
       ∧ val (heap s) l 0 = val (heap s) g 0).
Proof.
  intros HL Hr Hg He. destruct (reachable_inv L s HL Hr) as (N & Hinv & _ & _).
  pose proof (i_sound _ _ _ Hinv) as Hs. pose proof (s_wf _ _ _ _ Hs) as Hwf.
  split.
  - intros l ln Hb Hl Hleaf. by apply (subtree_le L _ _ g gn l ln Hs).
  - intros Hv. apply (attained _ Hwf (s_min _ _ _ _ Hs) _ g gn 0 eq_refl Hg He); [|done].
    pose proof (shape_width_cases gn (wf_shape _ Hwf g gn Hg)) as W. destruct W; lia.
Qed.

(** The root node of [cache2]. *)
Definition cache2_root : dpaMemTree := default root_node (heap cache2 !! 0%nat).

Lemma subtree_min_witness :
  (∀ l ln, below (heap cache2) l 0 → heap cache2 !! l = Some ln → is_Some (entry ln) →
     val (heap cache2) 0 0 ≠ 0 ∧ val (heap cache2) 0 0 ≤ val (heap cache2) l 0)
  ∧ (val (heap cache2) 0 0 ≠ 0 →
     ∃ l ln, below (heap cache2) l 0 ∧ heap cache2 !! l = Some ln ∧ is_Some (entry ln)
       ∧ val (heap cache2) l 0 = val (heap cache2) 0 0).
Proof.
  apply (subtree_min 2 cache2 0 cache2_root);
    [lia | exact reachable_cache2 | vm_compute; reflexivity | vm_compute; reflexivity].
Defined.

(** X27: the access array of a node is a binary min-tree, as the comment of
    the node type says, with 0 read as "no chunk": in every reachable state
    and every node without entry, [access[i]] is the smaller of
    [access[2i+1]] and [access[2i+2]] that is not 0, and 0 when both are. *)
Theorem access_tree L s h n i :
  (2 ≤ L)%nat → reachable L s → heap s !! h = Some n → entry n = None →
  0 ≤ i → 2 * i + 2 < width n - 1 →
  val (heap s) h i = minnz (val (heap s) h (2 * i + 1)) (val (heap s) h (2 * i + 2)).
Proof.
  intros HL Hr Hn He Hi Hi2. destruct (reachable_inv L s HL Hr) as (N & Hinv & _ & _).
  pose proof (s_min _ _ _ _ (i_sound _ _ _ Hinv) h n i Hn He ltac:(lia)) as Hm.
  unfold min_at, ext in Hm.
  destruct (Z.ltb_spec (2 * i + 1) (width n - 1)); [|lia].
  by destruct (Z.ltb_spec (2 * i + 2) (width n - 1)); [|lia].
Qed.

Lemma access_tree_witness :
  val (heap cache2) 0 0 = minnz (val (heap cache2) 0 (2 * 0 + 1)) (val (heap cache2) 0 (2 * 0 + 2)).
Proof.
  apply (access_tree 2 cache2 0 cache2_root 0);
    [lia | exact reachable_cache2 | vm_compute; reflexivity | vm_compute; reflexivity
     | lia | vm_compute; reflexivity].
Defined.

(** ** [remove_oldest] on a store without chunks *)

Lemma empty_zero L C hp :
  sound L C hp → leaves hp = 0 →
  (∀ h n, hp !! h = Some n → entry n = None)
  ∧ (∀ h n i, hp !! h = Some n → 0 ≤ i < width n - 1 → val hp h i = 0).
Proof.
  intros Hs Hlv.
  assert (∀ h n, hp !! h = Some n → entry n = None) as Hno.
  { intros h n Hn. destruct (entry n) as [e|] eqn:He; [|done].
    assert (stored hp e (val hp h 0)) as Hst by (by exists h, n).
    apply stored_leaves in Hst. lia. }
  split; [done|]. intros h n i Hn Hi.
  destruct (decide (val hp h i = 0)) as [|Hne]; [done|].
  destruct (attained hp (s_wf _ _ _ _ Hs) (s_min _ _ _ _ Hs) _ h n i eq_refl Hn
              (Hno h n Hn) Hi Hne) as (l & ln & _ & Hl & [e He] & _).
  by rewrite (Hno l ln Hl) in He.
Qed.

Lemma oldest_slot_zero hp h n :
  wf hp → hp !! h = Some n →
  (∀ i, 0 ≤ i < width n - 1 → val hp h i = 0) →
  ∀ fuel a, 0 ≤ a < width n - 1 → width n ≤ (a + 1) * 2 ^ Z.of_nat fuel →
  ∃ a', oldest_slot fuel hp h 0 a = Ok (hp, a') ∧ width n / 2 - 1 ≤ a' < width n - 1.
Proof.
  intros Hwf Hn Hz.
  pose proof (shape_width_cases n (wf_shape hp Hwf h n Hn)) as W.
  destruct (half_small (width n) W) as (Hu & Hhalf & Hw).
  destruct (wf_shape hp Hwf h n Hn) as [_ _ _ Hlen].
  induction fuel as [|fuel IH]; intros a Ha Hf;
    rewrite oldest_slot_eq, (proj2 (deref_Ok hp h n) Hn); simpl; rewrite Hu;
    destruct (Z.ltb_spec a (width n / 2 - 1)) as [Hlt|Hge];
    try (exists a; split; [done|lia]).
  - simpl in Hf. lia.
  - rewrite (uint_small (a * 2 + 1)), (uint_small (a * 2 + 2)) by lia.
    rewrite (index_access hp h n (a * 2 + 1) Hn) by lia. simpl.
    rewrite (Hz (a * 2 + 1)) by lia. simpl.
    rewrite (index_access hp h n (a * 2 + 2) Hn) by lia. simpl.
    rewrite (Hz (a * 2 + 2)) by lia.
    assert (set_access hp h a 0 = Ok hp) as ->.
    { rewrite <- (Hz a Ha) at 1. apply (set_access_same hp h n); [done|lia]. }
    simpl. apply IH; [lia|].
    rewrite Nat2Z.inj_succ, Z.pow_succ_r in Hf by lia. lia.
Qed.

Lemma oldest_leaf_empty hp :
  wf hp → (∀ h n, hp !! h = Some n → entry n = None) →
  (∀ h n i, hp !! h = Some n → 0 ≤ i < width n - 1 → val hp h i = 0) →
  ∀ fuel h n, hp !! h = Some n → (length hp ≤ fuel + h)%nat →
  oldest_leaf fuel hp h = Panic.
Proof.
  intros Hwf Hno Hz. induction fuel as [|fuel IH]; intros h n Hn Hfuel;
    pose proof (lookup_lt_Some _ _ _ Hn) as Hlt; [lia|].
  pose proof (shape_width_cases n (wf_shape hp Hwf h n Hn)) as W.
  destruct (half_small (width n) W) as (Hu & Hhalf & Hw).
  destruct (wf_shape hp Hwf h n Hn) as [Hb Hwd _ Hlen].
  rewrite oldest_leaf_eq, (proj2 (deref_Ok hp h n) Hn). simpl.
  rewrite (Hno h n Hn).
  rewrite (index_access hp h n 0 Hn) by lia. simpl. rewrite (Hz h n 0 Hn) by lia.
  destruct (oldest_slot_zero hp h n Hwf Hn (λ i, Hz h n i Hn) (Z.to_nat (bits_ n)) 0)
    as (a & -> & Ha); [lia| |].
  { rewrite Z2Nat.id by (destruct Hb as [-> | ->]; done). rewrite Hwd. lia. }
  simpl. rewrite (proj2 (deref_Ok hp h n) Hn). simpl.
  rewrite (uint_small (a * 2 + 2 - width n)) by lia.
  rewrite (uint_small (a * 2 + 2 - width n + 1)) by lia.
  rewrite (subtree_access_spec hp h n _ Hwf Hn) by lia. simpl.
  rewrite (subtree_access_spec hp h n _ Hwf Hn) by lia. simpl.
  assert (set_access hp h a 0 = Ok hp) as Hset.
  { rewrite <- (Hz h n a Hn) at 1 by lia. apply (set_access_same hp h n); [done|lia]. }
  assert (∀ j, 0 ≤ j < width n →
    (child_val hp n j = None ∧ index_at (subtree n) j = Ok None)
    ∨ (∃ c cn, child_val hp n j = Some 0 ∧ index_at (subtree n) j = Ok (Some c)
         ∧ hp !! c = Some cn ∧ (h < c)%nat)) as Hchild.
  { intros j Hj. destruct (wf_shape hp Hwf h n Hn) as [_ _ S _].
    destruct (index_at_total (subtree n) j ltac:(lia)) as [x Hx].
    pose proof Hx as Hx'. apply index_at_Ok in Hx' as [_ Hx'].
    unfold child_val. rewrite Hx'. destruct x as [c|]; [right|by left].
    destruct (wf_child hp Hwf h n _ c Hn Hx') as (cn & Hcn & Hpar & _).
    destruct (wf_parent hp Hwf c cn h Hcn Hpar) as (Hhc & _).
    pose proof (wf_width_4 hp c cn Hwf Hcn ltac:(by rewrite Hpar)) as Hwc.
    exists c, cn. rewrite (Hz c cn 0 Hcn) by lia. done. }
  destruct (Hchild (a * 2 + 2 - width n) ltac:(lia))
    as [[-> Hi1]|(c & cn & -> & Hi1 & Hcn & Hhc)].
  - rewrite bool_decide_eq_false_2 by done.
    destruct (Hchild (a * 2 + 2 - width n + 1) ltac:(lia))
      as [[-> Hi2]|(c & cn & -> & Hi2 & Hcn & Hhc)].
    + by rewrite bool_decide_eq_false_2 by done.
    + rewrite bool_decide_eq_true_2 by done. simpl. rewrite Hset. simpl.
      rewrite (proj2 (deref_Ok hp h n) Hn). simpl. rewrite Hi2. simpl.
      apply (IH c cn Hcn). lia.
  - rewrite bool_decide_eq_true_2 by done.
    assert (default 0 (child_val hp n (a * 2 + 2 - width n + 1)) = 0) as ->.
    { destruct (Hchild (a * 2 + 2 - width n + 1) ltac:(lia))
        as [[-> _]|(? & ? & -> & _)]; done. }
    simpl. rewrite Hset. simpl.
    rewrite (proj2 (deref_Ok hp h n) Hn). simpl. rewrite Hi1. simpl.
    apply (IH c cn Hcn). lia.
Qed.

(** X28: [remove_oldest] must not be called on a store that holds no chunk:
    in every reachable state with [entry_cnt = 0] it panics (the descent
    follows the zero access values to a node without subtrees and reaches
    [panic(nil)]); [Put] calls it only when [entry_cnt >= maxEntries]. *)
Theorem remove_oldest_empty L s :
  (2 ≤ L)%nat → reachable L s → entry_cnt s = 0 → remove_oldest s = Panic.
Proof.
  intros HL Hr H0. destruct (reachable_inv L s HL Hr) as (N & Hinv & _ & _).
  destruct Hinv as [Hroot Hs _ Hent _]. rewrite H0 in Hent.
  destruct (empty_zero L _ _ Hs ltac:(done)) as [Hno Hz].
  destruct (wf_root _ (s_wf _ _ _ _ Hs)) as (r & Hr0 & _).
  unfold remove_oldest. rewrite Hroot. simpl.
  by rewrite (oldest_leaf_empty _ (s_wf _ _ _ _ Hs) Hno Hz _ 0%nat r Hr0) by lia.
Qed.

Lemma remove_oldest_empty_witness : remove_oldest start = Panic.
Proof.
  apply (remove_oldest_empty 2 start); [lia | exact reachable_start | reflexivity].
Defined.

End MemMore.

(** * The bit fields of a key *)

Module BitFacts.
Import MemStore ResFacts MemFacts.
(** ** The bit fields of a key *)

(** The number a key spells, least significant byte first. *)
Fixpoint num (h : Key) : Z :=
  match h with
  | [] => 0
  | b :: h' => b + 256 * num h'
  end.

Lemma num_nonneg h : Forall (λ b, 0 ≤ b < 256) h → 0 ≤ num h.
Proof. induction 1 as [|b h Hb _ IH]; simpl; lia. Qed.

Lemma num_drop h n :
  Forall (λ b, 0 ≤ b < 256) h → num h / 2 ^ (8 * Z.of_nat n) = num (drop n h).
Proof.
  intros Hh. revert n. induction Hh as [|b h Hb Hh IH]; intros [|n].
  - done.
  - simpl drop. simpl num. by apply Z.div_0_l, Z.pow_nonzero; lia.
  - simpl drop. by rewrite Z.mul_0_r, Z.div_1_r.
  - simpl drop. rewrite <- IH. simpl num.
    replace (8 * Z.of_nat (S n)) with (8 + 8 * Z.of_nat n) by lia.
    rewrite Z.pow_add_r by lia. rewrite <- Z.div_div by lia.
    f_equal. change (2 ^ 8) with 256. Z.div_mod_to_equations. lia.
Qed.

Lemma num_byte h n b :
  Forall (λ b, 0 ≤ b < 256) h → h !! n = Some b →
  (num h / 2 ^ (8 * Z.of_nat n)) mod 256 = b.
Proof.
  intros Hh Hn. rewrite num_drop by done.
  rewrite <- (take_drop_middle h n b Hn) in Hh.
  apply Forall_app in Hh as [_ Hh]. apply Forall_cons in Hh as [Hb Hh].
  rewrite (drop_S h b n Hn). simpl. pose proof (num_nonneg _ Hh).
  Z.div_mod_to_equations. lia.
Qed.

(** The mask [(1 << j) - 1], computed on bytes. *)
Lemma mask_ones j : 0 ≤ j ≤ 8 → byte (byte (Z.shiftl 1 j) - 1) = Z.ones j.
Proof.
  intros Hj.
  assert (j = 0 ∨ j = 1 ∨ j = 2 ∨ j = 3 ∨ j = 4 ∨ j = 5 ∨ j = 6 ∨ j = 7 ∨ j = 8)
    as H by lia.
  repeat (destruct H as [->|H]; [reflexivity|]). by subst j.
Qed.

Lemma mod_div_mod Y n a c :
  0 ≤ a → 0 ≤ c → a + c ≤ n →
  ((Y mod 2 ^ n) / 2 ^ a) mod 2 ^ c = (Y / 2 ^ a) mod 2 ^ c.
Proof.
  intros Ha Hc Hn. rewrite <- !Z.land_ones, <- !Z.shiftr_div_pow2 by lia.
  apply Z.bits_inj'. intros k Hk. rewrite !Z.land_spec, !Z.shiftr_spec by lia.
  rewrite Z.land_spec. destruct (Z.ltb_spec k c).
  - rewrite (Z.ones_spec_low n) by lia. by rewrite andb_true_r.
  - rewrite (Z.ones_spec_high c) by lia. by rewrite !andb_false_r.
Qed.

Lemma mod_split x a c :
  0 ≤ a → 0 ≤ c → x mod 2 ^ (a + c) = x mod 2 ^ a + ((x / 2 ^ a) mod 2 ^ c) * 2 ^ a.
Proof.
  intros Ha Hc. rewrite Z.pow_add_r by lia.
  rewrite Z.rem_mul_r by (apply Z.pow_nonzero || apply Z.pow_pos_nonneg; lia). lia.
Qed.

Lemma bits_loop_eq fuel h ii jj j r :
  bits_loop fuel h ii jj j r =
  if j =? 0 then Ok r
  else match fuel with
       | O => OutOfFuel
       | S fuel' =>
           let ii := uint (ii + 1) in
           b ← index_at h ii;
           if j <? 8 then
             Ok (uint (r + uint (Z.shiftl (Z.land b (byte (byte (Z.shiftl 1 j) - 1))) jj)))
           else
             bits_loop fuel' h ii (uint (jj + 8)) (uint (j - 8))
               (uint (r + uint (Z.shiftl b jj)))
       end.
Proof. by destruct fuel. Qed.

Section field.
Context (h : list Z) (Hh : Forall (λ b, 0 ≤ b < 256) h).
Context (Hlen : Z.of_nat (length h) < 2 ^ 60).
Context (i j : Z) (Hi : 0 ≤ i) (Hj : 0 ≤ j ≤ 64).

Local Abbreviation x := (num h / 2 ^ i).

Lemma field_nonneg : 0 ≤ x.
Proof. apply Z.div_pos; [by apply num_nonneg | by apply Z.pow_pos_nonneg]. Qed.

Lemma field_byte (n : Z) a b :
  0 ≤ n → 0 ≤ a → 8 * n = i + a → h !! Z.to_nat n = Some b → (x / 2 ^ a) mod 256 = b.
Proof.
  intros Hn Ha E Hb. rewrite Z.div_div by (first [apply Z.pow_nonzero; lia | apply Z.pow_pos_nonneg; lia]).
  rewrite <- Z.pow_add_r by lia. rewrite <- E.
  rewrite <- (num_byte h (Z.to_nat n) b Hh Hb). by rewrite Z2Nat.id by lia.
Qed.

Lemma bits_loop_field fuel : ∀ ii a c,
  0 ≤ ii → 0 ≤ a → 0 ≤ c → a + c = j → 8 * (ii + 1) = i + a →
  i + j ≤ 8 * Z.of_nat (length h) → c < 8 * Z.of_nat fuel →
  bits_loop fuel h ii a c (x mod 2 ^ a) = Ok (x mod 2 ^ j).
Proof.
  pose proof field_nonneg as Hx.
  induction fuel as [|fuel IH]; intros ii a c Hii Ha Hc Hac E Hin Hf;
    rewrite bits_loop_eq; destruct (Z.eqb_spec c 0) as [->|Hc0];
    try (by replace a with j by lia); [lia|].
  cbn zeta. rewrite uint_small by lia.
  destruct (index_at_total h (ii + 1)) as [b Hb]; [unfold len; lia|].
  rewrite Hb. simpl. apply index_at_Ok in Hb as [_ Hb].
  pose proof (field_byte (ii + 1) a b ltac:(lia) Ha E Hb) as Hbyte.
  assert (0 < 2 ^ a) as Hpa by (by apply Z.pow_pos_nonneg).
  assert (2 ^ j ≤ 2 ^ 64) as Hpj by (apply Z.pow_le_mono_r; lia).
  destruct (Z.ltb_spec c 8) as [Hc8|Hc8].
  - rewrite mask_ones by lia. rewrite Z.land_ones by lia.
    rewrite Z.shiftl_mul_pow2 by lia.
    rewrite <- Hbyte. change 256 with (2 ^ 8).
    rewrite <- (Z.div_1_r (_ mod 2 ^ 8)). change 1 with (2 ^ 0) at 1.
    rewrite mod_div_mod by lia. change (2 ^ 0) with 1. rewrite Z.div_1_r.
    pose proof (mod_split x a c Ha Hc) as Hsp. rewrite Hac in Hsp.
    pose proof (Z.mod_pos_bound x (2 ^ j) ltac:(by apply Z.pow_pos_nonneg; lia)).
    pose proof (Z.mod_pos_bound x (2 ^ a) Hpa).
    assert (0 ≤ ((x / 2 ^ a) mod 2 ^ c) * 2 ^ a).
    { apply Z.mul_nonneg_nonneg; [|lia]. apply Z.mod_pos_bound. by apply Z.pow_pos_nonneg. }
    rewrite (uint_small (_ * _)) by lia.
    rewrite <- Hsp. by rewrite uint_small by lia.
  - rewrite Z.shiftl_mul_pow2 by lia. rewrite <- Hbyte. change 256 with (2 ^ 8).
    assert (2 ^ (a + 8) ≤ 2 ^ 64) as Hp8 by (apply Z.pow_le_mono_r; lia).
    pose proof (Z.mod_pos_bound x (2 ^ (a + 8)) ltac:(by apply Z.pow_pos_nonneg; lia)).
    pose proof (Z.mod_pos_bound x (2 ^ a) Hpa).
    assert (0 ≤ ((x / 2 ^ a) mod 2 ^ 8) * 2 ^ a).
    { apply Z.mul_nonneg_nonneg; [|lia]. by apply Z.mod_pos_bound. }
    pose proof (mod_split x a 8 Ha ltac:(lia)) as Hsp.
    rewrite (uint_small (_ * _)) by lia.
    rewrite <- Hsp. rewrite (uint_small (x mod _)) by lia.
    rewrite (uint_small (a + 8)) by lia. rewrite (uint_small (c - 8)) by lia.
    apply IH; lia.
Qed.

(** The value of [bits]: the [j] bits from bit [i] on of the number the key
    spells. *)
Lemma bits_value :
  i + j ≤ 8 * Z.of_nat (length h) → bits h i j = Ok (x mod 2 ^ j).
Proof.
  intros Hin. pose proof field_nonneg as Hx. unfold bits, Size.
  rewrite uint_small by lia.
  rewrite Z.shiftr_div_pow2 by lia. change (2 ^ 3) with 8.
  change 7 with (Z.ones 3). rewrite Z.land_ones by lia. change (2 ^ 3) with 8.
  destruct (Z.leb_spec (Z.of_nat (length h)) (i / 8)) as [Hpast|Hin'].
  { assert (j = 0) as -> by (Z.div_mod_to_equations; lia).
    by rewrite Z.pow_0_r, Z.mod_1_r. }
  destruct (index_at_total h (i / 8)) as [b Hb];
    [unfold len; Z.div_mod_to_equations; lia|].
  pose proof Hb as Hb'. apply index_at_Ok in Hb' as [_ Hb'].
  assert (0 ≤ i / 8) as Hq by (Z.div_mod_to_equations; lia).
  assert (0 ≤ i mod 8 < 8) as Hr by (Z.div_mod_to_equations; lia).
  assert (i = 8 * (i / 8) + i mod 8) as Hdm by (Z.div_mod_to_equations; lia).
  pose proof (num_byte h _ b Hh Hb') as Hbyte. rewrite Z2Nat.id in Hbyte by done.
  assert (x = (num h / 2 ^ (8 * (i / 8))) / 2 ^ (i mod 8)) as Hxe.
  { rewrite Z.div_div by (first [apply Z.pow_nonzero; lia | apply Z.pow_pos_nonneg; lia]).
    rewrite <- Z.pow_add_r by lia. by rewrite <- Hdm. }
  rewrite uint_small by lia.
  destruct (Z.leb_spec (i mod 8 + j) 8) as [Hone|Hmore]; rewrite Hb; simpl.
  - rewrite mask_ones by lia. rewrite Z.land_ones by lia.
    rewrite Z.shiftr_div_pow2 by lia. rewrite <- Hbyte. change 256 with (2 ^ 8).
    rewrite mod_div_mod by lia. by rewrite <- Hxe.
  - rewrite Z.shiftr_div_pow2 by lia.
    rewrite (uint_small (8 - i mod 8)) by lia.
    rewrite (uint_small (j - (8 - i mod 8))) by lia.
    assert (b / 2 ^ (i mod 8) = x mod 2 ^ (8 - i mod 8)) as ->.
    { rewrite <- Hbyte. change 256 with (2 ^ 8). rewrite Hxe.
      rewrite <- (mod_div_mod _ 8 (i mod 8) (8 - i mod 8)) by lia.
      symmetry. apply Z.mod_small. split.
      - apply Z.div_pos; [|apply Z.pow_pos_nonneg; lia]. apply Z.mod_pos_bound. lia.
      - apply Z.div_lt_upper_bound; [apply Z.pow_pos_nonneg; lia|].
        rewrite <- Z.pow_add_r by lia. replace (i mod 8 + (8 - i mod 8)) with 8 by lia.
        apply Z.mod_pos_bound. lia. }
    apply bits_loop_field; try lia.
    rewrite Nat2Z.inj_add, Z2Nat.id by (Z.div_mod_to_equations; lia).
    Z.div_mod_to_equations. lia.
Qed.

End field.

Lemma num_lt h : Forall (λ b, 0 ≤ b < 256) h → num h < 2 ^ (8 * Z.of_nat (length h)).
Proof.
  induction 1 as [|b h Hb _ IH]; [done|]. simpl num.
  replace (8 * Z.of_nat (length (b :: h))) with (8 + 8 * Z.of_nat (length h))
    by (simpl length; lia).
  rewrite Z.pow_add_r by lia. change (2 ^ 8) with 256. lia.
Qed.

Lemma index_at_Panic {A} (l : list A) i : Z.of_nat (length l) ≤ i → index_at l i = Panic.
Proof.
  intros Hi. unfold index_at. destruct (Z.ltb_spec i 0); [done|].
  by rewrite lookup_ge_None_2 by lia.
Qed.

Lemma bits_loop_overrun h fuel : ∀ ii a c r,
  Z.of_nat (length h) < 2 ^ 60 → 0 ≤ ii < Z.of_nat (length h) → 0 < c < 2 ^ 64 →
  8 * Z.of_nat (length h) < 8 * (ii + 1) + c → c < 8 * Z.of_nat fuel →
  bits_loop fuel h ii a c r = Panic.
Proof.
  induction fuel as [|fuel IH]; intros ii a c r Hlen Hii Hc Hover Hf; [lia|].
  rewrite bits_loop_eq. destruct (Z.eqb_spec c 0); [lia|]. cbn zeta.
  destruct (Z.le_gt_cases (Z.of_nat (length h)) (ii + 1)) as [Hout|Hin].
  - rewrite uint_small by lia. by rewrite index_at_Panic.
  - rewrite uint_small by lia.
    destruct (index_at_total h (ii + 1)) as [b ->]; [unfold len; lia|]. simpl.
    destruct (Z.ltb_spec c 8); [lia|].
    rewrite (uint_small (c - 8)) by lia. apply IH; lia.
Qed.

(** X29: [bits(i, j)] of a key of bytes is the field of [j <= 64] bits that
    starts at bit [i] of the number the key spells (least significant byte
    first, least significant bit of a byte first), whenever the field ends
    inside the key or starts past its end, where it is 0. *)
Theorem bits_field h i j :
  Forall (λ b, 0 ≤ b < 256) h → Z.of_nat (length h) < 2 ^ 60 →
  0 ≤ i < 2 ^ 64 → 0 ≤ j ≤ 64 →
  i + j ≤ 8 * Z.of_nat (length h) ∨ 8 * Z.of_nat (length h) ≤ i →
  bits h i j = Ok ((num h / 2 ^ i) mod 2 ^ j).
Proof.
  intros Hh Hlen Hi Hj [Hin|Hpast].
  - apply bits_value; try done. lia.
  - rewrite bits_past by lia. f_equal. symmetry.
    rewrite Z.div_small; [by apply Z.mod_0_l, Z.pow_nonzero; lia|].
    split; [by apply num_nonneg|]. pose proof (num_lt h Hh).
    assert (2 ^ (8 * Z.of_nat (length h)) ≤ 2 ^ i) by (apply Z.pow_le_mono_r; lia). lia.
Qed.

Lemma bits_field_witness : bits [52; 18] 4 8 = Ok ((num [52; 18] / 2 ^ 4) mod 2 ^ 8).
Proof.
  apply (bits_field [52; 18] 4 8).
  - repeat constructor; lia.
  - simpl. lia.
  - lia.
  - lia.
  - left. simpl. lia.
Defined.

(** When the sum [jj + j] that [bits] compares with 8 exceeds the range of a
    [uint] it wraps around to at most 7: the first branch is taken and [bits]
    returns, whatever the end of the field. *)
Lemma bits_wrapped_sum (h : list Z) i j :
  0 ≤ i → i < 8 * Z.of_nat (length h) → 0 ≤ j < 2 ^ 64 → 2 ^ 64 ≤ i mod 8 + j →
  ∃ v, bits h i j = Ok v.
Proof.
  intros Hi Hin Hj Hsum. unfold bits, Size.
  rewrite Z.shiftr_div_pow2 by lia. change (2 ^ 3) with 8.
  change 7 with (Z.ones 3). rewrite Z.land_ones by lia. change (2 ^ 3) with 8.
  assert (0 ≤ i / 8 < Z.of_nat (length h)) as Hq by (Z.div_mod_to_equations; lia).
  assert (0 ≤ i mod 8 < 8) as Hr by (Z.div_mod_to_equations; lia).
  assert (uint (Z.of_nat (length h)) ≤ Z.of_nat (length h)) as Hu.
  { unfold uint. apply Z.mod_le; lia. }
  destruct (Z.leb_spec (uint (Z.of_nat (length h))) (i / 8)) as [|_]; [by eexists|].
  assert (uint (i mod 8 + j) = i mod 8 + j - 2 ^ 64) as ->.
  { unfold uint. symmetry. apply (Z.mod_unique _ _ 1); lia. }
  destruct (Z.leb_spec (i mod 8 + j - 2 ^ 64) 8); [|lia].
  destruct (index_at_total h (i / 8)) as [b ->]; [unfold len; lia|]. simpl.
  by eexists.
Qed.

(** X30: for a key of fewer than [2^60] bytes and a width [0 <= j < 2^64]
    with [(i mod 8) + j < 2^64], that is when the sum [jj + j] the code
    compares with 8 does not wrap around, [bits(i, j)]
    panics with an index out of range whenever the field starts inside the key
    ([i < 8 * len(h)]) and ends beyond its last byte ([i + j > 8 * len(h)]):
    the loop over the following bytes does not check the index. *)
Theorem bits_overrun (h : list Z) i j :
  Z.of_nat (length h) < 2 ^ 60 → 0 ≤ i → 0 ≤ j < 2 ^ 64 →
  i mod 8 + j < 2 ^ 64 →
  i < 8 * Z.of_nat (length h) → 8 * Z.of_nat (length h) < i + j →
  bits h i j = Panic.
Proof.
  intros Hlen Hi Hj Hsum Hin Hover. unfold bits, Size.
  rewrite uint_small by lia.
  rewrite Z.shiftr_div_pow2 by lia. change (2 ^ 3) with 8.
  change 7 with (Z.ones 3). rewrite Z.land_ones by lia. change (2 ^ 3) with 8.
  assert (0 ≤ i / 8 < Z.of_nat (length h)) as Hq by (Z.div_mod_to_equations; lia).
  assert (0 ≤ i mod 8 < 8) as Hr by (Z.div_mod_to_equations; lia).
  assert (i = 8 * (i / 8) + i mod 8) as Hdm by (Z.div_mod_to_equations; lia).
  destruct (Z.leb_spec (Z.of_nat (length h)) (i / 8)); [lia|].
  rewrite uint_small by lia.
  destruct (Z.leb_spec (i mod 8 + j) 8); [lia|].
  destruct (index_at_total h (i / 8)) as [b ->]; [unfold len; lia|]. simpl.
  rewrite (uint_small (8 - i mod 8)) by lia.
  rewrite (uint_small (j - (8 - i mod 8))) by lia.
  apply bits_loop_overrun; try lia.
  rewrite Nat2Z.inj_add, Z2Nat.id by (Z.div_mod_to_equations; lia).
  Z.div_mod_to_equations. lia.
Qed.

Lemma bits_overrun_witness : bits [52; 18] 12 8 = Panic.
Proof. apply (bits_overrun [52; 18] 12 8); first [simpl; lia | vm_compute; reflexivity]. Defined.

End BitFacts.
